(** * A shallow embedding of the crab graph core and CFG scaffolding

    The development follows three source files of the verifier:
    - [crab/adapt_sgraph.hpp]: [AdaptSMap] (adaptive sparse map) and
      [AdaptGraph] (weighted graph with vertex and weight-slot recycling);
    - [crab/cfg.hpp]: [basic_block_t] and [cfg_t] (analysis CFG);
    - [asm_cfg.hpp]: [Cfg] (the ASM CFG).

    Conventions of the embedding.
    - [std::vector] is a [list] in index order: [push_back] appends at the
      end, [back] is [last], [pop_back] drops the last element.
    - [std::unordered_map] is a [gmap], [std::unordered_set] a [gset].
    - [size_t] values are [nat]s (no wrap-around is reachable for them);
      [key_t = uint16_t] values are [nat]s below [key_range], and every
      conversion into [key_t] is written out as [to_key].
    - Indexing a vector out of range, or running off a malloc'ed buffer, is
      undefined behaviour in the source; the operations concerned return
      [option] and yield [None] there.
    - Allocation is assumed to succeed. *)

From stdpp Require Import base tactics option list gmap sets fin_maps strings.
From Stdlib Require Import ZArith Lia.

Set Default Proof Using "Type".

(** ** Machine integers *)

(** [key_t] is [uint16_t]. *)
Definition key_range : nat := Nat.pow 2 16.

(** Conversion of an unsigned value to [key_t] (implicit in the source at
    every call that passes a [vert_id] or a [size_t] as a [key_t]). *)
Definition to_key (n : nat) : nat := n mod key_range.

(** ** AdaptSMap *)

Module AdaptSMap.

Record elt_t := Elt { key : nat; val : nat }.

(** [dense] holds the cells of the malloc'ed buffer that have been written
    so far; they always form a prefix of the allocation, the cells behind
    it are uninitialised.  [sparse] is [None] for [nullptr]; otherwise it
    is the table of [sparse_ub] cells, a cell being [None] until it is
    written for the first time. *)
Record smap_t := SMap {
  sz : nat;
  dense_maxsz : nat;
  sparse_ub : nat;
  dense : list elt_t;
  sparse : option (list (option nat));
}.

Definition sparse_threshold : nat := 8.

(** [AdaptSMap()] *)
Definition init : smap_t :=
  {| sz := 0; dense_maxsz := sparse_threshold; sparse_ub := 10;
     dense := []; sparse := None |}.

Definition size (m : smap_t) : nat := sz m.

(** [elts()]: the range [dense, dense + sz). *)
Definition elts (m : smap_t) : list elt_t := take (sz m) (dense m).

(** [keys()] *)
Definition keys (m : smap_t) : list nat := key <$> elts m.

(** The read [sparse[k]] is well defined when the cell lies inside the
    table and has been written. *)
Definition sparse_read_defined (sp : list (option nat)) (k : nat) : bool :=
  match sp !! k with
  | Some (Some _) => true
  | _ => false
  end.

(** The value obtained by [sparse[k]]: the stored index when the read is
    well defined, and otherwise whatever the memory holds there, [junk]. *)
Definition sparse_read (junk : nat) (sp : list (option nat)) (k : nat) : nat :=
  match sp !! k with
  | Some (Some i) => i
  | _ => junk
  end.

Definition elem (junk : nat) (m : smap_t) (k : nat) : bool :=
  match sparse m with
  | Some sp =>
      let idx := sparse_read junk sp k in
      (idx <? sz m) &&
      match dense m !! idx with
      | Some e => key e =? k
      | None => false
      end
  | None => existsb (λ ke, ke =? k) (keys m)
  end.

Definition lookup (junk : nat) (m : smap_t) (k : nat) : option nat :=
  match sparse m with
  | Some sp =>
      let idx := sparse_read junk sp k in
      if idx <? sz m then
        match dense m !! idx with
        | Some e => if key e =? k then Some (val e) else None
        | None => None
        end
      else None
  | None => val <$> find (λ e, key e =? k) (elts m)
  end.

(** [while (e->key != k) ++e]: the position of the first written cell with
    key [k]; the scan leaves the written cells when there is none. *)
Fixpoint scan (k : nat) (l : list elt_t) : option nat :=
  match l with
  | [] => None
  | e :: l' => if key e =? k then Some 0 else S <$> scan k l'
  end.

(** precondition: k \in S *)
Definition remove (m : smap_t) (k : nat) : option smap_t :=
  match sz m with
  | 0 => None
  | S n =>
      repl ← dense m !! n;
      match sparse m with
      | Some sp =>
          idx ← sp !! k ≫= id;
          if (idx <? length (dense m)) && (key repl <? length sp) then
            Some {| sz := n; dense_maxsz := dense_maxsz m;
                    sparse_ub := sparse_ub m;
                    dense := <[idx := repl]> (dense m);
                    sparse := Some (<[key repl := Some idx]> sp) |}
          else None
      | None =>
          i ← scan k (dense m);
          Some {| sz := n; dense_maxsz := dense_maxsz m;
                  sparse_ub := sparse_ub m;
                  dense := <[i := repl]> (dense m);
                  sparse := None |}
      end
  end.

(** [while (cur < target) cur *= 2], at most [fuel] rounds. *)
Fixpoint double_until (fuel cur target : nat) : nat :=
  match fuel with
  | 0 => cur
  | S fuel' =>
      if cur <? target then double_until fuel' (cur * 2) target else cur
  end.

(** [key_t idx = 0; for (key_t k : keys()) sparse[k] = idx++;] *)
Fixpoint index_keys (ks : list nat) (idx : nat) (sp : list (option nat))
  : list (option nat) :=
  match ks with
  | [] => sp
  | k :: ks' => index_keys ks' (to_key (S idx)) (<[k := Some idx]> sp)
  end.

(** [realloc] keeps the written cells, so only the bound changes.  On the
    first call the sparse table is allocated and filled. *)
Definition growDense (m : smap_t) (new_max : nat) : smap_t :=
  let maxsz := double_until new_max (dense_maxsz m) new_max in
  match sparse m with
  | Some sp =>
      {| sz := sz m; dense_maxsz := maxsz; sparse_ub := sparse_ub m;
         dense := dense m; sparse := Some sp |}
  | None =>
      let key_max := foldl Nat.max 0 (keys m) in
      let ub := key_max + 1 in
      {| sz := sz m; dense_maxsz := maxsz; sparse_ub := ub;
         dense := dense m;
         sparse := Some (index_keys (keys m) 0 (replicate ub None)) |}
  end.

Definition growSparse (m : smap_t) (new_ub : nat) : smap_t :=
  let ub := double_until new_ub (sparse_ub m) new_ub in
  {| sz := sz m; dense_maxsz := dense_maxsz m; sparse_ub := ub;
     dense := dense m;
     sparse := Some (index_keys (keys m) 0 (replicate ub None)) |}.

(** [dense[i] = e] for a cell [i] at most one past the written prefix. *)
Definition write_dense (l : list elt_t) (i : nat) (e : elt_t) : list elt_t :=
  take i l ++ e :: drop (S i) l.

Definition set_sz (n : nat) (m : smap_t) : smap_t :=
  {| sz := n; dense_maxsz := dense_maxsz m; sparse_ub := sparse_ub m;
     dense := dense m; sparse := sparse m |}.

Definition set_dense (d : list elt_t) (m : smap_t) : smap_t :=
  {| sz := sz m; dense_maxsz := dense_maxsz m; sparse_ub := sparse_ub m;
     dense := d; sparse := sparse m |}.

Definition set_sparse (sp : list (option nat)) (m : smap_t) : smap_t :=
  {| sz := sz m; dense_maxsz := dense_maxsz m; sparse_ub := sparse_ub m;
     dense := dense m; sparse := Some sp |}.

(** precondition: k \notin S.  The write [sparse[k] = sz] stores [sz] as a
    [key_t]; it is inside the table because [growSparse] has run when
    [sparse_ub <= k]. *)
Definition add (m : smap_t) (k v : nat) : smap_t :=
  let m1 := if dense_maxsz m <=? sz m then growDense m (sz m + 1) else m in
  let m2 := set_dense (write_dense (dense m1) (sz m1) (Elt k v)) m1 in
  let m3 :=
    match sparse m2 with
    | Some _ =>
        let m' := if sparse_ub m2 <=? k then growSparse m2 (k + 1) else m2 in
        match sparse m' with
        | Some sp => set_sparse (<[k := Some (to_key (sz m'))]> sp) m'
        | None => m'
        end
    | None => m2
    end in
  set_sz (S (sz m3)) m3.

Definition clear (m : smap_t) : smap_t := set_sz 0 m.

(** [for (key_t idx = 0; idx < sz; idx++) sparse[dense[idx].key] = idx;]
    of the copy constructor and the copy assignment, for [n = sz] and the
    dense cells [d]: [rounds] rounds from the counter [idx].  A write
    outside the table is undefined. *)
Fixpoint reindex_from (idx rounds : nat) (d : list elt_t)
  (sp : list (option nat)) : option (list (option nat)) :=
  match rounds with
  | 0 => Some sp
  | S rounds' =>
      e ← d !! idx;
      if key e <? length sp
      then reindex_from (S idx) rounds' d (<[key e := Some idx]> sp)
      else None
  end.

(** The counter is a [key_t]: it wraps before it can reach an [n] of
    [key_range] or more, and the loop does not end then; there is no
    result in that case. *)
Definition reindex (n : nat) (d : list elt_t) (sp : list (option nat))
  : option (list (option nat)) :=
  if n <? key_range then reindex_from 0 n d sp else None.

(** [AdaptSMap(const AdaptSMap& o)]: [memcpy] reads the first [sz] cells
    of [o.dense] and writes them to a fresh buffer of [dense_maxsz]
    cells. *)
Definition copy (o : smap_t) : option smap_t :=
  if (sz o <=? length (dense o)) && (sz o <=? dense_maxsz o) then
    let d := take (sz o) (dense o) in
    match sparse o with
    | Some _ =>
        sp ← reindex (sz o) d (replicate (sparse_ub o) None);
        Some {| sz := sz o; dense_maxsz := dense_maxsz o;
                sparse_ub := sparse_ub o; dense := d; sparse := Some sp |}
    | None =>
        Some {| sz := sz o; dense_maxsz := dense_maxsz o;
                sparse_ub := sparse_ub o; dense := d; sparse := None |}
    end
  else None.

(** [operator=(const AdaptSMap& o)] for [this = m], an object other than
    [o] (the source returns at once when [this == &o]).  [realloc] keeps
    the cells it had; the cells it adds are uninitialised. *)
Definition assign (m o : smap_t) : option smap_t :=
  let maxsz :=
    if dense_maxsz m <? dense_maxsz o then dense_maxsz o else dense_maxsz m in
  if (sz o <=? length (dense o)) && (sz o <=? maxsz) then
    let d := take (sz o) (dense o) ++ drop (sz o) (dense m) in
    let '(ub, osp) :=
      match sparse o, sparse m with
      | Some _, Some sp =>
          if sparse_ub m <? sparse_ub o
          then (sparse_ub o,
                Some (sp ++ replicate (sparse_ub o - length sp) None))
          else (sparse_ub m, Some sp)
      | Some _, None => (sparse_ub o, Some (replicate (sparse_ub o) None))
      | None, osp => (sparse_ub m, osp)
      end in
    match osp with
    | Some sp =>
        sp' ← reindex (sz o) d sp;
        Some {| sz := sz o; dense_maxsz := maxsz; sparse_ub := ub;
                dense := d; sparse := Some sp' |}
    | None =>
        Some {| sz := sz o; dense_maxsz := maxsz; sparse_ub := ub;
                dense := d; sparse := None |}
    end
  else None.

End AdaptSMap.

(** ** AdaptGraph *)

(** [for (x : l) body], where a step may hit undefined behaviour. *)
Fixpoint for_each {A S : Type} (body : S → A → option S) (s : S) (l : list A)
  : option S :=
  match l with
  | [] => Some s
  | x :: l' => s' ← body s x; for_each body s' l'
  end.

Module AdaptGraph.

(** Modelled from the spec: [Wt = crab::safe_i64], declared in
    crab/safeint.hpp, which is not among the sources.  The spec describes
    it as a signed 64-bit integer with comparison; weights are integers
    here and [std::min] compares them as such. *)
Definition Wt : Type := Z.

(** [std::min(a, b)] is [(b < a) ? b : a]. *)
Definition std_min (a b : Wt) : Wt := if (b <? a)%Z then b else a.

(** [is_free] is a [std::vector<int>] that only ever holds [true] and
    [false]; [edge_count] is an [int], kept here without wrap-around. *)
Record graph_t := Graph {
  _preds : list AdaptSMap.smap_t;
  _succs : list AdaptSMap.smap_t;
  _ws : list Wt;
  edge_count : Z;
  is_free : list bool;
  free_id : list nat;
  free_widx : list nat;
}.

(** [AdaptGraph()] *)
Definition init : graph_t :=
  {| _preds := []; _succs := []; _ws := []; edge_count := 0;
     is_free := []; free_id := []; free_widx := [] |}.

Definition set_preds (p : list AdaptSMap.smap_t) (g : graph_t) : graph_t :=
  {| _preds := p; _succs := _succs g; _ws := _ws g;
     edge_count := edge_count g; is_free := is_free g;
     free_id := free_id g; free_widx := free_widx g |}.

Definition set_succs (s : list AdaptSMap.smap_t) (g : graph_t) : graph_t :=
  {| _preds := _preds g; _succs := s; _ws := _ws g;
     edge_count := edge_count g; is_free := is_free g;
     free_id := free_id g; free_widx := free_widx g |}.

Definition set_ws (w : list Wt) (g : graph_t) : graph_t :=
  {| _preds := _preds g; _succs := _succs g; _ws := w;
     edge_count := edge_count g; is_free := is_free g;
     free_id := free_id g; free_widx := free_widx g |}.

Definition set_edge_count (n : Z) (g : graph_t) : graph_t :=
  {| _preds := _preds g; _succs := _succs g; _ws := _ws g;
     edge_count := n; is_free := is_free g;
     free_id := free_id g; free_widx := free_widx g |}.

Definition set_is_free (f : list bool) (g : graph_t) : graph_t :=
  {| _preds := _preds g; _succs := _succs g; _ws := _ws g;
     edge_count := edge_count g; is_free := f;
     free_id := free_id g; free_widx := free_widx g |}.

Definition set_free_id (f : list nat) (g : graph_t) : graph_t :=
  {| _preds := _preds g; _succs := _succs g; _ws := _ws g;
     edge_count := edge_count g; is_free := is_free g;
     free_id := f; free_widx := free_widx g |}.

Definition set_free_widx (f : list nat) (g : graph_t) : graph_t :=
  {| _preds := _preds g; _succs := _succs g; _ws := _ws g;
     edge_count := edge_count g; is_free := is_free g;
     free_id := free_id g; free_widx := f |}.

(** [v[i] = x] on a [std::vector]. *)
Definition vec_set {A : Type} (l : list A) (i : nat) (x : A) : option (list A) :=
  if i <? length l then Some (<[i := x]> l) else None.

Definition is_empty (g : graph_t) : bool := (edge_count g =? 0)%Z.
Definition size (g : graph_t) : nat := length (_succs g).
Definition num_edges (g : graph_t) : Z := edge_count g.

Definition new_vertex (g : graph_t) : option (nat * graph_t) :=
  match last (free_id g) with
  | Some v =>
      if v <? length (_succs g) then
        fr ← vec_set (is_free g) v false;
        Some (v, set_is_free fr (set_free_id (removelast (free_id g)) g))
      else None
  | None =>
      let v := length (_succs g) in
      Some (v, set_preds (_preds g ++ [AdaptSMap.init])
                 (set_succs (_succs g ++ [AdaptSMap.init])
                    (set_is_free (is_free g ++ [false]) g)))
  end.

(** [ms[k].remove(v)] on a vector of maps. *)
Definition remove_from (ms : list AdaptSMap.smap_t) (k v : nat)
  : option (list AdaptSMap.smap_t) :=
  m ← ms !! k;
  m' ← AdaptSMap.remove m (to_key v);
  Some (<[k := m']> ms).

(** Body of the first loop of [forget], for the element [e] of
    [_succs[v].elts()]. *)
Definition forget_succ (v : nat) (g : graph_t) (e : AdaptSMap.elt_t)
  : option graph_t :=
  let g1 := set_free_widx (free_widx g ++ [AdaptSMap.val e]) g in
  ps ← remove_from (_preds g1) (AdaptSMap.key e) v;
  Some (set_preds ps g1).

(** Body of the second loop of [forget], for the key [k] of
    [_preds[v].keys()]. *)
Definition forget_pred (v : nat) (g : graph_t) (k : nat) : option graph_t :=
  ss ← remove_from (_succs g) k v;
  Some (set_succs ss g).

Definition forget (g : graph_t) (v : nat) : option graph_t :=
  f ← is_free g !! v;
  if f : bool then Some g else
  sv ← _succs g !! v;
  g1 ← for_each (forget_succ v) g (AdaptSMap.elts sv);
  sv1 ← _succs g1 !! v;
  let g2 := set_edge_count (edge_count g1 - Z.of_nat (AdaptSMap.size sv1)) g1 in
  let g3 := set_succs (<[v := AdaptSMap.clear sv1]> (_succs g2)) g2 in
  pv ← _preds g3 !! v;
  g4 ← for_each (forget_pred v) g3 (AdaptSMap.keys pv);
  pv4 ← _preds g4 !! v;
  let g5 := set_edge_count (edge_count g4 - Z.of_nat (AdaptSMap.size pv4)) g4 in
  let g6 := set_preds (<[v := AdaptSMap.clear pv4]> (_preds g5)) g5 in
  fr ← vec_set (is_free g6) v true;
  Some (set_free_id (free_id g6 ++ [v]) (set_is_free fr g6)).

Definition elem (junk : nat) (g : graph_t) (s d : nat) : option bool :=
  sm ← _succs g !! s;
  Some (AdaptSMap.elem junk sm (to_key d)).

(** [size_t idx{}] stays [0] when the lookup fails. *)
Definition edge_val (junk : nat) (g : graph_t) (s d : nat) : option Wt :=
  sm ← _succs g !! s;
  let idx := default 0 (AdaptSMap.lookup junk sm (to_key d)) in
  _ws g !! idx.

(** The first statement of [add_edge]: the slot [idx] that receives [w],
    from the free list if it has one, else a new one. *)
Definition alloc_widx (g : graph_t) (w : Wt) : option (nat * graph_t) :=
  match last (free_widx g) with
  | Some idx =>
      ws ← vec_set (_ws g) idx w;
      Some (idx, set_ws ws (set_free_widx (removelast (free_widx g)) g))
  | None => Some (length (_ws g), set_ws (_ws g ++ [w]) g)
  end.

Definition add_edge (g : graph_t) (s : nat) (w : Wt) (d : nat) : option graph_t :=
  '(idx, g1) ← alloc_widx g w;
  sm ← _succs g1 !! s;
  let g2 := set_succs (<[s := AdaptSMap.add sm (to_key d) idx]> (_succs g1)) g1 in
  pm ← _preds g2 !! d;
  let g3 := set_preds (<[d := AdaptSMap.add pm (to_key s) idx]> (_preds g2)) g2 in
  Some (set_edge_count (edge_count g3 + 1) g3).

Definition update_edge (junk : nat) (g : graph_t) (s : nat) (w : Wt) (d : nat)
  : option graph_t :=
  sm ← _succs g !! s;
  match AdaptSMap.lookup junk sm (to_key d) with
  | Some idx =>
      old ← _ws g !! idx;
      ws ← vec_set (_ws g) idx (std_min old w);
      Some (set_ws ws g)
  | None => add_edge g s w d
  end.

Definition set_edge (junk : nat) (g : graph_t) (s : nat) (w : Wt) (d : nat)
  : option graph_t :=
  sm ← _succs g !! s;
  match AdaptSMap.lookup junk sm (to_key d) with
  | Some idx =>
      ws ← vec_set (_ws g) idx w;
      Some (set_ws ws g)
  | None => add_edge g s w d
  end.

(** [verts()]: the iterator runs over the ids [v], [v + 1], ... of the
    cells [fr] of [is_free], and its [operator!=] steps over the free
    ones. *)
Fixpoint verts_from (v : nat) (fr : list bool) : list nat :=
  match fr with
  | [] => []
  | f :: fr' =>
      if f then verts_from (S v) fr' else v :: verts_from (S v) fr'
  end.

Definition verts (g : graph_t) : list nat := verts_from 0 (is_free g).

(** [while (size() < v) new_vertex();], at most [fuel] rounds. *)
Fixpoint growTo (fuel : nat) (g : graph_t) (v : nat) : option graph_t :=
  if size g <? v then
    match fuel with
    | 0 => None
    | S fuel' => '(_, g') ← new_vertex g; growTo fuel' g' v
    end
  else Some g.

(** [ms[v].clear()] on a vector of maps. *)
Definition clear_at (ms : list AdaptSMap.smap_t) (v : nat)
  : option (list AdaptSMap.smap_t) :=
  m ← ms !! v; Some (<[v := AdaptSMap.clear m]> ms).

(** Body of the loop of [clear_edges], for the vertex [v] of [verts()]. *)
Definition clear_edges_at (g : graph_t) (v : nat) : option graph_t :=
  ss ← clear_at (_succs g) v;
  ps ← clear_at (_preds g) v;
  Some (set_preds ps (set_succs ss g)).

Definition clear_edges (g : graph_t) : option graph_t :=
  let g1 := set_ws [] g in
  g2 ← for_each clear_edges_at g1 (verts g1);
  Some (set_edge_count 0 g2).

Definition clear (g : graph_t) : graph_t :=
  {| _preds := []; _succs := []; _ws := []; edge_count := 0;
     is_free := []; free_id := []; free_widx := [] |}.

(** Body of the inner loop of [copy], for the edge [e] of
    [o.e_succs(s)]: [e.vert] is the key of the element and [e.val] is
    the weight that [_ws] of [o] holds at the value of the element. *)
Definition copy_edge (o : graph_t) (s : nat) (g : graph_t)
  (e : AdaptSMap.elt_t) : option graph_t :=
  w ← _ws o !! AdaptSMap.val e;
  add_edge g s w (AdaptSMap.key e).

(** Body of the outer loop of [copy], for the vertex [s] of
    [o.verts()]. *)
Definition copy_vertex (o : graph_t) (g : graph_t) (s : nat)
  : option graph_t :=
  sv ← _succs o !! s;
  for_each (copy_edge o s) g (AdaptSMap.elts sv).

(** [AdaptGraph::copy(o)] for an [AdaptGraph] [o]; [growTo] needs at most
    [o.size()] rounds on the empty graph. *)
Definition copy (o : graph_t) : option graph_t :=
  g ← growTo (size o) init (size o);
  for_each (copy_vertex o) g (verts o).

End AdaptGraph.

(** ** The analysis CFG: [basic_block_t] and [cfg_t] *)

(** Modelled from the spec: [CRAB_ERROR], declared in crab/debug.hpp, which
    is not among the sources.  The spec calls these errors fatal: the
    operation does not return.  [Fatal] records the message and the CFG as
    it is when the error is raised.  [OutOfFuel] is the answer of a
    recursive function whose fuel was too small; the entry points below
    supply enough fuel. *)
Inductive result (S A : Type) : Type :=
  | Ok (a : A)
  | Fatal (msg : string) (s : S)
  | OutOfFuel.
Arguments Ok {S A} a.
Arguments Fatal {S A} msg s.
Arguments OutOfFuel {S A}.

Definition result_bind {S A B : Type} (f : A → result S B) (r : result S A)
  : result S B :=
  match r with
  | Ok a => f a
  | Fatal msg s => Fatal msg s
  | OutOfFuel => OutOfFuel
  end.

#[global] Instance result_mbind {S : Type} : MBind (result S) :=
  λ A B f r, result_bind f r.

(** [for (x : l) body] with fatal errors. *)
Fixpoint for_each_r {S A T : Type} (body : T → A → result S T) (t : T)
  (l : list A) : result S T :=
  match l with
  | [] => Ok t
  | x :: l' => t' ← body t x; for_each_r body t' l'
  end.

Module cfg.
Section cfg.
(** [basic_block_label_t] (crab/types.hpp) and the statements held by a
    block are parameters of the embedding. *)
Context {basic_block_label_t : Type} `{Countable basic_block_label_t}.
Context {new_statement_t : Type}.

Record basic_block_t := BasicBlock {
  m_bb_id : basic_block_label_t;
  m_ts : list new_statement_t;
  m_prev : list basic_block_label_t;
  m_next : list basic_block_label_t;
}.

Definition set_ts (ts : list new_statement_t) (b : basic_block_t) :=
  {| m_bb_id := m_bb_id b; m_ts := ts; m_prev := m_prev b; m_next := m_next b |}.
Definition set_prev (p : list basic_block_label_t) (b : basic_block_t) :=
  {| m_bb_id := m_bb_id b; m_ts := m_ts b; m_prev := p; m_next := m_next b |}.
Definition set_next (n : list basic_block_label_t) (b : basic_block_t) :=
  {| m_bb_id := m_bb_id b; m_ts := m_ts b; m_prev := m_prev b; m_next := n |}.

(** [basic_block_t::create] *)
Definition create (bb_id : basic_block_label_t) : basic_block_t :=
  {| m_bb_id := bb_id; m_ts := []; m_prev := []; m_next := [] |}.

Definition insert_adjacent (c : list basic_block_label_t)
  (e : basic_block_label_t) : list basic_block_label_t :=
  if decide (e ∈ c) then c else c ++ [e].

(** [c.erase(std::remove(c.begin(), c.end(), e), c.end())] *)
Definition remove_adjacent (c : list basic_block_label_t)
  (e : basic_block_label_t) : list basic_block_label_t :=
  if decide (e ∈ c) then filter (λ x, x ≠ e) c else c.

(** [move_back]: the statements of [other] go to the back of the block.
    The moved-from statements left in [other] are not modelled: [other] is
    erased by the [remove] that follows the only call. *)
Definition move_back (b other : basic_block_t) : basic_block_t :=
  set_ts (m_ts b ++ m_ts other) b.

Record cfg_t := MkCfg {
  m_entry : basic_block_label_t;
  m_exit : option basic_block_label_t;
  m_blocks : gmap basic_block_label_t basic_block_t;
}.

Definition set_blocks (bs : gmap basic_block_label_t basic_block_t)
  (c : cfg_t) : cfg_t :=
  {| m_entry := m_entry c; m_exit := m_exit c; m_blocks := bs |}.

(** [cfg_t(entry)] and [cfg_t(entry, exit)] *)
Definition cfg_new (entry : basic_block_label_t)
  (exit : option basic_block_label_t) : cfg_t :=
  {| m_entry := entry; m_exit := exit;
     m_blocks := {[ entry := create entry ]} |}.

Definition has_exit (c : cfg_t) : bool := bool_decide (is_Some (m_exit c)).

Definition set_exit (exit : basic_block_label_t) (c : cfg_t) : cfg_t :=
  {| m_entry := m_entry c; m_exit := Some exit; m_blocks := m_blocks c |}.

Definition get_node (c : cfg_t) (bb_id : basic_block_label_t)
  : result cfg_t basic_block_t :=
  match m_blocks c !! bb_id with
  | Some b => Ok b
  | None => Fatal "Basic block not found in the CFG" c
  end.

Definition next_nodes (c : cfg_t) (bb_id : basic_block_label_t)
  : result cfg_t (list basic_block_label_t) :=
  b ← get_node c bb_id; Ok (m_next b).

Definition prev_nodes (c : cfg_t) (bb_id : basic_block_label_t)
  : result cfg_t (list basic_block_label_t) :=
  b ← get_node c bb_id; Ok (m_prev b).

(** [insert]: returns the block and the CFG that holds it. *)
Definition insert (bb_id : basic_block_label_t) (c : cfg_t)
  : basic_block_t * cfg_t :=
  match m_blocks c !! bb_id with
  | Some b => (b, c)
  | None => (create bb_id, set_blocks (<[bb_id := create bb_id]> (m_blocks c)) c)
  end.

(** A reference to a block is the key it is stored under.  [a >> b] for
    the blocks stored under [ka] and [kb]. *)
Definition add_edge (ka kb : basic_block_label_t)
  (bs : gmap basic_block_label_t basic_block_t)
  : gmap basic_block_label_t basic_block_t :=
  match bs !! ka, bs !! kb with
  | Some a, Some b =>
      alter (λ x, set_prev (insert_adjacent (m_prev x) (m_bb_id a)) x) kb
        (alter (λ x, set_next (insert_adjacent (m_next x) (m_bb_id b)) x) ka bs)
  | _, _ => bs
  end.

(** [a -= b] for the blocks stored under [ka] and [kb]. *)
Definition remove_edge (ka kb : basic_block_label_t)
  (bs : gmap basic_block_label_t basic_block_t)
  : gmap basic_block_label_t basic_block_t :=
  match bs !! ka, bs !! kb with
  | Some a, Some b =>
      alter (λ x, set_prev (remove_adjacent (m_prev x) (m_bb_id a)) x) kb
        (alter (λ x, set_next (remove_adjacent (m_next x) (m_bb_id b)) x) ka bs)
  | _, _ => bs
  end.

(** The loops of [remove] that fill [dead_edges]: [mk id] is the pair of
    block references pushed for the neighbour [id]. *)
Fixpoint collect_dead_edges (c : cfg_t) (bb_id : basic_block_label_t)
  (mk : basic_block_label_t → basic_block_label_t * basic_block_label_t)
  (ids : list basic_block_label_t)
  : result cfg_t (list (basic_block_label_t * basic_block_label_t)) :=
  match ids with
  | [] => Ok []
  | id :: ids' =>
      if decide (bb_id ≠ id) then
        _ ← get_node c id;
        r ← collect_dead_edges c bb_id mk ids';
        Ok (mk id :: r)
      else collect_dead_edges c bb_id mk ids'
  end.

Definition remove (bb_id : basic_block_label_t) (c : cfg_t)
  : result cfg_t cfg_t :=
  if decide (bb_id = m_entry c) then Fatal "Cannot remove entry block" c
  else if decide (m_exit c = Some bb_id) then Fatal "Cannot remove exit block" c
  else
    bb ← get_node c bb_id;
    e1 ← collect_dead_edges c bb_id (λ id, (id, bb_id)) (m_prev bb);
    e2 ← collect_dead_edges c bb_id (λ id, (bb_id, id)) (m_next bb);
    let bs := foldl (λ bs p, remove_edge p.1 p.2 bs) (m_blocks c) (e1 ++ e2) in
    Ok (set_blocks (delete bb_id bs) c).

Definition has_one_child (c : cfg_t) (b : basic_block_label_t)
  : result cfg_t bool :=
  rng ← next_nodes c b; Ok (length rng =? 1).

Definition has_one_parent (c : cfg_t) (b : basic_block_label_t)
  : result cfg_t bool :=
  rng ← prev_nodes c b; Ok (length rng =? 1).

(** [get_child] and [get_parent] return a reference: the key together with
    the block.  They are only called when the range is a singleton. *)
Definition get_child (c : cfg_t) (b : basic_block_label_t)
  : result cfg_t (basic_block_label_t * basic_block_t) :=
  rng ← next_nodes c b;
  match rng with
  | n :: _ => bb ← get_node c n; Ok (n, bb)
  | [] => Fatal "assert(has_one_child(b))" c
  end.

Definition get_parent (c : cfg_t) (b : basic_block_label_t)
  : result cfg_t (basic_block_label_t * basic_block_t) :=
  rng ← prev_nodes c b;
  match rng with
  | n :: _ => bb ← get_node c n; Ok (n, bb)
  | [] => Fatal "assert(has_one_parent(b))" c
  end.

(** The state threaded through [merge_blocks_rec]: the CFG and the
    [visited] set.

    The final loop runs over [cur.next_blocks()] as it is when the loop
    starts.  A recursive call changes that list only when the sole child
    of [cur] is merged into [cur], and then the list is a singleton before
    and after, so the loop ends after that one round in the source too. *)
Fixpoint merge_blocks_rec (fuel : nat) (st : cfg_t * gset basic_block_label_t)
  (curId : basic_block_label_t)
  : result cfg_t (cfg_t * gset basic_block_label_t) :=
  match fuel with
  | 0 => OutOfFuel
  | S fuel' =>
      let '(c, visited) := st in
      if decide (curId ∈ visited) then Ok st
      else
        let visited := {[curId]} ∪ visited in
        cur ← get_node c curId;
        one_child ← has_one_child c curId;
        one_parent ← (if one_child : bool then has_one_parent c curId
                      else Ok false);
        merged ←
          (if one_parent : bool then
             '(pk, parent) ← get_parent c curId;
             '(ck, child) ← get_child c curId;
             parent_one ← has_one_child c (m_bb_id parent);
             if parent_one : bool then
               let c1 := set_blocks (alter (λ p, move_back p cur) pk (m_blocks c)) c in
               let visited1 := visited ∖ {[curId]} in
               c2 ← remove curId c1;
               let c3 := set_blocks (add_edge pk ck (m_blocks c2)) c2 in
               r ← merge_blocks_rec fuel' (c3, visited1) (m_bb_id child);
               Ok (Some r)
             else Ok None
           else Ok None);
        match merged with
        | Some r => Ok r
        | None => for_each_r (merge_blocks_rec fuel') (c, visited) (m_next cur)
        end
  end.

Definition merge_blocks (c : cfg_t) : result cfg_t cfg_t :=
  r ← merge_blocks_rec (S (size (m_blocks c))) (c, ∅) (m_entry c);
  Ok r.1.

(** [mark_alive_blocks] is a template over the CFG view: [nodes] is
    [next_nodes] for [cfg_t] and [prev_nodes] for its reversed view
    [cfg_rev_t]. *)
Fixpoint mark_alive_blocks (fuel : nat)
  (nodes : cfg_t → basic_block_label_t → result cfg_t (list basic_block_label_t))
  (c : cfg_t) (visited : gset basic_block_label_t)
  (curId : basic_block_label_t) : result cfg_t (gset basic_block_label_t) :=
  match fuel with
  | 0 => OutOfFuel
  | S fuel' =>
      if decide (curId ∈ visited) then Ok visited
      else
        let visited := {[curId]} ∪ visited in
        children ← nodes c curId;
        for_each_r (mark_alive_blocks fuel' nodes c) visited children
  end.

(** The labels [bb.label()] of the blocks that are not in [alive], as the
    [std::unordered_set] filled by the sweep. *)
Definition not_marked (c : cfg_t) (alive : gset basic_block_label_t)
  : gset basic_block_label_t :=
  list_to_set
    (filter (λ l, l ∉ alive) (m_bb_id <$> (map_to_list (m_blocks c)).*2)).

Definition remove_unreachable_blocks (c : cfg_t) : result cfg_t cfg_t :=
  alive ← mark_alive_blocks (S (size (m_blocks c))) next_nodes c ∅ (m_entry c);
  for_each_r (λ c bb_id, remove bb_id c) c (elements (not_marked c alive)).

(** Modelled from the spec: [remove_useless_blocks] is declared in cfg.hpp
    and defined in a file that is not among the sources.  The spec:
    "Mark-and-sweep from exit over reverse edges; delete blocks that
    cannot reach exit.  Only performed when exit is set." *)
Definition remove_useless_blocks (c : cfg_t) : result cfg_t cfg_t :=
  match m_exit c with
  | None => Ok c
  | Some exit =>
      useful ← mark_alive_blocks (S (size (m_blocks c))) prev_nodes c ∅ exit;
      for_each_r (λ c bb_id, remove bb_id c) c (elements (not_marked c useful))
  end.

Definition simplify (c : cfg_t) : result cfg_t cfg_t :=
  c1 ← merge_blocks c;
  c2 ← remove_unreachable_blocks c1;
  c3 ← remove_useless_blocks c2;
  c4 ← merge_blocks c3;
  merge_blocks c4.

(** [basic_block_t::insert<T>(args)]: the statement goes to the back of
    the block stored under [k]. *)
Definition insert_statement (k : basic_block_label_t) (s : new_statement_t)
  (bs : gmap basic_block_label_t basic_block_t)
  : gmap basic_block_label_t basic_block_t :=
  alter (λ b, set_ts (m_ts b ++ [s]) b) k bs.

(** [cfg_t::size] *)
Definition cfg_size (c : cfg_t) : nat := size (m_blocks c).

(** [cfg_t::exit] *)
Definition exit (c : cfg_t) : result cfg_t basic_block_label_t :=
  match m_exit c with
  | Some e => Ok e
  | None => Fatal "cfg_t does not have an exit block" c
  end.

(** [dfs_rec]: the functor [f] acts on a state of type [T] (for
    [print_block], the output stream), which is threaded through the
    walk together with [visited]. *)
Fixpoint dfs_rec {T : Type} (fuel : nat) (f : T → basic_block_t → T)
  (c : cfg_t) (st : gset basic_block_label_t * T)
  (curId : basic_block_label_t)
  : result cfg_t (gset basic_block_label_t * T) :=
  match fuel with
  | 0 => OutOfFuel
  | S fuel' =>
      let '(visited, t) := st in
      if decide (curId ∈ visited) then Ok st
      else
        let visited := {[curId]} ∪ visited in
        cur ← get_node c curId;
        for_each_r (dfs_rec fuel' f c) (visited, f t cur) (m_next cur)
  end.

Definition dfs {T : Type} (f : T → basic_block_t → T) (c : cfg_t) (t : T)
  : result cfg_t T :=
  r ← dfs_rec (S (size (m_blocks c))) f c (∅, t) (m_entry c);
  Ok r.2.

(** [basic_block_rev_t]: a view of the block it refers to, here the key
    [_bb] of that block. *)
Record basic_block_rev_t := BasicBlockRev { _bb : basic_block_label_t }.

(** [cfg_rev_t]: the CFG it wraps and the views of its blocks. *)
Record cfg_rev_t := MkCfgRev {
  _cfg : cfg_t;
  _rev_bbs : gmap basic_block_label_t basic_block_rev_t;
}.

(** [cfg_rev_t(cfg_ref_t)]: [_rev_bbs.emplace(bb.label(), bb)] for every
    block of the CFG, in the order of the map; [emplace] keeps a binding
    that is already there. *)
Definition cfg_rev_new (c : cfg_t) : cfg_rev_t :=
  {| _cfg := c;
     _rev_bbs :=
       foldl (λ m kb,
                match m !! m_bb_id kb.2 with
                | Some _ => m
                | None => <[m_bb_id kb.2 := BasicBlockRev kb.1]> m
                end)
         ∅ (map_to_list (m_blocks c)) |}.

(** [cfg_rev_t::entry] *)
Definition rev_entry (r : cfg_rev_t) : result cfg_t basic_block_label_t :=
  if has_exit (_cfg r) then exit (_cfg r)
  else Fatal "Entry not found!" (_cfg r).

(** [cfg_rev_t::exit] *)
Definition rev_exit (r : cfg_rev_t) : basic_block_label_t := m_entry (_cfg r).

Definition rev_next_nodes (r : cfg_rev_t) (bb : basic_block_label_t)
  : result cfg_t (list basic_block_label_t) := prev_nodes (_cfg r) bb.

Definition rev_prev_nodes (r : cfg_rev_t) (bb : basic_block_label_t)
  : result cfg_t (list basic_block_label_t) := next_nodes (_cfg r) bb.

(** [cfg_rev_t::get_node] *)
Definition rev_get_node (r : cfg_rev_t) (bb_id : basic_block_label_t)
  : result cfg_t basic_block_rev_t :=
  match _rev_bbs r !! bb_id with
  | Some v => Ok v
  | None => Fatal "Basic block not found in the CFG" (_cfg r)
  end.

(** What a view shows of the block [b] it refers to:
    [basic_block_rev_t::label], the statements from [begin()] to [end()]
    ([rbegin] to [rend] of the block), [next_blocks] and
    [prev_blocks]. *)
Definition rev_label (b : basic_block_t) : basic_block_label_t := m_bb_id b.
Definition rev_statements (b : basic_block_t) : list new_statement_t :=
  reverse (m_ts b).
Definition rev_next_blocks (b : basic_block_t) : list basic_block_label_t :=
  m_prev b.
Definition rev_prev_blocks (b : basic_block_t) : list basic_block_label_t :=
  m_next b.

End cfg.

Arguments basic_block_t : clear implicits.
Arguments cfg_t _ {_ _} _.

End cfg.

(** ** [debug_info] of cfg.hpp *)

Module debug_info.

(** [m_line] and [m_col] are [int]s. *)
Record debug_info := DebugInfo {
  m_file : string;
  m_line : Z;
  m_col : Z;
}.

(** [debug_info()] *)
Definition debug_info_default : debug_info :=
  {| m_file := EmptyString; m_line := -1; m_col := -1 |}.

(** [operator<] of [std::string]: the lexicographic order of the
    characters taken as unsigned values. *)
Definition string_lt (a b : string) : bool :=
  match String.compare a b with Lt => true | _ => false end.

(** [operator<] *)
Definition lt (a b : debug_info) : bool :=
  string_lt (m_file a) (m_file b) && (m_line a <? m_line b)%Z &&
  (m_col a <? m_col b)%Z.

(** [operator==] *)
Definition eq (a b : debug_info) : bool :=
  String.eqb (m_file a) (m_file b) && (m_line a =? m_line b)%Z &&
  (m_col a =? m_col b)%Z.

(** [has_debug] *)
Definition has_debug (a : debug_info) : bool :=
  negb (String.eqb (m_file a) EmptyString) && (0 <=? m_line a)%Z &&
  (0 <=? m_col a)%Z.

End debug_info.

(** ** The ASM CFG: [Cfg] of asm_cfg.hpp *)

Module asm_cfg.
Section asm_cfg.
(** [Label] and [Instruction] are declared in asm_syntax.hpp, which is not
    among the sources; they are parameters of the embedding. *)
Context {Label : Type} `{Countable Label}.
Context {Instruction : Type}.

Record BasicBlock := MkBasicBlock {
  insts : list Instruction;
  nextlist : list Label;
  prevlist : list Label;
  pres : list string;
  posts : list string;
}.

(** The value-initialised block that [std::unordered_map::operator[]]
    inserts for a missing key. *)
Definition BasicBlock_default : BasicBlock :=
  {| insts := []; nextlist := []; prevlist := []; pres := []; posts := [] |}.

Record Cfg := MkCfg {
  graph : gmap Label BasicBlock;
  ordered_labels : list Label;
}.

Definition encountered (l : Label) (c : Cfg) : Cfg :=
  {| graph := graph c; ordered_labels := ordered_labels c ++ [l] |}.

(** [operator[]]: [graph[l]], which inserts a default block when [l] is
    not a key.  The result is the block referred to and the CFG after the
    call. *)
Definition index (c : Cfg) (l : Label) : BasicBlock * Cfg :=
  match graph c !! l with
  | Some b => (b, c)
  | None =>
      (BasicBlock_default,
       {| graph := <[l := BasicBlock_default]> (graph c);
          ordered_labels := ordered_labels c |})
  end.

(** [at]: [graph.at(l)] throws [std::out_of_range] for a missing key,
    which is [None] here. *)
Definition at_ (c : Cfg) (l : Label) : option BasicBlock := graph c !! l.

Definition keys (c : Cfg) : list Label := ordered_labels c.

(** The counters of [CfgStats] are [int]s. *)
Record CfgStats := MkCfgStats {
  count : Z;
  stores : Z;
  loads : Z;
  jumps : Z;
  joins : Z;
}.

Definition CfgStats_default : CfgStats :=
  {| count := 0; stores := 0; loads := 0; jumps := 0; joins := 0 |}.

Definition int_max : Z := 2147483647.

(** [x++] on an [int]: overflow is undefined behaviour, [None] here. *)
Definition incr (x : Z) : option Z :=
  if (x <? int_max)%Z then Some (x + 1)%Z else None.

(** [Instruction] is a variant declared in asm_syntax.hpp:
    [as_mem ins] is [Some is_load] when the instruction holds a [Mem],
    and [None] otherwise. *)
Context (as_mem : Instruction → option bool).

(** Body of the inner loop of [collect_stats]. *)
Definition stats_inst (res : CfgStats) (ins : Instruction)
  : option CfgStats :=
  n ← incr (count res);
  let res := {| count := n; stores := stores res; loads := loads res;
                jumps := jumps res; joins := joins res |} in
  match as_mem ins with
  | Some true =>
      n ← incr (loads res);
      Some {| count := count res; stores := stores res; loads := n;
              jumps := jumps res; joins := joins res |}
  | Some false =>
      n ← incr (stores res);
      Some {| count := count res; stores := n; loads := loads res;
              jumps := jumps res; joins := joins res |}
  | None => Some res
  end.

(** Body of the outer loop of [collect_stats]; [at] throws for a label
    without a block. *)
Definition stats_block (c : Cfg) (res : CfgStats) (this_label : Label)
  : option CfgStats :=
  bb ← at_ c this_label;
  res ← for_each stats_inst res (insts bb);
  res ← (if 1 <? length (prevlist bb) then
           n ← incr (joins res);
           Some {| count := count res; stores := stores res;
                   loads := loads res; jumps := jumps res; joins := n |}
         else Some res);
  if 1 <? length (nextlist bb) then
    n ← incr (jumps res);
    Some {| count := count res; stores := stores res;
            loads := loads res; jumps := n; joins := joins res |}
  else Some res.

(** [collect_stats]: [None] when it does not return a value. *)
Definition collect_stats (c : Cfg) : option CfgStats :=
  for_each (stats_block c) CfgStats_default (keys c).

End asm_cfg.

Arguments BasicBlock : clear implicits.
Arguments Cfg _ {_ _} _.

End asm_cfg.

(** * Invariants and reference models *)

(** ** AdaptSMap: representation invariant and a finite-map reference *)

Module AdaptSMapSpec.
Import AdaptSMap.

(** The representation invariant of the class.  The live elements are
    [elts m]; their keys are distinct 16-bit values; in sparse mode the
    table has [sparse_ub] cells and indexes every live element. *)
Record wf (m : smap_t) : Prop := {
  wf_sz : sz m ≤ length (dense m);
  wf_cap : length (dense m) ≤ dense_maxsz m;
  wf_maxsz : sparse_threshold ≤ dense_maxsz m;
  wf_dense_mode : sparse m = None → dense_maxsz m = sparse_threshold;
  wf_keys : Forall (λ k, k < key_range) (keys m);
  wf_nodup : NoDup (keys m);
  wf_sparse : ∀ sp, sparse m = Some sp →
    length sp = sparse_ub m ∧ 0 < sparse_ub m ∧
    ∀ i e, elts m !! i = Some e → sp !! key e = Some (Some i);
}.

Definition is_sparse (m : smap_t) : bool :=
  match sparse m with Some _ => true | None => false end.

(** Whether the read [sparse[k]] made by [elem] and [lookup] is well
    defined (in dense mode there is no such read). *)
Definition read_defined (m : smap_t) (k : nat) : bool :=
  match sparse m with
  | Some sp => sparse_read_defined sp k
  | None => true
  end.

(** Calls of the class, and a run of a sequence of calls from a map. *)
Inductive op := Add (k v : nat) | Remove (k : nat) | Clear.

Definition step (m : smap_t) (o : op) : option smap_t :=
  match o with
  | Add k v => Some (add m k v)
  | Remove k => remove m k
  | Clear => Some (clear m)
  end.

Definition run (m : smap_t) (ops : list op) : option smap_t :=
  for_each step m ops.

(** The reference: a finite map that follows the spec's words.  [Add]
    requires a 16-bit key that is absent, [Remove] a key that is present;
    a sequence that breaks a precondition has no reference run. *)
Definition ref_step (a : gmap nat nat) (o : op) : option (gmap nat nat) :=
  match o with
  | Add k v =>
      if decide (k < key_range ∧ a !! k = None) then Some (<[k := v]> a)
      else None
  | Remove k => if decide (is_Some (a !! k)) then Some (delete k a) else None
  | Clear => Some ∅
  end.

Definition ref_run (a : gmap nat nat) (ops : list op) : option (gmap nat nat) :=
  for_each ref_step a ops.

(** [m] holds exactly the bindings of the finite map [a]. *)
Definition repr (m : smap_t) (a : gmap nat nat) : Prop :=
  ∀ k v, Elt k v ∈ elts m ↔ a !! k = Some v.

(** The largest number of live keys seen along the reference run. *)
Fixpoint peak (a : gmap nat nat) (ops : list op) : nat :=
  match ops with
  | [] => base.size a
  | o :: ops' =>
      match ref_step a o with
      | Some a' => Nat.max (base.size a) (peak a' ops')
      | None => base.size a
      end
  end.

(** Nine insertions, a removal and a [clear]. *)
Definition churn_ops : list op :=
  ((λ k, Add k (k + 100)) <$> seq 0 9) ++ [Remove 4; Clear].

(** Nine insertions, which take the map to sparse mode, and the map they
    build. *)
Definition nine_ops : list op := (λ k, Add k (k + 100)) <$> seq 0 9.

Definition nine : smap_t := default init (run init nine_ops).

End AdaptSMapSpec.

(** ** AdaptGraph: representation invariant and reachable graphs *)

Module AdaptGraphSpec.
Import AdaptGraph.

(** The map stored for [a] in the vector [ms] binds [b] to [i]. *)
Definition medge (ms : list AdaptSMap.smap_t) (a b i : nat) : Prop :=
  ∃ m, ms !! a = Some m ∧ AdaptSMap.Elt b i ∈ AdaptSMap.elts m.

(** The representation invariant of the class. *)
Record wf (g : graph_t) : Prop := {
  wf_len_preds : length (_preds g) = length (_succs g);
  wf_len_free : length (is_free g) = length (_succs g);
  wf_succs : Forall AdaptSMapSpec.wf (_succs g);
  wf_preds : Forall AdaptSMapSpec.wf (_preds g);
  wf_sym : ∀ s d i, medge (_succs g) s d i ↔ medge (_preds g) d s i;
  wf_slot : ∀ s d i, medge (_succs g) s d i →
    i < length (_ws g) ∧ i ∉ free_widx g;
  wf_slot_inj : ∀ s d s' d' i,
    medge (_succs g) s d i → medge (_succs g) s' d' i → s = s' ∧ d = d';
  wf_free_widx : NoDup (free_widx g);
  wf_free_widx_lt : Forall (λ i, i < length (_ws g)) (free_widx g);
  wf_free_id : NoDup (free_id g);
  wf_free_id_free : ∀ v, v ∈ free_id g → is_free g !! v = Some true;
}.

(** Graphs built from the empty graph by the calls of the class.
    [add_edge] is called under its precondition: the edge is absent. *)
Inductive reachable : graph_t → Prop :=
  | reach_init : reachable init
  | reach_new_vertex g v g' :
      reachable g → new_vertex g = Some (v, g') → reachable g'
  | reach_add_edge junk g s w d g' :
      reachable g → elem junk g s d = Some false →
      add_edge g s w d = Some g' → reachable g'
  | reach_update_edge junk g s w d g' :
      reachable g → update_edge junk g s w d = Some g' → reachable g'
  | reach_set_edge junk g s w d g' :
      reachable g → set_edge junk g s w d = Some g' → reachable g'
  | reach_forget g v g' :
      reachable g → forget g v = Some g' → reachable g'.

(** The graph after [n] calls of [new_vertex] on the empty graph. *)
Definition grown (n : nat) : graph_t :=
  {| _preds := replicate n AdaptSMap.init;
     _succs := replicate n AdaptSMap.init;
     _ws := []; edge_count := 0; is_free := replicate n false;
     free_id := []; free_widx := [] |}.

(** One vertex more than [key_t] can name, and an edge to the last one. *)
Definition wrapped : graph_t :=
  default init (add_edge (grown (S key_range)) 0 5%Z key_range).

(** One vertex more than [key_t] can name, and the only edge [0 -> 0], of
    weight 5. *)
Definition wide_loop : graph_t :=
  default init (add_edge (grown (S key_range)) 0 5%Z 0).

(** [add_edge(s, w, d)] for each [(s, d)] of a list. *)
Definition add_edges (w : Wt) (g : graph_t) (sds : list (nat * nat))
  : option graph_t :=
  for_each (λ g sd, add_edge g sd.1 w sd.2) g sds.

(** 21 vertices and 20 edges into vertex 0: [1 -> 0], ..., [20 -> 0]. *)
Definition star_in : graph_t :=
  default init (add_edges 1%Z (grown 21) ((λ s, (s, 0)) <$> seq 1 20)).

(** 21 vertices and 20 edges out of vertex 0: [0 -> 1], ..., [0 -> 20]. *)
Definition star_out : graph_t :=
  default init (add_edges 1%Z (grown 21) ((λ d, (0, d)) <$> seq 1 20)).

(** Forget vertex 0, take a vertex again with [new_vertex], and add 20
    edges between it and the vertices 1..20 ([sds v] lists them). *)
Definition churn (g : graph_t) (sds : nat → list (nat * nat))
  : option graph_t :=
  g1 ← forget g 0;
  '(v, g2) ← new_vertex g1;
  add_edges 2%Z g2 (sds v).

(** The number of entries of the successor maps. *)
Definition total (ms : list AdaptSMap.smap_t) : nat :=
  sum_list_with AdaptSMap.size ms.

(** The state of [copy(o)] while it runs: [g] has the vertices of [o],
    all of them live, and the edges of [o] that are in [D], with their
    weights. *)
Definition copied (o g : graph_t) (D : nat → nat → Prop) : Prop :=
  wf g ∧ size g = size o ∧ free_id g = [] ∧
  (∀ v, v < size o → is_free g !! v = Some false) ∧
  (∀ a b, (∃ i, medge (_succs g) a b i) ↔
          D a b ∧ ∃ j, medge (_succs o) a b j) ∧
  (∀ a b i j, medge (_succs g) a b i → medge (_succs o) a b j →
              _ws g !! i = _ws o !! j).

(** A small graph: three vertices and the edge [0 -> 1] of weight 5. *)
Definition three : graph_t :=
  default init (add_edge (grown 3) 0 5%Z 1).

(** The same graph once vertex 2 has been forgotten. *)
Definition three_forgotten : graph_t := default init (forget three 2).

End AdaptGraphSpec.

(** ** The analysis CFG: well-formed graphs, paths, reference definitions *)

Module cfg_spec.
Import cfg.

Section cfg_spec.
Context {basic_block_label_t : Type} `{Countable basic_block_label_t}.
Context {new_statement_t : Type}.

#[local] Abbreviation cfg_t := (cfg.cfg_t basic_block_label_t new_statement_t).
#[local] Abbreviation basic_block_t :=
  (cfg.basic_block_t basic_block_label_t new_statement_t).

(** The invariant kept by the public interface: the entry has a block,
    every block is stored under its own label, every neighbour is a block
    of the CFG, edges are recorded on both sides, and the neighbour lists
    have no duplicates. *)
Record wf (c : cfg_t) : Prop := {
  wf_entry : is_Some (m_blocks c !! m_entry c);
  wf_label : ∀ k b, m_blocks c !! k = Some b → m_bb_id b = k;
  wf_next : ∀ k b n, m_blocks c !! k = Some b → n ∈ m_next b →
    ∃ b', m_blocks c !! n = Some b' ∧ k ∈ m_prev b';
  wf_prev : ∀ k b p, m_blocks c !! k = Some b → p ∈ m_prev b →
    ∃ b', m_blocks c !! p = Some b' ∧ k ∈ m_next b';
  wf_nodup_next : ∀ k b, m_blocks c !! k = Some b → NoDup (m_next b);
  wf_nodup_prev : ∀ k b, m_blocks c !! k = Some b → NoDup (m_prev b);
}.

(** A checker for [wf], to decide it on a concrete CFG. *)
Definition wf_block_check (c : cfg_t) (k : basic_block_label_t)
  (b : basic_block_t) : bool :=
  bool_decide (m_bb_id b = k) &&
  forallb (λ n, match m_blocks c !! n with
                | Some b' => bool_decide (k ∈ m_prev b')
                | None => false
                end) (m_next b) &&
  forallb (λ p, match m_blocks c !! p with
                | Some b' => bool_decide (k ∈ m_next b')
                | None => false
                end) (m_prev b) &&
  bool_decide (NoDup (m_next b)) && bool_decide (NoDup (m_prev b)).

Definition wf_check (c : cfg_t) : bool :=
  bool_decide (is_Some (m_blocks c !! m_entry c)) &&
  forallb (λ kb, wf_block_check c kb.1 kb.2) (map_to_list (m_blocks c)).

(** The block [b] once [l] is taken out of both neighbour lists. *)
Definition detach (l : basic_block_label_t) (b : basic_block_t)
  : basic_block_t :=
  set_prev (filter (λ x, x ≠ l) (m_prev b))
    (set_next (filter (λ x, x ≠ l) (m_next b)) b).

(** [remove(l)] in closed form: the block is erased and [l] leaves every
    neighbour list. *)
Definition erase (l : basic_block_label_t) (c : cfg_t) : cfg_t :=
  set_blocks (detach l <$> delete l (m_blocks c)) c.

(** The block stored under [k] once [x] has been merged into its parent
    [p]: the parent receives the statements [ts] of [x] and the child [ch]
    of [x] as its successor, and the child receives [p] in place of [x]
    as a predecessor. *)
Definition merged_block (x p ch : basic_block_label_t)
  (ts : list new_statement_t) (k : basic_block_label_t) (b : basic_block_t)
  : basic_block_t :=
  {| m_bb_id := m_bb_id b;
     m_ts := if decide (k = p) then m_ts b ++ ts else m_ts b;
     m_prev := if decide (k = ch)
               then filter (λ y, y ≠ x) (m_prev b) ++ [p] else m_prev b;
     m_next := if decide (k = p) then [ch] else m_next b |}.

Definition merged (x p ch : basic_block_label_t)
  (ts : list new_statement_t) (c : cfg_t) : cfg_t :=
  set_blocks
    (map_imap (λ k b, Some (merged_block x p ch ts k b))
       (delete x (m_blocks c))) c.

(** One step along the neighbour lists [nx] of the blocks: [m_next] for
    the CFG, [m_prev] for its reversed view. *)
Definition step_via (nx : basic_block_t → list basic_block_label_t)
  (c : cfg_t) (a b : basic_block_label_t) : Prop :=
  ∃ ba, m_blocks c !! a = Some ba ∧ b ∈ nx ba.

(** A forward edge, and reachability over forward edges. *)
Definition edge (c : cfg_t) (a b : basic_block_label_t) : Prop :=
  ∃ ba, m_blocks c !! a = Some ba ∧ b ∈ m_next ba.

Definition reaches (c : cfg_t) (a b : basic_block_label_t) : Prop :=
  rtc (edge c) a b.

(** The test of [merge_blocks_rec]: exactly one successor, exactly one
    predecessor, and that predecessor has exactly one successor. *)
Definition mergeable (c : cfg_t) (l : basic_block_label_t) : Prop :=
  ∃ cur p parent,
    m_blocks c !! l = Some cur ∧ length (m_next cur) = 1 ∧
    m_prev cur = [p] ∧ m_blocks c !! p = Some parent ∧
    length (m_next parent) = 1.

(** What a walk of [merge_blocks_rec] that starts in the state [(c, V)]
    and ends in [(c', V')] establishes: the CFG stays well formed and only
    loses blocks, visited blocks are kept, the blocks visited by the walk
    can no longer be merged and their successors are visited, an edge of
    [c'] is an edge of [c] or leads to a visited block, and neither the
    test of [merge_blocks_rec] nor reachability between remaining blocks
    is disturbed. *)
Record walk_post (c : cfg_t) (V : gset basic_block_label_t)
    (c' : cfg_t) (V' : gset basic_block_label_t) : Prop := {
  wp_wf : wf c';
  wp_entry : m_entry c' = m_entry c;
  wp_exit : m_exit c' = m_exit c;
  wp_dom : ∀ l, is_Some (m_blocks c' !! l) → is_Some (m_blocks c !! l);
  wp_mono : V ⊆ V';
  wp_kept : ∀ l, l ∈ V → is_Some (m_blocks c !! l) →
    is_Some (m_blocks c' !! l);
  wp_exit_kept : ∀ l, m_exit c = Some l → is_Some (m_blocks c !! l) →
    is_Some (m_blocks c' !! l);
  wp_new : ∀ l, l ∈ V' → l ∉ V →
    is_Some (m_blocks c' !! l) ∧ ¬ mergeable c' l ∧
    ∀ n, edge c' l n → n ∈ V';
  wp_edge : ∀ a n, edge c' a n → edge c a n ∨ n ∈ V';
  wp_mergeable : ∀ l, is_Some (m_blocks c' !! l) →
    mergeable c' l ↔ mergeable c l;
  wp_reaches : ∀ a b, is_Some (m_blocks c' !! a) →
    is_Some (m_blocks c' !! b) → reaches c a b → reaches c' a b;
}.

(** The block stored under [k] once the edge from [a] to [b] has been
    added with [a >> b], and once it has been removed with [a -= b]. *)
Definition link_block (a b k : basic_block_label_t) (blk : basic_block_t)
  : basic_block_t :=
  {| m_bb_id := m_bb_id blk; m_ts := m_ts blk;
     m_prev := if decide (k = b) then insert_adjacent (m_prev blk) a
               else m_prev blk;
     m_next := if decide (k = a) then insert_adjacent (m_next blk) b
               else m_next blk |}.

Definition unlink_block (a b k : basic_block_label_t) (blk : basic_block_t)
  : basic_block_t :=
  {| m_bb_id := m_bb_id blk; m_ts := m_ts blk;
     m_prev := if decide (k = b) then filter (λ x, x ≠ a) (m_prev blk)
               else m_prev blk;
     m_next := if decide (k = a) then filter (λ x, x ≠ b) (m_next blk)
               else m_next blk |}.

(** The CFGs that the public interface builds: the constructors, then
    [insert], [a >> b] and [a -= b] for blocks of the CFG, insertion of
    a statement, [set_exit], and [remove], [merge_blocks] and
    [remove_unreachable_blocks] when they return. *)
Inductive built : cfg_t → Prop :=
  | built_new entry exit : built (cfg_new entry exit)
  | built_insert c l : built c → built (insert l c).2
  | built_add_edge c a b :
      built c → is_Some (m_blocks c !! a) → is_Some (m_blocks c !! b) →
      built (set_blocks (add_edge a b (m_blocks c)) c)
  | built_remove_edge c a b :
      built c → is_Some (m_blocks c !! a) → is_Some (m_blocks c !! b) →
      built (set_blocks (remove_edge a b (m_blocks c)) c)
  | built_statement c k s :
      built c → built (set_blocks (insert_statement k s (m_blocks c)) c)
  | built_set_exit c l : built c → built (set_exit l c)
  | built_remove c l c' : built c → remove l c = Ok c' → built c'
  | built_merge_blocks c c' : built c → merge_blocks c = Ok c' → built c'
  | built_remove_unreachable_blocks c c' :
      built c → remove_unreachable_blocks c = Ok c' → built c'.

(** All the statements of a CFG, block after block. *)
Definition all_statements (c : cfg_t) : list new_statement_t :=
  concat (m_ts <$> (map_to_list (m_blocks c)).*2).

(** The shape the claim speaks of: in-degree 1, the sole predecessor has
    out-degree 1, and the sole successor, if any, is reachable. *)
Definition chain_link (c : cfg_t) (l : basic_block_label_t) : Prop :=
  ∃ cur p parent,
    m_blocks c !! l = Some cur ∧ m_prev cur = [p] ∧
    m_blocks c !! p = Some parent ∧ length (m_next parent) = 1 ∧
    ∀ s, m_next cur = [s] → reaches c (m_entry c) s.

End cfg_spec.

(** Concrete CFGs over [nat] labels and [nat] statements. *)

Definition block (l : nat) (ts prev next : list nat) : basic_block_t nat nat :=
{| m_bb_id := l; m_ts := ts; m_prev := prev; m_next := next |}.

(** [0 -> 1], entry 0, exit 1. *)
Definition two_blocks : cfg_t nat nat :=
{| m_entry := 0; m_exit := Some 1;
   m_blocks := list_to_map [(0, block 0 [10] [] [1]); (1, block 1 [11] [0] [])] |}.

(** [0 -> 1 -> 2 -> {3, 5}], [3 -> 4]; block 5 cannot reach the exit 4 and
  block 7 cannot be reached. *)
Definition diamond : cfg_t nat nat :=
{| m_entry := 0; m_exit := Some 4;
   m_blocks := list_to_map
     [(0, block 0 [10] [] [1]); (1, block 1 [11] [0] [2]);
      (2, block 2 [12] [1] [3; 5]); (3, block 3 [13] [2] [4]);
      (4, block 4 [14] [3] []); (5, block 5 [15] [2] []);
      (7, block 7 [17] [] [])] |}.

End cfg_spec.

(** ** The ASM CFG: a concrete instance *)

Module asm_cfg_spec.
Import asm_cfg.

(** The instructions of the blocks listed in [keys()], a block as often as
  it is listed; a label without a block contributes none. *)
Definition listed_insts {Label Instruction : Type} `{Countable Label}
  (c : Cfg Label Instruction) : list Instruction :=
concat ((λ l, from_option insts [] (graph c !! l)) <$> keys c).

(** The listed labels whose block satisfies [P]. *)
Definition listed_blocks {Label Instruction : Type} `{Countable Label}
  (P : BasicBlock Label Instruction → bool)
  (c : Cfg Label Instruction) : list Label :=
filter (λ l, from_option P false (graph c !! l) = true) (keys c).

(** An ASM CFG over [nat] labels and [nat] instructions with one block,
  encountered under label 0. *)
Definition one_block : Cfg nat nat :=
{| graph := {[ 0 := {| insts := [7]; nextlist := []; prevlist := [];
                       pres := []; posts := [] |} ]};
   ordered_labels := [0] |}.

End asm_cfg_spec.


(** * Properties *)

(** ** Machine integers *)

Lemma key_range_Z : Z.of_nat key_range = 65536%Z.
Proof. reflexivity. Qed.

Lemma key_range_pos : 0 < key_range.
Proof. pose proof key_range_Z. lia. Qed.

Lemma to_key_small n : n < key_range → to_key n = n.
Proof. intros Hn. unfold to_key. by apply Nat.mod_small. Qed.

Lemma to_key_lt n : to_key n < key_range.
Proof. unfold to_key. apply Nat.mod_upper_bound. pose proof key_range_pos. lia. Qed.

#[global] Opaque key_range.

(** Distinct numbers below [n] are at most [n] many. *)
Lemma NoDup_bounded_length (l : list nat) (n : nat) :
  NoDup l → Forall (λ k, k < n) l → length l ≤ n.
Proof.
  intros Hnd Hall.
  assert (length l ≤ length (seq 0 n)) as Hle; [|by rewrite length_seq in Hle].
  apply submseteq_length, NoDup_submseteq; [done|].
  intros x Hx. rewrite Forall_forall in Hall.
  apply elem_of_seq. specialize (Hall x Hx). lia.
Qed.

Lemma foldl_max_le (l : list nat) (a : nat) : a ≤ foldl Nat.max a l.
Proof.
  revert a. induction l as [|x l IH]; intros a; simpl; [done|].
  etrans; [|apply IH]. lia.
Qed.

Lemma foldl_max_ub (l : list nat) (a k : nat) : k ∈ l → k ≤ foldl Nat.max a l.
Proof.
  revert a. induction l as [|x l IH]; intros a Hk; simpl.
  - by apply elem_of_nil in Hk.
  - apply elem_of_cons in Hk as [->|Hk]; [|by apply IH].
    etrans; [|apply foldl_max_le]. lia.
Qed.

(** ** AdaptSMap *)

Module AdaptSMapFacts.
Import AdaptSMap AdaptSMapSpec.

(** *** The doubling loops *)

Lemma double_until_ge fuel cur target :
  0 < cur → target ≤ fuel + cur → target ≤ double_until fuel cur target.
Proof.
  revert cur. induction fuel as [|fuel IH]; intros cur Hpos Hle; simpl.
  - lia.
  - destruct (Nat.ltb_spec cur target); [|lia].
    apply IH; lia.
Qed.

Lemma double_until_le fuel cur target : cur ≤ double_until fuel cur target.
Proof.
  revert cur. induction fuel as [|fuel IH]; intros cur; simpl; [done|].
  destruct (Nat.ltb_spec cur target); [|done].
  etrans; [|apply IH]. lia.
Qed.

(** *** Filling the sparse table *)

Lemma index_keys_length ks idx sp :
  length (index_keys ks idx sp) = length sp.
Proof.
  revert idx sp. induction ks as [|k ks IH]; intros idx sp; simpl; [done|].
  by rewrite IH, length_insert.
Qed.

Lemma index_keys_notin ks idx sp k :
  k ∉ ks → index_keys ks idx sp !! k = sp !! k.
Proof.
  revert idx sp. induction ks as [|k' ks IH]; intros idx sp Hk; simpl; [done|].
  apply not_elem_of_cons in Hk as [Hne Hk].
  rewrite IH by done. by rewrite list_lookup_insert_ne.
Qed.

Lemma index_keys_lookup ks idx sp j k :
  NoDup ks → Forall (λ k, k < length sp) ks →
  idx + length ks ≤ key_range →
  ks !! j = Some k →
  index_keys ks idx sp !! k = Some (Some (idx + j)).
Proof.
  revert idx sp j.
  induction ks as [|k' ks IH]; intros idx sp j Hnd Hall Hlen Hj; [done|].
  apply NoDup_cons in Hnd as [Hk' Hnd].
  apply Forall_cons in Hall as [Hk'lt Hall].
  simpl in *. destruct j as [|j]; simplify_eq/=.
  - rewrite index_keys_notin by done.
    rewrite list_lookup_insert_eq by done. f_equal. f_equal. lia.
  - assert (0 < length ks) by (apply lookup_lt_Some in Hj; lia).
    rewrite to_key_small by lia.
    rewrite (IH (S idx) _ j); try done.
    + f_equal. f_equal. lia.
    + by rewrite length_insert.
    + lia.
Qed.

(** *** Reading the live elements *)

Lemma elts_lookup m i e :
  elts m !! i = Some e ↔ dense m !! i = Some e ∧ i < sz m.
Proof. unfold elts. apply lookup_take_Some. Qed.

Lemma elts_length m : wf m → length (elts m) = sz m.
Proof. intros Hwf. unfold elts. rewrite length_take. pose proof (wf_sz _ Hwf). lia. Qed.

Lemma keys_length m : wf m → length (keys m) = sz m.
Proof. intros Hwf. unfold keys. rewrite length_fmap. by apply elts_length. Qed.

Lemma elem_of_keys m k : k ∈ keys m ↔ ∃ v, Elt k v ∈ elts m.
Proof.
  unfold keys. rewrite list_elem_of_fmap. split.
  - intros ([k' v] & -> & He). by exists v.
  - intros [v Hv]. by exists (Elt k v).
Qed.

Lemma sz_lt_key_range m k :
  wf m → k < key_range → k ∉ keys m → sz m < key_range.
Proof.
  intros Hwf Hk Hnk.
  assert (length (k :: keys m) ≤ key_range) as Hlen.
  { apply NoDup_bounded_length.
    - apply NoDup_cons. split; [done|]. apply Hwf.
    - apply Forall_cons. split; [done|]. apply Hwf. }
  simpl in Hlen. rewrite keys_length in Hlen by done. lia.
Qed.

Lemma sz_le_key_range m : wf m → sz m ≤ key_range.
Proof.
  intros Hwf. rewrite <- keys_length by done.
  apply NoDup_bounded_length; apply Hwf.
Qed.

(** With distinct keys, the first element found for a key is the only
    one. *)
Lemma find_key_NoDup (l : list elt_t) k v :
  NoDup (key <$> l) → Elt k v ∈ l →
  find (λ e, key e =? k) l = Some (Elt k v).
Proof.
  induction l as [|e l IH]; intros Hnd Hin; [by apply elem_of_nil in Hin|].
  simpl in *. apply NoDup_cons in Hnd as [Hne Hnd].
  apply elem_of_cons in Hin as [<-|Hin].
  - simpl. by rewrite Nat.eqb_refl.
  - destruct (Nat.eqb_spec (key e) k) as [Heq|_]; [|by apply IH].
    exfalso. apply Hne. rewrite Heq.
    apply list_elem_of_fmap. by exists (Elt k v).
Qed.

Lemma find_key_Some (l : list elt_t) k e :
  find (λ e, key e =? k) l = Some e → e ∈ l ∧ key e = k.
Proof.
  induction l as [|e' l IH]; simpl; [done|].
  destruct (Nat.eqb_spec (key e') k) as [Heq|_].
  - intros [= <-]. split; [left|done].
  - intros Hf. destruct (IH Hf) as [? ?]. split; [by right|done].
Qed.

Lemma lookup_Some junk m k v :
  wf m → lookup junk m k = Some v ↔ Elt k v ∈ elts m.
Proof.
  intros Hwf. unfold lookup.
  destruct (sparse m) as [sp|] eqn:Hsp.
  - destruct (wf_sparse _ Hwf sp Hsp) as (_ & _ & Hidx). split.
    + destruct (Nat.ltb_spec (sparse_read junk sp k) (sz m)) as [Hlt|]; [|done].
      destruct (dense m !! _) as [e|] eqn:He; [|done].
      destruct (Nat.eqb_spec (key e) k) as [Heq|]; [|done].
      intros [= <-]. apply list_elem_of_lookup.
      exists (sparse_read junk sp k). apply elts_lookup.
      destruct e; simplify_eq/=. done.
    + intros (i & Hi)%list_elem_of_lookup.
      pose proof (Hidx _ _ Hi) as Hspk. simpl in Hspk.
      apply elts_lookup in Hi as [Hd Hlt].
      unfold sparse_read. rewrite Hspk.
      destruct (Nat.ltb_spec i (sz m)); [|lia].
      rewrite Hd. simpl. by rewrite Nat.eqb_refl.
  - split.
    + intros Hf. apply fmap_Some in Hf as (e & Hf & ->).
      apply find_key_Some in Hf as [Hin <-]. by destruct e.
    + intros Hin. rewrite (find_key_NoDup _ k v); [done| |done].
      apply Hwf.
Qed.

Lemma lookup_None junk m k :
  wf m → lookup junk m k = None ↔ k ∉ keys m.
Proof.
  intros Hwf. rewrite elem_of_keys. split.
  - intros Hn [v Hv]. apply (lookup_Some junk) in Hv; [|done]. congruence.
  - intros Hn. destruct (lookup junk m k) as [v|] eqn:Hl; [|done].
    exfalso. apply Hn. exists v. by apply (lookup_Some junk).
Qed.

Lemma elem_lookup junk m k :
  wf m → elem junk m k = bool_decide (is_Some (lookup junk m k)).
Proof.
  intros Hwf. unfold elem, lookup.
  destruct (sparse m) as [sp|] eqn:Hsp.
  - destruct (Nat.ltb_spec (sparse_read junk sp k) (sz m)); simpl; [|done].
    destruct (dense m !! _) as [e|]; simpl; [|done].
    by destruct (Nat.eqb_spec (key e) k).
  - unfold keys. induction (elts m) as [|e l IH]; simpl; [done|].
    by destruct (Nat.eqb_spec (key e) k).
Qed.

Lemma elem_true junk m k : wf m → elem junk m k = true ↔ k ∈ keys m.
Proof.
  intros Hwf. rewrite elem_lookup by done.
  rewrite bool_decide_eq_true. split.
  - intros [v Hv]. apply elem_of_keys. exists v. by apply (lookup_Some junk).
  - intros [v Hv]%elem_of_keys. exists v. by apply lookup_Some.
Qed.


(** *** Well-formed maps are closed under the operations *)

Lemma smap_wf_init : wf init.
Proof.
  split; simpl; try done; try lia; constructor.
Qed.

Lemma write_dense_take l i e :
  i ≤ length l → take i (write_dense l i e) = take i l.
Proof.
  intros Hi. unfold write_dense.
  rewrite take_app_le by (rewrite length_take; lia).
  rewrite take_take. f_equal. lia.
Qed.

Lemma write_dense_take_S l i e :
  i ≤ length l → take (S i) (write_dense l i e) = take i l ++ [e].
Proof.
  intros Hi. unfold write_dense.
  rewrite (cons_middle e), app_assoc.
  apply take_app_length'. rewrite length_app, length_take. simpl. lia.
Qed.

Lemma write_dense_length l i e :
  i ≤ length l → length (write_dense l i e) = Nat.max (length l) (S i).
Proof.
  intros Hi. unfold write_dense.
  rewrite length_app, length_take. simpl. rewrite length_drop. lia.
Qed.

Lemma wf_key_lt_ub m sp e :
  wf m → sparse m = Some sp → e ∈ elts m → key e < sparse_ub m.
Proof.
  intros Hwf Hsp (i & Hi)%list_elem_of_lookup.
  destruct (wf_sparse _ Hwf sp Hsp) as (Hlen & _ & Hidx).
  rewrite <- Hlen. eapply lookup_lt_Some. by apply Hidx.
Qed.

Lemma index_keys_wf m ub :
  wf m → (∀ e, e ∈ elts m → key e < ub) →
  ∀ i e, elts m !! i = Some e →
    index_keys (keys m) 0 (replicate ub None) !! key e = Some (Some i).
Proof.
  intros Hwf Hub i e Hi.
  rewrite (index_keys_lookup _ 0 _ i (key e)); [done|apply Hwf| | |].
  - rewrite length_replicate. unfold keys. apply Forall_fmap, Forall_forall.
    intros x Hx. simpl. by apply Hub.
  - rewrite keys_length by done. simpl. by apply sz_le_key_range.
  - unfold keys. by rewrite list_lookup_fmap, Hi.
Qed.

Lemma growDense_wf m n : wf m → wf (growDense m n).
Proof.
  intros Hwf. pose proof (double_until_le n (dense_maxsz m) n) as Hle.
  pose proof Hwf as [H1 H2 H3 H4 H5 H6 H7]. unfold growDense.
  destruct (sparse m) as [sp|] eqn:Hsp.
  - split; simpl; try done; try lia.
  - split; simpl; try done; try lia.
    intros sp' [= <-]. rewrite index_keys_length, length_replicate.
    split; [done|]. split; [lia|].
    intros i e Hi. change (elts m !! i = Some e) in Hi. revert i e Hi.
    apply index_keys_wf; [done|].
    intros e He.
    assert (key e ≤ foldl Nat.max 0 (keys m)); [|lia].
    apply foldl_max_ub. unfold keys. apply list_elem_of_fmap. by exists e.
Qed.

Lemma growDense_fields m n :
  sz (growDense m n) = sz m ∧ dense (growDense m n) = dense m ∧
  is_Some (sparse (growDense m n)) ∧
  dense_maxsz (growDense m n) = double_until n (dense_maxsz m) n.
Proof. unfold growDense. destruct (sparse m); simpl; eauto. Qed.

Lemma growSparse_wf m n : wf m → is_Some (sparse m) → wf (growSparse m n).
Proof.
  intros Hwf [sp Hsp].
  pose proof (double_until_le n (sparse_ub m) n) as Hle.
  pose proof (wf_key_lt_ub m sp) as Hub.
  destruct (wf_sparse _ Hwf sp Hsp) as (Hlen & Hpos & Hidx).
  pose proof Hwf as [H1 H2 H3 H4 H5 H6 H7]. unfold growSparse.
  split; simpl; try done; try lia.
  intros sp' [= <-]. rewrite index_keys_length, length_replicate.
  split; [done|]. split; [lia|].
  intros i e Hi. change (elts m !! i = Some e) in Hi. revert i e Hi.
  apply index_keys_wf; [done|].
  intros e He. specialize (Hub e Hwf Hsp He). lia.
Qed.

Lemma growSparse_ub m n :
  wf m → is_Some (sparse m) → n ≤ sparse_ub (growSparse m n).
Proof.
  intros Hwf [sp Hsp]. destruct (wf_sparse _ Hwf sp Hsp) as (_ & Hpos & _).
  unfold growSparse. simpl. apply double_until_ge; lia.
Qed.

Lemma growSparse_set_dense m n e :
  sz m ≤ length (dense m) →
  growSparse (set_dense (write_dense (dense m) (sz m) e) m) n
  = set_dense (write_dense (dense m) (sz m) e) (growSparse m n).
Proof.
  intros Hsz. unfold growSparse, set_dense, keys, elts. simpl.
  by rewrite write_dense_take.
Qed.

(** The state after [dense[sz] = elt_t(k, v); sparse[k] = sz; sz++]. *)
Lemma push_wf m k v osp :
  wf m → sz m < dense_maxsz m → k < key_range → k ∉ keys m →
  (is_Some (sparse m) → k < sparse_ub m) →
  osp = (λ sp, <[k := Some (to_key (sz m))]> sp) <$> sparse m →
  let m' := {| sz := S (sz m); dense_maxsz := dense_maxsz m;
               sparse_ub := sparse_ub m;
               dense := write_dense (dense m) (sz m) (Elt k v);
               sparse := osp |} in
  wf m' ∧ elts m' = elts m ++ [Elt k v].
Proof.
  intros Hwf Hcap Hk Hnk Hub -> m'.
  pose proof (sz_lt_key_range m k Hwf Hk Hnk) as Hszk.
  pose proof Hwf as [H1 H2 H3 H4 H5 H6 H7].
  assert (elts m' = elts m ++ [Elt k v]) as Helts.
  { unfold elts, m'. simpl. by apply write_dense_take_S. }
  assert (keys m' = keys m ++ [k]) as Hkeys.
  { unfold keys. rewrite Helts. by rewrite fmap_app. }
  split; [|done]. split.
  - simpl. rewrite write_dense_length by done. lia.
  - simpl. rewrite write_dense_length by done. lia.
  - done.
  - simpl. intros Hn. apply fmap_None in Hn. by apply H4.
  - rewrite Hkeys. apply Forall_app. split; [done|]. by constructor.
  - rewrite Hkeys. apply NoDup_app. split; [done|]. split.
    + intros x Hx ->%list_elem_of_singleton. done.
    + apply NoDup_singleton.
  - simpl. intros sp' Hsp'. apply fmap_Some in Hsp' as (sp & Hsp & ->).
    destruct (H7 sp Hsp) as (Hlen & Hpos & Hidx).
    rewrite length_insert. split; [done|]. split; [done|].
    intros i e. rewrite Helts. intros Hi.
    apply lookup_app_Some in Hi as [Hi|[Hge Hi]].
    + rewrite list_lookup_insert_ne; [by apply Hidx|].
      intros ->. apply Hnk. unfold keys. apply list_elem_of_fmap.
      exists e. split; [done|]. by eapply list_elem_of_lookup_2.
    + rewrite elts_length in Hge, Hi by done.
      apply list_lookup_singleton_Some in Hi as [Hi <-]. simpl.
      rewrite list_lookup_insert_eq by (rewrite Hlen; apply Hub; eauto).
      rewrite to_key_small by done. f_equal. f_equal. lia.
Qed.

Lemma add_spec m k v :
  wf m → k < key_range → k ∉ keys m →
  wf (add m k v) ∧ elts (add m k v) = elts m ++ [Elt k v] ∧
  sz (add m k v) = S (sz m) ∧
  is_sparse (add m k v) = is_sparse m || (sparse_threshold <=? sz m).
Proof.
  intros Hwf Hk Hnk.
  (* the map after the optional [growDense] *)
  set (m1 := if dense_maxsz m <=? sz m then growDense m (sz m + 1) else m).
  assert (wf m1 ∧ sz m1 = sz m ∧ dense m1 = dense m ∧
          sz m1 < dense_maxsz m1 ∧
          is_sparse m1 = is_sparse m || (sparse_threshold <=? sz m))
    as (Hwf1 & Hsz1 & Hd1 & Hcap1 & Hmode1).
  { unfold m1. destruct (Nat.leb_spec (dense_maxsz m) (sz m)) as [Hfull|Hroom].
    - destruct (growDense_fields m (sz m + 1)) as (-> & -> & [sp Hsp] & ->).
      split; [by apply growDense_wf|]. do 2 (split; [done|]). split.
      + pose proof (wf_maxsz _ Hwf). unfold sparse_threshold in *.
        pose proof (double_until_ge (sz m + 1) (dense_maxsz m) (sz m + 1)). lia.
      + unfold is_sparse at 1. rewrite Hsp.
        pose proof (wf_maxsz _ Hwf).
        destruct (Nat.leb_spec sparse_threshold (sz m)); [|lia].
        by rewrite orb_true_r.
    - do 3 (split; [done|]). split; [done|].
      unfold is_sparse. destruct (sparse m) eqn:Hsp; [done|].
      rewrite (wf_dense_mode _ Hwf Hsp) in Hroom.
      by destruct (Nat.leb_spec sparse_threshold (sz m)); [lia|]. }
  assert (keys m1 = keys m ∧ elts m1 = elts m) as [Hk1 He1].
  { unfold keys, elts. by rewrite Hsz1, Hd1. }
  pose proof (wf_sz _ Hwf1) as Hsz1'.
  rewrite <- Hmode1. clear Hmode1.
  unfold add. fold m1.
  change (sparse (set_dense _ m1)) with (sparse m1).
  destruct (sparse m1) as [sp1|] eqn:Hsp1.
  - change (sparse_ub (set_dense _ m1)) with (sparse_ub m1).
    destruct (Nat.leb_spec (sparse_ub m1) k) as [Hgrow|Hfits].
    + rewrite growSparse_set_dense by done.
      pose proof (growSparse_wf m1 (k + 1) Hwf1 (mk_is_Some _ _ Hsp1)) as Hwf2.
      pose proof (growSparse_ub m1 (k + 1) Hwf1 (mk_is_Some _ _ Hsp1)) as Hub2.
      set (m2 := growSparse m1 (k + 1)) in *.
      destruct (push_wf m2 k v
                  (Some (<[k := Some (to_key (sz m2))]>
                           (index_keys (keys m1) 0
                              (replicate (sparse_ub m2) None)))))
        as [Hwf' Helts'];
        [done|exact Hcap1|done|change (k ∉ keys m1); by rewrite Hk1
        |intros _; lia|reflexivity|].
      change (elts m2) with (elts m1) in Helts'.
      simpl in Hwf'.
      split; [exact Hwf'|]. split; [by rewrite <- He1|].
      split; [simpl; lia|]. unfold is_sparse. by rewrite Hsp1.
    + destruct (push_wf m1 k v (Some (<[k := Some (to_key (sz m1))]> sp1)))
        as [Hwf' Helts'];
        [done|done|done|by rewrite Hk1|intros _; lia|by rewrite Hsp1|].
      simpl. rewrite Hsp1.
      split; [exact Hwf'|]. split; [by rewrite <- He1|].
      split; [simpl; lia|]. unfold is_sparse. by rewrite Hsp1.
  - destruct (push_wf m1 k v (sparse m1)) as [Hwf' Helts'];
      [done|done|done|by rewrite Hk1|by rewrite Hsp1; intros [? ?]
      |by rewrite Hsp1|].
    split; [exact Hwf'|]. split; [by rewrite <- He1|].
    split; [simpl; lia|]. unfold is_sparse. simpl. by rewrite Hsp1.
Qed.

Lemma clear_wf m : wf m → wf (clear m).
Proof.
  intros [H1 H2 H3 H4 H5 H6 H7].
  split; simpl; try done; try lia;
    try apply Forall_nil_2; try apply NoDup_nil_2.
  intros sp Hsp. destruct (H7 sp Hsp) as (? & ? & _). done.
Qed.

(** *** Swap-remove *)

Lemma scan_take k l n i e :
  take n l !! i = Some e → key e = k → NoDup (key <$> take n l) →
  scan k l = Some i.
Proof.
  revert n i. induction l as [|e0 l IH]; intros n i Hi Hk Hnd.
  - by rewrite take_nil in Hi.
  - destruct n as [|n]; [done|]. simpl in *.
    apply NoDup_cons in Hnd as [Hne Hnd].
    destruct i as [|i]; simplify_eq/=.
    + by rewrite Nat.eqb_refl.
    + destruct (Nat.eqb_spec (key e0) (key e)) as [Heq|_].
      * exfalso. apply Hne. rewrite Heq. apply list_elem_of_fmap.
        exists e. split; [done|]. by eapply list_elem_of_lookup_2.
      * by rewrite (IH n i).
Qed.

Lemma swap_remove_perm (l : list elt_t) n i e repl :
  l !! n = Some repl → l !! i = Some e → i ≤ n →
  take (S n) l ≡ₚ e :: take n (<[i := repl]> l).
Proof.
  intros Hn Hi Hle. rewrite (take_S_r _ _ _ Hn).
  destruct (decide (i = n)) as [->|Hne].
  - rewrite take_insert_ge by lia. simplify_eq.
    symmetry. apply Permutation_cons_append.
  - rewrite take_insert_lt by lia.
    assert (take n l !! i = Some e) as Ht by (apply lookup_take_Some; split; [done|lia]).
    rewrite insert_take_drop by (by eapply lookup_lt_Some).
    rewrite <- (take_drop_middle (take n l) i e) at 1 by done.
    rewrite <- app_assoc. simpl.
    rewrite <- !Permutation_middle.
    by rewrite app_nil_r.
Qed.

Lemma perm_keys m m' e :
  wf m → elts m ≡ₚ e :: elts m' →
  Forall (λ k, k < key_range) (keys m') ∧ NoDup (keys m') ∧ key e ∉ keys m'.
Proof.
  intros Hwf Hp.
  assert (keys m ≡ₚ key e :: keys m') as Hpk.
  { unfold keys. by rewrite Hp. }
  pose proof (wf_keys _ Hwf) as Hk. pose proof (wf_nodup _ Hwf) as Hnd.
  rewrite Hpk in Hk, Hnd.
  apply Forall_cons in Hk as [_ Hk]. apply NoDup_cons in Hnd as [? ?]. done.
Qed.

Lemma remove_spec m k :
  wf m → k ∈ keys m →
  ∃ m' e, remove m k = Some m' ∧ wf m' ∧ S (sz m') = sz m ∧
    is_sparse m' = is_sparse m ∧ key e = k ∧ elts m ≡ₚ e :: elts m'.
Proof.
  intros Hwf Hk.
  apply list_elem_of_fmap in Hk as (e & -> & He).
  apply list_elem_of_lookup in He as [i Hi].
  pose proof Hi as Hi'. apply elts_lookup in Hi' as [Hdi Hlt].
  pose proof Hwf as [H1 H2 H3 H4 H5 H6 H7].
  destruct (sz m) as [|n] eqn:Hsz; [lia|].
  destruct (lookup_lt_is_Some_2 (dense m) n) as [repl Hrepl]; [lia|].
  assert (elts m !! n = Some repl) as Hn.
  { apply elts_lookup. split; [done|lia]. }
  assert (elts m = take (S n) (dense m)) as Helts.
  { unfold elts. by rewrite Hsz. }
  pose proof (swap_remove_perm (dense m) n i e repl Hrepl Hdi ltac:(lia)) as Hp.
  rewrite <- Helts in Hp.
  assert (∀ j e', j < n → j ≠ i → dense m !! j = Some e' → key e' ≠ key repl)
    as Hother.
  { intros j e' Hj Hji Hdj Heq.
    assert (j = n); [|lia].
    eapply (NoDup_lookup (keys m)); [done| |].
    - unfold keys. rewrite list_lookup_fmap.
      erewrite (proj2 (elts_lookup m j e')); [done|]. split; [done|lia].
    - unfold keys. rewrite list_lookup_fmap, Hn. simpl. by rewrite Heq. }
  unfold remove. rewrite Hsz, Hrepl. simpl.
  destruct (sparse m) as [sp|] eqn:Hsp.
  - destruct (H7 sp eq_refl) as (Hlen & Hpos & Hidx).
    pose proof (Hidx _ _ Hi) as Hspi. pose proof (Hidx _ _ Hn) as Hspn.
    rewrite Hspi. simpl.
    assert (i < length (dense m)) as Hil by (by eapply lookup_lt_Some).
    assert (key repl < length sp) as Hrl by (by eapply lookup_lt_Some).
    destruct (Nat.ltb_spec i (length (dense m))); [|lia].
    destruct (Nat.ltb_spec (key repl) (length sp)); [|lia]. simpl.
    eexists _, e. split; [done|].
    match goal with |- wf ?x ∧ _ => set (m' := x) end.
    assert (elts m ≡ₚ e :: elts m') as Hp' by done.
    destruct (perm_keys m m' e Hwf Hp') as (Hk' & Hnd' & _).
    split; [|by unfold is_sparse; simpl; rewrite Hsp].
    split; simpl; try done; try lia.
    + rewrite length_insert. lia.
    + by rewrite length_insert.
    + intros sp' [= <-]. rewrite length_insert.
      split; [done|]. split; [done|].
      intros j e' Hj. apply elts_lookup in Hj as [Hj Hjn]. simpl in Hj, Hjn.
      destruct (decide (j = i)) as [->|Hji].
      * rewrite list_lookup_insert_eq in Hj by done. simplify_eq.
        by rewrite list_lookup_insert_eq.
      * rewrite list_lookup_insert_ne in Hj by done.
        rewrite list_lookup_insert_ne by (symmetry; by eapply Hother).
        apply Hidx. apply elts_lookup. split; [done|lia].
  - rewrite (scan_take (key e) (dense m) (S n) i e); [|by rewrite <- Helts|done|].
    2:{ rewrite <- Helts. apply H6. }
    simpl. eexists _, e. split; [done|].
    match goal with |- wf ?x ∧ _ => set (m' := x) end.
    assert (elts m ≡ₚ e :: elts m') as Hp' by done.
    destruct (perm_keys m m' e Hwf Hp') as (Hk' & Hnd' & _).
    split; [|by unfold is_sparse; simpl; rewrite Hsp].
    split; simpl; try done; try lia.
    + rewrite length_insert. lia.
    + by rewrite length_insert.
Qed.

Lemma remove_elts m m' e :
  wf m → elts m ≡ₚ e :: elts m' →
  ∀ e', e' ∈ elts m' ↔ e' ∈ elts m ∧ key e' ≠ key e.
Proof.
  intros Hwf Hp e'. destruct (perm_keys m m' e Hwf Hp) as (_ & _ & Hne).
  rewrite Hp, elem_of_cons. split.
  - intros He'. split; [by right|]. intros Heq. apply Hne. rewrite <- Heq.
    unfold keys. apply list_elem_of_fmap. by exists e'.
  - intros [[->|?] Hk]; done.
Qed.

(** *** Simulation of the finite-map reference *)

Lemma dense_mode_small m : wf m → is_sparse m = false → sz m ≤ sparse_threshold.
Proof.
  intros Hwf Hd. unfold is_sparse in Hd.
  destruct (sparse m) eqn:Hsp; [done|].
  pose proof (wf_dense_mode _ Hwf Hsp). pose proof (wf_sz _ Hwf).
  pose proof (wf_cap _ Hwf). lia.
Qed.

Lemma repr_keys m a k : repr m a → k ∈ keys m ↔ is_Some (a !! k).
Proof.
  intros Hr. rewrite elem_of_keys. unfold is_Some.
  split; intros [v Hv]; exists v; by apply Hr.
Qed.

Lemma step_sim m a o a' :
  wf m → repr m a → sz m = base.size a → ref_step a o = Some a' →
  ∃ m', step m o = Some m' ∧ wf m' ∧ repr m' a' ∧ sz m' = base.size a' ∧
        is_sparse m' = is_sparse m || (sparse_threshold <? base.size a').
Proof.
  intros Hwf Hr Hsz Hstep.
  assert (is_sparse m = false → base.size a ≤ sparse_threshold) as Hsmall.
  { intros Hd. rewrite <- Hsz. by apply dense_mode_small. }
  destruct o as [k v|k|]; simpl in *.
  - case_decide as Hpre; [|done]. destruct Hpre as [Hk Hnone]. simplify_eq.
    assert (k ∉ keys m) as Hnk.
    { rewrite (repr_keys m a) by done. rewrite Hnone. by intros [? ?]. }
    destruct (add_spec m k v Hwf Hk Hnk) as (Hwf' & Helts & Hsz' & Hmode).
    eexists. split; [done|]. split; [done|].
    rewrite map_size_insert_None by done. split; [|split; [lia|]].
    + intros k' v'. rewrite Helts, elem_of_app, list_elem_of_singleton.
      rewrite (Hr k' v'). destruct (decide (k' = k)) as [->|Hne].
      * rewrite lookup_insert_eq, Hnone. naive_solver.
      * rewrite lookup_insert_ne by done. naive_solver.
    + rewrite Hmode, <- Hsz. done.
  - case_decide as Hpre; [|done]. simplify_eq.
    assert (k ∈ keys m) as Hin by (by apply (repr_keys m a)).
    destruct (remove_spec m k Hwf Hin) as (m' & e & Hrem & Hwf' & Hsz' & Hmode & Hke & Hp).
    exists m'. split; [done|]. split; [done|].
    destruct Hpre as [v Hv].
    rewrite map_size_delete_Some by done. split; [|split; [lia|]].
    + intros k' v'. rewrite (remove_elts m m' e Hwf Hp), (Hr k' v'). simpl.
      rewrite Hke. destruct (decide (k' = k)) as [->|Hne].
      * rewrite lookup_delete_eq. naive_solver.
      * rewrite lookup_delete_ne by done. naive_solver.
    + rewrite Hmode. destruct (is_sparse m) eqn:Hd; [done|]. simpl.
      specialize (Hsmall eq_refl).
      symmetry. apply Nat.ltb_ge. lia.
  - simplify_eq. eexists. split; [done|]. split; [by apply clear_wf|].
    rewrite map_size_empty. split; [|split; [done|]].
    + intros k v. unfold elts. simpl. rewrite lookup_empty.
      split; [by intros ?%elem_of_nil|done].
    + unfold is_sparse. simpl. by rewrite orb_false_r.
Qed.

Lemma peak_ge a ops : base.size a ≤ peak a ops.
Proof. destruct ops as [|o ops]; simpl; [done|]. destruct (ref_step a o); lia. Qed.

Lemma run_sim ops m a a' :
  wf m → repr m a → sz m = base.size a → ref_run a ops = Some a' →
  ∃ m', run m ops = Some m' ∧ wf m' ∧ repr m' a' ∧ sz m' = base.size a' ∧
        is_sparse m' = is_sparse m || (sparse_threshold <? peak a ops).
Proof.
  revert m a. induction ops as [|o ops IH]; intros m a Hwf Hr Hsz Hrun.
  - unfold ref_run, run in *. simpl in *. simplify_eq.
    exists m. do 4 (split; [done|]).
    destruct (is_sparse m) eqn:Hd; [done|]. simpl.
    symmetry. apply Nat.ltb_ge. rewrite <- Hsz. by apply dense_mode_small.
  - unfold ref_run in Hrun. simpl in Hrun.
    destruct (ref_step a o) as [a1|] eqn:Hstep; [|done]. simpl in Hrun.
    destruct (step_sim m a o a1 Hwf Hr Hsz Hstep)
      as (m1 & Hs1 & Hwf1 & Hr1 & Hsz1 & Hmode1).
    destruct (IH m1 a1 Hwf1 Hr1 Hsz1 Hrun)
      as (m' & Hrun' & Hwf' & Hr' & Hsz' & Hmode').
    exists m'. unfold run. simpl. rewrite Hs1. simpl.
    do 4 (split; [done|]).
    rewrite Hmode', Hmode1, Hstep.
    destruct (is_sparse m) eqn:Hd; [done|]. simpl.
    pose proof (dense_mode_small m Hwf Hd) as Hsmall. rewrite Hsz in Hsmall.
    pose proof (peak_ge a1 ops) as Hge.
    destruct (Nat.ltb_spec sparse_threshold (base.size a1)),
      (Nat.ltb_spec sparse_threshold (peak a1 ops)),
      (Nat.ltb_spec sparse_threshold (base.size a `max` peak a1 ops));
      simpl; (done || lia).
Qed.

Lemma repr_init : repr init ∅.
Proof.
  intros k v. unfold elts. simpl. rewrite lookup_empty.
  split; [by intros ?%elem_of_nil|done].
Qed.

Lemma repr_lookup junk m a k : wf m → repr m a → lookup junk m k = a !! k.
Proof.
  intros Hwf Hr. destruct (a !! k) as [v|] eqn:Ha.
  - apply lookup_Some; [done|]. by apply Hr.
  - destruct (lookup junk m k) as [v|] eqn:Hl; [|done].
    apply lookup_Some in Hl; [|done]. apply Hr in Hl. congruence.
Qed.

(** C4. For every sequence of [add] (key absent) and [remove] (key
    present) calls, and also [clear], started from the empty map:
    [lookup] returns for every key what the finite-map reference holds,
    that is a value exactly for the keys added and not later removed, the
    value of the most recent [add]; and [size] is the number of live keys.
    This holds whatever an ill-defined read of the sparse table yields. *)
Theorem lookup_size_follow_reference ops a :
  ref_run ∅ ops = Some a →
  ∃ m, run init ops = Some m ∧
    (∀ junk k, lookup junk m k = a !! k) ∧
    size m = base.size a.
Proof.
  intros Hrun.
  destruct (run_sim ops init ∅ a smap_wf_init repr_init eq_refl Hrun)
    as (m & Hm & Hwf & Hr & Hsz & _).
  exists m. split; [done|]. split; [|done].
  intros junk k. by apply repr_lookup.
Qed.

Lemma lookup_size_follow_reference_witness :
  ∃ m, run init [Add 3 7; Add 5 9; Remove 3; Add 3 11] = Some m ∧
    (∀ junk k, lookup junk m k = ({[3 := 11; 5 := 9]} : gmap nat nat) !! k) ∧
    size m = base.size ({[3 := 11; 5 := 9]} : gmap nat nat).
Proof.
  apply (lookup_size_follow_reference
           [Add 3 7; Add 5 9; Remove 3; Add 3 11] {[3 := 11; 5 := 9]}).
  vm_compute. reflexivity.
Defined.

(** C5. Along every valid sequence of [add], [remove] and [clear] calls
    the map is in sparse mode exactly when the number of live keys has
    exceeded the dense threshold of 8 at some point of the run, so it
    switches on the first growth past 8 and never switches back; and in
    sparse mode every live position [i] satisfies
    [sparse[dense[i].key] = i]. *)
Theorem mode_switch_and_sparse_index ops a :
  ref_run ∅ ops = Some a →
  ∃ m, run init ops = Some m ∧
    (is_sparse m = true ↔ sparse_threshold < peak ∅ ops) ∧
    (∀ sp i e, sparse m = Some sp → i < sz m → dense m !! i = Some e →
               sp !! key e = Some (Some i)).
Proof.
  intros Hrun.
  destruct (run_sim ops init ∅ a smap_wf_init repr_init eq_refl Hrun)
    as (m & Hm & Hwf & Hr & Hsz & Hmode).
  exists m. split; [done|]. split.
  - rewrite Hmode. simpl. apply Nat.ltb_lt.
  - intros sp i e Hsp Hi He.
    destruct (wf_sparse _ Hwf sp Hsp) as (_ & _ & Hidx).
    apply Hidx. by apply elts_lookup.
Qed.


Lemma mode_switch_and_sparse_index_witness :
  ∃ m, run init churn_ops = Some m ∧
    (is_sparse m = true ↔ sparse_threshold < peak ∅ churn_ops) ∧
    (∀ sp i e, sparse m = Some sp → i < sz m → dense m !! i = Some e →
               sp !! key e = Some (Some i)).
Proof.
  apply (mode_switch_and_sparse_index churn_ops ∅).
  vm_compute. reflexivity.
Defined.

Lemma nine_wf : wf nine ∧ is_sparse nine = true.
Proof.
  destruct (ref_run ∅ nine_ops) as [a|] eqn:Ha; [|by vm_compute in Ha].
  destruct (run_sim nine_ops init ∅ a smap_wf_init repr_init eq_refl Ha)
    as (m & Hm & Hwf & _).
  unfold nine. rewrite Hm. simpl. split; [done|].
  revert Hm. clear. unfold nine_ops. by intros [= <-].
Qed.

(** C6, as stated, fails: in the sparse-mode map [nine], whose table has
    16 cells, [elem] and [lookup] read [sparse[100]], which lies outside
    the table, and [sparse[12]], a cell that was never written. *)
Lemma sparse_read_not_always_defined :
  wf nine ∧ is_sparse nine = true ∧ sparse_ub nine = 16 ∧
  read_defined nine 100 = false ∧ read_defined nine 12 = false.
Proof.
  destruct nine_wf as [Hwf Hsp]. split; [done|]. split; [done|].
  clear. by vm_compute.
Qed.

(** C6 (amended). In sparse mode [elem] and [lookup] index the table with
    any key, without a bounds check.  The read is inside the table and
    initialised whenever the key is present; for an absent key it may be
    out of bounds or uninitialised, and whatever value [junk] it yields,
    [elem] and [lookup] report the key as absent. *)
Theorem sparse_lookup_any_read junk m k :
  wf m → is_sparse m = true →
  (elem junk m k = true ↔ k ∈ keys m) ∧
  (∀ v, lookup junk m k = Some v ↔ Elt k v ∈ elts m) ∧
  (k ∉ keys m → elem junk m k = false ∧ lookup junk m k = None) ∧
  (k ∈ keys m → read_defined m k = true).
Proof.
  intros Hwf Hmode. split; [by apply elem_true|].
  split; [intros v; by apply lookup_Some|]. split.
  - intros Hk. split; [|by apply lookup_None].
    destruct (elem junk m k) eqn:He; [|done].
    by apply elem_true in He.
  - intros (e & -> & [i Hi]%list_elem_of_lookup)%list_elem_of_fmap.
    unfold read_defined, is_sparse in *.
    destruct (sparse m) as [sp|] eqn:Hsp; [|done].
    destruct (wf_sparse _ Hwf sp Hsp) as (_ & _ & Hidx).
    unfold sparse_read_defined. by rewrite (Hidx _ _ Hi).
Qed.

Lemma sparse_lookup_any_read_witness :
  (elem 7 nine 100 = true ↔ 100 ∈ keys nine) ∧
  (∀ v, lookup 7 nine 100 = Some v ↔ Elt 100 v ∈ elts nine) ∧
  (100 ∉ keys nine → elem 7 nine 100 = false ∧ lookup 7 nine 100 = None) ∧
  (100 ∈ keys nine → read_defined nine 100 = true).
Proof.
  apply (sparse_lookup_any_read 7 nine 100); apply nine_wf.
Defined.

End AdaptSMapFacts.


(** ** AdaptGraph *)

Lemma for_each_ind {A St : Type} (I : nat → St → Prop)
    (body : St → A → option St) (l : list A) (s : St) :
  I 0 s →
  (∀ j x s, l !! j = Some x → I j s → ∃ s', body s x = Some s' ∧ I (S j) s') →
  ∃ s', for_each body s l = Some s' ∧ I (length l) s'.
Proof.
  revert I s. induction l as [|x l IH]; intros I s H0 Hstep; simpl.
  - by exists s.
  - destruct (Hstep 0 x s eq_refl H0) as (s1 & -> & H1). simpl.
    apply (IH (λ j, I (S j))); [done|].
    intros j y s2 Hj Hs2. by apply (Hstep (S j)).
Qed.

Module AdaptGraphFacts.
Import AdaptGraph AdaptGraphSpec.
Module SM := AdaptSMap.
Module SMS := AdaptSMapSpec.
Module SMF := AdaptSMapFacts.

(** *** Edges stored in a vector of maps *)

Lemma medge_lt ms a b i : medge ms a b i → a < length ms.
Proof. intros (m & Hm & _). by eapply lookup_lt_Some. Qed.

Lemma medge_key ms a b i :
  Forall SMS.wf ms → medge ms a b i → b < key_range.
Proof.
  intros Hwf (m & Hm & He).
  rewrite Forall_lookup in Hwf. pose proof (SMS.wf_keys _ (Hwf _ _ Hm)) as Hk.
  rewrite Forall_forall in Hk. apply Hk.
  apply SMF.elem_of_keys. by exists i.
Qed.

Lemma medge_insert ms a m' a0 b i :
  a < length ms →
  medge (<[a := m']> ms) a0 b i ↔
    (a0 = a ∧ SM.Elt b i ∈ SM.elts m') ∨ (a0 ≠ a ∧ medge ms a0 b i).
Proof.
  intros Ha. unfold medge. destruct (decide (a0 = a)) as [->|Hne].
  - rewrite list_lookup_insert_eq by done. naive_solver.
  - rewrite list_lookup_insert_ne by done. naive_solver.
Qed.

Lemma medge_snoc_init ms a b i :
  medge (ms ++ [SM.init]) a b i ↔ medge ms a b i.
Proof.
  unfold medge. split.
  - intros (m & Hm & He). apply lookup_app_Some in Hm as [Hm|[_ Hm]].
    + by exists m.
    + apply list_lookup_singleton_Some in Hm as [_ <-].
      by apply elem_of_nil in He.
  - intros (m & Hm & He). exists m. split; [|done]. by apply lookup_app_l_Some.
Qed.

Lemma medge_keys ms a m b :
  ms !! a = Some m → b ∈ SM.keys m ↔ ∃ i, medge ms a b i.
Proof.
  intros Hm. rewrite SMF.elem_of_keys. unfold medge. split.
  - intros [i Hi]. exists i, m. done.
  - intros (i & m' & Hm' & Hi). exists i. by simplify_eq.
Qed.

(** *** [ms[k].remove(v)] *)

Lemma remove_from_spec ms k v :
  Forall SMS.wf ms → v < key_range → (∃ i, medge ms k v i) →
  ∃ ms', remove_from ms k v = Some ms' ∧ length ms' = length ms ∧
    Forall SMS.wf ms' ∧
    ∀ a b i, medge ms' a b i ↔ medge ms a b i ∧ ¬ (a = k ∧ b = v).
Proof.
  intros Hwf Hv (i & m & Hm & Hi).
  assert (SMS.wf m) as Hwfm by (by eapply Forall_lookup_1).
  assert (v ∈ SM.keys m) as Hin by (apply SMF.elem_of_keys; eauto).
  destruct (SMF.remove_spec m v Hwfm Hin)
    as (m' & e & Hrem & Hwf' & _ & _ & Hke & Hp).
  unfold remove_from. rewrite Hm. simpl. rewrite to_key_small by done.
  rewrite Hrem. simpl. eexists. split; [done|].
  split; [by rewrite length_insert|]. split.
  - apply Forall_insert; done.
  - intros a b i'. rewrite medge_insert by (by eapply lookup_lt_Some).
    pose proof (SMF.remove_elts m m' e Hwfm Hp (SM.Elt b i')) as Hel.
    simpl in Hel. rewrite Hke in Hel. rewrite Hel. unfold medge.
    split.
    + intros [[-> [? ?]]|[? ?]]; [|naive_solver].
      split; [by exists m|]. naive_solver.
    + intros [(m0 & Hm0 & ?) Hn]. destruct (decide (a = k)) as [->|?].
      * left. simplify_eq. split; [done|]. split; [done|]. naive_solver.
      * right. split; [done|]. by exists m0.
Qed.

Lemma remove_each_spec ms ks v :
  Forall SMS.wf ms → v < key_range → NoDup ks →
  (∀ k, k ∈ ks → ∃ i, medge ms k v i) →
  ∃ ms', for_each (λ ms k, remove_from ms k v) ms ks = Some ms' ∧
    length ms' = length ms ∧ Forall SMS.wf ms' ∧
    ∀ a b i, medge ms' a b i ↔ medge ms a b i ∧ ¬ (a ∈ ks ∧ b = v).
Proof.
  intros Hwf Hv. revert ms Hwf.
  induction ks as [|k ks IH]; intros ms Hwf Hnd Hall; simpl.
  - exists ms. do 3 (split; [done|]). intros a b i.
    split; [|naive_solver]. intros ?. split; [done|].
    intros [?%elem_of_nil _]. done.
  - apply NoDup_cons in Hnd as [Hk Hnd].
    destruct (remove_from_spec ms k v Hwf Hv (Hall k ltac:(left)))
      as (ms1 & -> & Hlen1 & Hwf1 & He1). simpl.
    destruct (IH ms1 Hwf1 Hnd) as (ms' & -> & Hlen' & Hwf' & He').
    { intros k' Hk'. destruct (Hall k' ltac:(by right)) as [i Hi].
      exists i. apply He1. split; [done|]. intros [-> _]. done. }
    exists ms'. split; [done|]. split; [congruence|]. split; [done|].
    intros a b i. rewrite He', He1, elem_of_cons. naive_solver.
Qed.

Lemma forget_succ_eq v g e :
  forget_succ v g e =
    ps ← remove_from (_preds g) (SM.key e) v;
    Some (set_preds ps (set_free_widx (free_widx g ++ [SM.val e]) g)).
Proof. done. Qed.

Lemma forget_pred_eq v g k :
  forget_pred v g k = ss ← remove_from (_succs g) k v; Some (set_succs ss g).
Proof. done. Qed.

Lemma for_each_forget_succ v g es :
  for_each (forget_succ v) g es =
    ps ← for_each (λ ms k, remove_from ms k v) (_preds g) (SM.key <$> es);
    Some (set_preds ps (set_free_widx (free_widx g ++ (SM.val <$> es)) g)).
Proof.
  revert g. induction es as [|e es IH]; intros g.
  - simpl. destruct g. unfold set_preds, set_free_widx. simpl. by rewrite app_nil_r.
  - change (for_each (forget_succ v) g (e :: es))
      with (forget_succ v g e ≫= λ s', for_each (forget_succ v) s' es).
    rewrite forget_succ_eq. simpl.
    destruct (remove_from (_preds g) (SM.key e) v) as [ps|]; simpl; [|done].
    rewrite IH. simpl.
    destruct (for_each _ ps _); simpl; [|done].
    unfold set_preds, set_free_widx. simpl. by rewrite <- app_assoc.
Qed.

Lemma for_each_forget_pred v g ks :
  for_each (forget_pred v) g ks =
    ss ← for_each (λ ms k, remove_from ms k v) (_succs g) ks;
    Some (set_succs ss g).
Proof.
  revert g. induction ks as [|k ks IH]; intros g.
  - by destruct g.
  - change (for_each (forget_pred v) g (k :: ks))
      with (forget_pred v g k ≫= λ s', for_each (forget_pred v) s' ks).
    rewrite forget_pred_eq. simpl.
    destruct (remove_from (_succs g) k v) as [ss|]; simpl; [|done].
    rewrite IH. simpl. by destruct (for_each _ ss _).
Qed.

(** *** The operations keep the invariant *)

Lemma graph_wf_init : wf init.
Proof.
  split; simpl; try done; try by constructor.
  - intros s d i. split; intros (m & Hm & _); done.
  - intros s d i (m & Hm & _); done.
  - intros s d s' d' i (m & Hm & _); done.
  - intros v Hv. by apply elem_of_nil in Hv.
Qed.

Lemma new_vertex_wf g v g' :
  wf g → new_vertex g = Some (v, g') →
  wf g' ∧ size g ≤ size g' ∧ is_free g' !! v = Some false.
Proof.
  intros [H1 H2 H3 H4 H5 H6 H7 H8 H9 H10 H11]. unfold new_vertex.
  destruct (last (free_id g)) as [v0|] eqn:Hlast.
  - apply last_Some in Hlast as [l Hl].
    destruct (Nat.ltb_spec v0 (length (_succs g))); [|done].
    unfold vec_set. destruct (Nat.ltb_spec v0 (length (is_free g))); [|done].
    simpl. intros [= <- <-]. rewrite Hl, removelast_last.
    rewrite Hl in H10, H11. apply NoDup_app in H10 as (Hnd & Hdisj & _).
    split; [|split; [done|by apply list_lookup_insert_eq]].
    split; simpl; try done.
    + by rewrite length_insert.
    + intros x Hx. rewrite list_lookup_insert_ne.
      * apply H11, elem_of_app. by left.
      * intros <-. apply (Hdisj _ Hx). by left.
  - intros [= <- <-]. apply last_None in Hlast.
    split; [|split; [unfold size; simpl; rewrite length_app; lia|]].
    2:{ simpl. rewrite <- H2. by apply list_lookup_middle. }
    split; simpl; try done.
    + rewrite !length_app. simpl. lia.
    + rewrite !length_app. simpl. lia.
    + apply Forall_app. split; [done|]. constructor; [apply SMF.smap_wf_init|done].
    + apply Forall_app. split; [done|]. constructor; [apply SMF.smap_wf_init|done].
    + intros s d i. rewrite !medge_snoc_init. apply H5.
    + intros s d i. rewrite medge_snoc_init. apply H6.
    + intros s d s' d' i. rewrite !medge_snoc_init. apply H7.
    + rewrite Hlast. by intros x ?%elem_of_nil.
Qed.

Lemma set_ws_wf g ws :
  wf g → length ws = length (_ws g) → wf (set_ws ws g).
Proof.
  intros [H1 H2 H3 H4 H5 H6 H7 H8 H9 H10 H11] Hlen.
  split; simpl; try done; rewrite ?Hlen; done.
Qed.

Lemma medge_add ms a m b idx :
  ms !! a = Some m → Forall SMS.wf ms → b < key_range → b ∉ SM.keys m →
  Forall SMS.wf (<[a := SM.add m b idx]> ms) ∧
  ∀ a0 b0 i0, medge (<[a := SM.add m b idx]> ms) a0 b0 i0 ↔
              medge ms a0 b0 i0 ∨ (a0 = a ∧ b0 = b ∧ i0 = idx).
Proof.
  intros Hm Hwf Hb Hnb.
  assert (SMS.wf m) as Hwfm by (by eapply Forall_lookup_1).
  destruct (SMF.add_spec m b idx Hwfm Hb Hnb) as (Hwf' & Helts & _).
  split; [by apply Forall_insert|].
  intros a0 b0 i0. rewrite medge_insert by (by eapply lookup_lt_Some).
  rewrite Helts, elem_of_app, list_elem_of_singleton. unfold medge. split.
  - intros [[-> [?|?]]|[? ?]]; [left; by exists m|right; by simplify_eq|by left].
  - intros [(m0 & Hm0 & ?)|(-> & -> & ->)].
    + destruct (decide (a0 = a)) as [->|?]; [|right; split; [done|by exists m0]].
      left. simplify_eq. split; [done|by left].
    + left. split; [done|by right].
Qed.

Lemma alloc_widx_spec g w :
  wf g →
  ∃ idx g1, alloc_widx g w = Some (idx, g1) ∧
    _succs g1 = _succs g ∧ _preds g1 = _preds g ∧ is_free g1 = is_free g ∧
    free_id g1 = free_id g ∧
    (idx < length (_ws g1)) ∧ (length (_ws g) ≤ length (_ws g1)) ∧
    (idx ∉ free_widx g1) ∧ NoDup (free_widx g1) ∧
    Forall (λ i, i < length (_ws g1)) (free_widx g1) ∧
    (∀ i, i ∈ free_widx g1 → i ∈ free_widx g) ∧
    (∀ s d, ¬ medge (_succs g) s d idx) ∧
    _ws g1 !! idx = Some w.
Proof.
  intros [H1 H2 H3 H4 H5 H6 H7 H8 H9 H10 H11]. unfold alloc_widx.
  destruct (last (free_widx g)) as [idx|] eqn:Hlast.
  - apply last_Some in Hlast as [l Hl]. rewrite Hl in *.
    apply NoDup_app in H8 as (Hnd & Hdisj & _).
    apply Forall_app in H9 as [Hlt Hidx]. rewrite Forall_singleton in Hidx.
    unfold vec_set. destruct (Nat.ltb_spec idx (length (_ws g))); [|lia].
    simpl. eexists _, _. split; [done|]. simpl.
    rewrite removelast_last, length_insert.
    do 4 (split; [done|]). split; [done|]. split; [done|]. split.
    { intros Hin. apply (Hdisj _ Hin). by left. }
    split; [done|]. split; [done|]. split.
    { intros i Hi. apply elem_of_app. by left. }
    split; [|by apply list_lookup_insert_eq].
    intros s0 d0 He. destruct (H6 _ _ _ He) as [_ Hn]. apply Hn.
    apply elem_of_app. right. by left.
  - apply last_None in Hlast.
    eexists _, _. split; [done|]. simpl. rewrite length_app, Hlast. simpl.
    do 4 (split; [done|]). split; [lia|]. split; [lia|].
    split; [by intros ?%elem_of_nil|]. split; [by constructor|].
    split; [by constructor|].
    split; [done|]. split; [|by apply list_lookup_middle].
    intros s0 d0 He. destruct (H6 _ _ _ He) as [? _]. lia.
Qed.

Lemma add_edge_wf g s w d :
  wf g → size g ≤ key_range → s < size g → d < size g →
  ¬ (∃ i, medge (_succs g) s d i) →
  ∃ g', add_edge g s w d = Some g' ∧ wf g' ∧ size g' = size g.
Proof.
  intros Hwf Hsize Hs Hd Hfresh.
  pose proof Hwf as [H1 H2 H3 H4 H5 H6 H7 H8 H9 H10 H11].
  unfold size in *.
  destruct (alloc_widx_spec g w Hwf)
    as (idx & g1 & Ha & Hs1 & Hp1 & Hf1 & Hi1 & Hidx & Hlen & Hnin & Hnd & Hlt & Hsub & Hunused & _).
  unfold add_edge. rewrite Ha.
  simpl. rewrite Hs1, Hp1.
  destruct (lookup_lt_is_Some_2 (_succs g) s Hs) as [sm Hsm].
  destruct (lookup_lt_is_Some_2 (_preds g) d ltac:(lia)) as [pm Hpm].
  rewrite Hsm. simpl. rewrite Hpm. simpl.
  rewrite (to_key_small d), (to_key_small s) by lia.
  eexists. split; [done|].
  assert (d ∉ SM.keys sm) as Hnd_s.
  { rewrite (medge_keys _ _ _ _ Hsm). done. }
  assert (s ∉ SM.keys pm) as Hns_p.
  { rewrite (medge_keys _ _ _ _ Hpm). intros [i Hi]. apply Hfresh.
    exists i. by apply H5. }
  destruct (medge_add _ s sm d idx Hsm H3 ltac:(lia) Hnd_s) as [Hwfs Hes].
  destruct (medge_add _ d pm s idx Hpm H4 ltac:(lia) Hns_p) as [Hwfp Hep].
  split; [|by simpl; rewrite length_insert].
  split; simpl; rewrite ?length_insert, ?Hf1, ?Hi1; try done.
  - intros s0 d0 i0. rewrite Hes, Hep, H5. naive_solver.
  - intros s0 d0 i0. rewrite Hes. intros [He|(-> & -> & ->)]; [|done].
    destruct (H6 _ _ _ He) as [? Hn]. split; [lia|]. intros Hin. by apply Hn, Hsub.
  - intros s0 d0 s' d' i0. rewrite !Hes.
    intros [He|(-> & -> & ->)] [He'|(-> & -> & Hi)]; [by eapply H7| | |done].
    + subst i0. by apply Hunused in He.
    + by apply Hunused in He'.
Qed.

Lemma elts_clear m : SM.elts (SM.clear m) = [].
Proof. done. Qed.

Lemma forget_spec g v :
  wf g → size g ≤ key_range → is_free g !! v = Some false →
  ∃ g' sv, forget g v = Some g' ∧ wf g' ∧ size g' = size g ∧
    _succs g !! v = Some sv ∧
    _ws g' = _ws g ∧
    free_widx g' = free_widx g ++ (SM.val <$> SM.elts sv) ∧
    free_id g' = free_id g ++ [v] ∧
    is_free g' = <[v := true]> (is_free g) ∧
    (∀ a b i, medge (_succs g') a b i ↔
              medge (_succs g) a b i ∧ a ≠ v ∧ b ≠ v) ∧
    (∀ a b i, medge (_preds g') a b i ↔
              medge (_preds g) a b i ∧ a ≠ v ∧ b ≠ v).
Proof.
  intros Hwf Hsize Hfree.
  pose proof Hwf as [H1 H2 H3 H4 H5 H6 H7 H8 H9 H10 H11]. unfold size in *.
  assert (v < length (_succs g)) as Hv.
  { rewrite <- H2. by eapply lookup_lt_Some. }
  destruct (lookup_lt_is_Some_2 (_succs g) v Hv) as [sv Hsv].
  assert (SMS.wf sv) as Hwfsv by (by eapply (Forall_lookup_1 _ _ _ _ H3)).
  (* first loop *)
  destruct (remove_each_spec (_preds g) (SM.keys sv) v H4 ltac:(lia)
              (SMS.wf_nodup _ Hwfsv)) as (ps1 & Hloop1 & Hlen1 & Hwf1 & He1).
  { intros k Hk. apply (medge_keys _ _ _ _ Hsv) in Hk as [i Hi].
    exists i. by apply H5. }
  destruct (lookup_lt_is_Some_2 ps1 v ltac:(lia)) as [pv Hpv].
  assert (SMS.wf pv) as Hwfpv by (by eapply (Forall_lookup_1 _ _ _ _ Hwf1)).
  (* [_succs[v].clear()] *)
  set (ss3 := <[v := SM.clear sv]> (_succs g)).
  assert (Forall SMS.wf ss3) as Hwf3.
  { apply Forall_insert; [done|by apply SMF.clear_wf]. }
  assert (∀ a b i, medge ss3 a b i ↔ medge (_succs g) a b i ∧ a ≠ v) as He3.
  { intros a b i. unfold ss3. rewrite medge_insert by done.
    rewrite elts_clear. split.
    - intros [[_ Hin]|[? ?]]; [by apply elem_of_nil in Hin|done].
    - intros [? ?]. by right. }
  (* second loop *)
  destruct (remove_each_spec ss3 (SM.keys pv) v Hwf3 ltac:(lia)
              (SMS.wf_nodup _ Hwfpv)) as (ss4 & Hloop2 & Hlen4 & Hwf4 & He4).
  { intros k Hk. apply (medge_keys _ _ _ _ Hpv) in Hk as [i Hi].
    apply He1 in Hi as [Hi Hn]. exists i. apply He3.
    split; [by apply H5|]. intros ->. apply Hn. split; [|done].
    apply (medge_keys _ _ _ _ Hsv). exists i. by apply H5. }
  (* the edges that remain *)
  assert (∀ a b i, medge ss4 a b i ↔ medge (_succs g) a b i ∧ a ≠ v ∧ b ≠ v)
    as Hsucc.
  { intros a b i. rewrite He4, He3. split.
    - intros [[He Ha] Hn]. do 2 (split; [done|]). intros ->. apply Hn.
      split; [|done]. apply (medge_keys _ _ _ _ Hpv). exists i.
      apply He1. split; [by apply H5|]. by intros [_ ->].
    - intros (He & Ha & Hb). split; [done|]. by intros [_ ->]. }
  assert (∀ a b i, medge (<[v := SM.clear pv]> ps1) a b i ↔
                   medge (_preds g) a b i ∧ a ≠ v ∧ b ≠ v) as Hpred.
  { intros a b i. rewrite medge_insert by lia. rewrite elts_clear, He1. split.
    - intros [[_ Hin]|[Ha [He Hn]]]; [by apply elem_of_nil in Hin|].
      do 2 (split; [done|]). intros ->. apply Hn. split; [|done].
      apply (medge_keys _ _ _ _ Hsv). exists i. by apply H5.
    - intros (He & Ha & Hb). right. split; [done|]. split; [done|].
      by intros [_ ->]. }
  (* the run *)
  unfold forget. rewrite Hfree. simpl. rewrite Hsv. simpl.
  rewrite for_each_forget_succ. fold (SM.keys sv). rewrite Hloop1. simpl.
  rewrite Hsv. simpl. fold ss3. rewrite Hpv. simpl.
  rewrite for_each_forget_pred. simpl. rewrite Hloop2. simpl.
  rewrite Hpv. simpl. unfold vec_set. simpl.
  destruct (Nat.ltb_spec v (length (is_free g))); [|lia]. simpl.
  eexists _, sv. split; [done|].
  assert (length ss4 = length (_succs g)) as Hlen4'.
  { rewrite Hlen4. unfold ss3. by rewrite length_insert. }
  split; [|split; [done|do 5 (split; [done|]); split; [exact Hsucc|exact Hpred]]].
  split; simpl; rewrite ?length_insert; try done; try lia.
  - apply Forall_insert; [done|by apply SMF.clear_wf].
  - intros s d i. rewrite Hsucc, Hpred, H5. naive_solver.
  - intros s d i. rewrite Hsucc. intros (He & Hs & Hd).
    destruct (H6 _ _ _ He) as [? Hn]. split; [done|].
    rewrite elem_of_app. intros [?|Hin]; [done|].
    apply list_elem_of_fmap in Hin as ([k i'] & -> & Hin). simpl in *.
    destruct (H7 s d v k i' He) as [? ?]; [by exists sv|done].
  - intros s d s' d' i. rewrite !Hsucc. intros [He _] [He' _]. by eapply H7.
  - apply NoDup_app. split; [done|]. split.
    + intros i Hi Hin.
      apply list_elem_of_fmap in Hin as ([k i'] & -> & Hin). simpl in *.
      destruct (H6 v k i') as [_ Hn]; [by exists sv|]. done.
    + apply NoDup_fmap_2_strong.
      * intros [k1 i1] [k2 i2] Hin1 Hin2 Heq. simpl in Heq. subst i2.
        destruct (H7 v k1 v k2 i1) as [_ ->]; [by exists sv|by exists sv|done].
      * eapply NoDup_fmap_1. apply (SMS.wf_nodup _ Hwfsv).
  - apply Forall_app. split; [done|]. apply Forall_fmap, Forall_forall.
    intros [k i] Hin. simpl. destruct (H6 v k i) as [? _]; [by exists sv|done].
  - apply NoDup_app. split; [done|]. split; [|apply NoDup_singleton].
    intros x Hx ->%list_elem_of_singleton. apply H11 in Hx. congruence.
  - intros x [Hx| ->%list_elem_of_singleton]%elem_of_app.
    + rewrite list_lookup_insert_ne; [by apply H11|].
      intros <-. apply H11 in Hx. congruence.
    + by apply list_lookup_insert_eq.
Qed.

(** *** The size never shrinks *)

Lemma vec_set_Some {A} (l l' : list A) i x :
  vec_set l i x = Some l' → i < length l ∧ l' = <[i := x]> l.
Proof.
  unfold vec_set. destruct (Nat.ltb_spec i (length l)); [|done].
  by intros [= <-].
Qed.

Lemma new_vertex_size g v g' : new_vertex g = Some (v, g') → size g ≤ size g'.
Proof.
  unfold new_vertex, size. destruct (last (free_id g)).
  - destruct (_ <? _); [|done].
    destruct (vec_set _ _ _); simpl; [|done]. by intros [= <- <-].
  - intros [= <- <-]. simpl. rewrite length_app. lia.
Qed.

Lemma alloc_widx_succs g w idx g1 :
  alloc_widx g w = Some (idx, g1) →
  _succs g1 = _succs g ∧ _preds g1 = _preds g.
Proof.
  unfold alloc_widx. destruct (last (free_widx g)).
  - destruct (vec_set _ _ _); simpl; [|done]. by intros [= <- <-].
  - by intros [= <- <-].
Qed.

Lemma add_edge_Some g s w d g' :
  add_edge g s w d = Some g' →
  s < length (_succs g) ∧ d < length (_preds g) ∧ size g' = size g.
Proof.
  unfold add_edge, size.
  destruct (alloc_widx g w) as [[idx g1]|] eqn:Ha; simpl; [|done].
  destruct (alloc_widx_succs _ _ _ _ Ha) as [-> ->].
  destruct (_succs g !! s) as [sm|] eqn:Hs; simpl; [|done].
  destruct (_preds g !! d) as [pm|] eqn:Hd; simpl; [|done].
  intros [= <-]. simpl. rewrite length_insert.
  split; [by eapply lookup_lt_Some|]. split; [by eapply lookup_lt_Some|done].
Qed.

Lemma remove_each_length ms ks v ms' :
  for_each (λ ms k, remove_from ms k v) ms ks = Some ms' →
  length ms' = length ms.
Proof.
  revert ms. induction ks as [|k ks IH]; intros ms; simpl.
  - by intros [= <-].
  - destruct (remove_from ms k v) as [ms1|] eqn:Hr1; simpl; [|done].
    intros Hr. rewrite (IH _ Hr). unfold remove_from in Hr1.
    destruct (ms !! k) as [m|]; simpl in Hr1; [|done].
    destruct (SM.remove m (to_key v)) as [m'|]; simplify_eq/=.
    by rewrite length_insert.
Qed.

Lemma forget_size g v g' : forget g v = Some g' → size g' = size g.
Proof.
  unfold forget, size.
  destruct (is_free g !! v) as [[]|]; simpl; [by intros [= <-]| |done].
  destruct (_succs g !! v) as [sv|]; simpl; [|done].
  rewrite for_each_forget_succ.
  destruct (for_each _ (_preds g) _) as [ps|]; simpl; [|done].
  destruct (_succs g !! v) as [sv1|]; simpl; [|done].
  destruct (ps !! v) as [pv|]; simpl; [|done].
  rewrite for_each_forget_pred. simpl.
  destruct (for_each _ _ (SM.keys pv)) as [ss|] eqn:Hss; simpl; [|done].
  apply remove_each_length in Hss. rewrite length_insert in Hss.
  destruct (ps !! v); simpl; [|done].
  destruct (vec_set _ _ _); simpl; [|done].
  by intros [= <-].
Qed.

(** *** Reachable graphs satisfy the invariant *)

Lemma absent_no_edge junk g s d sm :
  wf g → size g ≤ key_range → _succs g !! s = Some sm → d < size g →
  SM.lookup junk sm (to_key d) = None → ¬ (∃ i, medge (_succs g) s d i).
Proof.
  intros Hwf Hsize Hsm Hd Hl [i Hi].
  assert (SMS.wf sm) as Hwfsm by (by eapply (Forall_lookup_1 _ _ _ _ (wf_succs _ Hwf))).
  rewrite to_key_small in Hl by lia.
  apply SMF.lookup_None in Hl; [|done]. apply Hl.
  apply (medge_keys _ _ _ _ Hsm). by exists i.
Qed.

Lemma add_edge_absent_wf junk g s w d sm g' :
  wf g → size g ≤ key_range → _succs g !! s = Some sm →
  SM.lookup junk sm (to_key d) = None →
  add_edge g s w d = Some g' → wf g'.
Proof.
  intros Hwf Hsize Hsm Hl Hadd.
  destruct (add_edge_Some _ _ _ _ _ Hadd) as (Hs & Hd & _).
  rewrite (wf_len_preds _ Hwf) in Hd.
  destruct (add_edge_wf g s w d Hwf Hsize Hs Hd) as (g'' & Hadd' & Hwf' & _).
  { by eapply absent_no_edge. }
  by simplify_eq.
Qed.

Lemma update_edge_wf junk g s w d g' :
  wf g → size g ≤ key_range → update_edge junk g s w d = Some g' → wf g'.
Proof.
  intros Hwf Hsize. unfold update_edge.
  destruct (_succs g !! s) as [sm|] eqn:Hsm; simpl; [|done].
  destruct (SM.lookup junk sm (to_key d)) as [idx|] eqn:Hl.
  - destruct (_ws g !! idx) as [old|]; simpl; [|done].
    destruct (vec_set _ _ _) as [ws|] eqn:Hv; simpl; [|done].
    intros [= <-]. apply vec_set_Some in Hv as [_ ->].
    apply set_ws_wf; [done|by rewrite length_insert].
  - by eapply add_edge_absent_wf.
Qed.

Lemma set_edge_wf junk g s w d g' :
  wf g → size g ≤ key_range → set_edge junk g s w d = Some g' → wf g'.
Proof.
  intros Hwf Hsize. unfold set_edge.
  destruct (_succs g !! s) as [sm|] eqn:Hsm; simpl; [|done].
  destruct (SM.lookup junk sm (to_key d)) as [idx|] eqn:Hl.
  - destruct (vec_set _ _ _) as [ws|] eqn:Hv; simpl; [|done].
    intros [= <-]. apply vec_set_Some in Hv as [_ ->].
    apply set_ws_wf; [done|by rewrite length_insert].
  - by eapply add_edge_absent_wf.
Qed.

Lemma update_edge_size junk g s w d g' :
  update_edge junk g s w d = Some g' → size g' = size g.
Proof.
  unfold update_edge.
  destruct (_succs g !! s) as [sm|]; simpl; [|done].
  destruct (SM.lookup junk sm (to_key d)) as [idx|].
  - destruct (_ws g !! idx); simpl; [|done].
    destruct (vec_set _ _ _); simpl; [|done]. by intros [= <-].
  - intros Hadd. by destruct (add_edge_Some _ _ _ _ _ Hadd) as (_ & _ & ?).
Qed.

Lemma set_edge_size junk g s w d g' :
  set_edge junk g s w d = Some g' → size g' = size g.
Proof.
  unfold set_edge.
  destruct (_succs g !! s) as [sm|]; simpl; [|done].
  destruct (SM.lookup junk sm (to_key d)) as [idx|].
  - destruct (vec_set _ _ _); simpl; [|done]. by intros [= <-].
  - intros Hadd. by destruct (add_edge_Some _ _ _ _ _ Hadd) as (_ & _ & ?).
Qed.

Lemma reachable_wf g : reachable g → size g ≤ key_range → wf g.
Proof.
  induction 1 as [|g v g' _ IH Hnew|junk g s w d g' _ IH Hpre Hadd
                  |junk g s w d g' _ IH Hupd|junk g s w d g' _ IH Hset
                  |g v g' _ IH Hforget]; intros Hsize.
  - apply graph_wf_init.
  - pose proof (new_vertex_size _ _ _ Hnew).
    by apply (new_vertex_wf g v g'); [apply IH; lia|].
  - destruct (add_edge_Some _ _ _ _ _ Hadd) as (Hs & Hd & Hsz).
    rewrite Hsz in Hsize. specialize (IH Hsize).
    unfold elem in Hpre.
    destruct (_succs g !! s) as [sm|] eqn:Hsm; [|done].
    simpl in Hpre. injection Hpre as Hpre.
    apply (add_edge_absent_wf junk g s w d sm g'); try done.
    assert (SMS.wf sm) as Hwfsm by (by eapply (Forall_lookup_1 _ _ _ _ (wf_succs _ IH))).
    rewrite SMF.elem_lookup in Hpre by done.
    apply bool_decide_eq_false in Hpre.
    destruct (SM.lookup junk sm (to_key d)); [|done]. by destruct Hpre.
  - rewrite (update_edge_size _ _ _ _ _ _ Hupd) in Hsize.
    by eapply update_edge_wf; [apply IH| |].
  - rewrite (set_edge_size _ _ _ _ _ _ Hset) in Hsize.
    by eapply set_edge_wf; [apply IH| |].
  - rewrite (forget_size _ _ _ Hforget) in Hsize. specialize (IH Hsize).
    destruct (is_free g !! v) as [[]|] eqn:Hf.
    + unfold forget in Hforget. rewrite Hf in Hforget. by simplify_eq/=.
    + destruct (forget_spec g v IH Hsize Hf) as (g'' & sv & Hf' & Hwf' & _).
      by simplify_eq.
    + unfold forget in Hforget. by rewrite Hf in Hforget.
Qed.

Lemma grown_reachable n : reachable (grown n).
Proof.
  induction n as [|n IH]; [apply reach_init|].
  apply (reach_new_vertex (grown n) n); [done|].
  unfold new_vertex, grown. simpl. rewrite length_replicate.
  by rewrite !replicate_cons_app.
Qed.

Lemma three_reachable : reachable three.
Proof.
  apply (reach_add_edge 0 (grown 3) 0 5%Z 1); [apply grown_reachable|done|done].
Qed.

Lemma small_size n : n ≤ 100 → n ≤ key_range.
Proof. pose proof key_range_Z. lia. Qed.

(** C1 (amended). For every graph with at most 65536 vertices that is
    reachable by [new_vertex], [add_edge] (on an absent edge),
    [update_edge], [set_edge] and [forget], and for all vertices [s] and
    [d]: the successor map of [s] has [d] exactly when the predecessor
    map of [d] has [s]; both give the same weight index [i]; [weights[i]]
    exists and is the value [edge_val] returns for the edge; the slot is
    neither on the free list nor shared with another edge; and every
    vertex on [free_id] has [is_free[v] = true]. *)
Theorem reachable_coherent g :
  reachable g → size g ≤ key_range →
  (∀ s d sm pm, _succs g !! s = Some sm → _preds g !! d = Some pm →
     (∀ junk junk', SM.elem junk sm (to_key d) = SM.elem junk' pm (to_key s)) ∧
     (∀ junk junk',
        SM.lookup junk sm (to_key d) = SM.lookup junk' pm (to_key s)) ∧
     (∀ junk i, SM.lookup junk sm (to_key d) = Some i →
        (∃ w, _ws g !! i = Some w ∧ edge_val junk g s d = Some w) ∧
        (i ∉ free_widx g) ∧
        (∀ junk' s' d' sm', _succs g !! s' = Some sm' → d' < size g →
           SM.lookup junk' sm' (to_key d') = Some i → s' = s ∧ d' = d))) ∧
  (∀ v, v ∈ free_id g → is_free g !! v = Some true).
Proof.
  intros Hreach Hsize. pose proof (reachable_wf g Hreach Hsize) as Hwf.
  pose proof Hwf as [H1 H2 H3 H4 H5 H6 H7 H8 H9 H10 H11].
  split; [|done].
  intros s d sm pm Hsm Hpm.
  assert (s < key_range ∧ d < key_range) as [Hs Hd].
  { apply lookup_lt_Some in Hsm, Hpm. unfold size in Hsize. lia. }
  assert (SMS.wf sm) as Hwfsm by (by eapply (Forall_lookup_1 _ _ _ _ H3)).
  assert (SMS.wf pm) as Hwfpm by (by eapply (Forall_lookup_1 _ _ _ _ H4)).
  rewrite (to_key_small s), (to_key_small d) by done.
  assert (∀ junk i, SM.lookup junk sm d = Some i ↔ medge (_succs g) s d i)
    as Hls.
  { intros junk i. rewrite SMF.lookup_Some by done. unfold medge.
    split; [by exists sm|]. intros (? & ? & ?). by simplify_eq. }
  assert (∀ junk i, SM.lookup junk pm s = Some i ↔ medge (_preds g) d s i)
    as Hlp.
  { intros junk i. rewrite SMF.lookup_Some by done. unfold medge.
    split; [by exists pm|]. intros (? & ? & ?). by simplify_eq. }
  assert (∀ junk junk', SM.lookup junk sm d = SM.lookup junk' pm s) as Heq.
  { intros junk junk'. apply option_eq. intros i. by rewrite Hls, Hlp, H5. }
  split; [|split; [done|]].
  - intros junk junk'. rewrite !SMF.elem_lookup by done.
    by rewrite (Heq junk junk').
  - intros junk i Hi. pose proof Hi as He. apply Hls in He.
    destruct (H6 _ _ _ He) as [Hlt Hnf].
    destruct (lookup_lt_is_Some_2 (_ws g) i Hlt) as [w Hw].
    split; [|split; [done|]].
    + exists w. split; [done|]. unfold edge_val. rewrite Hsm. simpl.
      rewrite to_key_small by done. by rewrite Hi.
    + intros junk' s' d' sm' Hsm' Hd' Hi'.
      assert (SMS.wf sm') by (by eapply (Forall_lookup_1 _ _ _ _ H3)).
      rewrite to_key_small in Hi' by (unfold size in *; lia).
      apply SMF.lookup_Some in Hi'; [|done].
      destruct (H7 s' d' s d i); [by exists sm'|done|done].
Qed.

Lemma reachable_coherent_witness :
  (∀ s d sm pm, _succs three !! s = Some sm → _preds three !! d = Some pm →
     (∀ junk junk', SM.elem junk sm (to_key d) = SM.elem junk' pm (to_key s)) ∧
     (∀ junk junk',
        SM.lookup junk sm (to_key d) = SM.lookup junk' pm (to_key s)) ∧
     (∀ junk i, SM.lookup junk sm (to_key d) = Some i →
        (∃ w, _ws three !! i = Some w ∧ edge_val junk three s d = Some w) ∧
        (i ∉ free_widx three) ∧
        (∀ junk' s' d' sm', _succs three !! s' = Some sm' → d' < size three →
           SM.lookup junk' sm' (to_key d') = Some i → s' = s ∧ d' = d))) ∧
  (∀ v, v ∈ free_id three → is_free three !! v = Some true).
Proof.
  apply (reachable_coherent three).
  - apply three_reachable.
  - apply small_size. vm_compute. lia.
Defined.

Lemma to_key_key_range : to_key key_range = 0.
Proof.
  unfold to_key. apply Nat.Div0.mod_same.
Qed.

Lemma wrapped_eq :
  add_edge (grown (S key_range)) 0 5%Z key_range = Some wrapped ∧
  _succs wrapped !! 0 = Some (SM.add SM.init 0 0) ∧
  _preds wrapped !! 0 = Some SM.init.
Proof.
  assert (add_edge (grown (S key_range)) 0 5%Z key_range =
          Some {| _preds := <[key_range := SM.add SM.init 0 0]>
                              (replicate (S key_range) SM.init);
                  _succs := <[0 := SM.add SM.init 0 0]>
                              (replicate (S key_range) SM.init);
                  _ws := [5%Z]; edge_count := 1;
                  is_free := replicate (S key_range) false;
                  free_id := []; free_widx := [] |}) as Heq.
  { unfold add_edge, alloc_widx, grown. cbn -[replicate insert lookup to_key].
    rewrite lookup_replicate_2 by lia. cbn -[replicate insert lookup to_key].
    rewrite lookup_replicate_2 by lia. cbn -[replicate insert lookup to_key].
    by rewrite to_key_key_range, (to_key_small 0) by apply key_range_pos. }
  unfold wrapped. rewrite Heq. cbn -[replicate insert lookup].
  split; [reflexivity|]. split.
  - by rewrite list_lookup_insert_eq by (rewrite length_replicate; lia).
  - rewrite list_lookup_insert_ne by (pose proof key_range_pos; lia).
    by rewrite lookup_replicate_2 by lia.
Qed.

(** C1, as stated, fails once the graph has more vertices than [key_t]
    has values: after 65537 calls of [new_vertex], [add_edge(0, 5, 65536)]
    meets its precondition and stores key 0 in the successor map of
    vertex 0, while the predecessor map of vertex 0 stays empty. *)
Lemma symmetry_lost_past_key_range :
  reachable wrapped ∧
  _succs wrapped !! 0 = Some (SM.add SM.init 0 0) ∧
  _preds wrapped !! 0 = Some SM.init ∧
  SM.elem 0 (SM.add SM.init 0 0) (to_key 0) = true ∧
  SM.elem 0 SM.init (to_key 0) = false.
Proof.
  destruct wrapped_eq as (Hadd & Hs & Hp).
  split; [|split; [exact Hs|split; [exact Hp|]]].
  - apply (reach_add_edge 0 (grown (S key_range)) 0 5%Z key_range);
      [apply grown_reachable| |exact Hadd].
    clear. unfold elem, grown. cbn -[replicate lookup to_key].
    rewrite lookup_replicate_2 by lia. reflexivity.
  - clear. rewrite (to_key_small 0) by apply key_range_pos.
    split; reflexivity.
Qed.

(** C2, at the failing input.  With 20 edges into vertex 0, [forget(0)]
    frees no weight slot, and the 20 edges added afterwards take the
    weight vector from 20 to 40 slots.  With 20 edges out of vertex 0 the
    slots are freed and reused. *)
Theorem forget_leaks_predecessor_slots :
  length (_ws star_in) = 20 ∧
  free_widx <$> forget star_in 0 = Some [] ∧
  (λ g, length (_ws g)) <$> churn star_in (λ v, (λ s, (s, v)) <$> seq 1 20)
    = Some 40 ∧
  free_widx <$> forget star_out 0 = Some (seq 0 20) ∧
  (λ g, length (_ws g)) <$> churn star_out (λ v, (λ d, (v, d)) <$> seq 1 20)
    = Some 20.
Proof. by vm_compute. Qed.

(** C9. [forget] on a vertex that is already free returns the graph as it
    is: maps, weights, edge count and both free lists are unchanged. *)
Theorem forget_free_noop g v :
  is_free g !! v = Some true → forget g v = Some g.
Proof. intros Hf. unfold forget. by rewrite Hf. Qed.

Lemma forget_free_noop_witness :
  is_free three_forgotten !! 2 = Some true ∧
  forget three_forgotten 2 = Some three_forgotten.
Proof.
  split; [reflexivity|]. apply (forget_free_noop three_forgotten 2).
  reflexivity.
Defined.


Lemma std_min_Z a b : std_min a b = Z.min a b.
Proof. unfold std_min. destruct (Z.ltb_spec b a); lia. Qed.

Lemma wide_loop_eq :
  add_edge (grown (S key_range)) 0 5%Z 0 = Some wide_loop ∧
  _succs wide_loop !! 0 = Some (SM.add SM.init 0 0) ∧
  _preds wide_loop !! key_range = Some SM.init ∧
  _ws wide_loop = [5%Z] ∧ edge_count wide_loop = 1%Z ∧
  size wide_loop = S key_range.
Proof.
  assert (add_edge (grown (S key_range)) 0 5%Z 0 =
          Some {| _preds := <[0 := SM.add SM.init 0 0]>
                              (replicate (S key_range) SM.init);
                  _succs := <[0 := SM.add SM.init 0 0]>
                              (replicate (S key_range) SM.init);
                  _ws := [5%Z]; edge_count := 1;
                  is_free := replicate (S key_range) false;
                  free_id := []; free_widx := [] |}) as Heq.
  { unfold add_edge, alloc_widx, grown. cbn -[replicate insert lookup to_key].
    rewrite lookup_replicate_2 by lia. cbn -[replicate insert lookup to_key].
    by rewrite (to_key_small 0) by apply key_range_pos. }
  unfold wide_loop. rewrite Heq. cbn -[replicate insert lookup].
  split; [reflexivity|]. split.
  { by rewrite list_lookup_insert_eq by (rewrite length_replicate; lia). }
  split.
  { rewrite list_lookup_insert_ne by (pose proof key_range_pos; lia).
    by rewrite lookup_replicate_2 by lia. }
  split; [done|]. split; [done|].
  unfold size. cbn -[replicate insert]. by rewrite length_insert, length_replicate.
Qed.

(** C3, as stated, fails once the graph has more vertices than [key_t]
    has values.  Take 65537 vertices and the only edge [0 -> 0], of
    weight 5: vertex 65536 has no predecessor, so there is no edge from
    0 to 65536.  Yet [update_edge(0, 7, 65536)] finds the key 0 in the
    successor map of vertex 0, keeps the weight [min(5, 7) = 5] of the
    edge [0 -> 0] and adds no edge, and [edge_val(0, 65536)] is 5
    afterwards, not 7. *)
Lemma update_edge_aliases_past_key_range :
  reachable wide_loop ∧ size wide_loop = S key_range ∧
  _preds wide_loop !! key_range = Some SM.init ∧
  ∀ junk, ∃ g',
    update_edge junk wide_loop 0 7%Z key_range = Some g' ∧
    num_edges g' = num_edges wide_loop ∧
    _preds g' !! key_range = Some SM.init ∧
    ∀ junk', edge_val junk' g' 0 key_range = Some 5%Z.
Proof.
  destruct wide_loop_eq as (Hadd & Hs & Hp & Hws & Hec & Hsz).
  split; [|split; [exact Hsz|split; [exact Hp|]]].
  - apply (reach_add_edge 0 (grown (S key_range)) 0 5%Z 0);
      [apply grown_reachable| |exact Hadd].
    clear. unfold elem, grown. cbn -[replicate lookup to_key].
    rewrite lookup_replicate_2 by lia. reflexivity.
  - intros junk. exists wide_loop.
    assert (∀ j, SM.lookup j (SM.add SM.init 0 0) (to_key key_range)
                 = Some 0) as Hlk.
    { intros j. rewrite to_key_key_range. reflexivity. }
    split; [|split; [done|split; [exact Hp|]]].
    + unfold update_edge. rewrite Hs. cbn [mbind option_bind].
      rewrite Hlk, Hws. cbn. by destruct wide_loop.
    + intros junk'. unfold edge_val. rewrite Hs. cbn [mbind option_bind].
      by rewrite Hlk, Hws.
Qed.

(** C3 (amended). On a well-formed graph with at most 65536 vertices,
    [update_edge(s, w, d)] succeeds, and afterwards [edge_val(s, d)] is
    [min(prior, w)] when the successor map of [s] held [d], with weight
    [prior], and [w] when it did not, in which case the edge now
    exists. *)
Theorem update_edge_min junk junk' g s w d :
  wf g → size g ≤ key_range → s < size g → d < size g →
  ∃ g', update_edge junk g s w d = Some g' ∧
    ((elem junk g s d = Some true ∧ (∃ i, medge (_succs g) s d i) ∧
      ∃ prior, edge_val junk g s d = Some prior ∧
               edge_val junk' g' s d = Some (Z.min prior w)) ∨
     (elem junk g s d = Some false ∧ (¬ ∃ i, medge (_succs g) s d i) ∧
      elem junk' g' s d = Some true ∧
      edge_val junk' g' s d = Some w)).
Proof.
  intros Hwf Hsize Hs Hd.
  pose proof Hwf as [H1 H2 H3 H4 H5 H6 H7 H8 H9 H10 H11].
  unfold size in *.
  assert (to_key d = d) as Htk by (apply to_key_small; lia).
  destruct (lookup_lt_is_Some_2 (_succs g) s Hs) as [sm Hsm].
  assert (SMS.wf sm) as Hwfsm by (by eapply (Forall_lookup_1 _ _ _ _ H3)).
  unfold update_edge, elem, edge_val. rewrite Hsm. simpl.
  rewrite (SMF.elem_lookup junk sm) by done.
  destruct (SM.lookup junk sm (to_key d)) as [idx|] eqn:Hl.
  - assert (medge (_succs g) s (to_key d) idx) as He.
    { exists sm. split; [done|]. by apply (SMF.lookup_Some junk). }
    destruct (H6 _ _ _ He) as [Hlt _].
    destruct (lookup_lt_is_Some_2 (_ws g) idx Hlt) as [old Hold].
    rewrite Hold. simpl. unfold vec_set.
    destruct (Nat.ltb_spec idx (length (_ws g))); [|lia]. simpl.
    eexists. split; [done|]. left. split; [done|].
    split; [exists idx; by rewrite Htk in He|].
    exists old. split; [done|]. simpl. rewrite Hsm. simpl.
    assert (SM.lookup junk' sm (to_key d) = Some idx) as ->.
    { apply SMF.lookup_Some; [done|]. by apply (SMF.lookup_Some junk). }
    simpl. rewrite list_lookup_insert_eq by done. by rewrite std_min_Z.
  - destruct (alloc_widx_spec g w Hwf)
      as (idx & g1 & Ha & Hs1 & Hp1 & _ & _ & _ & _ & _ & _ & _ & _ & _ & Hw).
    destruct (lookup_lt_is_Some_2 (_preds g) d ltac:(lia)) as [pm Hpm].
    unfold add_edge. rewrite Ha. simpl. rewrite Hs1, Hsm. simpl.
    rewrite Hp1, Hpm. simpl.
    eexists. split; [done|]. right. split; [done|].
    apply SMF.lookup_None in Hl; [|done].
    split.
    { intros Hex. apply (medge_keys _ _ _ _ Hsm) in Hex.
      by rewrite Htk in Hl. }
    simpl. rewrite list_lookup_insert_eq by done. simpl.
    destruct (SMF.add_spec sm (to_key d) idx Hwfsm (to_key_lt d) Hl)
      as (Hwf' & Helts & _).
    assert (SM.lookup junk' (SM.add sm (to_key d) idx) (to_key d) = Some idx)
      as Hl'.
    { apply SMF.lookup_Some; [done|]. rewrite Helts, elem_of_app. right.
      by left. }
    rewrite SMF.elem_lookup by done. rewrite Hl'. simpl. done.
Qed.

Lemma three_wf : wf three.
Proof.
  apply reachable_wf; [apply three_reachable|].
  apply small_size. vm_compute. lia.
Defined.

Lemma update_edge_min_witness :
  ∃ g', update_edge 0 three 0 3%Z 1 = Some g' ∧
    ((elem 0 three 0 1 = Some true ∧ (∃ i, medge (_succs three) 0 1 i) ∧
      ∃ prior, edge_val 0 three 0 1 = Some prior ∧
               edge_val 1 g' 0 1 = Some (Z.min prior 3)) ∨
     (elem 0 three 0 1 = Some false ∧
      (¬ ∃ i, medge (_succs three) 0 1 i) ∧
      elem 1 g' 0 1 = Some true ∧
      edge_val 1 g' 0 1 = Some 3%Z)).
Proof.
  apply (update_edge_min 0 1 three 0 3%Z 1).
  - apply three_wf.
  - apply small_size. vm_compute. lia.
  - vm_compute. lia.
  - vm_compute. lia.
Defined.

End AdaptGraphFacts.


(** ** The analysis CFG *)

Lemma filter_ne_id {A} `{EqDecision A} (xs : list A) (e : A) :
  e ∉ xs → filter (λ x, x ≠ e) xs = xs.
Proof.
  induction xs as [|x xs IH]; intros Hn; [done|].
  apply not_elem_of_cons in Hn as [Hne Hn].
  rewrite filter_cons_True by done. by rewrite IH.
Qed.

Lemma filter_ne_idemp {A} `{EqDecision A} (xs : list A) (e : A) :
  filter (λ x, x ≠ e) (filter (λ x, x ≠ e) xs) = filter (λ x, x ≠ e) xs.
Proof.
  apply filter_ne_id. rewrite list_elem_of_filter. by intros [? _].
Qed.

Module cfg_facts.
Import cfg cfg_spec.

Section cfg_facts.
Context {basic_block_label_t : Type} `{Countable basic_block_label_t}.
Context {new_statement_t : Type}.

#[local] Abbreviation label := basic_block_label_t.
#[local] Abbreviation cfg_t := (cfg.cfg_t basic_block_label_t new_statement_t).
#[local] Abbreviation basic_block_t :=
  (cfg.basic_block_t basic_block_label_t new_statement_t).
#[local] Abbreviation blocks_t := (gmap basic_block_label_t basic_block_t).

Implicit Types (c : cfg_t) (l k a b : label) (bs : blocks_t).
Implicit Types (bb blk : basic_block_t).

(** *** The checker is sound *)

Lemma wf_check_wf c : wf_check c = true → wf c.
Proof.
  unfold wf_check. intros [He Hall]%andb_true_iff.
  apply bool_decide_eq_true in He.
  assert (∀ k blk, m_blocks c !! k = Some blk → wf_block_check c k blk = true)
    as Hb.
  { intros k blk Hk. rewrite forallb_forall in Hall.
    apply (Hall (k, blk)). apply list_elem_of_In. by apply elem_of_map_to_list. }
  split; [done|..].
  - intros k blk Hk. specialize (Hb _ _ Hk). unfold wf_block_check in Hb.
    repeat (apply andb_true_iff in Hb as [Hb ?]).
    by apply bool_decide_eq_true in Hb.
  - intros k blk n Hk Hn. specialize (Hb _ _ Hk). unfold wf_block_check in Hb.
    repeat (apply andb_true_iff in Hb as [Hb ?]).
    match goal with H : forallb _ (m_next blk) = true |- _ =>
      rewrite forallb_forall in H; specialize (H n) end.
    rewrite <- list_elem_of_In in *.
    destruct (m_blocks c !! n) as [b'|]; [|naive_solver].
    exists b'. split; [done|]. eapply bool_decide_eq_true_1. naive_solver.
  - intros k blk p Hk Hp. specialize (Hb _ _ Hk). unfold wf_block_check in Hb.
    repeat (apply andb_true_iff in Hb as [Hb ?]).
    match goal with H : forallb _ (m_prev blk) = true |- _ =>
      rewrite forallb_forall in H; specialize (H p) end.
    rewrite <- list_elem_of_In in *.
    destruct (m_blocks c !! p) as [b'|]; [|naive_solver].
    exists b'. split; [done|]. eapply bool_decide_eq_true_1. naive_solver.
  - intros k blk Hk. specialize (Hb _ _ Hk). unfold wf_block_check in Hb.
    repeat (apply andb_true_iff in Hb as [Hb ?]).
    match goal with H : bool_decide (NoDup (m_next blk)) = true |- _ =>
      by apply bool_decide_eq_true in H end.
  - intros k blk Hk. specialize (Hb _ _ Hk). unfold wf_block_check in Hb.
    repeat (apply andb_true_iff in Hb as [Hb ?]).
    match goal with H : bool_decide (NoDup (m_prev blk)) = true |- _ =>
      by apply bool_decide_eq_true in H end.
Qed.

(** *** Neighbour lists *)

Lemma remove_adjacent_filter (xs : list label) e :
  remove_adjacent xs e = filter (λ x, x ≠ e) xs.
Proof.
  unfold remove_adjacent. case_decide; [done|]. by rewrite filter_ne_id.
Qed.

Lemma detach_id l blk :
  l ∉ m_next blk → l ∉ m_prev blk → detach l blk = blk.
Proof.
  intros Hn Hp. unfold detach, set_prev, set_next. simpl.
  rewrite !filter_ne_id by done. by destruct blk.
Qed.

Lemma detach_set_next l blk :
  detach l (set_next (filter (λ x, x ≠ l) (m_next blk)) blk) = detach l blk.
Proof.
  unfold detach, set_prev, set_next. simpl. by rewrite filter_ne_idemp.
Qed.

Lemma detach_set_prev l blk :
  detach l (set_prev (filter (λ x, x ≠ l) (m_prev blk)) blk) = detach l blk.
Proof.
  unfold detach, set_prev, set_next. simpl. by rewrite filter_ne_idemp.
Qed.

(** *** [remove] in closed form *)

Lemma alter_labels (f : basic_block_t → basic_block_t) k0 bs :
  (∀ x, m_bb_id (f x) = m_bb_id x) →
  (∀ k blk, bs !! k = Some blk → m_bb_id blk = k) →
  ∀ k blk, alter f k0 bs !! k = Some blk → m_bb_id blk = k.
Proof.
  intros Hf Hl k blk. rewrite lookup_alter. case_decide; [|apply Hl].
  subst. intros (x & Hx & ->)%fmap_Some. rewrite Hf. by apply Hl.
Qed.

Lemma remove_edge_labels bs a b :
  (∀ k blk, bs !! k = Some blk → m_bb_id blk = k) →
  ∀ k blk, remove_edge a b bs !! k = Some blk → m_bb_id blk = k.
Proof.
  intros Hl. unfold remove_edge.
  destruct (bs !! a) as [ba|], (bs !! b) as [bb|]; try apply Hl.
  apply alter_labels; [done|]. by apply alter_labels.
Qed.

Lemma remove_edge_is_Some bs a b k :
  is_Some (remove_edge a b bs !! k) ↔ is_Some (bs !! k).
Proof.
  unfold remove_edge. destruct (bs !! a) as [ba|], (bs !! b) as [bb|]; try done.
  by rewrite !lookup_alter_is_Some.
Qed.

(** Unlinking an edge that touches [l] changes nothing once [l] is
    erased and detached. *)
Lemma detach_remove_edge bs a b l :
  (a = l ∨ b = l) →
  (∀ k blk, bs !! k = Some blk → m_bb_id blk = k) →
  detach l <$> delete l (remove_edge a b bs) = detach l <$> delete l bs.
Proof.
  intros Hab Hl. unfold remove_edge.
  destruct (bs !! a) as [ba|] eqn:Ha, (bs !! b) as [bb|] eqn:Hb; try done.
  rewrite (Hl _ _ Ha), (Hl _ _ Hb).
  apply map_eq. intros k. rewrite !lookup_fmap.
  destruct (decide (k = l)) as [->|Hkl]; [by rewrite !lookup_delete_eq|].
  rewrite !lookup_delete_ne by done.
  rewrite !lookup_alter.
  destruct (decide (b = k)) as [->|Hbk], (decide (a = k)) as [->|Hak];
    simplify_eq; try done.
  - destruct Hab as [-> | ->]; [|done]. rewrite Ha. simpl.
    rewrite !remove_adjacent_filter.
    unfold detach, set_prev, set_next. simpl. by rewrite !filter_ne_idemp.
  - destruct Hab as [-> | ->]; [|done]. rewrite Hb. simpl.
    rewrite remove_adjacent_filter. by rewrite detach_set_prev.
  - destruct Hab as [-> | ->]; [done|]. rewrite Ha. simpl.
    rewrite remove_adjacent_filter. by rewrite detach_set_next.
Qed.

Lemma detach_foldl_remove_edge (es : list (label * label)) bs l :
  (∀ e, e ∈ es → e.1 = l ∨ e.2 = l) →
  (∀ k blk, bs !! k = Some blk → m_bb_id blk = k) →
  detach l <$> delete l (foldl (λ bs p, remove_edge p.1 p.2 bs) bs es)
  = detach l <$> delete l bs.
Proof.
  revert bs. induction es as [|e es IH]; intros bs Hes Hl; simpl; [done|].
  rewrite IH.
  - apply detach_remove_edge; [|done]. apply Hes. by left.
  - intros e' He'. apply Hes. by right.
  - by apply remove_edge_labels.
Qed.

(** After all dead edges are unlinked, no other block mentions [l]. *)
Lemma unlinked_foldl_remove_edge (es : list (label * label)) bs l :
  (∀ e, e ∈ es → e.1 ≠ e.2 ∧ is_Some (bs !! e.1) ∧ is_Some (bs !! e.2)) →
  (∀ k blk, bs !! k = Some blk → m_bb_id blk = k) →
  (∀ k blk, k ≠ l → bs !! k = Some blk →
     (l ∈ m_next blk → (k, l) ∈ es) ∧ (l ∈ m_prev blk → (l, k) ∈ es)) →
  ∀ k blk, k ≠ l →
    foldl (λ bs p, remove_edge p.1 p.2 bs) bs es !! k = Some blk →
    l ∉ m_next blk ∧ l ∉ m_prev blk.
Proof.
  revert bs. induction es as [|[a b] es IH]; intros bs Hes Hl Hcov k blk Hk; simpl.
  - intros Hb. destruct (Hcov _ _ Hk Hb) as [Hn Hp].
    split; intros Hin; [apply Hn in Hin|apply Hp in Hin]; by apply elem_of_nil in Hin.
  - apply IH; [| |clear k blk Hk|done].
    + intros e He. destruct (Hes e ltac:(by right)) as (? & ? & ?).
      split; [done|]. by rewrite !remove_edge_is_Some.
    + by apply remove_edge_labels.
    + intros k blk Hk. destruct (Hes (a, b) ltac:(by left)) as (Hab & [ba Ha] & [bb Hb]).
      simpl in *. unfold remove_edge. rewrite Ha, Hb.
      rewrite (Hl _ _ Ha), (Hl _ _ Hb).
      rewrite !lookup_alter.
      destruct (decide (b = k)) as [->|Hbk], (decide (a = k)) as [->|Hak];
        try done.
      * rewrite Hb. intros [= <-]. simpl. rewrite remove_adjacent_filter.
        destruct (Hcov _ _ Hk Hb) as [Hn Hp]. split.
        -- intros Hin. apply Hn, elem_of_cons in Hin as [?|?]; [|done].
           by simplify_eq.
        -- intros [Hne Hin]%list_elem_of_filter.
           apply Hp, elem_of_cons in Hin as [?|?]; [|done]. by simplify_eq.
      * rewrite Ha. intros [= <-]. simpl. rewrite remove_adjacent_filter.
        destruct (Hcov _ _ Hk Ha) as [Hn Hp]. split.
        -- intros [Hne Hin]%list_elem_of_filter.
           apply Hn, elem_of_cons in Hin as [?|?]; [|done]. by simplify_eq.
        -- intros Hin. apply Hp, elem_of_cons in Hin as [?|?]; [|done].
           by simplify_eq.
      * intros Hb'. destruct (Hcov _ _ Hk Hb') as [Hn Hp]. split.
        -- intros Hin. apply Hn, elem_of_cons in Hin as [?|?]; [|done].
           by simplify_eq.
        -- intros Hin. apply Hp, elem_of_cons in Hin as [?|?]; [|done].
           by simplify_eq.
Qed.

Lemma collect_dead_edges_ok c l mk (ids : list label) :
  (∀ id, id ∈ ids → is_Some (m_blocks c !! id)) →
  collect_dead_edges c l mk ids = Ok (mk <$> filter (λ id, l ≠ id) ids).
Proof.
  induction ids as [|id ids IH]; intros Hin; simpl; [done|].
  rewrite IH by (intros ? ?; apply Hin; by right).
  destruct (decide (l ≠ id)) as [Hne|Heq].
  - rewrite filter_cons_True by done. unfold get_node.
    destruct (Hin id ltac:(by left)) as [b ->]. done.
  - by rewrite filter_cons_False by done.
Qed.

Lemma remove_ok c l bb :
  wf c → l ≠ m_entry c → m_exit c ≠ Some l → m_blocks c !! l = Some bb →
  remove l c = Ok (set_blocks (detach l <$> delete l (m_blocks c)) c).
Proof.
  intros Hwf Hentry Hexit Hbb.
  pose proof Hwf as [W1 W2 W3 W4 W5 W6].
  unfold remove. rewrite decide_False by done. rewrite decide_False by done.
  unfold get_node at 1. rewrite Hbb. simpl.
  rewrite (collect_dead_edges_ok c l _ (m_prev bb)).
  2:{ intros id Hid. destruct (W4 _ _ _ Hbb Hid) as (? & ? & _). eauto. }
  simpl. rewrite (collect_dead_edges_ok c l _ (m_next bb)).
  2:{ intros id Hid. destruct (W3 _ _ _ Hbb Hid) as (? & ? & _). eauto. }
  simpl. f_equal. f_equal.
  set (es := _ ++ _).
  assert (∀ e, e ∈ es ↔
            (e.2 = l ∧ e.1 ≠ l ∧ e.1 ∈ m_prev bb) ∨
            (e.1 = l ∧ e.2 ≠ l ∧ e.2 ∈ m_next bb)) as Hes.
  { intros [a b]. unfold es. rewrite elem_of_app, !list_elem_of_fmap. simpl.
    setoid_rewrite list_elem_of_filter. split.
    - intros [(x & [= -> ->] & ? & ?)|(x & [= -> ->] & ? & ?)]; naive_solver.
    - intros [(-> & ? & ?)|(-> & ? & ?)]; [left; exists a|right; exists b];
        naive_solver. }
  pose proof (detach_foldl_remove_edge es (m_blocks c) l) as Hphi.
  apply map_eq. intros k.
  destruct (decide (k = l)) as [->|Hk].
  { by rewrite lookup_fmap, !lookup_delete_eq. }
  rewrite lookup_delete_ne by done.
  assert ((detach l <$> delete l (foldl (λ bs p, remove_edge p.1 p.2 bs)
                                    (m_blocks c) es)) !! k
          = (detach l <$> delete l (m_blocks c)) !! k) as Hk'.
  { rewrite Hphi; [done| |done]. intros e He. apply Hes in He. naive_solver. }
  rewrite !lookup_fmap, !lookup_delete_ne in Hk' by done.
  rewrite lookup_fmap, lookup_delete_ne by done. rewrite <- Hk'.
  destruct (foldl _ _ _ !! k) as [blk|] eqn:Hblk; [|done]. simpl.
  destruct (unlinked_foldl_remove_edge es (m_blocks c) l) with (k := k) (blk := blk)
    as [Hn Hp]; try done.
  - intros e He. apply Hes in He as [(? & ? & Hin)|(? & ? & Hin)].
    + split; [congruence|]. destruct (W4 _ _ _ Hbb Hin) as (? & ? & _).
      rewrite H0. naive_solver.
    + split; [congruence|]. destruct (W3 _ _ _ Hbb Hin) as (? & ? & _).
      rewrite H0. naive_solver.
  - intros k' blk' Hk'l Hblk'. split; intros Hin; apply Hes; simpl.
    + left. destruct (W3 _ _ _ Hblk' Hin) as (bb' & ? & ?). by simplify_eq.
    + right. destruct (W4 _ _ _ Hblk' Hin) as (bb' & ? & ?). by simplify_eq.
  - by rewrite detach_id.
Qed.

(** *** Erasing a block *)

Lemma erase_lookup c l k :
  m_blocks (erase l c) !! k =
    if decide (k = l) then None else detach l <$> m_blocks c !! k.
Proof.
  unfold erase. simpl. rewrite lookup_fmap. case_decide as Hk.
  - subst. by rewrite lookup_delete_eq.
  - by rewrite lookup_delete_ne.
Qed.

Lemma erase_lookup_Some c l k blk :
  m_blocks (erase l c) !! k = Some blk ↔
  k ≠ l ∧ ∃ b0 : basic_block_t, m_blocks c !! k = Some b0 ∧ blk = detach l b0.
Proof.
  rewrite erase_lookup. case_decide; [naive_solver|].
  rewrite fmap_Some. naive_solver.
Qed.

Lemma remove_Ok_inv c l c' :
  wf c → remove l c = Ok c' →
  l ≠ m_entry c ∧ m_exit c ≠ Some l ∧ is_Some (m_blocks c !! l) ∧
  c' = erase l c.
Proof.
  intros Hwf Hr.
  destruct (decide (l = m_entry c)) as [He|He].
  { unfold remove in Hr. by rewrite decide_True in Hr. }
  destruct (decide (m_exit c = Some l)) as [Hx|Hx].
  { unfold remove in Hr. rewrite decide_False, decide_True in Hr; done. }
  destruct (m_blocks c !! l) as [bb|] eqn:Hbb.
  - rewrite (remove_ok _ _ _ Hwf He Hx Hbb) in Hr. by simplify_eq.
  - unfold remove, get_node in Hr.
    rewrite decide_False, decide_False, Hbb in Hr; done.
Qed.

Lemma elem_of_detach_next l blk n :
  n ∈ m_next (detach l blk) ↔ n ∈ m_next blk ∧ n ≠ l.
Proof. unfold detach. simpl. rewrite list_elem_of_filter. naive_solver. Qed.

Lemma elem_of_detach_prev l blk n :
  n ∈ m_prev (detach l blk) ↔ n ∈ m_prev blk ∧ n ≠ l.
Proof. unfold detach. simpl. rewrite list_elem_of_filter. naive_solver. Qed.

Lemma erase_wf c l : wf c → l ≠ m_entry c → wf (erase l c).
Proof.
  intros [W1 W2 W3 W4 W5 W6] Hl. split.
  - rewrite erase_lookup. simpl. rewrite decide_False by done.
    destruct W1 as [b ->]. by eexists.
  - intros k blk (Hk & b0 & Hb0 & ->)%erase_lookup_Some. simpl. by apply W2.
  - intros k blk n (Hk & b0 & Hb0 & ->)%erase_lookup_Some [Hn Hnl]%elem_of_detach_next.
    destruct (W3 _ _ _ Hb0 Hn) as (b' & Hb' & Hin).
    exists (detach l b'). split.
    + apply erase_lookup_Some. eauto.
    + by apply elem_of_detach_prev.
  - intros k blk n (Hk & b0 & Hb0 & ->)%erase_lookup_Some [Hn Hnl]%elem_of_detach_prev.
    destruct (W4 _ _ _ Hb0 Hn) as (b' & Hb' & Hin).
    exists (detach l b'). split.
    + apply erase_lookup_Some. eauto.
    + by apply elem_of_detach_next.
  - intros k blk (Hk & b0 & Hb0 & ->)%erase_lookup_Some. simpl.
    apply NoDup_filter. by eapply W5.
  - intros k blk (Hk & b0 & Hb0 & ->)%erase_lookup_Some. simpl.
    apply NoDup_filter. by eapply W6.
Qed.

Lemma erase_edge c l a b :
  edge (erase l c) a b ↔ edge c a b ∧ a ≠ l ∧ b ≠ l.
Proof.
  unfold edge. split.
  - intros (ba & (Hk & b0 & Hb0 & ->)%erase_lookup_Some & [? ?]%elem_of_detach_next).
    eauto.
  - intros ((ba & Hba & Hb) & Ha & Hbl). exists (detach l ba). split.
    + apply erase_lookup_Some. eauto.
    + by apply elem_of_detach_next.
Qed.

Lemma erase_dom c l k :
  is_Some (m_blocks (erase l c) !! k) ↔ is_Some (m_blocks c !! k) ∧ k ≠ l.
Proof.
  rewrite erase_lookup. case_decide.
  - split; [by intros [? ?]|naive_solver].
  - rewrite fmap_is_Some. naive_solver.
Qed.

(** Removing a list of blocks, one after the other. *)
Lemma remove_all_spec (ls : list label) c c' :
  wf c → for_each_r (λ c l, remove l c) c ls = Ok c' →
  wf c' ∧ m_entry c' = m_entry c ∧ m_exit c' = m_exit c ∧
  (∀ k, is_Some (m_blocks c' !! k) ↔ is_Some (m_blocks c !! k) ∧ k ∉ ls) ∧
  (∀ a b, edge c' a b ↔ edge c a b ∧ a ∉ ls ∧ b ∉ ls).
Proof.
  revert c. induction ls as [|l ls IH]; intros c Hwf Hr; simpl in Hr.
  - simplify_eq. split; [done|]. do 2 (split; [done|]). split.
    + intros k. rewrite elem_of_nil. naive_solver.
    + intros a b. rewrite !elem_of_nil. naive_solver.
  - destruct (remove l c) as [c1|msg s|] eqn:Hrem; try done. simpl in Hr.
    destruct (remove_Ok_inv _ _ _ Hwf Hrem) as (He & Hx & Hin & ->).
    destruct (IH _ (erase_wf c l Hwf He) Hr) as (Hwf' & He' & Hx' & Hdom & Hedge).
    split; [done|]. do 2 (split; [done|]). split.
    + intros k. rewrite Hdom, erase_dom, not_elem_of_cons. naive_solver.
    + intros a b. rewrite Hedge, erase_edge, !not_elem_of_cons. naive_solver.
Qed.

(** C7 (amended). On a well-formed CFG, [remove(l)] is fatal when [l] is
    the entry or the declared exit, and also when [l] is neither and
    names no block of the CFG; in all three cases the CFG is then as
    before.  Otherwise, for a block [l], it erases exactly that block,
    takes [l] out of the successor list of each predecessor of [l] and
    out of the predecessor list of each successor of [l], and leaves
    every other list, the statements and the labels of all other blocks,
    the entry and the exit unchanged. *)
Theorem remove_block c l :
  wf c →
  (l = m_entry c ∨ m_exit c = Some l → ∃ msg, remove l c = Fatal msg c) ∧
  (l ≠ m_entry c → m_exit c ≠ Some l → m_blocks c !! l = None →
     remove l c = Fatal "Basic block not found in the CFG" c) ∧
  (l ≠ m_entry c → m_exit c ≠ Some l → ∀ bb, m_blocks c !! l = Some bb →
     ∃ c', remove l c = Ok c' ∧
       m_entry c' = m_entry c ∧ m_exit c' = m_exit c ∧
       m_blocks c' !! l = None ∧
       ∀ k, k ≠ l →
         match m_blocks c !! k with
         | None => m_blocks c' !! k = None
         | Some blk =>
             ∃ blk', m_blocks c' !! k = Some blk' ∧
               m_bb_id blk' = m_bb_id blk ∧ m_ts blk' = m_ts blk ∧
               m_next blk' =
                 (if decide (k ∈ m_prev bb)
                  then filter (λ x, x ≠ l) (m_next blk) else m_next blk) ∧
               m_prev blk' =
                 (if decide (k ∈ m_next bb)
                  then filter (λ x, x ≠ l) (m_prev blk) else m_prev blk)
         end).
Proof.
  intros Hwf. split.
  - intros [-> |Hex]; unfold remove.
    + rewrite decide_True by done. eauto.
    + destruct (decide (l = m_entry c)); [eauto|].
      rewrite decide_True by done. eauto.
  - split.
    { intros Hentry Hexit Hnone. unfold remove, get_node.
      by rewrite decide_False, decide_False, Hnone. }
    intros Hentry Hexit bb Hbb. eexists. split; [by eapply remove_ok|].
    simpl. do 2 (split; [done|]).
    split; [by rewrite lookup_fmap, lookup_delete_eq|].
    intros k Hk. rewrite lookup_fmap, lookup_delete_ne by done.
    destruct (m_blocks c !! k) as [blk|] eqn:Hblk; [|done]. simpl.
    eexists. split; [done|]. simpl. do 2 (split; [done|]). split.
    + case_decide as Hin; [done|]. apply filter_ne_id. intros Hl.
      destruct (wf_next _ Hwf _ _ _ Hblk Hl) as (bb' & ? & ?). by simplify_eq.
    + case_decide as Hin; [done|]. apply filter_ne_id. intros Hl.
      destruct (wf_prev _ Hwf _ _ _ Hblk Hl) as (bb' & ? & ?). by simplify_eq.
Qed.

End cfg_facts.

Lemma diamond_wf : wf diamond.
Proof. apply wf_check_wf. vm_compute. reflexivity. Defined.

(** C7, as stated, fails for a label that names no block.  In [diamond]
  the label 6 is neither the entry nor the exit and no block carries
  it: [remove(6)] removes nothing, [get_node] raises the fatal error. *)
Lemma remove_absent_block_fatal :
wf diamond ∧ 6 ≠ m_entry diamond ∧ m_exit diamond ≠ Some 6 ∧
m_blocks diamond !! 6 = None ∧
remove 6 diamond = Fatal "Basic block not found in the CFG" diamond.
Proof.
split; [exact diamond_wf|]. split; [done|]. split; [done|].
split; by vm_compute.
Qed.

Lemma remove_block_witness :
(∃ msg, remove 0 diamond = Fatal msg diamond) ∧
(∃ msg, remove 4 diamond = Fatal msg diamond) ∧
remove 6 diamond = Fatal "Basic block not found in the CFG" diamond ∧
∃ c', remove 5 diamond = Ok c' ∧
  m_blocks c' !! 5 = None ∧
  ∃ blk', m_blocks c' !! 2 = Some blk' ∧ m_next blk' = [3].
Proof.
destruct (remove_block diamond 0 diamond_wf) as [H0 _].
destruct (remove_block diamond 4 diamond_wf) as [H4 _].
destruct (remove_block diamond 6 diamond_wf) as (_ & H6 & _).
destruct (remove_block diamond 5 diamond_wf) as (_ & _ & H5).
split; [apply H0; by left|]. split; [apply H4; by right|].
split; [apply H6; by vm_compute|].
destruct (H5 ltac:(done) ltac:(done) (block 5 [15] [2] []) eq_refl)
  as (c' & Hrem & _ & _ & Hnone & Hk).
exists c'. split; [exact Hrem|]. split; [exact Hnone|].
specialize (Hk 2 ltac:(done)). vm_compute in Hk.
destruct Hk as (blk' & Hb & _ & _ & Hn & _). by exists blk'.
Defined.

End cfg_facts.

(** ** The ASM CFG *)

Module asm_cfg_facts.
Import asm_cfg asm_cfg_spec.

Section asm_cfg_facts.
Context {Label : Type} `{Countable Label}.
Context {Instruction : Type}.

(** C10. For a label [l] that was not encountered during construction
    (it is no key of the map and is not on the ordered label list),
    [c[l]] refers to a fresh empty block, which it inserts in the map; the
    ordered label list is unchanged, so [keys()] does not contain [l],
    while [at(l)] succeeds. *)
Theorem index_fresh_not_listed (c : Cfg Label Instruction) (l : Label) :
  graph c !! l = None → l ∉ ordered_labels c →
  (index c l).1 = BasicBlock_default ∧
  graph (index c l).2 = <[l := BasicBlock_default]> (graph c) ∧
  keys (index c l).2 = keys c ∧
  l ∉ keys (index c l).2 ∧
  at_ (index c l).2 l = Some BasicBlock_default.
Proof.
  intros Hg Hl. unfold index, keys, at_. rewrite Hg. simpl.
  do 4 (split; [done|]). apply lookup_insert_eq.
Qed.

End asm_cfg_facts.

Lemma index_fresh_not_listed_witness :
(index one_block 3).1 = BasicBlock_default ∧
graph (index one_block 3).2 = <[3 := BasicBlock_default]> (graph one_block) ∧
keys (index one_block 3).2 = keys one_block ∧
3 ∉ keys (index one_block 3).2 ∧
at_ (index one_block 3).2 3 = Some BasicBlock_default.
Proof.
apply (index_fresh_not_listed one_block 3).
- reflexivity.
- unfold one_block. simpl. by intros [=]%list_elem_of_singleton.
Defined.

End asm_cfg_facts.

(** ** Simplification of the analysis CFG *)

Lemma filter_ne_nil_singleton {A} `{EqDecision A} (xs : list A) (e : A) :
  NoDup xs → e ∈ xs → filter (λ x, x ≠ e) xs = [] → xs = [e].
Proof.
  intros Hnd Hin Hf. destruct xs as [|y ys]; [by apply elem_of_nil in Hin|].
  destruct (decide (y = e)) as [->|Hy].
  - f_equal. apply NoDup_cons in Hnd as [Hn _].
    rewrite filter_cons_False in Hf by naive_solver.
    destruct ys as [|z zs]; [done|]. exfalso.
    destruct (decide (z = e)) as [->|Hz].
    + apply Hn. by left.
    + by rewrite filter_cons_True in Hf.
  - by rewrite filter_cons_True in Hf.
Qed.

Module simplify_facts.
Import cfg cfg_spec cfg_facts.

Section simplify_facts.
Context {basic_block_label_t : Type} `{Countable basic_block_label_t}.
Context {new_statement_t : Type}.

#[local] Abbreviation label := basic_block_label_t.
#[local] Abbreviation cfg_t := (cfg.cfg_t basic_block_label_t new_statement_t).
#[local] Abbreviation basic_block_t :=
  (cfg.basic_block_t basic_block_label_t new_statement_t).
#[local] Abbreviation blocks_t := (gmap basic_block_label_t basic_block_t).
#[local] Abbreviation state := (cfg_t * gset basic_block_label_t)%type.

Implicit Types (c : cfg_t) (l k a b x p ch : label) (bs : blocks_t).
Implicit Types (bb blk cur parent child : basic_block_t).
Implicit Types (V : gset label) (ts : list new_statement_t).

(** *** Edges of a well-formed CFG *)

Lemma edge_dom_l c a b : edge c a b → is_Some (m_blocks c !! a).
Proof. intros (ba & Ha & _). by eexists. Qed.

Lemma edge_dom_r c a b : wf c → edge c a b → is_Some (m_blocks c !! b).
Proof.
  intros Hwf (ba & Ha & Hb).
  destruct (wf_next _ Hwf _ _ _ Ha Hb) as (b' & Hb' & _). by eexists.
Qed.

Lemma edge_prev c a b :
  wf c → edge c a b ↔ ∃ bb, m_blocks c !! b = Some bb ∧ a ∈ m_prev bb.
Proof.
  intros Hwf. split.
  - intros (ba & Ha & Hb). exact (wf_next _ Hwf _ _ _ Ha Hb).
  - intros (bb & Hb & Ha). exact (wf_prev _ Hwf _ _ _ Hb Ha).
Qed.

Lemma length_1_inv {A} (xs : list A) (e : A) :
  length xs = 1 → e ∈ xs → xs = [e].
Proof.
  destruct xs as [|y [|??]]; try done. intros _ Hin.
  apply list_elem_of_singleton in Hin. by subst.
Qed.

(** *** Merging a block into its parent *)

Lemma merged_lookup x p ch ts c k :
  m_blocks (merged x p ch ts c) !! k =
    if decide (k = x) then None
    else merged_block x p ch ts k <$> m_blocks c !! k.
Proof.
  unfold merged. simpl. rewrite map_lookup_imap. case_decide as Hk.
  - subst. by rewrite lookup_delete_eq.
  - rewrite lookup_delete_ne by done. by destruct (m_blocks c !! k).
Qed.

Lemma merged_lookup_Some x p ch ts c k blk :
  m_blocks (merged x p ch ts c) !! k = Some blk ↔
  k ≠ x ∧ ∃ b0 : basic_block_t,
    m_blocks c !! k = Some b0 ∧ blk = merged_block x p ch ts k b0.
Proof.
  rewrite merged_lookup. case_decide; [naive_solver|].
  rewrite fmap_Some. naive_solver.
Qed.

Lemma merged_dom x p ch ts c k :
  is_Some (m_blocks (merged x p ch ts c) !! k) ↔
  is_Some (m_blocks c !! k) ∧ k ≠ x.
Proof.
  rewrite merged_lookup. case_decide.
  - split; [by intros [? ?]|naive_solver].
  - rewrite fmap_is_Some. naive_solver.
Qed.

Section merge_step.
Variables (c : cfg_t) (x p ch : label) (cur parent : basic_block_t).
Variable ts : list new_statement_t.
Hypothesis Hwf : wf c.
Hypothesis Hx : m_blocks c !! x = Some cur.
Hypothesis Hnext : m_next cur = [ch].
Hypothesis Hprev : m_prev cur = [p].
Hypothesis Hp : m_blocks c !! p = Some parent.
Hypothesis Hpn : length (m_next parent) = 1.
Hypothesis Hpx : p ≠ x.

Lemma parent_next : m_next parent = [x].
Proof using Hwf Hx Hprev Hp Hpn.
  apply length_1_inv; [done|].
  destruct (wf_prev _ Hwf x cur p Hx) as (b' & Hb' & Hin).
  { rewrite Hprev. by left. }
  by simplify_eq.
Qed.

Lemma next_x_iff k blk : m_blocks c !! k = Some blk → x ∈ m_next blk ↔ k = p.
Proof using Hwf Hx Hprev Hp Hpn.
  intros Hk. split.
  - intros Hin. destruct (wf_next _ Hwf _ _ _ Hk Hin) as (b' & Hb' & Hin').
    simplify_eq. rewrite Hprev in Hin'. by apply list_elem_of_singleton in Hin'.
  - intros ->. simplify_eq. rewrite parent_next. by left.
Qed.

Lemma child_ne : ch ≠ x.
Proof using Hwf Hx Hnext Hprev Hp Hpn Hpx.
  intros ->. apply Hpx. symmetry. apply (next_x_iff x cur Hx).
  rewrite Hnext. by left.
Qed.

Lemma child_block : ∃ child, m_blocks c !! ch = Some child ∧ x ∈ m_prev child.
Proof using Hwf Hx Hnext.
  apply (wf_next _ Hwf x cur ch Hx). rewrite Hnext. by left.
Qed.

Lemma prev_x_iff k blk : m_blocks c !! k = Some blk → x ∈ m_prev blk ↔ k = ch.
Proof using Hwf Hx Hnext.
  intros Hk. split.
  - intros Hin. destruct (wf_prev _ Hwf _ _ _ Hk Hin) as (b' & Hb' & Hin').
    simplify_eq. rewrite Hnext in Hin'. by apply list_elem_of_singleton in Hin'.
  - intros ->. destruct child_block as (child & Hc & Hin). by simplify_eq.
Qed.

Lemma parent_not_prev_child child :
  m_blocks c !! ch = Some child → p ∉ m_prev child.
Proof using Hwf Hx Hnext Hprev Hp Hpn Hpx.
  intros Hc Hin. destruct (wf_prev _ Hwf _ _ _ Hc Hin) as (b' & Hb' & Hin').
  simplify_eq. rewrite parent_next in Hin'.
  apply list_elem_of_singleton in Hin'. by apply child_ne.
Qed.

(** The three updates of the source ([move_back], [remove],
    [parent >> child]) give the merged CFG. *)
Lemma merge_step_eq :
  let c1 := set_blocks (alter (λ q, move_back q cur) p (m_blocks c)) c in
  let c2 := erase x c1 in
  set_blocks (add_edge p ch (m_blocks c2)) c2 = merged x p ch (m_ts cur) c.
Proof using Hwf Hx Hnext Hprev Hp Hpn Hpx.
  intros c1 c2. destruct child_block as (child & Hc & Hxin).
  pose proof child_ne as Hcx. pose proof parent_next as Hpnext.
  pose proof (parent_not_prev_child _ Hc) as Hpc.
  assert (m_bb_id parent = p) as Hidp by by eapply wf_label.
  assert (m_bb_id child = ch) as Hidc by by eapply wf_label.
  assert (m_blocks c2 !! p =
            Some (detach x (move_back parent cur))) as Hp2.
  { unfold c2. rewrite erase_lookup, decide_False by done.
    unfold c1. simpl. by rewrite lookup_alter_eq, Hp. }
  assert (∃ ch2 : basic_block_t, m_blocks c2 !! ch = Some ch2 ∧ m_bb_id ch2 = ch)
    as (ch2 & Hch2 & Hidch2).
  { unfold c2. rewrite erase_lookup, decide_False by done.
    unfold c1. simpl. rewrite lookup_alter.
    case_decide; subst; simplify_eq; rewrite ?Hp, ?Hc; eauto. }
  enough (add_edge p ch (m_blocks c2) =
            map_imap (λ k blk, Some (merged_block x p ch (m_ts cur) k blk))
              (delete x (m_blocks c))) as Heq.
  { unfold merged. by rewrite <- Heq. }
  apply map_eq. intros k. rewrite map_lookup_imap.
  unfold add_edge. rewrite Hp2, Hch2, Hidch2.
  replace (m_bb_id (detach x (move_back parent cur))) with p by done.
  assert (∀ j, j ≠ x → m_blocks c2 !! j =
            detach x <$> (if decide (j = p) then Some (move_back parent cur)
                          else m_blocks c !! j)) as Hc2.
  { intros j Hj. unfold c2. rewrite erase_lookup, decide_False by done.
    unfold c1. simpl. rewrite lookup_alter.
    repeat case_decide; subst; try done. by rewrite Hp. }
  destruct (decide (k = x)) as [->|Hkx].
  { rewrite lookup_delete_eq, !lookup_alter_ne by done.
    unfold c2. by rewrite erase_lookup, decide_True. }
  rewrite lookup_delete_ne, !lookup_alter, !Hc2 by done.
  clear Hidp Hidc Hidch2 Hch2 Hp2 Hc2 c1 c2.
  destruct (m_blocks c !! k) as [blk|] eqn:Hk.
  2: { repeat case_decide; by simplify_eq. }
  pose proof (next_x_iff _ _ Hk) as Hnx.
  pose proof (prev_x_iff _ _ Hk) as Hpv.
  pose proof (prev_x_iff _ _ Hp) as Hpv'.
  pose proof (next_x_iff _ _ Hc) as Hnx'.
  assert (∀ l, l ∉ filter (λ y, y ≠ x) (m_prev child) ∨ l ≠ p) as Hflt.
  { intros l. destruct (decide (l = p)) as [->|]; [left|by right].
    rewrite list_elem_of_filter. naive_solver. }
  unfold merged_block, insert_adjacent, detach, move_back.
  repeat case_decide; simplify_eq; rewrite ?Hc, ?Hk, ?Hp; simpl;
    rewrite ?Hpnext, ?filter_cons_False, ?filter_nil by naive_solver;
    rewrite ?decide_False by (apply not_elem_of_nil || naive_solver);
    rewrite ?(filter_ne_id (m_next blk)) by naive_solver;
    rewrite ?(filter_ne_id (m_prev blk)) by naive_solver;
    rewrite ?(filter_ne_id (m_prev parent)) by naive_solver;
    rewrite ?(filter_ne_id (m_next child)) by naive_solver;
    done.
Qed.

Lemma merged_edge a b :
  edge (merged x p ch ts c) a b ↔
  (edge c a b ∧ a ≠ x ∧ b ≠ x) ∨ (a = p ∧ b = ch).
Proof using Hwf Hx Hnext Hprev Hp Hpn Hpx.
  pose proof child_ne as Hcx. pose proof parent_next as Hpnext.
  unfold edge. split.
  - intros (ba & (Hax & b0 & Hb0 & ->)%merged_lookup_Some & Hin).
    simpl in Hin. destruct (decide (a = p)) as [->|Hap].
    + right. apply list_elem_of_singleton in Hin. by subst.
    + left. split; [by eauto|]. split; [done|]. intros ->.
      by apply Hap, (next_x_iff a b0).
  - intros [((ba & Hba & Hin) & Hax & Hbx)|[-> ->]].
    + exists (merged_block x p ch ts a ba). split.
      { apply merged_lookup_Some. eauto. }
      simpl. rewrite decide_False; [done|]. intros ->. simplify_eq.
      rewrite Hpnext in Hin. by apply list_elem_of_singleton in Hin.
    + exists (merged_block x p ch ts p parent). split.
      { apply merged_lookup_Some. eauto. }
      simpl. rewrite decide_True by done. by left.
Qed.

Lemma merged_wf : x ≠ m_entry c → wf (merged x p ch ts c).
Proof using Hwf Hx Hnext Hprev Hp Hpn Hpx.
  intros Hxe. pose proof child_ne as Hcx. pose proof parent_next as Hpnext.
  destruct child_block as (child & Hc & Hxin).
  pose proof (parent_not_prev_child _ Hc) as Hpc.
  split.
  - apply merged_dom. split; [by apply Hwf|done].
  - intros k blk (Hk & b0 & Hb0 & ->)%merged_lookup_Some. simpl.
    by eapply wf_label.
  - intros k blk n (Hk & b0 & Hb0 & ->)%merged_lookup_Some Hn.
    simpl in Hn. destruct (decide (k = p)) as [->|Hkp].
    + apply list_elem_of_singleton in Hn as ->.
      exists (merged_block x p ch ts ch child). split.
      { apply merged_lookup_Some. eauto. }
      simpl. rewrite decide_True by done. apply elem_of_app. right. by left.
    + destruct (wf_next _ Hwf _ _ _ Hb0 Hn) as (b' & Hb' & Hin).
      assert (n ≠ x) as Hnx.
      { intros ->. by apply Hkp, (next_x_iff k b0). }
      exists (merged_block x p ch ts n b'). split.
      { apply merged_lookup_Some. eauto. }
      simpl. case_decide; [|done]. apply elem_of_app. left.
      by apply list_elem_of_filter.
  - intros k blk q (Hk & b0 & Hb0 & ->)%merged_lookup_Some Hq.
    simpl in Hq.
    assert (q = p ∧ k = ch ∨ q ≠ x ∧ q ∈ m_prev b0) as [[-> ->]|[Hqx Hq']].
    { destruct (decide (k = ch)) as [->|Hkc].
      - apply elem_of_app in Hq as [Hq|Hq].
        + apply list_elem_of_filter in Hq. naive_solver.
        + apply list_elem_of_singleton in Hq. naive_solver.
      - right. split; [|done]. intros ->.
        by apply Hkc, (prev_x_iff k b0). }
    + exists (merged_block x p ch ts p parent). split.
      { apply merged_lookup_Some. eauto. }
      simpl. rewrite decide_True by done. by left.
    + destruct (wf_prev _ Hwf _ _ _ Hb0 Hq') as (b' & Hb' & Hin). clear Hq.
      exists (merged_block x p ch ts q b'). split.
      { apply merged_lookup_Some. eauto. }
      simpl. case_decide as Hqp; [|done]. subst q. simplify_eq.
      rewrite Hpnext in Hin. by apply list_elem_of_singleton in Hin.
  - intros k blk (Hk & b0 & Hb0 & ->)%merged_lookup_Some. simpl.
    case_decide; [apply NoDup_singleton|by eapply wf_nodup_next].
  - intros k blk (Hk & b0 & Hb0 & ->)%merged_lookup_Some. simpl.
    case_decide as Hkc; [|by eapply wf_nodup_prev]. subst k. simplify_eq.
    apply NoDup_app. split; [|split].
    + apply NoDup_filter. by eapply wf_nodup_prev.
    + intros y [_ Hy]%list_elem_of_filter ->%list_elem_of_singleton. done.
    + apply NoDup_singleton.
Qed.

Lemma merged_mergeable k :
  k ≠ x → mergeable (merged x p ch ts c) k ↔ mergeable c k.
Proof using Hwf Hx Hnext Hprev Hp Hpn Hpx.
  intros Hkx. pose proof child_ne as Hcx. pose proof parent_next as Hpnext.
  destruct child_block as (child & Hc & Hxin).
  pose proof (parent_not_prev_child _ Hc) as Hpc.
  unfold mergeable. split.
  - intros (cur' & q & par & (_ & b0 & Hb0 & ->)%merged_lookup_Some & Hlen
            & Hpv & (Hqx & q0 & Hq0 & ->)%merged_lookup_Some & Hqlen).
    simpl in *. destruct (decide (k = ch)) as [->|Hkc].
    + simplify_eq. exists child, x, cur.
      assert (filter (λ y, y ≠ x) (m_prev child) = []) as Hnil.
      { by destruct (filter (λ y, y ≠ x) (m_prev child)) as [|? [|??]]. }
      split; [done|]. split.
      { destruct (decide (ch = p)) as [Heq|?]; [|done].
        by replace child with parent by congruence. }
      split; [|by rewrite Hnext].
      apply filter_ne_nil_singleton; [by eapply wf_nodup_prev|done..].
    + exists b0, q, q0. split; [done|]. split.
      { destruct (decide (k = p)) as [Heq|?]; [|done].
        by replace b0 with parent by congruence. }
      split; [done|]. split; [done|].
      destruct (decide (q = p)) as [Heq|?]; [|done].
      by replace q0 with parent by congruence.
  - intros (cur' & q & par & Hk & Hlen & Hpv & Hq & Hqlen).
    destruct (decide (k = ch)) as [->|Hkc].
    + simplify_eq. assert (q = x) as ->.
      { rewrite Hpv in Hxin. by apply list_elem_of_singleton in Hxin. }
      exists (merged_block x p ch ts ch child), p,
        (merged_block x p ch ts p parent).
      split; [apply merged_lookup_Some; by eauto|]. simpl.
      split; [by case_decide|]. split.
      { rewrite decide_True, Hpv by done.
        by rewrite filter_cons_False, filter_nil by naive_solver. }
      split; [apply merged_lookup_Some; by eauto|].
      by rewrite decide_True.
    + assert (q ≠ x) as Hqx.
      { intros ->. apply Hkc, (prev_x_iff k cur' Hk). rewrite Hpv. by left. }
      exists (merged_block x p ch ts k cur'), q,
        (merged_block x p ch ts q par).
      split; [apply merged_lookup_Some; by eauto|]. simpl.
      split; [by case_decide|]. split; [by rewrite decide_False|].
      split; [apply merged_lookup_Some; by eauto|].
      by case_decide.
Qed.

Lemma merged_reaches a b :
  a ≠ x → b ≠ x → reaches c a b → reaches (merged x p ch ts c) a b.
Proof using Hwf Hx Hnext Hprev Hp Hpn Hpx.
  intros Hax Hbx Hr. pose proof child_ne as Hcx.
  enough ((a ≠ x → reaches (merged x p ch ts c) a b) ∧
          (a = x → reaches (merged x p ch ts c) ch b)) as [? _] by auto.
  clear Hax. induction Hr as [a|a y b He Hr IH].
  { split; [intros; apply rtc_refl|done]. }
  destruct (IH Hbx) as [IH1 IH2]. split.
  - intros Hax. destruct (decide (y = x)) as [->|Hyx].
    + apply rtc_l with ch; [|by apply IH2].
      apply merged_edge. right. split; [|done].
      destruct He as (ba & Hba & Hin). by apply (next_x_iff a ba).
    + apply rtc_l with y; [|by apply IH1].
      apply merged_edge. by left.
  - intros ->. destruct He as (ba & Hba & Hin). simplify_eq.
    rewrite Hnext in Hin. apply list_elem_of_singleton in Hin as ->.
    by apply IH1.
Qed.

End merge_step.

(** *** One round of [merge_blocks_rec] *)

Lemma wf_move_back c p cur :
  wf c → wf (set_blocks (alter (λ q, move_back q cur) p (m_blocks c)) c).
Proof.
  intros [W1 W2 W3 W4 W5 W6].
  assert (∀ k blk,
    alter (λ q, move_back q cur) p (m_blocks c) !! k = Some blk →
    ∃ b0 : basic_block_t, m_blocks c !! k = Some b0 ∧ m_bb_id blk = m_bb_id b0 ∧
      m_prev blk = m_prev b0 ∧ m_next blk = m_next b0) as Hinv.
  { intros k blk. rewrite lookup_alter. case_decide; [|by eauto 10].
    subst. intros (b0 & Hb0 & ->)%fmap_Some. by eauto 10. }
  assert (∀ k bb, m_blocks c !! k = Some bb →
    ∃ blk : basic_block_t,
      alter (λ q, move_back q cur) p (m_blocks c) !! k = Some blk ∧
      m_prev blk = m_prev bb ∧ m_next blk = m_next bb) as Hfwd.
  { intros k b0 Hk. rewrite lookup_alter. case_decide; [|by eauto 10].
    subst. rewrite Hk. simpl. by eauto 10. }
  split; simpl.
  - by apply lookup_alter_is_Some.
  - intros k blk (b0 & Hb0 & -> & _)%Hinv. by apply W2.
  - intros k blk n (b0 & Hb0 & _ & _ & ->)%Hinv Hn.
    destruct (W3 _ _ _ Hb0 Hn) as (b' & Hb' & Hin).
    destruct (Hfwd _ _ Hb') as (blk' & ? & Heq & _).
    exists blk'. by rewrite Heq.
  - intros k blk n (b0 & Hb0 & _ & -> & _)%Hinv Hn.
    destruct (W4 _ _ _ Hb0 Hn) as (b' & Hb' & Hin).
    destruct (Hfwd _ _ Hb') as (blk' & ? & _ & Heq).
    exists blk'. by rewrite Heq.
  - intros k blk (b0 & Hb0 & _ & _ & ->)%Hinv. by eapply W5.
  - intros k blk (b0 & Hb0 & _ & -> & _)%Hinv. by eapply W6.
Qed.

(** The test of [merge_blocks_rec] decides [mergeable]; when it holds the
    block is merged and the walk goes on at the child, otherwise the walk
    visits the successors. *)
Lemma merge_blocks_rec_step fuel c V x cur :
  wf c → x ∉ V → m_blocks c !! x = Some cur →
  (¬ mergeable c x ∧
   merge_blocks_rec (S fuel) (c, V) x =
     for_each_r (merge_blocks_rec fuel) (c, {[x]} ∪ V) (m_next cur)) ∨
  (∃ p ch parent,
     m_next cur = [ch] ∧ m_prev cur = [p] ∧
     m_blocks c !! p = Some parent ∧ length (m_next parent) = 1 ∧
     merge_blocks_rec (S fuel) (c, V) x =
       (c2 ← remove x
               (set_blocks (alter (λ q, move_back q cur) p (m_blocks c)) c);
        merge_blocks_rec fuel
          (set_blocks (add_edge p ch (m_blocks c2)) c2, V) ch)).
Proof.
  intros Hwf HxV Hx.
  assert (({[x]} ∪ V) ∖ {[x]} = V) as HV by set_solver.
  cbn [merge_blocks_rec]. rewrite decide_False by done.
  unfold get_node, has_one_child, has_one_parent, get_parent, get_child,
    next_nodes, prev_nodes, get_node. rewrite Hx. cbn.
  destruct (m_next cur) as [|ch [|? ?]] eqn:Hnext; cbn.
  1,3: left; split; [|done]; intros (? & ? & ? & ? & ? & _);
       by simplify_eq; rewrite Hnext in *.
  destruct (m_prev cur) as [|p [|? ?]] eqn:Hprev; cbn.
  1,3: left; split; [|done]; intros (? & ? & ? & ? & _ & ? & _);
       by simplify_eq; rewrite Hprev in *.
  destruct (wf_prev _ Hwf x cur p Hx) as (parent & Hp & Hin).
  { rewrite Hprev. by left. }
  destruct (wf_next _ Hwf x cur ch Hx) as (child & Hc & Hin').
  { rewrite Hnext. by left. }
  rewrite Hp, Hc. cbn. rewrite (wf_label _ Hwf _ _ Hp), Hp. cbn.
  destruct (length (m_next parent) =? 1) eqn:Hlen; cbn.
  - right. exists p, ch, parent. apply Nat.eqb_eq in Hlen.
    do 4 (split; [done|]).
    rewrite HV, (wf_label _ Hwf _ _ Hc).
    destruct (remove x _) as [c2| |]; cbn; try done.
    match goal with |- context [merge_blocks_rec fuel ?s ch] =>
      by destruct (merge_blocks_rec fuel s ch) end.
  - left. split; [|done]. apply Nat.eqb_neq in Hlen.
    intros (? & ? & ? & ? & _ & ? & ? & ?). simplify_eq.
    rewrite Hprev in *. by simplify_eq.
Qed.

(** *** The walk of [merge_blocks_rec] *)

Lemma walk_post_refl c V : wf c → walk_post c V c V.
Proof.
  intros Hwf. split; try done; [naive_solver..|intros a n He; by left].
Qed.

Lemma walk_post_trans c V c1 V1 c2 V2 :
  walk_post c V c1 V1 → walk_post c1 V1 c2 V2 → walk_post c V c2 V2.
Proof.
  intros A B. split.
  - apply (wp_wf _ _ _ _ B).
  - rewrite (wp_entry _ _ _ _ B). apply (wp_entry _ _ _ _ A).
  - rewrite (wp_exit _ _ _ _ B). apply (wp_exit _ _ _ _ A).
  - intros l Hl. by apply (wp_dom _ _ _ _ A), (wp_dom _ _ _ _ B).
  - etrans; [apply (wp_mono _ _ _ _ A)|apply (wp_mono _ _ _ _ B)].
  - intros l Hl Hd. apply (wp_kept _ _ _ _ B).
    + by apply (wp_mono _ _ _ _ A).
    + by apply (wp_kept _ _ _ _ A).
  - intros l Hl Hd. apply (wp_exit_kept _ _ _ _ B).
    + by rewrite (wp_exit _ _ _ _ A).
    + by apply (wp_exit_kept _ _ _ _ A).
  - intros l Hl Hn. destruct (decide (l ∈ V1)) as [Hl1|Hl1].
    + destruct (wp_new _ _ _ _ A l Hl1 Hn) as (Hd & Hm & Hcl).
      assert (is_Some (m_blocks c2 !! l)) as Hd2
        by by apply (wp_kept _ _ _ _ B).
      split; [done|]. split.
      * by rewrite (wp_mergeable _ _ _ _ B l Hd2).
      * intros n [He|Hin]%(wp_edge _ _ _ _ B); [|done].
        by apply (wp_mono _ _ _ _ B), Hcl.
    + by apply (wp_new _ _ _ _ B).
  - intros a n [He|Hin]%(wp_edge _ _ _ _ B); [|by right].
    apply (wp_edge _ _ _ _ A) in He as [He|Hin]; [by left|right].
    by apply (wp_mono _ _ _ _ B).
  - intros l Hl. rewrite (wp_mergeable _ _ _ _ B l Hl).
    apply (wp_mergeable _ _ _ _ A). by apply (wp_dom _ _ _ _ B).
  - intros a b Ha Hb Hr. apply (wp_reaches _ _ _ _ B); [done..|].
    apply (wp_reaches _ _ _ _ A); [by apply (wp_dom _ _ _ _ B)..|done].
Qed.

Lemma merge_blocks_rec_absent fuel c V x :
  x ∉ V → m_blocks c !! x = None →
  merge_blocks_rec (S fuel) (c, V) x =
    Fatal "Basic block not found in the CFG" c.
Proof.
  intros HxV Hx. cbn [merge_blocks_rec]. rewrite decide_False by done.
  unfold get_node. by rewrite Hx.
Qed.

Lemma merge_blocks_rec_visited fuel c V x :
  x ∈ V → merge_blocks_rec (S fuel) (c, V) x = Ok (c, V).
Proof. intros HxV. cbn [merge_blocks_rec]. by rewrite decide_True. Qed.

(** What one call establishes, lifted to the loop over the successors. *)
Lemma walk_loop fuel (ls : list label) c V c' V' :
  (∀ c V x c' V', wf c → merge_blocks_rec fuel (c, V) x = Ok (c', V') →
     walk_post c V c' V' ∧ (x ∈ V' ∨ m_blocks c' !! x = None)) →
  wf c →
  for_each_r (merge_blocks_rec fuel) (c, V) ls = Ok (c', V') →
  walk_post c V c' V' ∧ ∀ n, n ∈ ls → n ∈ V' ∨ m_blocks c' !! n = None.
Proof.
  intros IH. revert c V. induction ls as [|n ls IHls]; intros c V Hwf Hr.
  - cbn in Hr. simplify_eq. split; [by apply walk_post_refl|].
    intros n Hn. by apply elem_of_nil in Hn.
  - cbn in Hr.
    destruct (merge_blocks_rec fuel (c, V) n) as [[c1 V1]| |] eqn:Hn;
      try done. cbn in Hr.
    destruct (IH _ _ _ _ _ Hwf Hn) as [A Hn1].
    destruct (IHls _ _ (wp_wf _ _ _ _ A) Hr) as [B Hls].
    split; [by eapply walk_post_trans|].
    intros m [->|Hm]%elem_of_cons; [|by apply Hls].
    destruct Hn1 as [Hin|Hnone].
    + left. by apply (wp_mono _ _ _ _ B).
    + right. apply eq_None_not_Some. intros Hs.
      apply (wp_dom _ _ _ _ B) in Hs. rewrite Hnone in Hs. by destruct Hs.
Qed.

(** A mergeable block whose parent is itself carries a self-loop only;
    the source then uses the references [parent] and [child] after the
    block is erased, and the model stops with an error. *)
Lemma merge_self_not_Ok fuel c V x cur ch c2 r :
  wf c → x ∉ V → m_blocks c !! x = Some cur →
  m_next cur = [ch] → m_prev cur = [x] →
  c2 = erase x (set_blocks (alter (λ q, move_back q cur) x (m_blocks c)) c) →
  merge_blocks_rec fuel
    (set_blocks (add_edge x ch (m_blocks c2)) c2, V) ch ≠ Ok r.
Proof.
  intros Hwf HxV Hx Hnext Hprev ->.
  assert (ch = x) as ->.
  { destruct (wf_prev _ Hwf x cur x Hx) as (b' & Hb' & Hin).
    { rewrite Hprev. by left. }
    simplify_eq. rewrite Hnext in Hin.
    by apply list_elem_of_singleton in Hin. }
  destruct fuel as [|fuel]; [done|].
  rewrite merge_blocks_rec_absent; [done..|].
  unfold add_edge. rewrite erase_lookup, decide_True by done.
  cbn [m_blocks set_blocks]. by rewrite erase_lookup, decide_True.
Qed.

Lemma merge_blocks_rec_post fuel c V x c' V' :
  wf c → merge_blocks_rec fuel (c, V) x = Ok (c', V') →
  walk_post c V c' V' ∧ (x ∈ V' ∨ m_blocks c' !! x = None).
Proof.
  revert c V x c' V'. induction fuel as [|fuel IH]; intros c V x c' V' Hwf Hr;
    [done|].
  destruct (decide (x ∈ V)) as [HxV|HxV].
  { rewrite merge_blocks_rec_visited in Hr by done. simplify_eq.
    split; [by apply walk_post_refl|by left]. }
  destruct (m_blocks c !! x) as [cur|] eqn:Hx.
  2: { by rewrite merge_blocks_rec_absent in Hr. }
  destruct (merge_blocks_rec_step fuel c V x cur Hwf HxV Hx)
    as [[Hnm Heq]|(p & ch & parent & Hnext & Hprev & Hp & Hpn & Heq)];
    rewrite Heq in Hr; clear Heq.
  - destruct (walk_loop _ _ _ _ _ _ IH Hwf Hr) as [A Hch].
    assert (is_Some (m_blocks c' !! x)) as Hx'.
    { apply (wp_kept _ _ _ _ A); [set_solver|by eexists]. }
    assert (x ∈ V') as HxV' by (apply (wp_mono _ _ _ _ A); set_solver).
    split; [|by left]. split.
    + apply (wp_wf _ _ _ _ A).
    + apply (wp_entry _ _ _ _ A).
    + apply (wp_exit _ _ _ _ A).
    + apply (wp_dom _ _ _ _ A).
    + pose proof (wp_mono _ _ _ _ A). set_solver.
    + intros l Hl Hd. apply (wp_kept _ _ _ _ A); [set_solver|done].
    + apply (wp_exit_kept _ _ _ _ A).
    + intros l Hl HlV. destruct (decide (l = x)) as [->|Hlx].
      * split; [done|]. split.
        { by rewrite (wp_mergeable _ _ _ _ A x Hx'). }
        intros n He.
        pose proof (edge_dom_r _ _ _ (wp_wf _ _ _ _ A) He) as [bn Hbn].
        destruct (wp_edge _ _ _ _ A _ _ He) as [(ba & Hba & Hin)|Hin];
          [|done].
        simplify_eq. destruct (Hch n Hin) as [?|Hnone]; [done|].
        by rewrite Hbn in Hnone.
      * apply (wp_new _ _ _ _ A); [done|set_solver].
    + apply (wp_edge _ _ _ _ A).
    + apply (wp_mergeable _ _ _ _ A).
    + apply (wp_reaches _ _ _ _ A).
  - destruct (remove x _) as [c2| |] eqn:Hrem; try done. cbn in Hr.
    apply remove_Ok_inv in Hrem as (Hxe & Hxx & _ & Hc2);
      [|by apply wf_move_back].
    cbn in Hxe, Hxx.
    destruct (decide (p = x)) as [->|Hpx].
    { exfalso. revert Hr.
      exact (merge_self_not_Ok fuel c V x cur ch c2 (c', V')
               Hwf HxV Hx Hnext Hprev Hc2). }
    subst c2.
    rewrite (merge_step_eq c x p ch cur parent Hwf Hx Hnext Hprev Hp Hpn Hpx)
      in Hr.
    pose proof (merged_wf c x p ch cur parent (m_ts cur)
                  Hwf Hx Hnext Hprev Hp Hpn Hpx Hxe) as Hwfm.
    destruct (IH _ _ _ _ _ Hwfm Hr) as [A Hch].
    assert (∀ l, is_Some (m_blocks c' !! l) →
                 is_Some (m_blocks c !! l) ∧ l ≠ x) as Hdom.
    { intros l Hl. by apply (wp_dom _ _ _ _ A), merged_dom in Hl. }
    split.
    2: { right. apply eq_None_not_Some. intros Hs. by apply Hdom in Hs as [_ ?]. }
    split.
    + apply (wp_wf _ _ _ _ A).
    + apply (wp_entry _ _ _ _ A).
    + apply (wp_exit _ _ _ _ A).
    + intros l Hl. by apply Hdom.
    + apply (wp_mono _ _ _ _ A).
    + intros l Hl Hd. apply (wp_kept _ _ _ _ A); [done|].
      apply merged_dom. split; [done|]. by intros ->.
    + intros l Hl Hd. apply (wp_exit_kept _ _ _ _ A); [done|].
      apply merged_dom. split; [done|]. by intros ->.
    + apply (wp_new _ _ _ _ A).
    + intros a n He.
      pose proof (edge_dom_r _ _ _ (wp_wf _ _ _ _ A) He) as [bn Hbn].
      destruct (wp_edge _ _ _ _ A _ _ He) as [Hm|Hin]; [|by right].
      apply (merged_edge c x p ch cur parent (m_ts cur)
               Hwf Hx Hnext Hprev Hp Hpn Hpx) in Hm
        as [(He' & _)|[-> ->]]; [by left|right].
      destruct Hch as [?|Hnone]; [done|]. by rewrite Hbn in Hnone.
    + intros l Hl. rewrite (wp_mergeable _ _ _ _ A l Hl).
      apply (merged_mergeable c x p ch cur parent (m_ts cur)
               Hwf Hx Hnext Hprev Hp Hpn Hpx).
      by apply Hdom.
    + intros a b Ha Hb Hreach. apply (wp_reaches _ _ _ _ A); [done..|].
      apply (merged_reaches c x p ch cur parent (m_ts cur)
               Hwf Hx Hnext Hprev Hp Hpn Hpx); [by apply Hdom..|done].
Qed.

Lemma closed_reaches c (V : gset label) a b :
  (∀ l n, l ∈ V → edge c l n → n ∈ V) → a ∈ V → reaches c a b → b ∈ V.
Proof.
  intros Hcl Ha Hr. induction Hr as [|a y b He _ IH]; [done|].
  apply IH. by eapply Hcl.
Qed.

(** After [merge_blocks] no block reachable from the entry passes the
    merge test; the pass only removes blocks other than the entry and the
    exit and keeps reachability between the blocks that remain. *)
Lemma merge_blocks_spec c c' :
  wf c → merge_blocks c = Ok c' →
  wf c' ∧ m_entry c' = m_entry c ∧ m_exit c' = m_exit c ∧
  (∀ l, is_Some (m_blocks c' !! l) → is_Some (m_blocks c !! l)) ∧
  (∀ l, m_exit c = Some l → is_Some (m_blocks c !! l) →
        is_Some (m_blocks c' !! l)) ∧
  (∀ a b, is_Some (m_blocks c' !! a) → is_Some (m_blocks c' !! b) →
          reaches c a b → reaches c' a b) ∧
  (∀ l, reaches c' (m_entry c') l → ¬ mergeable c' l).
Proof.
  intros Hwf Hr. unfold merge_blocks in Hr.
  destruct (merge_blocks_rec _ _ _) as [[c1 V1]| |] eqn:Hrec; try done.
  cbn in Hr. simplify_eq.
  destruct (merge_blocks_rec_post _ _ _ _ _ _ Hwf Hrec) as [A He].
  split; [apply (wp_wf _ _ _ _ A)|].
  split; [apply (wp_entry _ _ _ _ A)|].
  split; [apply (wp_exit _ _ _ _ A)|].
  split; [apply (wp_dom _ _ _ _ A)|].
  split; [apply (wp_exit_kept _ _ _ _ A)|].
  split; [apply (wp_reaches _ _ _ _ A)|].
  assert (m_entry c' ∈ V1) as HeV.
  { rewrite (wp_entry _ _ _ _ A). destruct He as [?|Hnone]; [done|].
    destruct (wf_entry _ (wp_wf _ _ _ _ A)) as [be Hbe].
    rewrite (wp_entry _ _ _ _ A) in Hbe. by rewrite Hbe in Hnone. }
  intros l Hl.
  assert (l ∈ V1) as HlV.
  { eapply closed_reaches; [|done..].
    intros l' n Hl' Hedge.
    by apply (wp_new _ _ _ _ A l' Hl' (not_elem_of_empty l')). }
  by apply (wp_new _ _ _ _ A l HlV (not_elem_of_empty l)).
Qed.

(** *** Fuel *)

Lemma measure_le c c1 V V1 :
  (∀ l, is_Some (m_blocks c1 !! l) → is_Some (m_blocks c !! l)) → V ⊆ V1 →
  size (dom (m_blocks c1) ∖ V1) ≤ size (dom (m_blocks c) ∖ V).
Proof.
  intros Hd HV. apply subseteq_size. intros l.
  rewrite !elem_of_difference, !elem_of_dom. naive_solver.
Qed.

Lemma measure_lt c c1 V V1 x :
  (∀ l, is_Some (m_blocks c1 !! l) → is_Some (m_blocks c !! l)) → V ⊆ V1 →
  is_Some (m_blocks c !! x) → x ∉ V →
  x ∈ V1 ∨ m_blocks c1 !! x = None →
  size (dom (m_blocks c1) ∖ V1) < size (dom (m_blocks c) ∖ V).
Proof.
  intros Hd HV Hx HxV Hx1. apply subset_size. split.
  - intros l. rewrite !elem_of_difference, !elem_of_dom. naive_solver.
  - intros Hsub. specialize (Hsub x).
    rewrite !elem_of_difference, !elem_of_dom in Hsub.
    destruct Hsub as [Hs Hn]; [done|].
    destruct Hx1 as [?|Hnone]; [done|]. rewrite Hnone in Hs. by destruct Hs.
Qed.

Lemma remove_not_OutOfFuel c l : wf c → remove l c ≠ OutOfFuel.
Proof.
  intros Hwf.
  destruct (decide (l = m_entry c)) as [He|He].
  { unfold remove. by rewrite decide_True. }
  destruct (decide (m_exit c = Some l)) as [Hx|Hx].
  { unfold remove. by rewrite decide_False, decide_True. }
  destruct (m_blocks c !! l) as [bb|] eqn:Hbb.
  - by rewrite (remove_ok _ _ _ Hwf He Hx Hbb).
  - unfold remove, get_node. by rewrite decide_False, decide_False, Hbb.
Qed.

Lemma merge_loop_fuel fuel (ls : list label) c V :
  (∀ c V x, wf c → size (dom (m_blocks c) ∖ V) < fuel →
            merge_blocks_rec fuel (c, V) x ≠ OutOfFuel) →
  wf c → size (dom (m_blocks c) ∖ V) < fuel →
  for_each_r (merge_blocks_rec fuel) (c, V) ls ≠ OutOfFuel.
Proof.
  intros IH. revert c V. induction ls as [|n ls IHls]; intros c V Hwf Hm;
    [done|].
  cbn. destruct (merge_blocks_rec fuel (c, V) n) as [[c1 V1]| |] eqn:Hn;
    cbn; [|done|by apply IH in Hn].
  destruct (merge_blocks_rec_post _ _ _ _ _ _ Hwf Hn) as [A _].
  apply IHls; [apply (wp_wf _ _ _ _ A)|].
  eapply Nat.le_lt_trans; [|done].
  apply measure_le; [apply (wp_dom _ _ _ _ A)|apply (wp_mono _ _ _ _ A)].
Qed.

Lemma merge_blocks_rec_fuel fuel c V x :
  wf c → size (dom (m_blocks c) ∖ V) < fuel →
  merge_blocks_rec fuel (c, V) x ≠ OutOfFuel.
Proof.
  revert c V x. induction fuel as [|fuel IH]; intros c V x Hwf Hm; [lia|].
  destruct (decide (x ∈ V)) as [HxV|HxV].
  { by rewrite merge_blocks_rec_visited. }
  destruct (m_blocks c !! x) as [cur|] eqn:Hx.
  2: { by rewrite merge_blocks_rec_absent. }
  assert (is_Some (m_blocks c !! x)) as Hsx by by eexists.
  destruct (merge_blocks_rec_step fuel c V x cur Hwf HxV Hx)
    as [[Hnm Heq]|(p & ch & parent & Hnext & Hprev & Hp & Hpn & Heq)];
    rewrite Heq; clear Heq.
  - apply merge_loop_fuel; [done..|].
    enough (size (dom (m_blocks c) ∖ ({[x]} ∪ V)) <
            size (dom (m_blocks c) ∖ V)) by lia.
    apply (measure_lt c c V ({[x]} ∪ V) x); [done|set_solver|done..|].
    left. set_solver.
  - destruct (remove x _) as [c2| |] eqn:Hrem; cbn; [|done|].
    2: { by apply remove_not_OutOfFuel in Hrem; [|apply wf_move_back]. }
    apply remove_Ok_inv in Hrem as (Hxe & Hxx & _ & Hc2);
      [|by apply wf_move_back].
    cbn in Hxe, Hxx.
    assert (1 ≤ size (dom (m_blocks c) ∖ V)) as Hpos.
    { assert (size (dom (m_blocks c) ∖ V) ≠ 0) as Hne; [|lia].
      intros Hz%size_empty_inv.
      assert (x ∈ dom (m_blocks c) ∖ V) as Hin
        by by rewrite elem_of_difference, elem_of_dom.
      rewrite Hz in Hin. by apply not_elem_of_empty in Hin. }
    destruct (decide (p = x)) as [->|Hpx].
    { assert (ch = x) as ->.
      { destruct (wf_prev _ Hwf x cur x Hx) as (b' & Hb' & Hin).
        { rewrite Hprev. by left. }
        simplify_eq. rewrite Hnext in Hin.
        by apply list_elem_of_singleton in Hin. }
      destruct fuel as [|fuel]; [lia|].
      rewrite merge_blocks_rec_absent; [done..|].
      subst c2. unfold add_edge. rewrite erase_lookup, decide_True by done.
      cbn [m_blocks set_blocks]. by rewrite erase_lookup, decide_True. }
    subst c2.
    rewrite (merge_step_eq c x p ch cur parent Hwf Hx Hnext Hprev Hp Hpn Hpx).
    apply IH.
    { by apply (merged_wf c x p ch cur parent (m_ts cur)). }
    enough (size (dom (m_blocks (merged x p ch (m_ts cur) c)) ∖ V) <
            size (dom (m_blocks c) ∖ V)) by lia.
    apply (measure_lt c _ V V x); [|done..|].
    + intros l Hl. by apply merged_dom in Hl as [? _].
    + right. by rewrite merged_lookup, decide_True.
Qed.

Lemma merge_blocks_fuel c : wf c → merge_blocks c ≠ OutOfFuel.
Proof.
  intros Hwf. unfold merge_blocks.
  destruct (merge_blocks_rec _ _ _) as [r| |] eqn:Hrec; [done..|].
  apply merge_blocks_rec_fuel in Hrec; [done..|].
  enough (size (dom (m_blocks c) ∖ ∅) ≤ size (m_blocks c)) by lia.
  rewrite <- size_dom. apply subseteq_size. set_solver.
Qed.

(** *** Marking *)

Section mark.
Variable nx : basic_block_t → list label.
Variable nodes : cfg_t → label → result cfg_t (list label).
Hypothesis Hnodes : ∀ c l, nodes c l = (bb ← get_node c l; Ok (nx bb)).

Lemma mark_loop_post fuel c (ls : list label) V V' :
  (∀ V x V', mark_alive_blocks fuel nodes c V x = Ok V' →
     V ⊆ V' ∧ x ∈ V' ∧
     (∀ l, l ∈ V' → l ∉ V → ∀ n, step_via nx c l n → n ∈ V') ∧
     (∀ l, l ∈ V' → l ∉ V → rtc (step_via nx c) x l)) →
  for_each_r (mark_alive_blocks fuel nodes c) V ls = Ok V' →
  V ⊆ V' ∧ (∀ n, n ∈ ls → n ∈ V') ∧
  (∀ l, l ∈ V' → l ∉ V → ∀ n, step_via nx c l n → n ∈ V') ∧
  (∀ l, l ∈ V' → l ∉ V → ∃ n, n ∈ ls ∧ rtc (step_via nx c) n l).
Proof using Hnodes.
  intros IH. revert V. induction ls as [|m ls IHls]; intros V Hr.
  - cbn in Hr. simplify_eq. split; [done|]. split.
    { intros n Hn. by apply elem_of_nil in Hn. }
    split; intros l Hl Hn; by destruct Hn.
  - cbn in Hr.
    destruct (mark_alive_blocks fuel nodes c V m) as [V1| |] eqn:Hm;
      try done. cbn in Hr.
    destruct (IH _ _ _ Hm) as (Hs1 & Hm1 & Hcl1 & Hre1).
    destruct (IHls _ Hr) as (Hs2 & Hls & Hcl2 & Hre2).
    split; [set_solver|]. split.
    { intros n [->|Hn]%elem_of_cons; [set_solver|by apply Hls]. }
    split.
    + intros l Hl HlV n Hstep. destruct (decide (l ∈ V1)) as [Hl1|Hl1].
      * apply Hs2. by eapply Hcl1.
      * by eapply Hcl2.
    + intros l Hl HlV. destruct (decide (l ∈ V1)) as [Hl1|Hl1].
      * exists m. split; [by left|]. by apply Hre1.
      * destruct (Hre2 l Hl Hl1) as (n & Hn & Hrn).
        exists n. split; [by right|done].
Qed.

Lemma mark_alive_post fuel c V x V' :
  mark_alive_blocks fuel nodes c V x = Ok V' →
  V ⊆ V' ∧ x ∈ V' ∧
  (∀ l, l ∈ V' → l ∉ V → ∀ n, step_via nx c l n → n ∈ V') ∧
  (∀ l, l ∈ V' → l ∉ V → rtc (step_via nx c) x l).
Proof using Hnodes.
  revert V x V'. induction fuel as [|fuel IH]; intros V x V' Hr; [done|].
  cbn [mark_alive_blocks] in Hr.
  destruct (decide (x ∈ V)) as [HxV|HxV].
  { simplify_eq. split; [done|]. split; [done|].
    split; intros l Hl Hn; by destruct Hn. }
  rewrite Hnodes in Hr. unfold get_node in Hr.
  destruct (m_blocks c !! x) as [cur|] eqn:Hx; [|done]. cbn in Hr.
  destruct (mark_loop_post _ _ _ _ _ IH Hr) as (Hs & Hls & Hcl & Hre).
  split; [set_solver|]. split; [set_solver|]. split.
  - intros l Hl HlV n Hstep. destruct (decide (l = x)) as [->|Hlx].
    + destruct Hstep as (ba & Hba & Hin). simplify_eq. by apply Hls.
    + eapply Hcl; [done| |done]. set_solver.
  - intros l Hl HlV. destruct (decide (l = x)) as [->|Hlx]; [done|].
    destruct (Hre l Hl) as (n & Hn & Hrn); [set_solver|].
    apply rtc_l with n; [|done]. by exists cur.
Qed.

Lemma mark_alive_spec fuel c x V' :
  mark_alive_blocks fuel nodes c ∅ x = Ok V' →
  ∀ l, l ∈ V' ↔ rtc (step_via nx c) x l.
Proof using Hnodes.
  intros (_ & Hx & Hcl & Hre)%mark_alive_post l. split.
  - intros Hl. by apply Hre.
  - intros Hr. clear Hre. revert Hx.
    induction Hr as [|a y b Hstep _ IH]; intros Ha; [done|].
    apply IH. by eapply (Hcl a Ha).
Qed.

Lemma mark_loop_fuel fuel c (ls : list label) V :
  (∀ V x, size (dom (m_blocks c) ∖ V) < fuel →
          mark_alive_blocks fuel nodes c V x ≠ OutOfFuel) →
  size (dom (m_blocks c) ∖ V) < fuel →
  for_each_r (mark_alive_blocks fuel nodes c) V ls ≠ OutOfFuel.
Proof using Hnodes.
  intros IH. revert V. induction ls as [|m ls IHls]; intros V Hm; [done|].
  cbn. destruct (mark_alive_blocks fuel nodes c V m) as [V1| |] eqn:Hr;
    cbn; [|done|by apply IH in Hr].
  apply mark_alive_post in Hr as (Hs & _).
  apply IHls. eapply Nat.le_lt_trans; [|done].
  apply subseteq_size. set_solver.
Qed.

Lemma mark_alive_fuel fuel c V x :
  size (dom (m_blocks c) ∖ V) < fuel →
  mark_alive_blocks fuel nodes c V x ≠ OutOfFuel.
Proof using Hnodes.
  revert V x. induction fuel as [|fuel IH]; intros V x Hm; [lia|].
  cbn [mark_alive_blocks]. case_decide as HxV; [done|].
  rewrite Hnodes. unfold get_node.
  destruct (m_blocks c !! x) as [cur|] eqn:Hx; [|done]. cbn.
  apply mark_loop_fuel; [done|].
  enough (size (dom (m_blocks c) ∖ ({[x]} ∪ V)) <
          size (dom (m_blocks c) ∖ V)) by lia.
  apply (measure_lt c c V ({[x]} ∪ V) x); [done|set_solver| |done|].
  - by eexists.
  - left. set_solver.
Qed.

Lemma mark_alive_start fuel c V x V' :
  mark_alive_blocks fuel nodes c V x = Ok V' → x ∉ V →
  is_Some (m_blocks c !! x).
Proof using Hnodes.
  intros Hr HxV. destruct fuel as [|fuel]; [done|].
  cbn [mark_alive_blocks] in Hr. rewrite decide_False in Hr by done.
  rewrite Hnodes in Hr. unfold get_node in Hr.
  by destruct (m_blocks c !! x) as [cur|] eqn:Hx; [eexists|].
Qed.
End mark.

(** *** Sweeping *)

Lemma elem_of_not_marked c (alive : gset label) l :
  wf c → l ∈ not_marked c alive ↔ is_Some (m_blocks c !! l) ∧ l ∉ alive.
Proof.
  intros Hwf. unfold not_marked.
  rewrite elem_of_list_to_set, list_elem_of_filter, list_elem_of_fmap.
  split.
  - intros [Hl (bb & -> & Hin)]. split; [|done].
    apply list_elem_of_fmap in Hin as ([k bb'] & -> & Hin).
    apply elem_of_map_to_list in Hin. cbn.
    rewrite (wf_label _ Hwf _ _ Hin). by eexists.
  - intros [[bb Hbb] Hl]. split; [done|]. exists bb. split.
    + symmetry. by eapply wf_label.
    + apply list_elem_of_fmap. exists (l, bb). split; [done|].
      by apply elem_of_map_to_list.
Qed.

Lemma sweep_spec c (alive : gset label) c' :
  wf c →
  for_each_r (λ c bb_id, remove bb_id c) c (elements (not_marked c alive))
    = Ok c' →
  wf c' ∧ m_entry c' = m_entry c ∧ m_exit c' = m_exit c ∧
  (∀ k, is_Some (m_blocks c' !! k) ↔ is_Some (m_blocks c !! k) ∧ k ∈ alive) ∧
  (∀ a b, edge c' a b ↔ edge c a b ∧ a ∈ alive ∧ b ∈ alive).
Proof.
  intros Hwf Hr.
  destruct (remove_all_spec _ _ _ Hwf Hr) as (Hwf' & He & Hx & Hdom & Hedge).
  assert (∀ k, is_Some (m_blocks c !! k) →
            k ∉ elements (not_marked c alive) ↔ k ∈ alive) as Hmark.
  { intros k Hk. rewrite elem_of_elements, elem_of_not_marked by done.
    destruct (decide (k ∈ alive)); naive_solver. }
  split; [done|]. do 2 (split; [done|]). split.
  - intros k. rewrite Hdom. split.
    + intros [Hk Hn]. split; [done|]. by apply Hmark.
    + intros [Hk Hn]. split; [done|]. by apply Hmark.
  - intros a b. rewrite Hedge. split.
    + intros (Hab & Ha & Hb). split; [done|].
      split; (apply Hmark; [|done]).
      * by eapply edge_dom_l.
      * by eapply edge_dom_r.
    + intros (Hab & Ha & Hb). split; [done|].
      split; (apply Hmark; [|done]).
      * by eapply edge_dom_l.
      * by eapply edge_dom_r.
Qed.

Lemma sweep_fuel (ls : list label) c :
  wf c → for_each_r (λ c bb_id, remove bb_id c) c ls ≠ OutOfFuel.
Proof.
  revert c. induction ls as [|l ls IH]; intros c Hwf; [done|]. cbn.
  destruct (remove l c) as [c1| |] eqn:Hrem; cbn; [|done|].
  - apply remove_Ok_inv in Hrem as (He & _ & _ & ->); [|done].
    by apply IH, erase_wf.
  - by apply remove_not_OutOfFuel in Hrem.
Qed.

(** Reachability in a CFG cut down to a set of blocks that is closed
    under successors, or under predecessors. *)
Lemma restrict_reaches_fwd c c' (A : gset label) a b :
  (∀ a b, edge c' a b ↔ edge c a b ∧ a ∈ A ∧ b ∈ A) →
  (∀ a b, a ∈ A → edge c a b → b ∈ A) →
  a ∈ A → reaches c a b → reaches c' a b.
Proof.
  intros Hedge Hcl Ha Hr. induction Hr as [|a y b He _ IH]; [apply rtc_refl|].
  assert (y ∈ A) as Hy by by eapply Hcl.
  apply rtc_l with y; [|by apply IH]. by apply Hedge.
Qed.

Lemma restrict_reaches_bwd c c' (A : gset label) a b :
  (∀ a b, edge c' a b ↔ edge c a b ∧ a ∈ A ∧ b ∈ A) →
  (∀ a b, b ∈ A → edge c a b → a ∈ A) →
  b ∈ A → reaches c a b → reaches c' a b.
Proof.
  intros Hedge Hcl Hb Hr.
  enough (a ∈ A ∧ reaches c' a b) as [_ ?] by done.
  induction Hr as [|a y b He _ IH]; [split; [done|apply rtc_refl]|].
  destruct (IH Hb) as [Hy Hyb].
  assert (a ∈ A) as Ha by by eapply Hcl.
  split; [done|]. apply rtc_l with y; [|done]. by apply Hedge.
Qed.

Lemma back_reaches c a b :
  wf c → rtc (step_via m_prev c) b a ↔ reaches c a b.
Proof.
  intros Hwf. split.
  - intros Hr. induction Hr as [|b y a Hs _ IH]; [apply rtc_refl|].
    eapply rtc_r; [apply IH|]. apply edge_prev; [done|]. exact Hs.
  - intros Hr. induction Hr as [|a y b He _ IH]; [apply rtc_refl|].
    eapply rtc_r; [apply IH|]. by apply edge_prev in He.
Qed.

(** *** The passes of [simplify] *)

Lemma remove_unreachable_blocks_spec c c' :
  wf c → remove_unreachable_blocks c = Ok c' →
  wf c' ∧ m_entry c' = m_entry c ∧ m_exit c' = m_exit c ∧
  (∀ l, is_Some (m_blocks c' !! l) → reaches c' (m_entry c') l).
Proof.
  intros Hwf Hr. unfold remove_unreachable_blocks in Hr.
  destruct (mark_alive_blocks _ _ _ _ _) as [alive| |] eqn:Hmark; try done.
  cbn in Hr.
  pose proof (mark_alive_spec m_next next_nodes (λ _ _, eq_refl) _ _ _ _ Hmark)
    as Halive.
  destruct (sweep_spec _ _ _ Hwf Hr) as (Hwf' & He & Hx & Hdom & Hedge).
  split; [done|]. do 2 (split; [done|]).
  intros l [_ Hl]%Hdom. rewrite He.
  apply (restrict_reaches_fwd c c' alive); [done| | |].
  - intros a b Ha Hab. apply Halive. eapply rtc_r; [by apply Halive|done].
  - apply Halive, rtc_refl.
  - by apply Halive.
Qed.

Lemma remove_unreachable_blocks_fuel c :
  wf c → remove_unreachable_blocks c ≠ OutOfFuel.
Proof.
  intros Hwf. unfold remove_unreachable_blocks.
  destruct (mark_alive_blocks _ _ _ _ _) as [alive| |] eqn:Hmark; cbn;
    [by apply sweep_fuel|done|].
  apply (mark_alive_fuel m_next next_nodes (λ _ _, eq_refl)) in Hmark;
    [done|].
  enough (size (dom (m_blocks c) ∖ ∅) ≤ size (m_blocks c)) by lia.
  rewrite <- size_dom. apply subseteq_size. set_solver.
Qed.

Lemma remove_useless_blocks_spec c c' :
  wf c → remove_useless_blocks c = Ok c' →
  wf c' ∧ m_entry c' = m_entry c ∧ m_exit c' = m_exit c ∧
  (∀ l, is_Some (m_blocks c' !! l) → is_Some (m_blocks c !! l)) ∧
  (∀ ex, m_exit c = Some ex →
     is_Some (m_blocks c' !! ex) ∧
     ∀ l, is_Some (m_blocks c' !! l) → reaches c' l ex) ∧
  (∀ a b, is_Some (m_blocks c' !! a) → is_Some (m_blocks c' !! b) →
          reaches c a b → reaches c' a b).
Proof.
  intros Hwf Hr. unfold remove_useless_blocks in Hr.
  destruct (m_exit c) as [ex|] eqn:Hex.
  2: { simplify_eq. by rewrite Hex. }
  destruct (mark_alive_blocks _ _ _ _ _) as [useful| |] eqn:Hmark; try done.
  cbn in Hr.
  pose proof (mark_alive_spec m_prev prev_nodes (λ _ _, eq_refl) _ _ _ _ Hmark)
    as Huseful.
  pose proof (mark_alive_start m_prev prev_nodes (λ _ _, eq_refl) _ _ _ _ _
                Hmark (not_elem_of_empty ex)) as Hexs.
  assert (∀ l, l ∈ useful ↔ reaches c l ex) as Hu.
  { intros l. by rewrite Huseful, back_reaches. }
  destruct (sweep_spec _ _ _ Hwf Hr) as (Hwf' & He & Hx & Hdom & Hedge).
  assert (∀ a b, b ∈ useful → edge c a b → a ∈ useful) as Hcl.
  { intros a b Hb Hab. apply Hu. apply rtc_l with b; [done|by apply Hu]. }
  split; [done|]. split; [done|]. split; [by rewrite Hx|].
  split; [intros l Hl; by apply Hdom in Hl as [? _]|]. split.
  - intros ex' ?. simplify_eq. split.
    + apply Hdom. split; [done|]. apply Hu, rtc_refl.
    + intros l [_ Hl]%Hdom.
      apply (restrict_reaches_bwd c c' useful); [done..| |by apply Hu].
      apply Hu, rtc_refl.
  - intros a b _ [_ Hb]%Hdom Hab.
    by apply (restrict_reaches_bwd c c' useful).
Qed.

Lemma remove_useless_blocks_fuel c :
  wf c → remove_useless_blocks c ≠ OutOfFuel.
Proof.
  intros Hwf. unfold remove_useless_blocks.
  destruct (m_exit c) as [ex|]; [|done].
  destruct (mark_alive_blocks _ _ _ _ _) as [alive| |] eqn:Hmark; cbn;
    [by apply sweep_fuel|done|].
  apply (mark_alive_fuel m_prev prev_nodes (λ _ _, eq_refl)) in Hmark;
    [done|].
  enough (size (dom (m_blocks c) ∖ ∅) ≤ size (m_blocks c)) by lia.
  rewrite <- size_dom. apply subseteq_size. set_solver.
Qed.

Lemma simplify_fuel c : wf c → simplify c ≠ OutOfFuel.
Proof.
  intros Hwf. unfold simplify.
  destruct (merge_blocks c) as [c1| |] eqn:H1; cbn [mbind result_mbind result_bind];
    [|done|by apply merge_blocks_fuel in H1].
  apply merge_blocks_spec in H1 as (Hwf1 & _); [|done].
  destruct (remove_unreachable_blocks c1) as [c2| |] eqn:H2; cbn [mbind result_mbind result_bind];
    [|done|by apply remove_unreachable_blocks_fuel in H2].
  apply remove_unreachable_blocks_spec in H2 as (Hwf2 & _); [|done].
  destruct (remove_useless_blocks c2) as [c3| |] eqn:H3; cbn [mbind result_mbind result_bind];
    [|done|by apply remove_useless_blocks_fuel in H3].
  apply remove_useless_blocks_spec in H3 as (Hwf3 & _); [|done].
  destruct (merge_blocks c3) as [c4| |] eqn:H4; cbn [mbind result_mbind result_bind];
    [|done|by apply merge_blocks_fuel in H4].
  apply merge_blocks_spec in H4 as (Hwf4 & _); [|done].
  by apply merge_blocks_fuel.
Qed.

(** C8 (amended). On a well-formed CFG [simplify] does not run out of
    fuel, and when it returns the CFG is well formed with the same entry
    and exit, every remaining block is reachable from the entry over
    forward edges, every remaining block reaches the exit when an exit is
    set, and no remaining block has exactly one successor and exactly one
    predecessor whose only successor it is. *)
Theorem simplify_spec c :
  wf c →
  simplify c ≠ OutOfFuel ∧
  ∀ c', simplify c = Ok c' →
    wf c' ∧ m_entry c' = m_entry c ∧ m_exit c' = m_exit c ∧
    (∀ l, is_Some (m_blocks c' !! l) → reaches c' (m_entry c') l) ∧
    (∀ ex, m_exit c' = Some ex →
       ∀ l, is_Some (m_blocks c' !! l) → reaches c' l ex) ∧
    (∀ l, ¬ mergeable c' l).
Proof.
  intros Hwf. split; [by apply simplify_fuel|]. intros c5 Hr.
  unfold simplify in Hr.
  destruct (merge_blocks c) as [c1| |] eqn:H1; try done. cbn [mbind result_mbind result_bind] in Hr.
  destruct (remove_unreachable_blocks c1) as [c2| |] eqn:H2; try done.
  cbn [mbind result_mbind result_bind] in Hr.
  destruct (remove_useless_blocks c2) as [c3| |] eqn:H3; try done.
  cbn [mbind result_mbind result_bind] in Hr.
  destruct (merge_blocks c3) as [c4| |] eqn:H4; try done. cbn [mbind result_mbind result_bind] in Hr.
  apply merge_blocks_spec in H1 as (Hwf1 & He1 & Hx1 & _); [|done].
  apply remove_unreachable_blocks_spec in H2 as (Hwf2 & He2 & Hx2 & Hre2);
    [|done].
  apply remove_useless_blocks_spec in H3
    as (Hwf3 & He3 & Hx3 & Hd3 & Hex3 & Hre3); [|done].
  apply merge_blocks_spec in H4
    as (Hwf4 & He4 & Hx4 & Hd4 & Hk4 & Hre4 & _); [|done].
  apply merge_blocks_spec in Hr
    as (Hwf5 & He5 & Hx5 & Hd5 & Hk5 & Hre5 & Hnm5); [|done].
  assert (∀ l, is_Some (m_blocks c5 !! l) → reaches c5 (m_entry c5) l)
    as Hreach.
  { intros l Hl5.
    pose proof (Hd5 _ Hl5) as Hl4. pose proof (Hd4 _ Hl4) as Hl3.
    pose proof (Hd3 _ Hl3) as Hl2.
    pose proof (wf_entry _ Hwf5) as Hen5.
    pose proof (wf_entry _ Hwf4) as Hen4.
    pose proof (wf_entry _ Hwf3) as Hen3.
    apply Hre5; [done..|]. rewrite He5.
    apply Hre4; [done..|]. rewrite He4.
    apply Hre3; [done..|]. rewrite He3. by apply Hre2. }
  split; [done|].
  split; [congruence|]. split; [congruence|]. split; [done|]. split.
  - intros ex Hex l Hl5.
    pose proof (Hd5 _ Hl5) as Hl4. pose proof (Hd4 _ Hl4) as Hl3.
    assert (m_exit c2 = Some ex) as Hex2 by congruence.
    assert (m_exit c3 = Some ex) as Hex3' by congruence.
    assert (m_exit c4 = Some ex) as Hex4 by congruence.
    destruct (Hex3 ex Hex2) as [Hexs3 Hto].
    pose proof (Hk4 ex Hex3' Hexs3) as Hexs4.
    pose proof (Hk5 ex Hex4 Hexs4) as Hexs5.
    apply Hre5; [done..|]. apply Hre4; [done..|]. by apply Hto.
  - intros l Hm. apply (Hnm5 l); [|done]. apply Hreach.
    destruct Hm as (cur & _ & _ & Hl & _). by eexists.
Qed.

End simplify_facts.

(** C8 (counterexample). On the CFG [0 -> 1] with entry 0 and exit 1
  [simplify] changes nothing, and block 1 has in-degree 1, its only
  predecessor has out-degree 1, and it has no successor. *)
Lemma simplify_keeps_chain_link :
wf two_blocks ∧ simplify two_blocks = Ok two_blocks ∧
chain_link two_blocks 1.
Proof.
split; [apply wf_check_wf; by vm_compute|].
split; [by vm_compute|].
exists (block 1 [11] [0] []), 0, (block 0 [10] [] [1]).
repeat split; try done.
Qed.

Lemma simplify_spec_witness :
wf diamond ∧
∃ c', simplify diamond = Ok c' ∧ wf c' ∧
  (∀ l, is_Some (m_blocks c' !! l) → reaches c' 0 l ∧ reaches c' l 4) ∧
  (∀ l, ¬ mergeable c' l).
Proof.
split; [exact diamond_wf|].
destruct (simplify_spec diamond diamond_wf) as [_ Hspec].
destruct (simplify diamond) as [c'| |] eqn:Hs; try by vm_compute in Hs.
destruct (Hspec c' eq_refl) as (Hwf & He & Hx & Hre & Hex & Hnm).
exists c'. split; [done|]. split; [done|].
split; [|done]. intros l Hl. split.
- pose proof (Hre l Hl) as Hr. rewrite He in Hr. exact Hr.
- apply Hex; [|done]. by rewrite Hx.
Defined.

End simplify_facts.

(** ** AdaptSMap: iteration order, capacity and copies *)

Lemma small_key n : n ≤ 1000 → n < key_range.
Proof. pose proof key_range_Z. lia. Qed.

(** Closed decidable statements are settled by evaluation. *)
Ltac by_eval :=
  match goal with
  | |- ?P => apply (bool_decide_unpack P); vm_compute; exact I
  end.

Module AdaptSMapMore.
Import AdaptSMap AdaptSMapSpec AdaptSMapFacts.

(** *** Iteration order *)

(** [add] appends to the iteration order of [elts()] and [keys()], in
    dense and in sparse mode alike. *)
Theorem add_appends m k v :
  wf m → k < key_range → k ∉ keys m →
  elts (add m k v) = elts m ++ [Elt k v] ∧
  keys (add m k v) = keys m ++ [k].
Proof.
  intros Hwf Hk Hnk. destruct (add_spec m k v Hwf Hk Hnk) as (_ & He & _).
  split; [done|]. unfold keys. rewrite He. by rewrite fmap_app.
Qed.

Lemma add_appends_witness :
  elts (add (add init 3 30) 5 50) = elts (add init 3 30) ++ [Elt 5 50] ∧
  keys (add (add init 3 30) 5 50) = keys (add init 3 30) ++ [5].
Proof.
  apply add_appends.
  - apply add_spec; [apply smap_wf_init|apply small_key; lia|by_eval].
  - apply small_key; lia.
  - by_eval.
Defined.

Lemma remove_dense m i e :
  wf m → elts m !! i = Some e →
  ∃ n repl m', sz m = S n ∧ dense m !! n = Some repl ∧
    remove m (key e) = Some m' ∧ sz m' = n ∧
    dense m' = <[i := repl]> (dense m) ∧
    dense_maxsz m' = dense_maxsz m.
Proof.
  intros Hwf Hi.
  pose proof Hi as Hi'. apply elts_lookup in Hi' as [Hdi Hlt].
  pose proof Hwf as [H1 H2 H3 H4 H5 H6 H7].
  destruct (sz m) as [|n] eqn:Hsz; [lia|].
  destruct (lookup_lt_is_Some_2 (dense m) n) as [repl Hrepl]; [lia|].
  assert (elts m !! n = Some repl) as Hn.
  { apply elts_lookup. split; [done|lia]. }
  assert (elts m = take (S n) (dense m)) as Helts.
  { unfold elts. by rewrite Hsz. }
  exists n, repl. unfold remove. rewrite Hsz, Hrepl. simpl.
  destruct (sparse m) as [sp|] eqn:Hsp.
  - destruct (H7 sp eq_refl) as (Hlen & Hpos & Hidx).
    rewrite (Hidx _ _ Hi). simpl.
    assert (i < length (dense m)) as Hil by (by eapply lookup_lt_Some).
    assert (key repl < length sp) as Hrl.
    { eapply lookup_lt_Some. by apply (Hidx _ _ Hn). }
    destruct (Nat.ltb_spec i (length (dense m))); [|lia].
    destruct (Nat.ltb_spec (key repl) (length sp)); [|lia]. simpl.
    by eexists.
  - rewrite (scan_take (key e) (dense m) (S n) i e); [|by rewrite <- Helts|done|].
    2:{ rewrite <- Helts. apply H6. }
    simpl. by eexists.
Qed.

(** [remove(k)] puts the last element of the iteration order in the place
    of [k] and drops the last position; every other element keeps its
    position. *)
Theorem remove_swaps_last m i e last_e :
  wf m → elts m !! i = Some e → last (elts m) = Some last_e →
  ∃ m', remove m (key e) = Some m' ∧
    elts m' = take (sz m - 1) (<[i := last_e]> (elts m)).
Proof.
  intros Hwf Hi Hlast.
  destruct (remove_dense m i e Hwf Hi)
    as (n & repl & m' & Hsz & Hn & Hrem & Hsz' & Hd & _).
  exists m'. split; [done|].
  assert (last_e = repl) as ->.
  { rewrite last_lookup, elts_length, Hsz in Hlast by done. simpl in Hlast.
    apply elts_lookup in Hlast as [Hl _]. congruence. }
  unfold elts. rewrite Hsz', Hd, Hsz.
  replace (S n - 1) with n by lia.
  apply elts_lookup in Hi as [_ Hlt].
  rewrite <- take_insert_lt by lia.
  rewrite take_take. by replace (n `min` S n) with n by lia.
Qed.

Lemma remove_swaps_last_witness :
  ∃ m', remove nine (key (Elt 2 102)) = Some m' ∧
    elts m' = take (sz nine - 1) (<[2 := Elt 8 108]> (elts nine)).
Proof.
  apply remove_swaps_last; [apply nine_wf|by vm_compute..].
Defined.

(** *** Capacity *)

Lemma remove_maxsz m k m' : remove m k = Some m' → dense_maxsz m' = dense_maxsz m.
Proof.
  unfold remove. intros Hr.
  destruct (sz m) as [|n]; [done|].
  destruct (dense m !! n) as [repl|]; [|done]. simpl in Hr.
  destruct (sparse m) as [sp|].
  - destruct (sp !! k ≫= id) as [idx|]; [|done]. simpl in Hr.
    destruct ((idx <? length (dense m)) && (key repl <? length sp));
      by simplify_eq.
  - destruct (scan k (dense m)) as [i|]; simpl in Hr; by simplify_eq.
Qed.

Lemma double_until_done fuel cur target :
  target ≤ cur → double_until fuel cur target = cur.
Proof.
  intros Hle. destruct fuel as [|fuel]; [done|]. simpl.
  by destruct (Nat.ltb_spec cur target); [lia|].
Qed.

Lemma double_once n : 0 < n → double_until (n + 1) n (n + 1) = 2 * n.
Proof.
  intros Hn. replace (n + 1) with (S n) by lia.
  change (double_until (S n) n (S n))
    with (if n <? S n then double_until n (n * 2) (S n) else n).
  destruct (Nat.ltb_spec n (S n)); [|lia].
  rewrite double_until_done; lia.
Qed.

Lemma add_maxsz m k v :
  wf m →
  dense_maxsz (add m k v) =
    if dense_maxsz m <=? sz m then 2 * sz m else dense_maxsz m.
Proof.
  intros Hwf.
  assert (dense_maxsz (add m k v) =
          dense_maxsz (if dense_maxsz m <=? sz m
                       then growDense m (sz m + 1) else m)) as ->.
  { unfold add.
    set (m1 := if dense_maxsz m <=? sz m then growDense m (sz m + 1) else m).
    set (m2 := set_dense _ m1).
    assert (dense_maxsz m2 = dense_maxsz m1) as <- by done.
    clearbody m2. simpl.
    destruct (sparse m2) as [sp|] eqn:Hsp; [|done].
    destruct (sparse_ub m2 <=? k); simpl; [done|]. by rewrite Hsp. }
  destruct (Nat.leb_spec (dense_maxsz m) (sz m)) as [Hle|]; [|done].
  destruct (growDense_fields m (sz m + 1)) as (_ & _ & _ & ->).
  pose proof (wf_sz _ Hwf). pose proof (wf_cap _ Hwf).
  pose proof (wf_maxsz _ Hwf). unfold sparse_threshold in *.
  replace (dense_maxsz m) with (sz m) by lia.
  apply double_once. lia.
Qed.

Lemma run_capacity ops m a a' B :
  wf m → repr m a → sz m = base.size a →
  dense_maxsz m ≤ Nat.max sparse_threshold (2 * (B - 1)) →
  ref_run a ops = Some a' →
  ∃ m', run m ops = Some m' ∧
    dense_maxsz m' ≤
      Nat.max sparse_threshold (2 * (Nat.max B (peak a ops) - 1)).
Proof.
  revert m a B. induction ops as [|o ops IH]; intros m a B Hwf Hr Hsz Hcap Hrun.
  { exists m. split; [done|]. simpl. lia. }
  unfold ref_run in Hrun. simpl in Hrun.
  destruct (ref_step a o) as [a1|] eqn:Hstep; [|done]. simpl in Hrun.
  destruct (step_sim m a o a1 Hwf Hr Hsz Hstep)
    as (m1 & Hm1 & Hwf1 & Hr1 & Hsz1 & _).
  assert (dense_maxsz m1 ≤
          Nat.max sparse_threshold (2 * (Nat.max B (base.size a1) - 1)))
    as Hcap1.
  { destruct o as [k v| k |]; simpl in Hm1; simplify_eq.
    - rewrite add_maxsz by done.
      assert (sz (add m k v) = S (sz m)) as Hs.
      { simpl in Hstep. case_decide as Hd; [|done]. destruct Hd as [? Hnone].
        apply add_spec; [done..|].
        rewrite (repr_keys m a k Hr), Hnone. by intros [? ?]. }
      rewrite <- Hsz1, Hs. destruct (dense_maxsz m <=? sz m); lia.
    - apply remove_maxsz in Hm1. rewrite Hm1. lia.
    - change (dense_maxsz (clear m)) with (dense_maxsz m). lia. }
  destruct (IH m1 a1 _ Hwf1 Hr1 Hsz1 Hcap1 Hrun) as (m' & Hrun' & Hcap').
  exists m'. split.
  - unfold run. simpl. rewrite Hm1. exact Hrun'.
  - simpl. rewrite Hstep. pose proof (peak_ge a1 ops). lia.
Qed.

(** The dense buffer is never more than twice as large as the largest
    number of live keys the map has held, minus one, and never smaller
    than the initial 8 cells: after any run of calls from the empty map,
    [size <= dense_maxsz <= max 8 (2 * (peak - 1))]. *)
Theorem capacity_bound ops a :
  ref_run ∅ ops = Some a →
  ∃ m, run init ops = Some m ∧
    sz m ≤ dense_maxsz m ∧
    dense_maxsz m ≤ Nat.max sparse_threshold (2 * (peak ∅ ops - 1)).
Proof.
  intros Hrun.
  destruct (run_sim ops init ∅ a smap_wf_init repr_init eq_refl Hrun)
    as (m & Hm & Hwf & _).
  destruct (run_capacity ops init ∅ a 0 smap_wf_init repr_init eq_refl
              ltac:(vm_compute; lia) Hrun) as (m' & Hm' & Hcap).
  rewrite Hm in Hm'. simplify_eq. exists m'. split; [done|]. split.
  - pose proof (wf_sz _ Hwf). pose proof (wf_cap _ Hwf). lia.
  - by rewrite Nat.max_0_l in Hcap.
Qed.

Lemma capacity_bound_witness :
  ∃ m, run init churn_ops = Some m ∧
    sz m ≤ dense_maxsz m ∧
    dense_maxsz m ≤ Nat.max sparse_threshold (2 * (peak ∅ churn_ops - 1)).
Proof. by apply (capacity_bound churn_ops ∅). Defined.

(** *** Copy construction and copy assignment *)

Lemma reindex_from_spec idx rounds (d : list elt_t) sp :
  idx + rounds ≤ length d →
  (∀ j e, idx ≤ j < idx + rounds → d !! j = Some e → key e < length sp) →
  NoDup (key <$> take (idx + rounds) d) →
  ∃ sp', reindex_from idx rounds d sp = Some sp' ∧
    length sp' = length sp ∧
    (∀ k, (∀ j e, idx ≤ j < idx + rounds → d !! j = Some e → key e ≠ k) →
          sp' !! k = sp !! k) ∧
    (∀ j e, idx ≤ j < idx + rounds → d !! j = Some e →
            sp' !! key e = Some (Some j)).
Proof.
  revert idx sp. induction rounds as [|r IH]; intros idx sp Hlen Hub Hnd.
  { exists sp. split; [done|]. split; [done|]. split; [done|]. intros; lia. }
  destruct (lookup_lt_is_Some_2 d idx) as [e0 He0]; [lia|].
  assert (key e0 < length sp) as Hk0 by (apply (Hub idx); [lia|done]).
  simpl. rewrite He0. simpl.
  destruct (Nat.ltb_spec (key e0) (length sp)); [|lia].
  destruct (IH (S idx) (<[key e0 := Some idx]> sp)) as (sp' & Hsp' & Hl & Hfr & Hix).
  - lia.
  - intros j e Hj He. rewrite length_insert. apply (Hub j); [lia|done].
  - by replace (S idx + r) with (idx + S r) by lia.
  - exists sp'. split; [done|]. rewrite length_insert in Hl.
    split; [done|]. split.
    + intros k Hk. rewrite Hfr.
      * apply list_lookup_insert_ne. apply (Hk idx); [lia|done].
      * intros j e Hj He. apply (Hk j); [lia|done].
    + intros j e Hj He. destruct (decide (j = idx)) as [->|Hne].
      * simplify_eq. rewrite Hfr.
        { by apply list_lookup_insert_eq. }
        intros j e Hj' He' Heq.
        assert (j = idx); [|lia].
        eapply (NoDup_lookup _ j idx (key e0) Hnd);
          rewrite list_lookup_fmap, lookup_take_lt by lia.
        -- rewrite He'. simpl. by rewrite Heq.
        -- by rewrite He0.
      * apply Hix; [lia|done].
Qed.

Lemma reindex_from_out_of_bounds idx rounds (d : list elt_t) sp j e :
  idx ≤ j < idx + rounds → d !! j = Some e → length sp ≤ key e →
  reindex_from idx rounds d sp = None.
Proof.
  revert idx sp. induction rounds as [|r IH]; intros idx sp Hj He Hk; [lia|].
  simpl. destruct (d !! idx) as [e0|] eqn:He0; [|done]. simpl.
  destruct (Nat.ltb_spec (key e0) (length sp)) as [Hlt|]; [|done].
  destruct (decide (j = idx)) as [->|Hne]; [simplify_eq; lia|].
  apply IH; [lia|done|by rewrite length_insert].
Qed.

Lemma reindex_spec m (sp : list (option nat)) :
  wf m → sz m < key_range →
  (∀ e, e ∈ elts m → key e < length sp) →
  ∃ sp', reindex (sz m) (elts m) sp = Some sp' ∧ length sp' = length sp ∧
    ∀ i e, elts m !! i = Some e → sp' !! key e = Some (Some i).
Proof.
  intros Hwf Hsz Hub. unfold reindex.
  destruct (Nat.ltb_spec (sz m) key_range); [|lia].
  pose proof (elts_length m Hwf) as Hlen.
  destruct (reindex_from_spec 0 (sz m) (elts m) sp) as (sp' & Hsp' & Hl & _ & Hix).
  - simpl. lia.
  - intros j e _ He. apply Hub. by eapply list_elem_of_lookup_2.
  - simpl. rewrite <- Hlen, firstn_all. apply (wf_nodup _ Hwf).
  - exists sp'. split; [done|]. split; [done|].
    intros i e He. apply Hix; [|done].
    apply lookup_lt_Some in He. simpl. lia.
Qed.

(** The copy constructor yields a well-formed map with the same elements
    in the same order and in the same mode, so every lookup agrees with
    the original; it needs fewer than 65536 live keys, because its loop
    counter is a [key_t]. *)
Theorem copy_same_elements o :
  wf o → sz o < key_range →
  ∃ m, copy o = Some m ∧ wf m ∧ elts m = elts o ∧
    is_sparse m = is_sparse o ∧
    ∀ junk junk' k, lookup junk m k = lookup junk' o k.
Proof.
  intros Hwf Hsz. pose proof Hwf as [H1 H2 H3 H4 H5 H6 H7].
  assert (∃ m, copy o = Some m ∧ wf m ∧ elts m = elts o ∧
               is_sparse m = is_sparse o) as (m & Hc & Hwfm & He & Hs).
  { unfold copy.
    destruct (Nat.leb_spec (sz o) (length (dense o))); [|lia].
    destruct (Nat.leb_spec (sz o) (dense_maxsz o)); [|lia]. simpl.
    assert (take (sz o) (take (sz o) (dense o)) = take (sz o) (dense o))
      as Htt by (rewrite take_take; f_equal; lia).
    destruct (sparse o) as [sp|] eqn:Hsp.
    - destruct (H7 sp eq_refl) as (Hlen & Hpos & Hidx).
      destruct (reindex_spec o (replicate (sparse_ub o) None) Hwf Hsz)
        as (sp' & Hsp' & Hl & Hix).
      { intros e He. rewrite length_replicate. by eapply wf_key_lt_ub. }
      unfold elts in Hsp'. rewrite Hsp'. simpl. eexists. split; [done|].
      split; [|split; [exact Htt|by unfold is_sparse; simpl; rewrite Hsp]].
      split; simpl; try done.
      + rewrite length_take. lia.
      + rewrite length_take. lia.
      + unfold keys, elts. simpl. by rewrite Htt.
      + unfold keys, elts. simpl. by rewrite Htt.
      + intros ? [= <-]. rewrite Hl, length_replicate.
        split; [done|]. split; [done|].
        unfold elts. simpl. rewrite Htt. apply Hix.
    - eexists. split; [done|].
      split; [|split; [exact Htt|by unfold is_sparse; simpl; rewrite Hsp]].
      split; simpl; try done.
      + rewrite length_take. lia.
      + rewrite length_take. lia.
      + unfold keys, elts. simpl. by rewrite Htt.
      + unfold keys, elts. simpl. by rewrite Htt. }
  exists m. do 4 (split; [done|]).
  intros junk junk' k.
  destruct (lookup junk' o k) as [v|] eqn:Hl.
  - apply lookup_Some; [done|]. rewrite He. by apply (lookup_Some junk' o).
  - apply lookup_None; [done|]. unfold keys. rewrite He.
    by apply (lookup_None junk' o).
Qed.

Lemma copy_same_elements_witness :
  ∃ m, copy nine = Some m ∧ wf m ∧ elts m = elts nine ∧
    is_sparse m = is_sparse nine ∧
    ∀ junk junk' k, lookup junk m k = lookup junk' nine k.
Proof.
  apply copy_same_elements; [apply nine_wf|].
  apply small_key. vm_compute. lia.
Defined.

Lemma assign_elts (d d' : list elt_t) n :
  n ≤ length d → take n (take n d ++ drop n d') = take n d.
Proof.
  intros Hn. rewrite take_app_le by (rewrite length_take; lia).
  rewrite take_take. f_equal. lia.
Qed.

(** Copy assignment [m = o] yields a well-formed map with the elements of
    [o] in the same order, provided that no key of a dense-mode [o] lies
    at or beyond the sparse table that [m] already has. *)
Theorem assign_same_elements m o :
  wf m → wf o → sz o < key_range →
  (is_sparse m = true → is_sparse o = false →
   ∀ k, k ∈ keys o → k < sparse_ub m) →
  ∃ m', assign m o = Some m' ∧ wf m' ∧ elts m' = elts o ∧
    is_sparse m' = is_sparse m || is_sparse o ∧
    ∀ junk junk' k, lookup junk m' k = lookup junk' o k.
Proof.
  intros Hwfm Hwf Hsz Hfit.
  pose proof Hwf as [H1 H2 H3 H4 H5 H6 H7].
  pose proof Hwfm as [G1 G2 G3 G4 G5 G6 G7].
  assert (∃ m', assign m o = Some m' ∧ wf m' ∧ elts m' = elts o ∧
                is_sparse m' = is_sparse m || is_sparse o)
    as (m' & Hc & Hwfm' & He & Hs).
  { unfold assign.
    set (maxsz := if dense_maxsz m <? dense_maxsz o
                  then dense_maxsz o else dense_maxsz m).
    assert (dense_maxsz o ≤ maxsz ∧ dense_maxsz m ≤ maxsz ∧
            (maxsz = dense_maxsz o ∨ maxsz = dense_maxsz m)) as (Hm1 & Hm2 & Hm3).
    { unfold maxsz. destruct (Nat.ltb_spec (dense_maxsz m) (dense_maxsz o)); lia. }
    destruct (Nat.leb_spec (sz o) (length (dense o))); [|lia].
    destruct (Nat.leb_spec (sz o) maxsz); [|lia]. simpl.
    set (d := take (sz o) (dense o) ++ drop (sz o) (dense m)).
    assert (take (sz o) d = elts o) as Htd by by apply assign_elts.
    assert (length d ≤ maxsz) as Hld.
    { unfold d. rewrite length_app, length_take, length_drop. lia. }
    assert (sz o ≤ length d) as Hsd.
    { unfold d. rewrite length_app, length_take. lia. }
    assert (∀ ub sp0,
      length sp0 = ub → 0 < ub → (∀ e, e ∈ elts o → key e < ub) →
      ∃ sp', reindex (sz o) d sp0 = Some sp' ∧
        wf {| sz := sz o; dense_maxsz := maxsz; sparse_ub := ub;
              dense := d; sparse := Some sp' |}) as Hsparse.
    { intros ub sp0 Hlen Hpos Hub.
      assert (reindex (sz o) d sp0 = reindex (sz o) (elts o) sp0) as ->.
      { unfold reindex. destruct (sz o <? key_range); [|done].
        clear -Htd Hsd H1. unfold elts in *.
        assert (∀ idx, idx < sz o →
                  d !! idx = take (sz o) (dense o) !! idx) as Hlk.
        { intros idx Hidx. rewrite <- Htd. by rewrite lookup_take_lt. }
        assert (∀ r idx sp, idx + r ≤ sz o →
          reindex_from idx r d sp
          = reindex_from idx r (take (sz o) (dense o)) sp) as Hgen.
        { induction r as [|r IH]; intros idx sp Hle; [done|]. simpl.
          rewrite Hlk by lia.
          destruct (take (sz o) (dense o) !! idx) as [e|]; [|done]. simpl.
          destruct (key e <? length sp); [|done]. apply IH. lia. }
        apply Hgen. lia. }
      destruct (reindex_spec o sp0 Hwf Hsz) as (sp' & Hsp' & Hl & Hix).
      { intros e Hin. rewrite Hlen. by apply Hub. }
      exists sp'. split; [done|].
      split; simpl; try done; try lia.
      - unfold keys, elts. simpl. by rewrite Htd.
      - unfold keys, elts. simpl. by rewrite Htd.
      - intros ? [= <-]. split; [lia|]. split; [done|].
        unfold elts. simpl. rewrite Htd. apply Hix. }
    destruct (sparse o) as [spo|] eqn:Hspo, (sparse m) as [spm|] eqn:Hspm.
    - destruct (H7 spo eq_refl) as (Hlo & Hpo & _).
      destruct (G7 spm eq_refl) as (Hlm & Hpm & _).
      destruct (Nat.ltb_spec (sparse_ub m) (sparse_ub o)).
      + destruct (Hsparse (sparse_ub o)
                    (spm ++ replicate (sparse_ub o - length spm) None))
          as (sp' & -> & Hw).
        { rewrite length_app, length_replicate. lia. }
        { done. }
        { intros e Hin. by eapply wf_key_lt_ub. }
        simpl. eexists. split; [done|]. split; [done|].
        split; [done|]. unfold is_sparse. simpl. by rewrite Hspo, Hspm.
      + destruct (Hsparse (sparse_ub m) spm) as (sp' & -> & Hw); [done..| |].
        { intros e Hin. pose proof (wf_key_lt_ub o spo e Hwf Hspo Hin). lia. }
        simpl. eexists. split; [done|]. split; [done|].
        split; [done|]. unfold is_sparse. simpl. by rewrite Hspo, Hspm.
    - destruct (H7 spo eq_refl) as (Hlo & Hpo & _).
      destruct (Hsparse (sparse_ub o) (replicate (sparse_ub o) None))
        as (sp' & -> & Hw); [by rewrite length_replicate|done| |].
      { intros e Hin. by eapply wf_key_lt_ub. }
      simpl. eexists. split; [done|]. split; [done|].
      split; [done|]. unfold is_sparse. simpl. by rewrite Hspo, Hspm.
    - destruct (G7 spm eq_refl) as (Hlm & Hpm & _).
      destruct (Hsparse (sparse_ub m) spm) as (sp' & -> & Hw); [done..| |].
      { intros e Hin. apply Hfit.
        - unfold is_sparse. by rewrite Hspm.
        - unfold is_sparse. by rewrite Hspo.
        - apply elem_of_keys. exists (val e). by destruct e. }
      simpl. eexists. split; [done|]. split; [done|].
      split; [done|]. unfold is_sparse. simpl. by rewrite Hspo, Hspm.
    - eexists. split; [done|].
      split; [|split; [done|by unfold is_sparse; simpl; rewrite Hspo, Hspm]].
      split; simpl; try done; try lia.
      + intros _. specialize (H4 eq_refl). specialize (G4 eq_refl). lia.
      + unfold keys, elts. simpl. by rewrite Htd.
      + unfold keys, elts. simpl. by rewrite Htd. }
  exists m'. do 4 (split; [done|]).
  intros junk junk' k.
  destruct (lookup junk' o k) as [v|] eqn:Hl.
  - apply lookup_Some; [done|]. rewrite He. by apply (lookup_Some junk' o).
  - apply lookup_None; [done|]. unfold keys. rewrite He.
    by apply (lookup_None junk' o).
Qed.

Lemma assign_same_elements_witness :
  ∃ m', assign init nine = Some m' ∧ wf m' ∧ elts m' = elts nine ∧
    is_sparse m' = is_sparse init || is_sparse nine ∧
    ∀ junk junk' k, lookup junk m' k = lookup junk' nine k.
Proof.
  apply assign_same_elements;
    [apply smap_wf_init|apply nine_wf| |by vm_compute].
  apply small_key. vm_compute. lia.
Defined.

(** Copy assignment never enlarges the sparse table of [m] for a
    dense-mode [o]: when [o] holds a key at or beyond that table, the
    re-indexing loop writes outside it. *)
Theorem assign_dense_into_sparse_out_of_bounds m o k :
  wf m → wf o → is_sparse m = true → is_sparse o = false →
  k ∈ keys o → sparse_ub m ≤ k →
  assign m o = None.
Proof.
  intros Hwfm Hwf Hm Ho Hk Hub.
  unfold is_sparse in Hm, Ho.
  destruct (sparse m) as [spm|] eqn:Hspm; [|done].
  destruct (sparse o) as [spo|] eqn:Hspo; [done|].
  destruct (wf_sparse _ Hwfm spm Hspm) as (Hlm & _).
  apply list_elem_of_fmap in Hk as (e & -> & He).
  apply list_elem_of_lookup in He as [i Hi].
  pose proof Hi as [Hdi Hlt]%elts_lookup.
  unfold assign. rewrite Hspo, Hspm.
  destruct (_ && _); [|done]. simpl.
  enough (reindex (sz o) (take (sz o) (dense o) ++ drop (sz o) (dense m)) spm
          = None) as -> by done.
  unfold reindex. destruct (sz o <? key_range); [|done].
  apply (reindex_from_out_of_bounds 0 (sz o) _ spm i e); [lia| |lia].
  rewrite lookup_app_l by (rewrite length_take; pose proof (wf_sz _ Hwf); lia).
  by rewrite lookup_take_lt.
Qed.

Lemma assign_dense_into_sparse_out_of_bounds_witness :
  assign nine (add init 100 1) = None.
Proof.
  apply (assign_dense_into_sparse_out_of_bounds nine (add init 100 1) 100).
  - apply nine_wf.
  - apply add_spec; [apply smap_wf_init|apply small_key; lia|by_eval].
  - apply nine_wf.
  - by vm_compute.
  - by_eval.
  - vm_compute. lia.
Defined.

End AdaptSMapMore.

(** ** AdaptGraph: what the calls do to the edges *)

Module AdaptGraphMore.
Import AdaptGraph AdaptGraphSpec AdaptGraphFacts.

(** *** Edges as seen through [elem] and [edge_val] *)

Lemma medge_target g s d i :
  wf g → medge (_succs g) s d i → s < size g ∧ d < size g.
Proof.
  intros Hwf He. split; [by eapply medge_lt|].
  apply (wf_sym _ Hwf) in He. apply medge_lt in He.
  by rewrite (wf_len_preds _ Hwf) in He.
Qed.

Lemma edge_view junk g s d :
  wf g → size g ≤ key_range → s < size g → d < size g →
  (∀ i, medge (_succs g) s d i →
        elem junk g s d = Some true ∧ edge_val junk g s d = _ws g !! i) ∧
  ((¬ ∃ i, medge (_succs g) s d i) → elem junk g s d = Some false).
Proof.
  intros Hwf Hsize Hs Hd. unfold size in *.
  destruct (lookup_lt_is_Some_2 (_succs g) s Hs) as [sm Hsm].
  assert (SMS.wf sm) as Hwfsm
    by (by eapply (Forall_lookup_1 _ _ _ _ (wf_succs _ Hwf))).
  unfold elem, edge_val. rewrite Hsm. simpl.
  rewrite (to_key_small d) by lia. split.
  - intros i (sm' & Hsm' & Hin). simplify_eq.
    assert (SM.lookup junk sm d = Some i) as Hl by by apply SMF.lookup_Some.
    rewrite SMF.elem_lookup, Hl by done. done.
  - intros Hno. f_equal. apply not_true_is_false. intros Ht.
    apply SMF.elem_true in Ht; [|done].
    apply (medge_keys _ _ _ _ Hsm) in Ht. done.
Qed.

Lemma elem_true_medge junk g s d :
  wf g → size g ≤ key_range → s < size g → d < size g →
  elem junk g s d = Some true ↔ ∃ i, medge (_succs g) s d i.
Proof.
  intros Hwf Hsize Hs Hd. unfold size in *.
  destruct (lookup_lt_is_Some_2 (_succs g) s Hs) as [sm Hsm].
  assert (SMS.wf sm) as Hwfsm
    by (by eapply (Forall_lookup_1 _ _ _ _ (wf_succs _ Hwf))).
  unfold elem. rewrite Hsm. simpl. rewrite (to_key_small d) by lia.
  rewrite <- (medge_keys _ _ _ _ Hsm), <- (SMF.elem_true junk) by done.
  split; [by intros [= ->]|by intros ->].
Qed.

Lemma lookup_eq junk junk' sm sm' k :
  SMS.wf sm → SMS.wf sm' →
  (∀ i, SM.Elt k i ∈ SM.elts sm' ↔ SM.Elt k i ∈ SM.elts sm) →
  SM.lookup junk' sm' k = SM.lookup junk sm k.
Proof.
  intros Hwf Hwf' Hiff.
  destruct (SM.lookup junk sm k) as [i|] eqn:Hl.
  - apply SMF.lookup_Some; [done|]. apply Hiff. by apply (SMF.lookup_Some junk).
  - apply SMF.lookup_None; [done|]. apply SMF.lookup_None in Hl; [|done].
    rewrite SMF.elem_of_keys in *. intros [i Hi]. apply Hl. exists i.
    by apply Hiff.
Qed.

(** Two graphs that hold the same edges out of [s] towards [d], under
    weight indices that carry the same weights, answer [elem] and
    [edge_val] alike. *)
Lemma same_edge_same_answers junk junk' g g' s d :
  wf g → wf g' → size g ≤ key_range → size g' = size g →
  s < size g → d < size g →
  (∀ i, medge (_succs g') s d i ↔ medge (_succs g) s d i) →
  (∀ i, medge (_succs g) s d i → _ws g' !! i = _ws g !! i) →
  _ws g' !! 0 = _ws g !! 0 →
  elem junk' g' s d = elem junk g s d ∧
  edge_val junk' g' s d = edge_val junk g s d.
Proof.
  intros Hwf Hwf' Hsize Hsz Hs Hd Hiff Hws Hws0. unfold size in *.
  destruct (lookup_lt_is_Some_2 (_succs g) s Hs) as [sm Hsm].
  destruct (lookup_lt_is_Some_2 (_succs g') s ltac:(lia)) as [sm' Hsm'].
  assert (SMS.wf sm) as Hwfsm
    by (by eapply (Forall_lookup_1 _ _ _ _ (wf_succs _ Hwf))).
  assert (SMS.wf sm') as Hwfsm'
    by (by eapply (Forall_lookup_1 _ _ _ _ (wf_succs _ Hwf'))).
  assert (SM.lookup junk' sm' (to_key d) = SM.lookup junk sm (to_key d)) as Hl.
  { apply lookup_eq; [done..|]. intros i. specialize (Hiff i).
    rewrite (to_key_small d) by lia. unfold medge in Hiff. split.
    - intros Hin. destruct (proj1 Hiff) as (? & ? & ?); [by eauto|].
      by simplify_eq.
    - intros Hin. destruct (proj2 Hiff) as (? & ? & ?); [by eauto|].
      by simplify_eq. }
  unfold elem, edge_val. rewrite Hsm, Hsm'. simpl.
  rewrite !SMF.elem_lookup, Hl by done. split; [done|].
  destruct (SM.lookup junk sm (to_key d)) as [i|] eqn:Hli; simpl; [|done].
  apply Hws. exists sm. split; [done|].
  rewrite <- (to_key_small d) by lia. by apply (SMF.lookup_Some junk).
Qed.

(** *** [forget] *)

(** [forget(v)] on a live vertex removes exactly the edges that start or
    end at [v]: they are absent afterwards, and every other pair of
    vertices keeps its answer to [elem] and [edge_val]. *)
Theorem forget_removes_incident g v :
  wf g → size g ≤ key_range → is_free g !! v = Some false →
  ∃ g', forget g v = Some g' ∧ size g' = size g ∧
    ∀ junk junk' s d, s < size g → d < size g →
      (s = v ∨ d = v → elem junk' g' s d = Some false) ∧
      (s ≠ v → d ≠ v →
       elem junk' g' s d = elem junk g s d ∧
       edge_val junk' g' s d = edge_val junk g s d).
Proof.
  intros Hwf Hsize Hfree.
  destruct (forget_spec g v Hwf Hsize Hfree)
    as (g' & sv & Hf & Hwf' & Hsz & _ & Hws & _ & _ & _ & Hsucc & _).
  exists g'. split; [done|]. split; [done|].
  intros junk junk' s d Hs Hd. split.
  - intros Hv. apply edge_view; [done|lia|lia|lia|].
    intros [i Hi]. apply Hsucc in Hi as (_ & ? & ?). naive_solver.
  - intros Hsv Hdv. apply same_edge_same_answers; try done.
    + intros i. rewrite Hsucc. naive_solver.
    + intros i _. by rewrite Hws.
    + by rewrite Hws.
Qed.

Lemma forget_removes_incident_witness :
  ∃ g', forget three 0 = Some g' ∧ size g' = size three ∧
    ∀ junk junk' s d, s < size three → d < size three →
      (s = 0 ∨ d = 0 → elem junk' g' s d = Some false) ∧
      (s ≠ 0 → d ≠ 0 →
       elem junk' g' s d = elem junk three s d ∧
       edge_val junk' g' s d = edge_val junk three s d).
Proof.
  apply forget_removes_incident; [apply three_wf| |by vm_compute].
  apply small_size. vm_compute. lia.
Defined.

(** *** [add_edge] and [set_edge] *)

Lemma alloc_widx_frame g w idx g1 :
  alloc_widx g w = Some (idx, g1) →
  edge_count g1 = edge_count g ∧
  ∀ i, i ≠ idx → _ws g1 !! i = _ws g !! i.
Proof.
  unfold alloc_widx. intros Ha.
  destruct (last (free_widx g)) as [i0|].
  - destruct (vec_set (_ws g) i0 w) as [ws|] eqn:Hv; [|done].
    apply vec_set_Some in Hv as [? ->]. simpl in Ha. simplify_eq.
    split; [done|]. intros i Hi. simpl. by rewrite list_lookup_insert_ne.
  - simplify_eq. split; [done|]. intros i Hi. simpl.
    destruct (decide (i < length (_ws g))).
    + by rewrite lookup_app_l.
    + rewrite lookup_ge_None_2; [|rewrite length_app; simpl; lia].
      symmetry. apply lookup_ge_None_2. lia.
Qed.

Lemma add_edge_spec g s w d :
  wf g → size g ≤ key_range → s < size g → d < size g →
  ¬ (∃ i, medge (_succs g) s d i) →
  ∃ g' idx, add_edge g s w d = Some g' ∧ wf g' ∧ size g' = size g ∧
    edge_count g' = (edge_count g + 1)%Z ∧
    is_free g' = is_free g ∧ free_id g' = free_id g ∧
    _ws g' !! idx = Some w ∧
    (∀ i, i ≠ idx → _ws g' !! i = _ws g !! i) ∧
    (∀ a b, ¬ medge (_succs g) a b idx) ∧
    (∀ a b i, medge (_succs g') a b i ↔
              medge (_succs g) a b i ∨ (a = s ∧ b = d ∧ i = idx)) ∧
    ∃ sm, _succs g !! s = Some sm ∧
          _succs g' = <[s := SM.add sm d idx]> (_succs g).
Proof.
  intros Hwf Hsize Hs Hd Hfresh.
  destruct (add_edge_wf g s w d Hwf Hsize Hs Hd Hfresh) as (g' & Hadd & Hwf' & Hsz).
  pose proof Hwf as [H1 H2 H3 H4 H5 H6 H7 H8 H9 H10 H11].
  unfold size in *.
  destruct (alloc_widx_spec g w Hwf)
    as (idx & g1 & Ha & Hs1 & Hp1 & Hf1 & Hi1 & Hidx & Hlen & Hnin & Hnd
        & Hlt & Hsub & Hunused & Hw).
  destruct (alloc_widx_frame g w idx g1 Ha) as [Hec Hfr].
  destruct (lookup_lt_is_Some_2 (_succs g) s Hs) as [sm Hsm].
  destruct (lookup_lt_is_Some_2 (_preds g) d ltac:(lia)) as [pm Hpm].
  assert (d ∉ SM.keys sm) as Hnd_s.
  { rewrite (medge_keys _ _ _ _ Hsm). done. }
  destruct (medge_add _ s sm d idx Hsm H3 ltac:(lia) Hnd_s) as [_ Hes].
  exists g', idx. split; [done|]. split; [done|]. split; [done|].
  unfold add_edge in Hadd. rewrite Ha in Hadd. simpl in Hadd.
  rewrite Hs1, Hp1, Hsm in Hadd. simpl in Hadd. rewrite Hpm in Hadd.
  simpl in Hadd. rewrite (to_key_small d), (to_key_small s) in Hadd by lia.
  simplify_eq. simpl. rewrite Hec.
  do 5 (split; [done|]). split; [done|]. split; [exact Hes|].
  by exists sm.
Qed.

Lemma add_edge_answers junk g s w d :
  wf g → size g ≤ key_range → s < size g → d < size g →
  ¬ (∃ i, medge (_succs g) s d i) →
  ∃ g', add_edge g s w d = Some g' ∧ size g' = size g ∧
    num_edges g' = (num_edges g + 1)%Z ∧
    ∀ junk',
      elem junk' g' s d = Some true ∧ edge_val junk' g' s d = Some w ∧
      ∀ s' d', s' < size g → d' < size g → (s', d') ≠ (s, d) →
        elem junk' g' s' d' = elem junk g s' d' ∧
        (elem junk g s' d' = Some true →
         edge_val junk' g' s' d' = edge_val junk g s' d').
Proof.
  intros Hwf Hsize Hs Hd Hfresh.
  destruct (add_edge_spec g s w d Hwf Hsize Hs Hd Hfresh)
    as (g' & idx & Hadd & Hwf' & Hsz & Hec & _ & _ & Hw & Hfr & Hun & Hes & _).
  exists g'. do 3 (split; [done|]). intros junk'.
  destruct (edge_view junk' g' s d) as [Hyes _]; [done|lia..|].
  destruct (Hyes idx) as [-> ->]; [apply Hes; naive_solver|].
  do 2 (split; [done|]).
  intros s' d' Hs' Hd' Hne.
  assert (∀ i, medge (_succs g') s' d' i ↔ medge (_succs g) s' d' i) as Hiff.
  { intros i. rewrite Hes. naive_solver. }
  assert (∀ i, medge (_succs g) s' d' i → _ws g' !! i = _ws g !! i) as Hws.
  { intros i Hi. apply Hfr. intros ->. by apply Hun in Hi. }
  destruct (lookup_lt_is_Some_2 (_succs g) s' Hs') as [sm Hsm].
  destruct (lookup_lt_is_Some_2 (_succs g') s' ltac:(unfold size in *; lia))
    as [sm' Hsm'].
  assert (SMS.wf sm) as Hwfsm
    by (by eapply (Forall_lookup_1 _ _ _ _ (wf_succs _ Hwf))).
  assert (SMS.wf sm') as Hwfsm'
    by (by eapply (Forall_lookup_1 _ _ _ _ (wf_succs _ Hwf'))).
  assert (SM.lookup junk' sm' (to_key d') = SM.lookup junk sm (to_key d'))
    as Hl.
  { apply lookup_eq; [done..|]. intros i. specialize (Hiff i).
    rewrite (to_key_small d') by lia. unfold medge in Hiff. split.
    - intros Hin. destruct (proj1 Hiff) as (? & ? & ?); [by eauto|].
      by simplify_eq.
    - intros Hin. destruct (proj2 Hiff) as (? & ? & ?); [by eauto|].
      by simplify_eq. }
  unfold elem, edge_val. rewrite Hsm, Hsm'. simpl.
  rewrite !SMF.elem_lookup, Hl by done. split; [done|].
  destruct (SM.lookup junk sm (to_key d')) as [i|] eqn:Hli; simpl; [|done].
  intros _. apply Hws. exists sm. split; [done|].
  rewrite <- (to_key_small d') by lia. by apply (SMF.lookup_Some junk).
Qed.

(** On a well-formed graph with at most 65536 vertices,
    [add_edge(s, w, d)] on an absent edge between valid vertices makes
    the edge present with weight [w], counts it (the counter taken as an
    unbounded integer), keeps the vertices, and leaves the answers of
    [elem] and [edge_val] for every other pair of vertices as they
    were. *)
Theorem add_edge_reads_back junk g s w d :
  wf g → size g ≤ key_range → s < size g → d < size g →
  elem junk g s d = Some false →
  ∃ g', add_edge g s w d = Some g' ∧ size g' = size g ∧
    num_edges g' = (num_edges g + 1)%Z ∧
    ∀ junk',
      elem junk' g' s d = Some true ∧ edge_val junk' g' s d = Some w ∧
      ∀ s' d', s' < size g → d' < size g → (s', d') ≠ (s, d) →
        elem junk' g' s' d' = elem junk g s' d' ∧
        (elem junk g s' d' = Some true →
         edge_val junk' g' s' d' = edge_val junk g s' d').
Proof.
  intros Hwf Hsize Hs Hd Hpre. apply add_edge_answers; try done.
  intros Hex. apply (elem_true_medge junk) in Hex; [|done..]. congruence.
Qed.

Lemma add_edge_reads_back_witness :
  ∃ g', add_edge three 1 7%Z 2 = Some g' ∧ size g' = size three ∧
    num_edges g' = (num_edges three + 1)%Z ∧
    ∀ junk',
      elem junk' g' 1 2 = Some true ∧ edge_val junk' g' 1 2 = Some 7%Z ∧
      ∀ s' d', s' < size three → d' < size three → (s', d') ≠ (1, 2) →
        elem junk' g' s' d' = elem 0 three s' d' ∧
        (elem 0 three s' d' = Some true →
         edge_val junk' g' s' d' = edge_val 0 three s' d').
Proof.
  apply add_edge_reads_back; [apply three_wf| |vm_compute; lia..|by vm_compute].
  apply small_size. vm_compute. lia.
Defined.

(** On a well-formed graph with at most 65536 vertices,
    [set_edge(s, w, d)] between valid vertices leaves the edge present
    with weight [w], whether it was there or not, and leaves the answers
    of [elem] and [edge_val] for every other pair of vertices as they
    were. *)
Theorem set_edge_reads_back junk g s w d :
  wf g → size g ≤ key_range → s < size g → d < size g →
  ∃ g', set_edge junk g s w d = Some g' ∧ size g' = size g ∧
    ∀ junk',
      elem junk' g' s d = Some true ∧ edge_val junk' g' s d = Some w ∧
      ∀ s' d', s' < size g → d' < size g → (s', d') ≠ (s, d) →
        elem junk' g' s' d' = elem junk g s' d' ∧
        (elem junk g s' d' = Some true →
         edge_val junk' g' s' d' = edge_val junk g s' d').
Proof.
  intros Hwf Hsize Hs Hd.
  pose proof Hwf as [H1 H2 H3 H4 H5 H6 H7 H8 H9 H10 H11].
  destruct (lookup_lt_is_Some_2 (_succs g) s Hs) as [sm Hsm].
  assert (SMS.wf sm) as Hwfsm by (by eapply (Forall_lookup_1 _ _ _ _ H3)).
  unfold set_edge. rewrite Hsm. simpl.
  destruct (SM.lookup junk sm (to_key d)) as [idx|] eqn:Hl.
  - assert (medge (_succs g) s d idx) as He.
    { exists sm. split; [done|]. rewrite <- (to_key_small d) by (unfold size in *; lia).
      by apply (SMF.lookup_Some junk). }
    destruct (H6 _ _ _ He) as [Hlt _].
    unfold vec_set. destruct (Nat.ltb_spec idx (length (_ws g))); [|lia].
    simpl. eexists. split; [done|]. split; [done|].
    assert (wf (set_ws (<[idx := w]> (_ws g)) g)) as Hwf'.
    { apply set_ws_wf; [done|by rewrite length_insert]. }
    intros junk'.
    destruct (edge_view junk' (set_ws (<[idx := w]> (_ws g)) g) s d)
      as [Hyes _]; [done..|].
    destruct (Hyes idx He) as [-> ->]. simpl.
    split; [done|]. split; [by apply list_lookup_insert_eq|].
    intros s' d' Hs' Hd' Hne.
    destruct (lookup_lt_is_Some_2 (_succs g) s' Hs') as [sm' Hsm'].
    assert (SMS.wf sm') as Hwfsm'
      by (by eapply (Forall_lookup_1 _ _ _ _ H3)).
    unfold elem, edge_val. simpl. rewrite Hsm'. simpl.
    rewrite !SMF.elem_lookup by done.
    assert (SM.lookup junk' sm' (to_key d') = SM.lookup junk sm' (to_key d'))
      as -> by by apply lookup_eq.
    split; [done|].
    destruct (SM.lookup junk sm' (to_key d')) as [i|] eqn:Hli; simpl; [|done].
    intros _. apply list_lookup_insert_ne. intros <-.
    assert (medge (_succs g) s' d' idx) as He'.
    { exists sm'. split; [done|].
      rewrite <- (to_key_small d') by (unfold size in *; lia).
      by apply (SMF.lookup_Some junk). }
    destruct (H7 _ _ _ _ _ He He'). naive_solver.
  - destruct (add_edge_answers junk g s w d Hwf Hsize Hs Hd)
      as (g' & Hadd & Hsz & _ & Hans).
    { by eapply absent_no_edge. }
    exists g'. by do 2 (split; [done|]).
Qed.

Lemma set_edge_reads_back_witness :
  ∃ g', set_edge 0 three 0 9%Z 1 = Some g' ∧ size g' = size three ∧
    ∀ junk',
      elem junk' g' 0 1 = Some true ∧ edge_val junk' g' 0 1 = Some 9%Z ∧
      ∀ s' d', s' < size three → d' < size three → (s', d') ≠ (0, 1) →
        elem junk' g' s' d' = elem 0 three s' d' ∧
        (elem 0 three s' d' = Some true →
         edge_val junk' g' s' d' = edge_val 0 three s' d').
Proof.
  apply set_edge_reads_back; [apply three_wf| |vm_compute; lia..].
  apply small_size. vm_compute. lia.
Defined.

(** *** The edge counter *)

Lemma total_insert ms i m m' :
  ms !! i = Some m →
  total (<[i := m']> ms) + SM.size m = total ms + SM.size m'.
Proof.
  intros Hi. unfold total.
  rewrite <- (take_drop_middle ms i m Hi) at 2.
  rewrite insert_take_drop by (by eapply lookup_lt_Some).
  rewrite !sum_list_with_app. simpl. lia.
Qed.

Lemma total_snoc ms : total (ms ++ [SM.init]) = total ms.
Proof. unfold total. rewrite sum_list_with_app. simpl. lia. Qed.

Lemma total_zero ms :
  total ms = 0 ↔ ∀ i m, ms !! i = Some m → SM.size m = 0.
Proof.
  unfold total. induction ms as [|m0 ms IH]; simpl.
  - split; [by intros _ i m|done].
  - split.
    + intros Hz [|i] m Hm; simpl in Hm; [simplify_eq; lia|].
      apply (proj1 IH ltac:(lia) i m Hm).
    + intros Hall. pose proof (Hall 0 m0 eq_refl).
      assert (sum_list_with SM.size ms = 0); [|lia].
      apply IH. intros i m Hm. by apply (Hall (S i)).
Qed.

Lemma remove_from_total ms k v ms' :
  Forall SMS.wf ms → v < key_range → (∃ i, medge ms k v i) →
  remove_from ms k v = Some ms' → total ms' + 1 = total ms.
Proof.
  intros Hwf Hv (i & m & Hm & Hi) Hr.
  assert (SMS.wf m) as Hwfm by (by eapply Forall_lookup_1).
  assert (v ∈ SM.keys m) as Hin by (apply SMF.elem_of_keys; eauto).
  destruct (SMF.remove_spec m v Hwfm Hin) as (m' & e & Hrem & _ & Hsz & _).
  unfold remove_from in Hr. rewrite Hm in Hr. simpl in Hr.
  rewrite to_key_small, Hrem in Hr by done. simpl in Hr. simplify_eq.
  pose proof (total_insert ms k m m' Hm) as Ht. unfold SM.size in Ht. lia.
Qed.

Lemma remove_each_total ks ms v ms' :
  Forall SMS.wf ms → v < key_range → NoDup ks →
  (∀ k, k ∈ ks → ∃ i, medge ms k v i) →
  for_each (λ ms k, remove_from ms k v) ms ks = Some ms' →
  total ms' + length ks = total ms.
Proof.
  revert ms. induction ks as [|k ks IH]; intros ms Hwf Hv Hnd Hks Hr.
  { simpl in Hr. simplify_eq. simpl. lia. }
  apply NoDup_cons in Hnd as [Hk Hnd]. simpl in Hr.
  destruct (remove_from_spec ms k v Hwf Hv) as (ms1 & Hr1 & _ & Hwf1 & He1).
  { apply Hks. by left. }
  rewrite Hr1 in Hr. simpl in Hr.
  pose proof (remove_from_total ms k v ms1 Hwf Hv ltac:(apply Hks; by left) Hr1).
  specialize (IH ms1 Hwf1 Hv Hnd).
  rewrite <- IH in *; [simpl; lia| |done].
  intros k' Hk'. destruct (Hks k') as [i Hi]; [by right|].
  exists i. apply He1. split; [done|]. intros [-> _]. done.
Qed.

Lemma forget_counts g v g' :
  wf g → size g ≤ key_range → is_free g !! v = Some false →
  forget g v = Some g' →
  (edge_count g' - Z.of_nat (total (_succs g')) =
   edge_count g - Z.of_nat (total (_succs g)))%Z.
Proof.
  intros Hwf Hsize Hfree Hf.
  pose proof Hwf as [H1 H2 H3 H4 H5 H6 H7 H8 H9 H10 H11]. unfold size in *.
  assert (v < length (_succs g)) as Hv.
  { rewrite <- H2. by eapply lookup_lt_Some. }
  destruct (lookup_lt_is_Some_2 (_succs g) v Hv) as [sv Hsv].
  assert (SMS.wf sv) as Hwfsv by (by eapply (Forall_lookup_1 _ _ _ _ H3)).
  destruct (remove_each_spec (_preds g) (SM.keys sv) v H4 ltac:(lia)
              (SMS.wf_nodup _ Hwfsv)) as (ps1 & Hloop1 & Hlen1 & Hwf1 & He1).
  { intros k Hk. apply (medge_keys _ _ _ _ Hsv) in Hk as [i Hi].
    exists i. by apply H5. }
  destruct (lookup_lt_is_Some_2 ps1 v ltac:(lia)) as [pv Hpv].
  assert (SMS.wf pv) as Hwfpv by (by eapply (Forall_lookup_1 _ _ _ _ Hwf1)).
  set (ss3 := <[v := SM.clear sv]> (_succs g)).
  assert (Forall SMS.wf ss3) as Hwf3.
  { apply Forall_insert; [done|by apply SMF.clear_wf]. }
  assert (∀ a b i, medge ss3 a b i ↔ medge (_succs g) a b i ∧ a ≠ v) as He3.
  { intros a b i. unfold ss3. rewrite medge_insert by done.
    rewrite elts_clear. split.
    - intros [[_ Hin]|[? ?]]; [by apply elem_of_nil in Hin|done].
    - intros [? ?]. by right. }
  assert (∀ k, k ∈ SM.keys pv → ∃ i, medge ss3 k v i) as Hks.
  { intros k Hk. apply (medge_keys _ _ _ _ Hpv) in Hk as [i Hi].
    apply He1 in Hi as [Hi Hn]. exists i. apply He3.
    split; [by apply H5|]. intros ->. apply Hn. split; [|done].
    apply (medge_keys _ _ _ _ Hsv). exists i. by apply H5. }
  destruct (remove_each_spec ss3 (SM.keys pv) v Hwf3 ltac:(lia)
              (SMS.wf_nodup _ Hwfpv) Hks) as (ss4 & Hloop2 & _).
  pose proof (remove_each_total (SM.keys pv) ss3 v ss4 Hwf3 ltac:(lia)
                (SMS.wf_nodup _ Hwfpv) Hks Hloop2) as Ht4.
  pose proof (total_insert (_succs g) v sv (SM.clear sv) Hsv) as Ht3.
  fold ss3 in Ht3. rewrite SMF.keys_length in Ht4 by done.
  change (SM.size (SM.clear sv)) with 0 in Ht3.
  unfold forget in Hf. rewrite Hfree in Hf. simpl in Hf.
  rewrite Hsv in Hf. simpl in Hf.
  rewrite for_each_forget_succ in Hf. fold (SM.keys sv) in Hf.
  rewrite Hloop1 in Hf. simpl in Hf. rewrite Hsv in Hf. simpl in Hf.
  fold ss3 in Hf. rewrite Hpv in Hf. simpl in Hf.
  rewrite for_each_forget_pred in Hf. simpl in Hf. rewrite Hloop2 in Hf.
  simpl in Hf. rewrite Hpv in Hf. simpl in Hf.
  unfold vec_set in Hf. simpl in Hf.
  destruct (Nat.ltb_spec v (length (is_free g))); [|lia]. simpl in Hf.
  simplify_eq. simpl. unfold SM.size in *. lia.
Qed.

Lemma add_edge_counts g s w d g' :
  wf g → size g ≤ key_range → ¬ (∃ i, medge (_succs g) s d i) →
  add_edge g s w d = Some g' →
  (edge_count g' - Z.of_nat (total (_succs g')) =
   edge_count g - Z.of_nat (total (_succs g)))%Z.
Proof.
  intros Hwf Hsize Hfresh Hadd.
  destruct (add_edge_Some _ _ _ _ _ Hadd) as (Hs & Hd & _).
  rewrite (wf_len_preds _ Hwf) in Hd.
  destruct (add_edge_spec g s w d Hwf Hsize Hs Hd Hfresh)
    as (g'' & idx & Hadd' & _ & _ & Hec & _ & _ & _ & _ & _ & _
        & sm & Hsm & Hss).
  rewrite Hadd in Hadd'. simplify_eq. rewrite Hec, Hss.
  pose proof (total_insert (_succs g) s sm (SM.add sm d idx) Hsm) as Ht.
  assert (SMS.wf sm) as Hwfsm
    by (by eapply (Forall_lookup_1 _ _ _ _ (wf_succs _ Hwf))).
  destruct (SMF.add_spec sm d idx Hwfsm) as (_ & _ & Hsz & _).
  { unfold size in *. lia. }
  { rewrite (medge_keys _ _ _ _ Hsm). done. }
  unfold SM.size in Ht. lia.
Qed.

Lemma counts_reachable g :
  reachable g → size g ≤ key_range →
  edge_count g = Z.of_nat (total (_succs g)).
Proof.
  induction 1 as [|g v g' Hg IH Hnew|junk g s w d g' Hg IH Hpre Hadd
                  |junk g s w d g' Hg IH Hupd|junk g s w d g' Hg IH Hset
                  |g v g' Hg IH Hforget]; intros Hsize.
  - done.
  - pose proof (new_vertex_size _ _ _ Hnew).
    specialize (IH ltac:(lia)). unfold new_vertex in Hnew.
    destruct (last (free_id g)) as [v0|].
    + destruct (v0 <? length (_succs g)); [|done].
      destruct (vec_set (is_free g) v0 false); simpl in Hnew; by simplify_eq.
    + simplify_eq. simpl. by rewrite total_snoc.
  - destruct (add_edge_Some _ _ _ _ _ Hadd) as (Hs & Hd & Hsz).
    rewrite Hsz in Hsize. specialize (IH Hsize).
    pose proof (reachable_wf g Hg Hsize) as Hwf.
    rewrite (wf_len_preds _ Hwf) in Hd.
    assert (¬ ∃ i, medge (_succs g) s d i) as Hfresh.
    { intros Hex. apply (elem_true_medge junk) in Hex; [|done..]. congruence. }
    pose proof (add_edge_counts g s w d g' Hwf Hsize Hfresh Hadd). lia.
  - rewrite (update_edge_size _ _ _ _ _ _ Hupd) in Hsize.
    specialize (IH Hsize). pose proof (reachable_wf g Hg Hsize) as Hwf.
    unfold update_edge in Hupd.
    destruct (_succs g !! s) as [sm|] eqn:Hsm; [|done]. simpl in Hupd.
    destruct (SM.lookup junk sm (to_key d)) as [idx|] eqn:Hl.
    + destruct (_ws g !! idx); [|done]. simpl in Hupd.
      destruct (vec_set (_ws g) idx _); simpl in Hupd; by simplify_eq.
    + destruct (add_edge_Some _ _ _ _ _ Hupd) as (_ & Hd & _).
      rewrite (wf_len_preds _ Hwf) in Hd.
      assert (¬ ∃ i, medge (_succs g) s d i) as Hfresh
        by by eapply absent_no_edge.
      pose proof (add_edge_counts g s w d g' Hwf Hsize Hfresh Hupd). lia.
  - rewrite (set_edge_size _ _ _ _ _ _ Hset) in Hsize.
    specialize (IH Hsize). pose proof (reachable_wf g Hg Hsize) as Hwf.
    unfold set_edge in Hset.
    destruct (_succs g !! s) as [sm|] eqn:Hsm; [|done]. simpl in Hset.
    destruct (SM.lookup junk sm (to_key d)) as [idx|] eqn:Hl.
    + destruct (vec_set (_ws g) idx _); simpl in Hset; by simplify_eq.
    + destruct (add_edge_Some _ _ _ _ _ Hset) as (_ & Hd & _).
      rewrite (wf_len_preds _ Hwf) in Hd.
      assert (¬ ∃ i, medge (_succs g) s d i) as Hfresh
        by by eapply absent_no_edge.
      pose proof (add_edge_counts g s w d g' Hwf Hsize Hfresh Hset). lia.
  - rewrite (forget_size _ _ _ Hforget) in Hsize. specialize (IH Hsize).
    pose proof (reachable_wf g Hg Hsize) as Hwf.
    destruct (is_free g !! v) as [[]|] eqn:Hf.
    + unfold forget in Hforget. rewrite Hf in Hforget. by simplify_eq/=.
    + pose proof (forget_counts g v g' Hwf Hsize Hf Hforget). lia.
    + unfold forget in Hforget. by rewrite Hf in Hforget.
Qed.

(** For a graph built by the calls of the class, [num_edges()] is the
    number of entries of the successor maps, and [is_empty()] holds
    exactly when [elem] is false for every pair of vertices. *)
Theorem num_edges_counts g :
  reachable g → size g ≤ key_range →
  num_edges g = Z.of_nat (total (_succs g)) ∧
  (is_empty g = true ↔
   ∀ junk s d, s < size g → d < size g → elem junk g s d = Some false).
Proof.
  intros Hg Hsize. pose proof (counts_reachable g Hg Hsize) as Hc.
  pose proof (reachable_wf g Hg Hsize) as Hwf.
  split; [done|]. unfold is_empty. rewrite Hc, Z.eqb_eq.
  assert (Z.of_nat (total (_succs g)) = 0%Z ↔ total (_succs g) = 0) as ->
    by lia.
  rewrite total_zero. split.
  - intros Hall junk s d Hs Hd. apply edge_view; [done..|].
    intros (i & sm & Hsm & Hin).
    specialize (Hall s sm Hsm). unfold SM.size in Hall.
    unfold SM.elts in Hin. rewrite Hall in Hin. by apply elem_of_nil in Hin.
  - intros Hall s sm Hsm.
    assert (SMS.wf sm) as Hwfsm
      by (by eapply (Forall_lookup_1 _ _ _ _ (wf_succs _ Hwf))).
    unfold SM.size. rewrite <- (SMF.elts_length sm Hwfsm).
    destruct (SM.elts sm) as [|[k i] es] eqn:He; [done|]. exfalso.
    assert (medge (_succs g) s k i) as Hm.
    { exists sm. split; [done|]. rewrite He. by left. }
    destruct (medge_target g s k i Hwf Hm) as [Hs Hk].
    specialize (Hall 0 s k Hs Hk).
    assert (elem 0 g s k = Some true); [|congruence].
    apply elem_true_medge; [done..|]. by exists i.
Qed.

Lemma num_edges_counts_witness :
  num_edges three = Z.of_nat (total (_succs three)) ∧
  (is_empty three = true ↔
   ∀ junk s d, s < size three → d < size three →
               elem junk three s d = Some false).
Proof.
  apply num_edges_counts; [apply three_reachable|].
  apply small_size. vm_compute. lia.
Defined.

(** *** [verts], [growTo], [clear_edges] *)

Lemma verts_from_spec fr v0 v :
  v ∈ verts_from v0 fr ↔ v0 ≤ v ∧ fr !! (v - v0) = Some false.
Proof.
  revert v0. induction fr as [|f fr IH]; intros v0; simpl.
  - rewrite elem_of_nil. naive_solver.
  - assert (v ∈ verts_from (S v0) fr ↔
            v0 < v ∧ (f :: fr) !! (v - v0) = Some false) as Hrest.
    { rewrite IH. split; intros [Hle Hl]; (split; [lia|]).
      - by replace (v - v0) with (S (v - S v0)) by lia.
      - by replace (v - v0) with (S (v - S v0)) in Hl by lia. }
    destruct f.
    + rewrite Hrest. split; [intros [? ?]; split; [lia|done]|].
      intros [Hle Hl]. split; [|done].
      destruct (decide (v = v0)) as [->|]; [|lia].
      by rewrite Nat.sub_diag in Hl.
    + rewrite elem_of_cons, Hrest. split.
      * intros [->|[? ?]]; [|split; [lia|done]].
        by rewrite Nat.sub_diag.
      * intros [Hle Hl]. destruct (decide (v = v0)); [by left|right].
        split; [lia|done].
Qed.

Lemma verts_from_increasing fr v0 i j a b :
  verts_from v0 fr !! i = Some a → verts_from v0 fr !! j = Some b →
  i < j → a < b.
Proof.
  revert v0 i j. induction fr as [|f fr IH]; intros v0 i j Hi Hj Hlt;
    simpl in *; [done|].
  destruct f; [by eapply IH|].
  destruct j as [|j]; [lia|]. simpl in Hj.
  destruct i as [|i]; simpl in Hi.
  - simplify_eq. apply list_elem_of_lookup_2, verts_from_spec in Hj. lia.
  - eapply IH; [done..|lia].
Qed.

Lemma verts_are_live_aux g v :
  v ∈ verts g ↔ is_free g !! v = Some false.
Proof.
  unfold verts. rewrite verts_from_spec, Nat.sub_0_r.
  split; [by intros [_ ?]|]. intros ?. split; [lia|done].
Qed.

(** [verts()] lists exactly the ids below [size()] that are not free,
    in increasing order (hence each once). *)
Theorem verts_are_live g :
  (∀ v, v ∈ verts g ↔ is_free g !! v = Some false) ∧
  (∀ i j a b, verts g !! i = Some a → verts g !! j = Some b →
              i < j → a < b).
Proof.
  split; [apply verts_are_live_aux|apply verts_from_increasing].
Qed.

Lemma new_vertex_pop g l v :
  wf g → free_id g = l ++ [v] →
  new_vertex g =
    Some (v, set_is_free (<[v := false]> (is_free g)) (set_free_id l g)).
Proof.
  intros Hwf Hl. unfold new_vertex. rewrite Hl, last_snoc.
  assert (is_free g !! v = Some true) as Hv.
  { apply (wf_free_id_free _ Hwf). rewrite Hl. set_solver. }
  apply lookup_lt_Some in Hv. rewrite (wf_len_free _ Hwf) in Hv.
  destruct (Nat.ltb_spec v (length (_succs g))); [|lia].
  unfold vec_set. rewrite (wf_len_free _ Hwf).
  destruct (Nat.ltb_spec v (length (_succs g))); [|lia]. simpl.
  by rewrite removelast_last.
Qed.

Lemma new_vertex_fresh g :
  free_id g = [] →
  new_vertex g =
    Some (length (_succs g),
          set_preds (_preds g ++ [SM.init])
            (set_succs (_succs g ++ [SM.init])
               (set_is_free (is_free g ++ [false]) g))).
Proof. intros Hl. unfold new_vertex. by rewrite Hl. Qed.

Lemma growTo_spec fuel g n :
  wf g → (n - size g) + length (free_id g) ≤ fuel →
  ∃ g', growTo fuel g n = Some g' ∧ wf g' ∧
    size g' = Nat.max (size g) n ∧
    _ws g' = _ws g ∧ edge_count g' = edge_count g ∧
    (∀ a b i, medge (_succs g') a b i ↔ medge (_succs g) a b i) ∧
    (∀ v, is_free g !! v = Some false → is_free g' !! v = Some false) ∧
    (size g < n → free_id g' = [] ∧
       ∀ v, v ∈ free_id g → is_free g' !! v = Some false) ∧
    (n ≤ size g → g' = g).
Proof.
  revert g. induction fuel as [|fuel IH]; intros g Hwf Hfuel.
  { exists g. assert (n ≤ size g) by lia.
    unfold growTo. destruct (Nat.ltb_spec (size g) n); [lia|].
    split; [done|]. split; [done|]. split; [lia|].
    do 4 (split; [done|]). split; [lia|done]. }
  destruct (Nat.ltb_spec (size g) n) as [Hlt|Hge]; simpl.
  2: { exists g. destruct (Nat.ltb_spec (size g) n); [lia|].
       split; [done|]. split; [done|]. split; [lia|].
       do 4 (split; [done|]). split; [lia|done]. }
  destruct (Nat.ltb_spec (size g) n); [|lia].
  destruct (last (free_id g)) as [v|] eqn:Hlast.
  - apply last_Some in Hlast as [l Hl].
    rewrite (new_vertex_pop g l v Hwf Hl). simpl.
    set (g1 := set_is_free _ _).
    destruct (new_vertex_wf g v g1 Hwf (new_vertex_pop g l v Hwf Hl))
      as (Hwf1 & _ & Hv1).
    destruct (IH g1 Hwf1) as (g' & Hg & Hwf' & Hsz & Hws & Hec & Hm & Hlive & Hfree & _).
    { rewrite Hl, length_app in Hfuel. simpl in *. unfold size in *.
      simpl. lia. }
    exists g'. split; [done|]. split; [done|].
    split; [exact Hsz|]. do 3 (split; [done|]). split; [|split; [|lia]].
    + intros u Hu. apply Hlive. simpl.
      destruct (decide (u = v)) as [->|Hne].
      * apply list_lookup_insert_eq. by eapply lookup_lt_Some.
      * by rewrite list_lookup_insert_ne.
    + intros _. destruct (Hfree Hlt) as [Hnil Hl']. split; [done|].
      intros u Hu. rewrite Hl in Hu.
      apply elem_of_app in Hu as [Hu| ->%list_elem_of_singleton].
      * by apply Hl'.
      * by apply Hlive.
  - apply last_None in Hlast.
    rewrite (new_vertex_fresh g Hlast). simpl.
    set (g1 := set_preds _ _).
    destruct (new_vertex_wf g _ g1 Hwf (new_vertex_fresh g Hlast))
      as (Hwf1 & _ & Hv1).
    assert (size g1 = S (size g)) as Hsz1.
    { unfold size. simpl. rewrite length_app. simpl. lia. }
    destruct (IH g1 Hwf1) as (g' & Hg & Hwf' & Hsz & Hws & Hec & Hm & Hlive & Hfree & Hsame).
    { rewrite Hsz1. simpl. rewrite Hlast in *. simpl in *. lia. }
    exists g'. split; [done|]. split; [done|].
    split; [lia|]. do 2 (split; [done|]). split; [|split; [|split; [|lia]]].
    + intros a b i. rewrite Hm. simpl. apply medge_snoc_init.
    + intros u Hu. apply Hlive. simpl.
      rewrite lookup_app_l; [done|by eapply lookup_lt_Some].
    + intros _. split; [|intros u Hu; rewrite Hlast in Hu;
                         by apply elem_of_nil in Hu].
      destruct (decide (size g1 < n)) as [Hlt1|Hge1].
      * by apply Hfree.
      * rewrite Hsame by lia. done.
Qed.

(** [growTo(n)] on a graph with fewer than [n] vertices first takes back
    every id of the free list, which become live again, and only then
    creates new vertices; it ends with [max(size, n)] vertices, an empty
    free list, and the edges and weights it had.  With [n <= size] it
    changes nothing. *)
Theorem growTo_revives fuel g n :
  wf g → (n - size g) + length (free_id g) ≤ fuel →
  ∃ g', growTo fuel g n = Some g' ∧
    size g' = Nat.max (size g) n ∧
    _ws g' = _ws g ∧ num_edges g' = num_edges g ∧
    (∀ a b i, medge (_succs g') a b i ↔ medge (_succs g) a b i) ∧
    (size g < n → free_id g' = [] ∧
       ∀ v, v ∈ free_id g → is_free g' !! v = Some false) ∧
    (n ≤ size g → g' = g).
Proof.
  intros Hwf Hfuel.
  destruct (growTo_spec fuel g n Hwf Hfuel)
    as (g' & Hg & _ & Hsz & Hws & Hec & Hm & _ & Hfree & Hsame).
  exists g'. by do 6 (split; [done|]).
Qed.

Lemma growTo_revives_witness :
  ∃ g', growTo 3 three_forgotten 5 = Some g' ∧
    size g' = Nat.max (size three_forgotten) 5 ∧
    _ws g' = _ws three_forgotten ∧
    num_edges g' = num_edges three_forgotten ∧
    (∀ a b i, medge (_succs g') a b i ↔
              medge (_succs three_forgotten) a b i) ∧
    (size three_forgotten < 5 → free_id g' = [] ∧
       ∀ v, v ∈ free_id three_forgotten → is_free g' !! v = Some false) ∧
    (5 ≤ size three_forgotten → g' = three_forgotten).
Proof.
  apply growTo_revives; [|vm_compute; lia].
  destruct (forget_spec three 2 three_wf) as (g' & sv & Hf & Hwf & _).
  - apply small_size. vm_compute. lia.
  - by vm_compute.
  - unfold three_forgotten. by rewrite Hf.
Defined.

Lemma clear_loop vs g0 :
  (∀ v, v ∈ vs → v < length (_succs g0) ∧ v < length (_preds g0)) →
  ∃ g', for_each clear_edges_at g0 vs = Some g' ∧
    _ws g' = _ws g0 ∧ edge_count g' = edge_count g0 ∧
    is_free g' = is_free g0 ∧ free_id g' = free_id g0 ∧
    free_widx g' = free_widx g0 ∧
    length (_succs g') = length (_succs g0) ∧
    (∀ v, _succs g' !! v =
          (if decide (v ∈ vs) then SM.clear else id) <$> _succs g0 !! v) ∧
    (∀ v, _preds g' !! v =
          (if decide (v ∈ vs) then SM.clear else id) <$> _preds g0 !! v).
Proof.
  revert g0. induction vs as [|v0 vs IH]; intros g0 Hvs.
  { exists g0. split; [done|]. do 6 (split; [done|]).
    split; intros v; rewrite decide_False by apply not_elem_of_nil;
      by destruct (_ !! v). }
  destruct (Hvs v0) as [Hs Hp]; [by left|].
  destruct (lookup_lt_is_Some_2 _ _ Hs) as [sm Hsm].
  destruct (lookup_lt_is_Some_2 _ _ Hp) as [pm Hpm].
  set (g1 := set_preds (<[v0 := SM.clear pm]> (_preds g0))
               (set_succs (<[v0 := SM.clear sm]> (_succs g0)) g0)).
  assert (clear_edges_at g0 v0 = Some g1) as Hstep.
  { unfold clear_edges_at, clear_at. rewrite Hsm. simpl. by rewrite Hpm. }
  change (for_each clear_edges_at g0 (v0 :: vs))
    with (clear_edges_at g0 v0 ≫= λ g', for_each clear_edges_at g' vs).
  rewrite Hstep. simpl.
  destruct (IH g1) as (g' & Hg & Hws & Hec & Hif & Hfi & Hfw & Hlen & Hss & Hps).
  { intros v Hv. simpl. rewrite !length_insert. apply Hvs. by right. }
  exists g'. split; [done|]. do 5 (split; [done|]).
  split; [by rewrite Hlen; simpl; rewrite length_insert|].
  assert (∀ m, SM.clear (SM.clear m) = SM.clear m) as Hidem by done.
  split; intros v; [rewrite Hss|rewrite Hps]; simpl.
  - destruct (decide (v = v0)) as [->|Hne].
    + rewrite list_lookup_insert_eq, Hsm by done. simpl.
      rewrite (decide_True (P := v0 ∈ v0 :: vs)) by by left.
      by case_decide.
    + rewrite list_lookup_insert_ne by done.
      destruct (decide (v ∈ vs)).
      * by rewrite decide_True by by right.
      * rewrite decide_False; [done|]. by intros [?|?]%elem_of_cons.
  - destruct (decide (v = v0)) as [->|Hne].
    + rewrite list_lookup_insert_eq, Hpm by done. simpl.
      rewrite (decide_True (P := v0 ∈ v0 :: vs)) by by left.
      by case_decide.
    + rewrite list_lookup_insert_ne by done.
      destruct (decide (v ∈ vs)).
      * by rewrite decide_True by by right.
      * rewrite decide_False; [done|]. by intros [?|?]%elem_of_cons.
Qed.

Lemma elem_clear junk m k : SM.elem junk (SM.clear m) k = false.
Proof.
  unfold SM.elem. simpl. destruct (SM.sparse m); [|done].
  by destruct (SM.sparse_read junk l k).
Qed.

Lemma clear_edges_spec g :
  wf g →
  ∃ g', clear_edges g = Some g' ∧ size g' = size g ∧
    _ws g' = [] ∧ edge_count g' = 0%Z ∧
    is_free g' = is_free g ∧ free_id g' = free_id g ∧
    free_widx g' = free_widx g ∧
    (∀ v, _succs g' !! v =
          (if decide (v ∈ verts g) then SM.clear else id) <$> _succs g !! v) ∧
    (∀ v, _preds g' !! v =
          (if decide (v ∈ verts g) then SM.clear else id) <$> _preds g !! v).
Proof.
  intros Hwf. unfold clear_edges.
  destruct (clear_loop (verts (set_ws [] g)) (set_ws [] g))
    as (g' & Hg & Hws & Hec & Hif & Hfi & Hfw & Hlen & Hss & Hps).
  { intros v Hv. apply verts_from_spec in Hv as [_ Hv].
    apply lookup_lt_Some in Hv. simpl in *.
    rewrite (wf_len_preds _ Hwf), <- (wf_len_free _ Hwf). lia. }
  rewrite Hg. simpl. eexists. split; [done|]. simpl.
  split; [exact Hlen|]. do 5 (split; [done|]).
  split; [exact Hss|exact Hps].
Qed.

(** [clear_edges()] keeps the vertices and the free lists, empties the
    weight vector, sets the counter to 0, and leaves no edge out of or
    into a live vertex; the maps of free vertices are not touched. *)
Theorem clear_edges_clears_live g :
  wf g →
  ∃ g', clear_edges g = Some g' ∧ size g' = size g ∧
    _ws g' = [] ∧ num_edges g' = 0%Z ∧
    is_free g' = is_free g ∧ free_id g' = free_id g ∧
    free_widx g' = free_widx g ∧
    (∀ junk s d, is_free g !! s = Some false →
                 elem junk g' s d = Some false) ∧
    (∀ v pm, is_free g !! v = Some false → _preds g' !! v = Some pm →
             SM.size pm = 0) ∧
    (∀ v, is_free g !! v = Some true →
          _succs g' !! v = _succs g !! v ∧ _preds g' !! v = _preds g !! v).
Proof.
  intros Hwf.
  destruct (clear_edges_spec g Hwf)
    as (g' & Hg & Hsz & Hws & Hec & Hif & Hfi & Hfw & Hss & Hps).
  exists g'. do 7 (split; [done|]).
  pose proof (verts_are_live_aux g) as Hlive. split; [|split].
  - intros junk s d Hs. unfold elem. rewrite Hss.
    rewrite decide_True by by apply Hlive.
    assert (s < length (_succs g)) as Hlt.
    { rewrite <- (wf_len_free _ Hwf). by eapply lookup_lt_Some. }
    destruct (lookup_lt_is_Some_2 _ _ Hlt) as [sm ->]. simpl.
    by rewrite elem_clear.
  - intros v pm Hv. rewrite Hps, decide_True by by apply Hlive.
    destruct (_preds g !! v); simpl; [|done]. by intros [= <-].
  - intros v Hv. rewrite Hss, Hps.
    rewrite !decide_False by (rewrite Hlive; congruence).
    by destruct (_succs g !! v), (_preds g !! v).
Qed.

Lemma clear_edges_clears_live_witness :
  ∃ g', clear_edges three = Some g' ∧ size g' = size three ∧
    _ws g' = [] ∧ num_edges g' = 0%Z ∧
    is_free g' = is_free three ∧ free_id g' = free_id three ∧
    free_widx g' = free_widx three ∧
    (∀ junk s d, is_free three !! s = Some false →
                 elem junk g' s d = Some false) ∧
    (∀ v pm, is_free three !! v = Some false → _preds g' !! v = Some pm →
             SM.size pm = 0) ∧
    (∀ v, is_free three !! v = Some true →
          _succs g' !! v = _succs three !! v ∧
          _preds g' !! v = _preds three !! v).
Proof. apply clear_edges_clears_live, three_wf. Defined.

(** [clear_edges()] empties the weight vector but not the list of free
    weight slots: when that list is not empty, the next [add_edge] takes
    a slot from it and writes [_ws[idx]] in the empty vector, which is
    out of range. *)
Theorem clear_edges_leaves_stale_slots g :
  wf g → free_widx g ≠ [] →
  ∃ g', clear_edges g = Some g' ∧ ∀ s w d, add_edge g' s w d = None.
Proof.
  intros Hwf Hne.
  destruct (clear_edges_spec g Hwf)
    as (g' & Hg & _ & Hws & _ & _ & _ & Hfw & _).
  exists g'. split; [done|]. intros s w d.
  unfold add_edge, alloc_widx. rewrite Hfw, Hws.
  destruct (last (free_widx g)) as [idx|] eqn:Hl.
  - done.
  - by apply last_None in Hl.
Qed.

Lemma clear_edges_leaves_stale_slots_witness :
  ∃ g', clear_edges (default init (forget three 0)) = Some g' ∧
    ∀ s w d, add_edge g' s w d = None.
Proof.
  destruct (forget_spec three 0 three_wf) as (g1 & sv & Hf & Hwf & _ & Hsv & _ & Hfw & _).
  - apply small_size. vm_compute. lia.
  - by vm_compute.
  - rewrite Hf. simpl. apply clear_edges_leaves_stale_slots; [done|].
    rewrite Hfw. vm_compute in Hsv. simplify_eq. by vm_compute.
Defined.

(** *** Recycling a vertex *)

(** On a well-formed graph with at most 65536 vertices, [forget(v)] of
    a live vertex puts [v] at the back of the free list, so the next
    [new_vertex()] returns [v] again: the vertex is live, the free list
    is as it was before, and [v] has no edge. *)
Theorem forget_then_new_vertex g v :
  wf g → size g ≤ key_range → is_free g !! v = Some false →
  ∃ g1 g2, forget g v = Some g1 ∧ new_vertex g1 = Some (v, g2) ∧
    size g2 = size g ∧ is_free g2 = is_free g ∧ free_id g2 = free_id g ∧
    ∀ junk s d, s < size g → d < size g → s = v ∨ d = v →
                elem junk g2 s d = Some false.
Proof.
  intros Hwf Hsize Hfree.
  destruct (forget_spec g v Hwf Hsize Hfree)
    as (g1 & sv & Hf & Hwf1 & Hsz1 & _ & _ & _ & Hfi & Hif & Hsucc & _).
  pose proof (new_vertex_pop g1 (free_id g) v Hwf1 Hfi) as Hnew.
  eexists g1, _. split; [done|]. split; [exact Hnew|].
  destruct (new_vertex_wf _ _ _ Hwf1 Hnew) as (Hwf2 & _ & _).
  split; [done|]. split; [|split; [done|]].
  - simpl. rewrite Hif, list_insert_insert_eq.
    by apply list_insert_id.
  - intros junk s d Hs Hd Hv. apply edge_view; [done| | | |].
    + unfold size in *. simpl. lia.
    + unfold size in *. simpl. lia.
    + unfold size in *. simpl. lia.
    + simpl. intros [i Hi]. apply Hsucc in Hi as (_ & ? & ?). naive_solver.
Qed.

Lemma forget_then_new_vertex_witness :
  ∃ g1 g2, forget three 1 = Some g1 ∧ new_vertex g1 = Some (1, g2) ∧
    size g2 = size three ∧ is_free g2 = is_free three ∧
    free_id g2 = free_id three ∧
    ∀ junk s d, s < size three → d < size three → s = 1 ∨ d = 1 →
                elem junk g2 s d = Some false.
Proof.
  apply forget_then_new_vertex; [apply three_wf| |by vm_compute].
  apply small_size. vm_compute. lia.
Defined.

End AdaptGraphMore.

(** ** The analysis CFG: building and walking *)

Module cfg_more.
Import cfg cfg_spec cfg_facts simplify_facts.

Section cfg_more.
Context {basic_block_label_t : Type} `{Countable basic_block_label_t}.
Context {new_statement_t : Type}.

#[local] Abbreviation label := basic_block_label_t.
#[local] Abbreviation cfg_t := (cfg.cfg_t basic_block_label_t new_statement_t).
#[local] Abbreviation basic_block_t :=
  (cfg.basic_block_t basic_block_label_t new_statement_t).
#[local] Abbreviation blocks_t := (gmap basic_block_label_t basic_block_t).

Implicit Types (c : cfg_t) (l k a b x y : label) (bs : blocks_t).
Implicit Types (bb blk cur : basic_block_t).
Implicit Types (V : gset label).

(** *** Edges: [a >> b] and [a -= b] *)

Lemma add_edge_lookup bs a b k :
  (∀ k blk, bs !! k = Some blk → m_bb_id blk = k) →
  is_Some (bs !! a) → is_Some (bs !! b) →
  add_edge a b bs !! k = link_block a b k <$> bs !! k.
Proof.
  intros Hid [ba Ha] [bb Hb]. unfold add_edge. rewrite Ha, Hb.
  rewrite (Hid _ _ Ha), (Hid _ _ Hb). rewrite !lookup_alter.
  destruct (bs !! k) as [blk|] eqn:Hk; simpl.
  - unfold link_block.
    destruct (decide (b = k)) as [->|Hbk], (decide (a = k)) as [->|Hak];
      simpl; rewrite ?Hk, ?Hb, ?Ha; simpl;
      repeat case_decide; try done; by destruct blk.
  - repeat case_decide; subst; by rewrite ?Hk.
Qed.

Lemma remove_edge_lookup bs a b k :
  (∀ k blk, bs !! k = Some blk → m_bb_id blk = k) →
  is_Some (bs !! a) → is_Some (bs !! b) →
  remove_edge a b bs !! k = unlink_block a b k <$> bs !! k.
Proof.
  intros Hid [ba Ha] [bb Hb]. unfold remove_edge. rewrite Ha, Hb.
  rewrite (Hid _ _ Ha), (Hid _ _ Hb). rewrite !lookup_alter.
  destruct (bs !! k) as [blk|] eqn:Hk; simpl.
  - unfold unlink_block.
    destruct (decide (b = k)) as [->|Hbk], (decide (a = k)) as [->|Hak];
      simpl; rewrite ?Hk, ?Hb, ?Ha; simpl;
      rewrite ?remove_adjacent_filter;
      repeat case_decide; try done; by destruct blk.
  - repeat case_decide; subst; by rewrite ?Hk.
Qed.

Lemma elem_of_insert_adjacent (xs : list label) e z :
  z ∈ insert_adjacent xs e ↔ z ∈ xs ∨ z = e.
Proof.
  unfold insert_adjacent. case_decide as He.
  - split; [by left|]. by intros [?| ->].
  - rewrite elem_of_app, list_elem_of_singleton. done.
Qed.

Lemma NoDup_insert_adjacent (xs : list label) e :
  NoDup xs → NoDup (insert_adjacent xs e).
Proof.
  intros Hnd. unfold insert_adjacent. case_decide as He; [done|].
  apply NoDup_app. split; [done|]. split; [|apply NoDup_singleton].
  by intros z Hz ->%list_elem_of_singleton.
Qed.

Lemma elem_of_link_next a b k blk n :
  n ∈ m_next (link_block a b k blk) ↔ n ∈ m_next blk ∨ (k = a ∧ n = b).
Proof.
  unfold link_block. simpl. case_decide; [|naive_solver].
  rewrite elem_of_insert_adjacent. naive_solver.
Qed.

Lemma elem_of_link_prev a b k blk p :
  p ∈ m_prev (link_block a b k blk) ↔ p ∈ m_prev blk ∨ (k = b ∧ p = a).
Proof.
  unfold link_block. simpl. case_decide; [|naive_solver].
  rewrite elem_of_insert_adjacent. naive_solver.
Qed.

Lemma elem_of_unlink_next a b k blk n :
  n ∈ m_next (unlink_block a b k blk) ↔ n ∈ m_next blk ∧ ¬ (k = a ∧ n = b).
Proof.
  unfold unlink_block. simpl. case_decide; [|naive_solver].
  rewrite list_elem_of_filter. naive_solver.
Qed.

Lemma elem_of_unlink_prev a b k blk p :
  p ∈ m_prev (unlink_block a b k blk) ↔ p ∈ m_prev blk ∧ ¬ (k = b ∧ p = a).
Proof.
  unfold unlink_block. simpl. case_decide; [|naive_solver].
  rewrite list_elem_of_filter. naive_solver.
Qed.

Lemma cfg_add_edge_wf c a b :
  wf c → is_Some (m_blocks c !! a) → is_Some (m_blocks c !! b) →
  wf (set_blocks (add_edge a b (m_blocks c)) c).
Proof.
  intros Hwf Ha Hb. pose proof Hwf as [W1 W2 W3 W4 W5 W6].
  assert (∀ k blk', add_edge a b (m_blocks c) !! k = Some blk' ↔
            ∃ blk : basic_block_t,
              m_blocks c !! k = Some blk ∧ blk' = link_block a b k blk) as Hl.
  { intros k blk'. rewrite add_edge_lookup, fmap_Some by done. naive_solver. }
  split; simpl.
  - rewrite add_edge_lookup, fmap_is_Some by done. done.
  - intros k blk' (blk & Hk & ->)%Hl. simpl. by apply W2.
  - intros k blk' n (blk & Hk & ->)%Hl [Hn|[-> ->]]%elem_of_link_next.
    + destruct (W3 _ _ _ Hk Hn) as (b' & Hb' & Hin).
      exists (link_block a b n b'). split; [apply Hl; by eauto|].
      apply elem_of_link_prev. by left.
    + destruct Hb as [bb Hbb].
      exists (link_block a b b bb). split; [apply Hl; by eauto|].
      apply elem_of_link_prev. by right.
  - intros k blk' p (blk & Hk & ->)%Hl [Hp|[-> ->]]%elem_of_link_prev.
    + destruct (W4 _ _ _ Hk Hp) as (b' & Hb' & Hin).
      exists (link_block a b p b'). split; [apply Hl; by eauto|].
      apply elem_of_link_next. by left.
    + destruct Ha as [ba Hba].
      exists (link_block a b a ba). split; [apply Hl; by eauto|].
      apply elem_of_link_next. by right.
  - intros k blk' (blk & Hk & ->)%Hl. simpl.
    case_decide; [apply NoDup_insert_adjacent|]; by eapply W5.
  - intros k blk' (blk & Hk & ->)%Hl. simpl.
    case_decide; [apply NoDup_insert_adjacent|]; by eapply W6.
Qed.

Lemma cfg_remove_edge_wf c a b :
  wf c → is_Some (m_blocks c !! a) → is_Some (m_blocks c !! b) →
  wf (set_blocks (remove_edge a b (m_blocks c)) c).
Proof.
  intros Hwf Ha Hb. pose proof Hwf as [W1 W2 W3 W4 W5 W6].
  assert (∀ k blk', remove_edge a b (m_blocks c) !! k = Some blk' ↔
            ∃ blk : basic_block_t,
              m_blocks c !! k = Some blk ∧ blk' = unlink_block a b k blk) as Hl.
  { intros k blk'. rewrite remove_edge_lookup, fmap_Some by done. naive_solver. }
  split; simpl.
  - rewrite remove_edge_lookup, fmap_is_Some by done. done.
  - intros k blk' (blk & Hk & ->)%Hl. simpl. by apply W2.
  - intros k blk' n (blk & Hk & ->)%Hl [Hn Hne]%elem_of_unlink_next.
    destruct (W3 _ _ _ Hk Hn) as (b' & Hb' & Hin).
    exists (unlink_block a b n b'). split; [apply Hl; by eauto|].
    apply elem_of_unlink_prev. naive_solver.
  - intros k blk' p (blk & Hk & ->)%Hl [Hp Hne]%elem_of_unlink_prev.
    destruct (W4 _ _ _ Hk Hp) as (b' & Hb' & Hin).
    exists (unlink_block a b p b'). split; [apply Hl; by eauto|].
    apply elem_of_unlink_next. naive_solver.
  - intros k blk' (blk & Hk & ->)%Hl. simpl.
    case_decide; [apply NoDup_filter|]; by eapply W5.
  - intros k blk' (blk & Hk & ->)%Hl. simpl.
    case_decide; [apply NoDup_filter|]; by eapply W6.
Qed.

Lemma link_block_id a b k blk :
  (k = a → b ∈ m_next blk) → (k = b → a ∈ m_prev blk) →
  link_block a b k blk = blk.
Proof.
  intros Hn Hp. unfold link_block, insert_adjacent.
  destruct blk as [id ts pv nx]. simpl in *. f_equal.
  - case_decide; [|done]. by rewrite decide_True by auto.
  - case_decide; [|done]. by rewrite decide_True by auto.
Qed.

Lemma unlink_block_id a b k blk :
  (k = a → b ∉ m_next blk) → (k = b → a ∉ m_prev blk) →
  unlink_block a b k blk = blk.
Proof.
  intros Hn Hp. unfold unlink_block.
  destruct blk as [id ts pv nx]. simpl in *. f_equal.
  - case_decide; [|done]. apply filter_ne_id. auto.
  - case_decide; [|done]. apply filter_ne_id. auto.
Qed.

Lemma unlink_link a b k blk :
  (k = a → b ∉ m_next blk) → (k = b → a ∉ m_prev blk) →
  unlink_block a b k (link_block a b k blk) = blk.
Proof.
  intros Hn Hp. unfold unlink_block, link_block, insert_adjacent.
  destruct blk as [id ts pv nx]. simpl in *. f_equal.
  - case_decide; [|done]. rewrite decide_False by auto.
    rewrite filter_app, filter_cons_False, filter_nil, app_nil_r by naive_solver.
    apply filter_ne_id. auto.
  - case_decide; [|done]. rewrite decide_False by auto.
    rewrite filter_app, filter_cons_False, filter_nil, app_nil_r by naive_solver.
    apply filter_ne_id. auto.
Qed.

Lemma add_edge_edge c a b x y :
  wf c → is_Some (m_blocks c !! a) → is_Some (m_blocks c !! b) →
  edge (set_blocks (add_edge a b (m_blocks c)) c) x y ↔
  edge c x y ∨ (x = a ∧ y = b).
Proof.
  intros Hwf Ha Hb. unfold edge. simpl.
  setoid_rewrite (add_edge_lookup _ a b x (wf_label _ Hwf) Ha Hb).
  setoid_rewrite fmap_Some. split.
  - intros (ba & (blk & Hx & ->) & Hin).
    apply elem_of_link_next in Hin as [?|?]; [left; by eauto|by right].
  - intros [(ba & Hx & Hin)|[-> ->]].
    + exists (link_block a b x ba). split; [by eauto|].
      apply elem_of_link_next. by left.
    + destruct Ha as [ba Ha]. exists (link_block a b a ba).
      split; [by eauto|]. apply elem_of_link_next. by right.
Qed.

Lemma remove_edge_edge c a b x y :
  wf c → is_Some (m_blocks c !! a) → is_Some (m_blocks c !! b) →
  edge (set_blocks (remove_edge a b (m_blocks c)) c) x y ↔
  edge c x y ∧ ¬ (x = a ∧ y = b).
Proof.
  intros Hwf Ha Hb. unfold edge. simpl.
  setoid_rewrite (remove_edge_lookup _ a b x (wf_label _ Hwf) Ha Hb).
  setoid_rewrite fmap_Some. split.
  - intros (ba & (blk & Hx & ->) & Hin).
    apply elem_of_unlink_next in Hin as [? ?]. by eauto.
  - intros [(ba & Hx & Hin) Hne].
    exists (unlink_block a b x ba). split; [by eauto|].
    by apply elem_of_unlink_next.
Qed.

(** [a >> b] between two blocks of a well-formed CFG adds the edge from
    [a] to [b] and no other, records it on both sides (the CFG stays
    well formed), touches no statement, and does nothing when it is
    repeated. *)
Theorem add_edge_adds_edge c a b :
  wf c → is_Some (m_blocks c !! a) → is_Some (m_blocks c !! b) →
  let c' := set_blocks (add_edge a b (m_blocks c)) c in
  wf c' ∧
  (∀ x y, edge c' x y ↔ edge c x y ∨ (x = a ∧ y = b)) ∧
  (∀ k, m_ts <$> m_blocks c' !! k = m_ts <$> m_blocks c !! k) ∧
  add_edge a b (m_blocks c') = m_blocks c'.
Proof.
  intros Hwf Ha Hb c'.
  pose proof (cfg_add_edge_wf c a b Hwf Ha Hb) as Hwf'.
  pose proof (λ k, add_edge_lookup (m_blocks c) a b k (wf_label _ Hwf) Ha Hb)
    as Hl.
  split; [done|]. split; [intros x y; by apply add_edge_edge|].
  split.
  { intros k. simpl. rewrite Hl. by destruct (m_blocks c !! k). }
  apply map_eq. intros k.
  rewrite add_edge_lookup; [|exact (wf_label _ Hwf')|simpl; rewrite Hl..].
  2,3: by apply fmap_is_Some.
  simpl. rewrite Hl. destruct (m_blocks c !! k) as [blk|]; [|done].
  simpl. f_equal. apply link_block_id.
  - intros ->. apply elem_of_link_next. by right.
  - intros ->. apply elem_of_link_prev. by right.
Qed.

(** [a -= b] between two blocks of a well-formed CFG removes the edge
    from [a] to [b] and no other, on both sides, touches no statement,
    and changes nothing when the edge is not there. *)
Theorem remove_edge_removes_edge c a b :
  wf c → is_Some (m_blocks c !! a) → is_Some (m_blocks c !! b) →
  let c' := set_blocks (remove_edge a b (m_blocks c)) c in
  wf c' ∧
  (∀ x y, edge c' x y ↔ edge c x y ∧ ¬ (x = a ∧ y = b)) ∧
  (∀ k, m_ts <$> m_blocks c' !! k = m_ts <$> m_blocks c !! k) ∧
  (¬ edge c a b → m_blocks c' = m_blocks c).
Proof.
  intros Hwf Ha Hb c'.
  pose proof (λ k, remove_edge_lookup (m_blocks c) a b k (wf_label _ Hwf) Ha Hb)
    as Hl.
  split; [by apply cfg_remove_edge_wf|].
  split; [intros x y; by apply remove_edge_edge|].
  split.
  { intros k. simpl. rewrite Hl. by destruct (m_blocks c !! k). }
  intros Hne. apply map_eq. intros k. simpl. rewrite Hl.
  destruct (m_blocks c !! k) as [blk|] eqn:Hk; [|done].
  simpl. f_equal. apply unlink_block_id.
  - intros -> Hin. apply Hne. by exists blk.
  - intros -> Hin. apply Hne.
    destruct (wf_prev _ Hwf _ _ _ Hk Hin) as (ba & Hba & Hin').
    by exists ba.
Qed.

(** [a -= b] undoes [a >> b]: when the edge from [a] to [b] is not in a
    well-formed CFG, adding it and removing it again gives back every
    block as it was, neighbour lists in their order included. *)
Theorem remove_edge_undoes_add_edge c a b :
  wf c → is_Some (m_blocks c !! a) → is_Some (m_blocks c !! b) →
  ¬ edge c a b →
  remove_edge a b (add_edge a b (m_blocks c)) = m_blocks c.
Proof.
  intros Hwf Ha Hb Hne.
  pose proof (cfg_add_edge_wf c a b Hwf Ha Hb) as Hwf'.
  pose proof (λ k, add_edge_lookup (m_blocks c) a b k (wf_label _ Hwf) Ha Hb)
    as Hl.
  apply map_eq. intros k.
  rewrite remove_edge_lookup; [|exact (wf_label _ Hwf')|rewrite Hl..].
  2,3: by apply fmap_is_Some.
  rewrite Hl. destruct (m_blocks c !! k) as [blk|] eqn:Hk; [|done].
  simpl. f_equal. apply unlink_link.
  - intros -> Hin. apply Hne. by exists blk.
  - intros -> Hin. apply Hne.
    destruct (wf_prev _ Hwf _ _ _ Hk Hin) as (ba & Hba & Hin').
    by exists ba.
Qed.

(** *** The invariant of the interface *)

Lemma cfg_new_wf (entry : label) (ex : option label) :
  wf (cfg_new entry ex : cfg_t).
Proof.
  split; simpl.
  - by rewrite lookup_singleton_eq.
  - by intros k blk [<- <-]%lookup_singleton_Some.
  - intros k blk n [<- <-]%lookup_singleton_Some Hin.
    by apply elem_of_nil in Hin.
  - intros k blk n [<- <-]%lookup_singleton_Some Hin.
    by apply elem_of_nil in Hin.
  - intros k blk [<- <-]%lookup_singleton_Some. apply NoDup_nil_2.
  - intros k blk [<- <-]%lookup_singleton_Some. apply NoDup_nil_2.
Qed.

Lemma insert_wf c l : wf c → wf (insert l c).2.
Proof.
  intros Hwf. unfold insert.
  destruct (m_blocks c !! l) as [blk|] eqn:Hl; [done|]. simpl.
  pose proof Hwf as [W1 W2 W3 W4 W5 W6].
  split; simpl.
  - destruct (decide (m_entry c = l)) as [<-|Hne].
    + by rewrite lookup_insert_eq.
    + by rewrite lookup_insert_ne.
  - intros k blk [[<- <-]|[? Hk]]%lookup_insert_Some; [done|by apply W2].
  - intros k blk n [[<- <-]|[? Hk]]%lookup_insert_Some Hin.
    { by apply elem_of_nil in Hin. }
    destruct (W3 _ _ _ Hk Hin) as (b' & Hb' & Hin').
    exists b'. split; [|done]. rewrite lookup_insert_ne; [done|].
    intros <-. by rewrite Hl in Hb'.
  - intros k blk n [[<- <-]|[? Hk]]%lookup_insert_Some Hin.
    { by apply elem_of_nil in Hin. }
    destruct (W4 _ _ _ Hk Hin) as (b' & Hb' & Hin').
    exists b'. split; [|done]. rewrite lookup_insert_ne; [done|].
    intros <-. by rewrite Hl in Hb'.
  - intros k blk [[<- <-]|[? Hk]]%lookup_insert_Some;
      [apply NoDup_nil_2|by eapply W5].
  - intros k blk [[<- <-]|[? Hk]]%lookup_insert_Some;
      [apply NoDup_nil_2|by eapply W6].
Qed.

Lemma insert_statement_wf c k s :
  wf c → wf (set_blocks (insert_statement k s (m_blocks c)) c).
Proof.
  intros [W1 W2 W3 W4 W5 W6].
  assert (∀ j blk, insert_statement k s (m_blocks c) !! j = Some blk →
    ∃ b0 : basic_block_t, m_blocks c !! j = Some b0 ∧
      m_bb_id blk = m_bb_id b0 ∧ m_prev blk = m_prev b0 ∧
      m_next blk = m_next b0) as Hinv.
  { intros j blk. unfold insert_statement. rewrite lookup_alter.
    case_decide as Hj; [subst j|by eauto].
    rewrite fmap_Some. intros (b0 & Hb0 & ->). by exists b0. }
  assert (∀ j (b0 : basic_block_t), m_blocks c !! j = Some b0 →
    ∃ blk, insert_statement k s (m_blocks c) !! j = Some blk ∧
      m_prev blk = m_prev b0 ∧ m_next blk = m_next b0) as Hfwd.
  { intros j b0 Hb0. unfold insert_statement. rewrite lookup_alter.
    case_decide as Hj; [subst j|by eauto].
    rewrite Hb0. simpl. by eauto. }
  split; simpl.
  - destruct W1 as [be Hbe]. destruct (Hfwd _ _ Hbe) as (blk & -> & _).
    by eexists.
  - intros j blk (b0 & Hb0 & -> & _)%Hinv. by apply W2.
  - intros j blk n (b0 & Hb0 & _ & _ & ->)%Hinv Hin.
    destruct (W3 _ _ _ Hb0 Hin) as (b' & Hb' & Hin').
    destruct (Hfwd _ _ Hb') as (blk' & Hblk' & Hp & _).
    exists blk'. by rewrite Hp.
  - intros j blk n (b0 & Hb0 & _ & -> & _)%Hinv Hin.
    destruct (W4 _ _ _ Hb0 Hin) as (b' & Hb' & Hin').
    destruct (Hfwd _ _ Hb') as (blk' & Hblk' & _ & Hn).
    exists blk'. by rewrite Hn.
  - intros j blk (b0 & Hb0 & _ & _ & ->)%Hinv. by eapply W5.
  - intros j blk (b0 & Hb0 & _ & -> & _)%Hinv. by eapply W6.
Qed.

Lemma set_exit_wf c l : wf c → wf (set_exit l c).
Proof. by intros [W1 W2 W3 W4 W5 W6]. Qed.

(** Every CFG that the interface builds is consistent: the entry block
    exists, every block is stored under its own label, every label in a
    successor or predecessor list names a block of the CFG that lists the
    edge on its side too, and no list names a block twice. *)
Theorem built_wf c : built c → wf c.
Proof.
  induction 1 as [entry ex|c l _ IH|c a b _ IH Ha Hb|c a b _ IH Ha Hb
                  |c k s _ IH|c l _ IH|c l c' _ IH Hr|c c' _ IH Hr
                  |c c' _ IH Hr].
  - apply cfg_new_wf.
  - by apply insert_wf.
  - by apply cfg_add_edge_wf.
  - by apply cfg_remove_edge_wf.
  - by apply insert_statement_wf.
  - by apply set_exit_wf.
  - apply remove_Ok_inv in Hr as (Hne & _ & _ & ->); [|done].
    by apply erase_wf.
  - by apply merge_blocks_spec in Hr as (? & _).
  - by apply remove_unreachable_blocks_spec in Hr as (? & _).
Qed.

(** *** The walk of [dfs] *)

(** Whatever the functor, the walk applies it to the blocks that the
    collecting functor gathers, in that order. *)
Lemma dfs_loop_foldl {T} fuel (f : T → basic_block_t → T) c t (ls : list label) :
  (∀ V acc l,
     dfs_rec fuel f c (V, foldl f t acc) l =
     (r ← dfs_rec fuel (λ acc blk, acc ++ [blk]) c (V, acc) l;
      Ok (r.1, foldl f t r.2))) →
  ∀ V acc,
    for_each_r (dfs_rec fuel f c) (V, foldl f t acc) ls =
    (r ← for_each_r (dfs_rec fuel (λ acc blk, acc ++ [blk]) c) (V, acc) ls;
     Ok (r.1, foldl f t r.2)).
Proof.
  intros IH. induction ls as [|n ls IHls]; intros V acc; [done|].
  cbn [for_each_r]. rewrite IH.
  destruct (dfs_rec fuel _ c (V, acc) n) as [[V1 acc1]| |]; [|done..].
  cbn [mbind result_mbind result_bind fst snd]. apply IHls.
Qed.

Lemma dfs_rec_foldl {T} fuel (f : T → basic_block_t → T) c t V acc l :
  dfs_rec fuel f c (V, foldl f t acc) l =
  (r ← dfs_rec fuel (λ acc blk, acc ++ [blk]) c (V, acc) l;
   Ok (r.1, foldl f t r.2)).
Proof.
  revert V acc l. induction fuel as [|fuel IH]; intros V acc l; [done|].
  cbn [dfs_rec]. case_decide; [done|].
  unfold get_node. destruct (m_blocks c !! l) as [cur|]; [|done].
  cbn [mbind result_mbind result_bind].
  replace (f (foldl f t acc) cur) with (foldl f t (acc ++ [cur]))
    by by rewrite foldl_app.
  by apply dfs_loop_foldl.
Qed.

(** The walk that collects the blocks: it succeeds with enough fuel, its
    visited set is the one of [mark_alive_blocks], and the blocks it adds
    are those it newly visits, each once. *)
Lemma dfs_collect_loop fuel c (ls : list label) V (acc : list basic_block_t) :
  wf c →
  (∀ V (acc : list basic_block_t) l,
     is_Some (m_blocks c !! l) → size (dom (m_blocks c) ∖ V) < fuel →
     ∃ V' (new : list basic_block_t),
       dfs_rec fuel (λ acc blk, acc ++ [blk]) c (V, acc) l =
         Ok (V', acc ++ new) ∧
       mark_alive_blocks fuel next_nodes c V l = Ok V' ∧
       NoDup (m_bb_id <$> new) ∧
       (∀ blk, blk ∈ new ↔
          m_bb_id blk ∈ V' ∧ m_bb_id blk ∉ V ∧
          m_blocks c !! m_bb_id blk = Some blk) ∧
       (l ∉ V → head new = m_blocks c !! l)) →
  (∀ n, n ∈ ls → is_Some (m_blocks c !! n)) →
  size (dom (m_blocks c) ∖ V) < fuel →
  ∃ V' (new : list basic_block_t),
    for_each_r (dfs_rec fuel (λ acc blk, acc ++ [blk]) c) (V, acc) ls =
      Ok (V', acc ++ new) ∧
    for_each_r (mark_alive_blocks fuel next_nodes c) V ls = Ok V' ∧
    V ⊆ V' ∧
    NoDup (m_bb_id <$> new) ∧
    (∀ blk, blk ∈ new ↔
       m_bb_id blk ∈ V' ∧ m_bb_id blk ∉ V ∧
       m_blocks c !! m_bb_id blk = Some blk).
Proof.
  intros Hwf IH. revert V acc.
  induction ls as [|n ls IHls]; intros V acc Hls Hm.
  - exists V, []. cbn. rewrite app_nil_r. split; [done|]. split; [done|].
    split; [done|]. split; [apply NoDup_nil_2|].
    intros blk. split; [by intros ?%elem_of_nil|naive_solver].
  - destruct (IH V acc n) as (V1 & new1 & Hd1 & Hm1 & Hnd1 & Hin1 & _);
      [apply Hls; by left|done|].
    pose proof (mark_alive_post m_next next_nodes (λ _ _, eq_refl)
                  _ _ _ _ _ Hm1) as (Hs1 & _).
    destruct (IHls V1 (acc ++ new1)) as (V' & new2 & Hd2 & Hm2 & Hs2 & Hnd2 & Hin2).
    { intros m Hmem. apply Hls. by right. }
    { eapply Nat.le_lt_trans; [|exact Hm]. apply subseteq_size. set_solver. }
    exists V', (new1 ++ new2). cbn [for_each_r]. rewrite Hd1, Hm1.
    cbn [mbind result_mbind result_bind]. rewrite Hd2, Hm2, app_assoc.
    split; [done|]. split; [done|]. split; [set_solver|]. split.
    + rewrite fmap_app. apply NoDup_app. split; [done|]. split; [|done].
      intros x (b1 & -> & Hb1%Hin1)%list_elem_of_fmap
               (b2 & Heq & Hb2%Hin2)%list_elem_of_fmap.
      rewrite Heq in Hb1. naive_solver.
    + intros blk. rewrite elem_of_app, Hin1, Hin2. split.
      * intros [(? & ? & ?)|(? & ? & ?)]; set_solver.
      * intros (? & ? & ?).
        destruct (decide (m_bb_id blk ∈ V1)); [by left|by right].
Qed.

Lemma dfs_collect_run fuel c V (acc : list basic_block_t) l :
  wf c → is_Some (m_blocks c !! l) → size (dom (m_blocks c) ∖ V) < fuel →
  ∃ V' (new : list basic_block_t),
    dfs_rec fuel (λ acc blk, acc ++ [blk]) c (V, acc) l =
      Ok (V', acc ++ new) ∧
    mark_alive_blocks fuel next_nodes c V l = Ok V' ∧
    NoDup (m_bb_id <$> new) ∧
    (∀ blk, blk ∈ new ↔
       m_bb_id blk ∈ V' ∧ m_bb_id blk ∉ V ∧
       m_blocks c !! m_bb_id blk = Some blk) ∧
    (l ∉ V → head new = m_blocks c !! l).
Proof.
  intros Hwf. revert V acc l.
  induction fuel as [|fuel IH]; intros V acc l [cur Hl] Hm; [lia|].
  cbn [dfs_rec mark_alive_blocks].
  destruct (decide (l ∈ V)) as [HlV|HlV].
  { exists V, []. rewrite app_nil_r. split; [done|]. split; [done|].
    split; [apply NoDup_nil_2|]. split; [|done].
    intros blk. split; [by intros ?%elem_of_nil|naive_solver]. }
  assert (get_node c l = Ok cur) as Hgn by (unfold get_node; by rewrite Hl).
  assert (next_nodes c l = Ok (m_next cur)) as Hnn
    by (unfold next_nodes; by rewrite Hgn).
  rewrite Hgn, Hnn. cbn [mbind result_mbind result_bind].
  destruct (dfs_collect_loop fuel c (m_next cur) ({[l]} ∪ V) (acc ++ [cur])
              Hwf IH) as (V' & new & Hd & Hmk & Hs & Hnd & Hin).
  { intros n Hn. destruct (wf_next _ Hwf _ _ _ Hl Hn) as (b' & Hb' & _).
    by eexists. }
  { enough (size (dom (m_blocks c) ∖ ({[l]} ∪ V)) <
            size (dom (m_blocks c) ∖ V)) by lia.
    apply (measure_lt c c V ({[l]} ∪ V) l); [done|set_solver| |done|].
    - by eexists.
    - left. set_solver. }
  pose proof (wf_label _ Hwf _ _ Hl) as Hid.
  exists V', (cur :: new). rewrite Hd, Hmk, <- app_assoc.
  split; [done|]. split; [done|]. split; [|split; [|done]].
  - rewrite fmap_cons. apply NoDup_cons. split; [|done].
    intros (b1 & Heq & Hb1%Hin)%list_elem_of_fmap.
    rewrite <- Heq, Hid in Hb1. set_solver.
  - intros blk. rewrite elem_of_cons, Hin. split.
    + intros [->|(? & ? & ?)]; [rewrite Hid|]; set_solver.
    + intros (? & ? & Hb).
      destruct (decide (m_bb_id blk = l)) as [Heq|Hne].
      * left. rewrite Heq in Hb. by simplify_eq.
      * right. set_solver.
Qed.

(** [dfs(f)], and so [write], applies [f] to the blocks reachable from
    the entry of a well-formed CFG, each exactly once and the entry
    first; the blocks and their order do not depend on [f]. *)
Theorem dfs_visits_reachable_once c :
  wf c →
  ∃ order : list basic_block_t,
    NoDup (m_bb_id <$> order) ∧
    (∀ blk, blk ∈ order ↔
       reaches c (m_entry c) (m_bb_id blk) ∧
       m_blocks c !! m_bb_id blk = Some blk) ∧
    head order = m_blocks c !! m_entry c ∧
    ∀ (T : Type) (f : T → basic_block_t → T) (t : T),
      dfs f c t = Ok (foldl f t order).
Proof.
  intros Hwf.
  destruct (dfs_collect_run (S (size (m_blocks c))) c ∅ [] (m_entry c) Hwf)
    as (V' & order & Hd & Hmk & Hnd & Hin & Hhd).
  { apply (wf_entry _ Hwf). }
  { enough (size (dom (m_blocks c) ∖ ∅) ≤ size (m_blocks c)) by lia.
    rewrite <- size_dom. apply subseteq_size. set_solver. }
  pose proof (mark_alive_spec m_next next_nodes (λ _ _, eq_refl) _ _ _ _ Hmk)
    as Hreach.
  exists order. split; [done|]. split; [|split; [by apply Hhd|]].
  - intros blk. rewrite Hin, Hreach. unfold reaches, edge, step_via.
    set_solver.
  - intros T f t. unfold dfs.
    rewrite (dfs_rec_foldl _ f c t ∅ [] (m_entry c)), Hd. done.
Qed.

(** *** The reversed view [cfg_rev_t] *)

Lemma rev_bbs_lookup (kvs : list (label * basic_block_t))
    (m : gmap label (basic_block_rev_t (basic_block_label_t:=label))) l :
  (∀ k blk, (k, blk) ∈ kvs → m_bb_id blk = k) →
  foldl (λ m kb,
           match m !! m_bb_id kb.2 with
           | Some _ => m
           | None => <[m_bb_id kb.2 := BasicBlockRev kb.1]> m
           end) m kvs !! l =
  match m !! l with
  | Some v => Some v
  | None => if decide (l ∈ kvs.*1) then Some (BasicBlockRev l) else None
  end.
Proof.
  revert m. induction kvs as [|[k blk] kvs IH]; intros m Hid.
  { simpl. by destruct (m !! l). }
  cbn [foldl]. rewrite IH by (intros ???; apply Hid; by right).
  assert (m_bb_id blk = k) as Hk by (apply Hid; by left).
  cbn [fst snd]. rewrite Hk.
  destruct (decide (l = k)) as [->|Hne].
  - destruct (m !! k) as [v|] eqn:Hm; [by rewrite Hm|].
    rewrite lookup_insert_eq, decide_True; [done|]. simpl. by left.
  - assert (∀ m' : gmap label basic_block_rev_t,
              m' !! l = m !! l →
              match m' !! l with
              | Some v => Some v
              | None => if decide (l ∈ kvs.*1) then Some (BasicBlockRev l)
                        else None
              end =
              match m !! l with
              | Some v => Some v
              | None => if decide (l ∈ ((k, blk) :: kvs).*1)
                        then Some (BasicBlockRev l) else None
              end) as Hgo.
    { intros m' ->. destruct (m !! l); [done|].
      simpl. repeat case_decide; try done; set_solver. }
    destruct (m !! k); apply Hgo; [done|]. by rewrite lookup_insert_ne.
Qed.

Lemma rev_get_node_spec c l :
  wf c →
  rev_get_node (cfg_rev_new c) l =
  match m_blocks c !! l with
  | Some _ => Ok (BasicBlockRev l)
  | None => Fatal "Basic block not found in the CFG" c
  end.
Proof.
  intros Hwf. unfold rev_get_node, cfg_rev_new. cbn [_rev_bbs _cfg].
  rewrite rev_bbs_lookup, lookup_empty.
  2: { intros k blk Hin%elem_of_map_to_list. by apply (wf_label _ Hwf). }
  destruct (m_blocks c !! l) as [blk|] eqn:Hl.
  - rewrite decide_True; [done|].
    apply list_elem_of_fmap. exists (l, blk). split; [done|].
    by apply elem_of_map_to_list.
  - rewrite decide_False; [done|].
    intros ([k blk] & -> & Hin%elem_of_map_to_list)%list_elem_of_fmap.
    simpl in Hl. by rewrite Hl in Hin.
Qed.

(** The reversed view of a well-formed CFG has a node for exactly the
    blocks of the CFG, swaps entry and exit (and has no entry when the
    CFG has no exit), and walks the edges backwards: [b] is reachable
    from [a] over [next_nodes] of the view iff [a] is reachable from [b]
    in the CFG. *)
Theorem cfg_rev_reverses c :
  wf c →
  let r := cfg_rev_new c in
  (∀ l, is_Some (m_blocks c !! l) → rev_get_node r l = Ok (BasicBlockRev l)) ∧
  (∀ l, m_blocks c !! l = None → ∃ msg, rev_get_node r l = Fatal msg c) ∧
  rev_exit r = m_entry c ∧
  (∀ e, m_exit c = Some e → rev_entry r = Ok e) ∧
  (m_exit c = None → ∃ msg, rev_entry r = Fatal msg c) ∧
  (∀ a b,
     rtc (λ x y, ∃ ns, rev_next_nodes r x = Ok ns ∧ y ∈ ns) a b ↔
     reaches c b a) ∧
  (∀ a b,
     rtc (λ x y, ∃ ps, rev_prev_nodes r x = Ok ps ∧ y ∈ ps) a b ↔
     reaches c a b).
Proof.
  intros Hwf r.
  split. { intros l [blk Hl]. unfold r. by rewrite rev_get_node_spec, Hl. }
  split. { intros l Hl. unfold r. rewrite rev_get_node_spec, Hl by done.
           by eexists. }
  split; [done|]. split.
  { intros e He. unfold rev_entry, has_exit, exit. cbn [r cfg_rev_new _cfg].
    rewrite He. by rewrite bool_decide_eq_true_2. }
  split.
  { intros He. unfold rev_entry, has_exit. cbn [r cfg_rev_new _cfg].
    rewrite He. rewrite bool_decide_eq_false_2; [by eexists|].
    by intros [? ?]. }
  assert (∀ (nx : basic_block_t → list label) nodes,
            (∀ l, nodes l = (bb ← get_node c l; Ok (nx bb))) →
            ∀ x y, (∃ ns, nodes x = Ok ns ∧ y ∈ ns) ↔ step_via nx c x y)
    as Hstep.
  { intros nx nodes Hn x y. rewrite Hn. unfold step_via, get_node.
    destruct (m_blocks c !! x) as [bx|]; simpl.
    - split; [intros (ns & ? & ?); simplify_eq; by eauto|].
      intros (ba & ? & ?). simplify_eq. by eauto.
    - split; [by intros (ns & ? & ?)|by intros (ba & ? & ?)]. }
  split; intros a b.
  - rewrite <- (back_reaches c b a Hwf).
    split; apply rtc_subrel; intros x y;
      by apply (Hstep m_prev (rev_next_nodes r) (λ _, eq_refl)).
  - unfold reaches.
    split; apply rtc_subrel; intros x y;
      by apply (Hstep m_next (rev_prev_nodes r) (λ _, eq_refl)).
Qed.

(** *** Statements under [merge_blocks] *)

Lemma concat_perm {A} (l1 l2 : list (list A)) :
  l1 ≡ₚ l2 → concat l1 ≡ₚ concat l2.
Proof.
  induction 1 as [|x l1 l2 _ IH|x y l|l1 l2 l3 _ IH1 _ IH2]; simpl.
  - done.
  - by rewrite IH.
  - rewrite !app_assoc. by rewrite (Permutation_app_comm x y).
  - by rewrite IH1.
Qed.

Lemma statements_delete (m : gmap label (list new_statement_t)) k ts :
  m !! k = Some ts →
  concat (map_to_list m).*2 ≡ₚ ts ++ concat (map_to_list (delete k m)).*2.
Proof.
  intros Hk. change (ts ++ concat (map_to_list (delete k m)).*2)
    with (concat ((k, ts) :: map_to_list (delete k m)).*2).
  apply concat_perm, fmap_Permutation. symmetry.
  by apply map_to_list_delete.
Qed.

Lemma all_statements_alt c :
  all_statements c = concat (map_to_list (m_ts <$> m_blocks c)).*2.
Proof.
  unfold all_statements. rewrite map_to_list_fmap. f_equal.
  rewrite <- !list_fmap_compose. by apply list_fmap_ext.
Qed.

Lemma all_statements_erase c l blk :
  m_blocks c !! l = Some blk →
  all_statements c ≡ₚ m_ts blk ++ all_statements (erase l c).
Proof.
  intros Hl. rewrite !all_statements_alt.
  assert (m_ts <$> m_blocks (erase l c) = delete l (m_ts <$> m_blocks c))
    as ->.
  { unfold erase. cbn [m_blocks set_blocks].
    rewrite <- map_fmap_compose, fmap_delete. done. }
  apply statements_delete. by rewrite lookup_fmap, Hl.
Qed.

Lemma all_statements_merged c x p ch cur parent :
  m_blocks c !! x = Some cur → m_blocks c !! p = Some parent → p ≠ x →
  all_statements (merged x p ch (m_ts cur) c) ≡ₚ all_statements c.
Proof.
  intros Hx Hp Hpx. rewrite !all_statements_alt.
  assert (m_ts <$> m_blocks (merged x p ch (m_ts cur) c) =
          <[p := m_ts parent ++ m_ts cur]> (delete x (m_ts <$> m_blocks c)))
    as ->.
  { apply map_eq. intros k. rewrite lookup_fmap, merged_lookup.
    destruct (decide (k = x)) as [->|Hkx].
    { by rewrite lookup_insert_ne, lookup_delete_eq. }
    destruct (decide (k = p)) as [->|Hkp].
    { rewrite lookup_insert_eq, Hp. simpl. by rewrite decide_True. }
    rewrite lookup_insert_ne, lookup_delete_ne, lookup_fmap by done.
    destruct (m_blocks c !! k) as [blk|]; [|done].
    simpl. by rewrite decide_False. }
  rewrite (statements_delete _ p (m_ts parent ++ m_ts cur))
    by by rewrite lookup_insert_eq.
  rewrite delete_insert_eq.
  rewrite (statements_delete (m_ts <$> m_blocks c) x (m_ts cur))
    by by rewrite lookup_fmap, Hx.
  rewrite (statements_delete (delete x (m_ts <$> m_blocks c)) p (m_ts parent))
    by by rewrite lookup_delete_ne, lookup_fmap, Hp.
  rewrite !app_assoc. f_equiv. apply Permutation_app_comm.
Qed.

Lemma merged_prefix c x p ch ts l blk' :
  m_blocks (merged x p ch ts c) !! l = Some blk' →
  ∃ blk, m_blocks c !! l = Some blk ∧ m_ts blk `prefix_of` m_ts blk'.
Proof.
  intros (_ & b0 & Hb0 & ->)%merged_lookup_Some. exists b0.
  split; [done|]. simpl. case_decide; [by eexists|done].
Qed.

Lemma merge_loop_statements fuel (ls : list label) c V c' V' :
  (∀ c V x c' V', wf c → merge_blocks_rec fuel (c, V) x = Ok (c', V') →
     all_statements c' ≡ₚ all_statements c ∧
     ∀ l blk', m_blocks c' !! l = Some blk' →
       ∃ blk, m_blocks c !! l = Some blk ∧ m_ts blk `prefix_of` m_ts blk') →
  wf c →
  for_each_r (merge_blocks_rec fuel) (c, V) ls = Ok (c', V') →
  all_statements c' ≡ₚ all_statements c ∧
  ∀ l blk', m_blocks c' !! l = Some blk' →
    ∃ blk, m_blocks c !! l = Some blk ∧ m_ts blk `prefix_of` m_ts blk'.
Proof.
  intros IH. revert c V. induction ls as [|n ls IHls]; intros c V Hwf Hr.
  { cbn in Hr. simplify_eq. split; [done|]. by eauto. }
  cbn in Hr.
  destruct (merge_blocks_rec fuel (c, V) n) as [[c1 V1]| |] eqn:Hn;
    try done. cbn in Hr.
  destruct (merge_blocks_rec_post _ _ _ _ _ _ Hwf Hn) as [A _].
  destruct (IHls _ _ (wp_wf _ _ _ _ A) Hr) as [Hp2 Hpre2].
  destruct (IH _ _ _ _ _ Hwf Hn) as [Hp1 Hpre1].
  split; [by rewrite Hp2|].
  intros l blk' (b1 & Hb1 & Hpf1)%Hpre2.
  destruct (Hpre1 _ _ Hb1) as (b0 & Hb0 & Hpf0).
  exists b0. split; [done|]. by etransitivity.
Qed.

Lemma merge_rec_statements fuel c V x c' V' :
  wf c → merge_blocks_rec fuel (c, V) x = Ok (c', V') →
  all_statements c' ≡ₚ all_statements c ∧
  ∀ l blk', m_blocks c' !! l = Some blk' →
    ∃ blk, m_blocks c !! l = Some blk ∧ m_ts blk `prefix_of` m_ts blk'.
Proof.
  revert c V x c' V'. induction fuel as [|fuel IH]; intros c V x c' V' Hwf Hr;
    [done|].
  destruct (decide (x ∈ V)) as [HxV|HxV].
  { rewrite merge_blocks_rec_visited in Hr by done. simplify_eq.
    split; [done|]. by eauto. }
  destruct (m_blocks c !! x) as [cur|] eqn:Hx.
  2: { by rewrite merge_blocks_rec_absent in Hr. }
  destruct (merge_blocks_rec_step fuel c V x cur Hwf HxV Hx)
    as [[Hnm Heq]|(p & ch & parent & Hnext & Hprev & Hp & Hpn & Heq)];
    rewrite Heq in Hr; clear Heq.
  { by eapply merge_loop_statements. }
  destruct (remove x _) as [c2| |] eqn:Hrem; try done.
  cbn [mbind result_mbind result_bind] in Hr.
  apply remove_Ok_inv in Hrem as (Hxe & Hxx & _ & Hc2);
    [|by apply wf_move_back].
  cbn in Hxe, Hxx.
  destruct (decide (p = x)) as [->|Hpx].
  { exfalso. revert Hr.
    exact (merge_self_not_Ok fuel c V x cur ch c2 (c', V')
             Hwf HxV Hx Hnext Hprev Hc2). }
  subst c2.
  rewrite (merge_step_eq c x p ch cur parent Hwf Hx Hnext Hprev Hp Hpn Hpx)
    in Hr.
  pose proof (merged_wf c x p ch cur parent (m_ts cur)
                Hwf Hx Hnext Hprev Hp Hpn Hpx Hxe) as Hwfm.
  destruct (IH _ _ _ _ _ Hwfm Hr) as [Hperm Hpre].
  split.
  - rewrite Hperm. by eapply all_statements_merged.
  - intros l blk' (b1 & Hb1 & Hpf1)%Hpre.
    destruct (merged_prefix _ _ _ _ _ _ _ Hb1) as (b0 & Hb0 & Hpf0).
    exists b0. split; [done|]. by etransitivity.
Qed.

(** [merge_blocks] moves statements and loses none: when it returns on a
    well-formed CFG, the statements of the result are those of the
    argument, each as often as before, and a block that remains begins
    with the statements it had. *)
Theorem merge_blocks_keeps_statements c c' :
  wf c → merge_blocks c = Ok c' →
  all_statements c' ≡ₚ all_statements c ∧
  ∀ l blk', m_blocks c' !! l = Some blk' →
    ∃ blk, m_blocks c !! l = Some blk ∧ m_ts blk `prefix_of` m_ts blk'.
Proof.
  intros Hwf Hr. unfold merge_blocks in Hr.
  destruct (merge_blocks_rec _ _ _) as [[c1 V1]| |] eqn:Hrec; try done.
  cbn in Hr. simplify_eq. by eapply merge_rec_statements.
Qed.

(** *** [remove_unreachable_blocks] *)

Lemma filter_all (P : label → Prop) `{∀ x, Decision (P x)} (xs : list label) :
  (∀ x, x ∈ xs → P x) → filter P xs = xs.
Proof.
  induction xs as [|x xs IH]; intros Hall; [done|].
  rewrite filter_cons_True by (apply Hall; by left).
  f_equal. apply IH. intros y Hy. apply Hall. by right.
Qed.

Lemma filter_notin_cons (xs ls : list label) l :
  filter (λ x, x ∉ ls) (filter (λ x, x ≠ l) xs) =
  filter (λ x, x ∉ l :: ls) xs.
Proof.
  induction xs as [|x xs IH]; [done|].
  rewrite !filter_cons. destruct (decide (x ≠ l)) as [Hne|Heq].
  - rewrite filter_cons, IH.
    destruct (decide (x ∉ ls)), (decide (x ∉ l :: ls)); set_solver.
  - rewrite IH. destruct (decide (x ∉ l :: ls)); set_solver.
Qed.

(** Removing blocks that are neither the entry nor the exit succeeds, and
    the labels removed leave every neighbour list. *)
Lemma remove_all_ok (ls : list label) c :
  wf c → NoDup ls →
  (∀ l, l ∈ ls →
     is_Some (m_blocks c !! l) ∧ l ≠ m_entry c ∧ m_exit c ≠ Some l) →
  ∃ c', for_each_r (λ c l, remove l c) c ls = Ok c' ∧
    ∀ k, m_blocks c' !! k =
      if decide (k ∈ ls) then None
      else (λ blk, set_prev (filter (λ x, x ∉ ls) (m_prev blk))
                     (set_next (filter (λ x, x ∉ ls) (m_next blk)) blk))
           <$> m_blocks c !! k.
Proof.
  intros Hwf Hnd. revert c Hwf.
  induction Hnd as [|l ls Hl Hnd IH]; intros c Hwf Hls.
  { exists c. split; [done|]. intros k. rewrite decide_False by set_solver.
    destruct (m_blocks c !! k) as [blk|]; [|done]. simpl. f_equal.
    rewrite !filter_all by set_solver. by destruct blk. }
  destruct (Hls l) as ([bb Hbb] & He & Hx); [by left|].
  destruct (IH (erase l c)) as (c' & Hr & Hlk).
  { by apply erase_wf. }
  { intros k Hk. destruct (Hls k) as (Hk1 & Hk2 & Hk3); [by right|].
    split; [|done]. apply erase_dom. split; [done|]. by intros ->. }
  exists c'. split.
  { cbn [for_each_r]. by rewrite (remove_ok _ _ _ Hwf He Hx Hbb). }
  intros k. rewrite Hlk, erase_lookup.
  destruct (decide (k = l)) as [->|Hkl].
  { rewrite (decide_True (P:=l ∈ l :: ls)) by by left.
    by case_decide. }
  destruct (decide (k ∈ ls)) as [Hk|Hk].
  { by rewrite decide_True by by right. }
  rewrite decide_False by set_solver.
  destruct (m_blocks c !! k) as [blk|]; [|done]. simpl. f_equal.
  unfold detach, set_prev, set_next. simpl.
  by rewrite !filter_notin_cons.
Qed.

Lemma remove_all_not_exit (ls : list label) c c' e :
  wf c → m_exit c = Some e →
  for_each_r (λ c l, remove l c) c ls = Ok c' → e ∉ ls.
Proof.
  revert c. induction ls as [|l ls IH]; intros c Hwf He Hr.
  { by apply not_elem_of_nil. }
  cbn [for_each_r] in Hr.
  destruct (remove l c) as [c1| |] eqn:Hrem; try done.
  cbn [mbind result_mbind result_bind] in Hr.
  apply remove_Ok_inv in Hrem as (Hle & Hlx & _ & ->); [|done].
  apply not_elem_of_cons. split; [by intros ->; rewrite He in Hlx|].
  apply (IH (erase l c)); [by apply erase_wf|done..].
Qed.

Lemma remove_all_result (ls : list label) c :
  wf c → NoDup ls →
  (∀ l, l ∈ ls → is_Some (m_blocks c !! l) ∧ l ≠ m_entry c) →
  (∃ c', for_each_r (λ c l, remove l c) c ls = Ok c') ∨
  (∃ s, for_each_r (λ c l, remove l c) c ls =
          Fatal "Cannot remove exit block" s).
Proof.
  intros Hwf Hnd. revert c Hwf.
  induction Hnd as [|l ls Hl Hnd IH]; intros c Hwf Hls.
  { left. by exists c. }
  destruct (Hls l) as ([bb Hbb] & He); [by left|].
  cbn [for_each_r].
  destruct (decide (m_exit c = Some l)) as [Hx|Hx].
  { right. exists c. unfold remove.
    by rewrite decide_False, decide_True by done. }
  rewrite (remove_ok _ _ _ Hwf He Hx Hbb).
  cbn [mbind result_mbind result_bind].
  apply (IH (erase l c)); [by apply erase_wf|].
  intros k Hk. destruct (Hls k) as (Hk1 & Hk2); [by right|].
  split; [|done]. apply erase_dom. split; [done|]. by intros ->.
Qed.

(** [remove_unreachable_blocks] on a well-formed CFG.  When the exit, if
    it is a block, can be reached from the entry, the pass returns: the
    blocks that cannot be reached are gone, and a block that can be
    reached keeps its statements and successors and loses exactly its
    unreachable predecessors.  When the exit is a block that cannot be
    reached, the pass tries to remove it and ends in the fatal error of
    [remove]. *)
Theorem remove_unreachable_blocks_result c :
  wf c →
  ((∀ e, m_exit c = Some e → is_Some (m_blocks c !! e) →
         reaches c (m_entry c) e) →
   ∃ c', remove_unreachable_blocks c = Ok c' ∧
     m_entry c' = m_entry c ∧ m_exit c' = m_exit c ∧
     (∀ l, ¬ reaches c (m_entry c) l → m_blocks c' !! l = None) ∧
     (∀ l blk, reaches c (m_entry c) l → m_blocks c !! l = Some blk →
        ∃ blk', m_blocks c' !! l = Some blk' ∧
          m_bb_id blk' = m_bb_id blk ∧ m_ts blk' = m_ts blk ∧
          m_next blk' = m_next blk ∧
          ∀ p, p ∈ m_prev blk' ↔
               p ∈ m_prev blk ∧ reaches c (m_entry c) p)) ∧
  (∀ e, m_exit c = Some e → is_Some (m_blocks c !! e) →
        ¬ reaches c (m_entry c) e →
        ∃ s, remove_unreachable_blocks c =
               Fatal "Cannot remove exit block" s).
Proof.
  intros Hwf.
  destruct (dfs_collect_run (S (size (m_blocks c))) c ∅ [] (m_entry c) Hwf)
    as (alive & _ & _ & Hmk & _).
  { apply (wf_entry _ Hwf). }
  { enough (size (dom (m_blocks c) ∖ ∅) ≤ size (m_blocks c)) by lia.
    rewrite <- size_dom. apply subseteq_size. set_solver. }
  assert (∀ l, l ∈ alive ↔ reaches c (m_entry c) l) as Halive.
  { exact (mark_alive_spec m_next next_nodes (λ _ _, eq_refl) _ _ _ _ Hmk). }
  assert (∀ l, l ∈ elements (not_marked c alive) ↔
               is_Some (m_blocks c !! l) ∧ ¬ reaches c (m_entry c) l) as Hls.
  { intros l. by rewrite elem_of_elements, elem_of_not_marked, Halive. }
  unfold remove_unreachable_blocks. rewrite Hmk.
  cbn [mbind result_mbind result_bind]. split.
  - intros Hexit.
    destruct (remove_all_ok (elements (not_marked c alive)) c Hwf)
      as (c' & Hr & Hlk).
    { apply NoDup_elements. }
    { intros l [Hl Hnr]%Hls. split; [done|]. split.
      - intros ->. apply Hnr, rtc_refl.
      - intros He. apply Hnr. by apply Hexit. }
    exists c'. split; [done|].
    destruct (remove_all_spec _ _ _ Hwf Hr) as (_ & He & Hx & _).
    do 2 (split; [done|]). split.
    + intros l Hnr. rewrite Hlk. case_decide as Hin; [done|].
      destruct (m_blocks c !! l) as [blk|] eqn:Hl; [|done].
      exfalso. apply Hin, Hls. split; [by eexists|done].
    + intros l blk Hre Hl. rewrite Hlk, decide_False, Hl.
      2: { rewrite Hls. naive_solver. }
      eexists. split; [done|]. simpl. do 2 (split; [done|]). split.
      * apply filter_all. intros n Hn. rewrite Hls. intros [_ Hnr].
        apply Hnr. eapply rtc_r; [exact Hre|]. by exists blk.
      * intros p. rewrite list_elem_of_filter, Hls. split.
        { intros [Hnp Hp]. split; [done|].
          destruct (wf_prev _ Hwf _ _ _ Hl Hp) as (bp & Hbp & _).
          apply Halive. destruct (decide (p ∈ alive)); [done|].
          exfalso. apply Hnp. split; [by eexists|]. by rewrite <- Halive. }
        { intros [Hp Hrp]. split; [|done]. naive_solver. }
  - intros e He Hpres Hnr.
    destruct (remove_all_result (elements (not_marked c alive)) c Hwf)
      as [[c' Hr]|[s Hr]].
    { apply NoDup_elements. }
    { intros l [Hl Hnl]%Hls. split; [done|].
      intros ->. apply Hnl, rtc_refl. }
    + exfalso. apply (remove_all_not_exit _ _ _ _ Hwf He Hr).
      by apply Hls.
    + by exists s.
Qed.

End cfg_more.

Lemma add_edge_adds_edge_witness :
let c' := set_blocks (add_edge 5 4 (m_blocks diamond)) diamond in
wf c' ∧
(∀ x y, edge c' x y ↔ edge diamond x y ∨ (x = 5 ∧ y = 4)) ∧
(∀ k, m_ts <$> m_blocks c' !! k = m_ts <$> m_blocks diamond !! k) ∧
add_edge 5 4 (m_blocks c') = m_blocks c'.
Proof. apply (add_edge_adds_edge diamond 5 4 diamond_wf);
  eexists; vm_compute; reflexivity.
 Defined.

Lemma remove_edge_removes_edge_witness :
let c' := set_blocks (remove_edge 2 5 (m_blocks diamond)) diamond in
wf c' ∧
(∀ x y, edge c' x y ↔ edge diamond x y ∧ ¬ (x = 2 ∧ y = 5)) ∧
(∀ k, m_ts <$> m_blocks c' !! k = m_ts <$> m_blocks diamond !! k) ∧
(¬ edge diamond 2 5 → m_blocks c' = m_blocks diamond).
Proof.
apply (remove_edge_removes_edge diamond 2 5 diamond_wf);
  eexists; vm_compute; reflexivity.
Defined.

Lemma remove_edge_undoes_add_edge_witness :
remove_edge 5 4 (add_edge 5 4 (m_blocks diamond)) = m_blocks diamond.
Proof.
apply (remove_edge_undoes_add_edge diamond 5 4 diamond_wf);
  [eexists; vm_compute; reflexivity..|].
intros (ba & Hba & Hin). vm_compute in Hba. simplify_eq.
vm_compute in Hin. by apply elem_of_nil in Hin.
Defined.

Lemma built_wf_witness :
wf (set_blocks
      (add_edge 0 1 (m_blocks (insert 1 (cfg_new (new_statement_t:=nat) 0 (Some 1))).2))
      (insert 1 (cfg_new 0 (Some 1))).2).
Proof.
apply built_wf. apply built_add_edge; [apply built_insert, built_new|..];
  eexists; vm_compute; reflexivity.
Defined.

Lemma dfs_visits_reachable_once_witness :
∃ order : list (basic_block_t nat nat),
  NoDup (m_bb_id <$> order) ∧
  (∀ blk, blk ∈ order ↔
     reaches diamond (m_entry diamond) (m_bb_id blk) ∧
     m_blocks diamond !! m_bb_id blk = Some blk) ∧
  head order = m_blocks diamond !! m_entry diamond ∧
  ∀ (T : Type) (f : T → basic_block_t nat nat → T) (t : T),
    dfs f diamond t = Ok (foldl f t order).
Proof. exact (dfs_visits_reachable_once diamond diamond_wf). Defined.

Lemma cfg_rev_reverses_witness :
let r := cfg_rev_new diamond in
rev_get_node r 3 = Ok (BasicBlockRev 3) ∧
(∃ msg, rev_get_node r 6 = Fatal msg diamond) ∧
rev_entry r = Ok 4 ∧
(rtc (λ x y, ∃ ns, rev_next_nodes r x = Ok ns ∧ y ∈ ns) 4 0 ↔
 reaches diamond 0 4).
Proof.
destruct (cfg_rev_reverses diamond diamond_wf)
  as (Hget & Hnone & _ & Hentry & _ & Hnext & _).
split; [apply Hget; eexists; vm_compute; reflexivity|].
split; [apply Hnone; vm_compute; reflexivity|].
split; [by apply Hentry|]. apply Hnext.
Defined.

Lemma merge_blocks_keeps_statements_witness :
∃ c', merge_blocks diamond = Ok c' ∧
  all_statements c' ≡ₚ all_statements diamond.
Proof.
destruct (merge_blocks diamond) as [c'| |] eqn:Hm; try by vm_compute in Hm.
exists c'. split; [done|].
by apply (merge_blocks_keeps_statements diamond c' diamond_wf).
Defined.

Lemma diamond_reaches_exit : reaches diamond 0 4.
Proof.
apply (rtc_l _ _ 1); [eexists; split; [by vm_compute|set_solver]|].
apply (rtc_l _ _ 2); [eexists; split; [by vm_compute|set_solver]|].
apply (rtc_l _ _ 3); [eexists; split; [by vm_compute|set_solver]|].
apply rtc_once. eexists; split; [by vm_compute|set_solver].
Defined.

Lemma diamond_not_reaches_7 : ¬ reaches (set_exit 7 diamond) 0 7.
Proof.
intros Hr.
apply (closed_reaches _ ({[0; 1; 2; 3; 4; 5]} : gset nat)) in Hr;
  [set_solver| |set_solver].
intros l n Hl (ba & Hba & Hin).
assert (l = 0 ∨ l = 1 ∨ l = 2 ∨ l = 3 ∨ l = 4 ∨ l = 5) as Hcases
  by set_solver.
clear Hl.
destruct Hcases as [-> | [-> | [-> | [-> | [-> | ->]]]]];
  vm_compute in Hba; simplify_eq; set_solver.
Defined.

Lemma remove_unreachable_blocks_result_witness :
(∃ c', remove_unreachable_blocks diamond = Ok c' ∧
   m_blocks c' !! 7 = None ∧ is_Some (m_blocks c' !! 4)) ∧
∃ s, remove_unreachable_blocks (set_exit 7 diamond) =
       Fatal "Cannot remove exit block" s.
Proof.
split.
- destruct (remove_unreachable_blocks_result diamond diamond_wf)
    as [Hok _].
  destruct Hok as (c' & Hr & _ & _ & Hgone & Hkept).
  { intros e He _. vm_compute in He. simplify_eq.
    exact diamond_reaches_exit. }
  exists c'. split; [done|]. split.
  + apply Hgone. intros Hr7. by apply diamond_not_reaches_7.
  + destruct (Hkept 4 (block 4 [14] [3] []) diamond_reaches_exit eq_refl)
      as (blk' & -> & _). by eexists.
- destruct (remove_unreachable_blocks_result (set_exit 7 diamond))
    as [_ Hfatal].
  { apply wf_check_wf. by vm_compute. }
  apply (Hfatal 7); [done|eexists; by vm_compute|].
  exact diamond_not_reaches_7.
Defined.

End cfg_more.

(** ** AdaptGraph: [copy] *)

Module AdaptGraphCopy.
Import AdaptGraph AdaptGraphSpec AdaptGraphFacts AdaptGraphMore.

Lemma medge_unique g a b i j :
  wf g → medge (_succs g) a b i → medge (_succs g) a b j → i = j.
Proof.
  intros Hwf (m & Hm & Hi) (m' & Hm' & Hj). simplify_eq.
  assert (SMS.wf m) as Hwfm
    by (by eapply (Forall_lookup_1 _ _ _ _ (wf_succs _ Hwf))).
  pose proof (SMS.wf_nodup _ Hwfm) as Hnd. unfold SM.keys in Hnd.
  apply list_elem_of_lookup in Hi as [x Hx], Hj as [y Hy].
  assert (x = y) as ->.
  { eapply (NoDup_lookup _ _ _ b Hnd); rewrite list_lookup_fmap.
    - by rewrite Hx.
    - by rewrite Hy. }
  by simplify_eq.
Qed.

Lemma copied_iff o g (D D' : nat → nat → Prop) :
  (∀ a b, (∃ j, medge (_succs o) a b j) → D a b ↔ D' a b) →
  copied o g D → copied o g D'.
Proof.
  intros HD (Hwf & Hsz & Hfi & Hlive & Hedge & Hw).
  do 4 (split; [done|]). split; [|done].
  intros a b. rewrite Hedge. split; intros [? ?]; split; try done;
    by apply (HD a b).
Qed.

Lemma growTo_grown fuel k n :
  k ≤ n → n - k ≤ fuel → growTo fuel (grown k) n = Some (grown n).
Proof.
  revert k. induction fuel as [|fuel IH]; intros k Hk Hfuel.
  - assert (k = n) as -> by lia. unfold growTo, size. simpl.
    rewrite length_replicate. by rewrite Nat.ltb_irrefl.
  - assert (size (grown k) = k) as Hsz
      by (unfold size; simpl; by rewrite length_replicate).
    assert (new_vertex (grown k) = Some (k, grown (S k))) as Hnew.
    { unfold new_vertex, grown. simpl. rewrite length_replicate.
      by rewrite !replicate_cons_app. }
    change (growTo (S fuel) (grown k) n)
      with (if size (grown k) <? n
            then '(_, g') ← new_vertex (grown k); growTo fuel g' n
            else Some (grown k)).
    rewrite Hsz, Hnew. destruct (Nat.ltb_spec k n) as [Hlt|Hge].
    + simpl. apply (IH (S k)); lia.
    + by assert (k = n) as -> by lia.
Qed.

Lemma copied_start o :
  size o ≤ key_range → copied o (grown (size o)) (λ _ _, False).
Proof.
  intros Hsize.
  assert (size (grown (size o)) = size o) as Hsz.
  { unfold size at 1. simpl. by rewrite length_replicate. }
  split; [apply reachable_wf; [apply grown_reachable|by rewrite Hsz]|].
  split; [done|]. split; [done|]. split; [|split].
  - intros v Hv. simpl. by apply lookup_replicate_2.
  - intros a b. split; [|by intros [[] _]].
    intros (i & m & Hm & He). simpl in Hm.
    apply lookup_replicate in Hm as [-> _]. by apply elem_of_nil in He.
  - intros a b i j (m & Hm & He). simpl in Hm.
    apply lookup_replicate in Hm as [-> _]. by apply elem_of_nil in He.
Qed.

(** One round of the inner loop adds the edge it reads. *)
Lemma copy_edge_step o g (D : nat → nat → Prop) s d i :
  wf o → size o ≤ key_range → copied o g D →
  medge (_succs o) s d i → ¬ D s d →
  ∃ g', copy_edge o s g (SM.Elt d i) = Some g' ∧
        copied o g' (λ a b, D a b ∨ (a = s ∧ b = d)).
Proof.
  intros Hwfo Hsize (Hwf & Hsz & Hfi & Hlive & Hedge & Hw) Hm HnD.
  destruct (medge_target _ _ _ _ Hwfo Hm) as [Hs Hd].
  destruct (wf_slot _ Hwfo _ _ _ Hm) as [Hi _].
  destruct (lookup_lt_is_Some_2 _ _ Hi) as [w Hwi].
  destruct (add_edge_spec g s w d Hwf) as
    (g' & idx & Hadd & Hwf' & Hsz' & _ & Hfr' & Hfi' & Hidx & Hother
     & Hfresh & Hedge' & _); [lia..| |].
  { intros He. apply Hedge in He as [? _]. done. }
  exists g'. split.
  { unfold copy_edge. simpl. by rewrite Hwi. }
  split; [done|]. split; [lia|]. split; [by rewrite Hfi'|].
  split; [by rewrite Hfr'|]. split.
  - intros a b. split.
    + intros [k [Hk|(-> & -> & ->)]%Hedge'].
      * destruct (proj1 (Hedge a b) (ex_intro _ k Hk)) as [? ?]. by eauto.
      * split; [by right|by eauto].
    + intros [[HD|[-> ->]] Ho].
      * destruct (proj2 (Hedge a b) (conj HD Ho)) as [k Hk].
        exists k. apply Hedge'. by left.
      * exists idx. apply Hedge'. by right.
  - intros a b k j [Hk|(-> & -> & ->)]%Hedge' Hj.
    + rewrite Hother; [by eapply Hw|]. intros ->. by eapply Hfresh.
    + rewrite Hidx, <- Hwi.
      by rewrite (medge_unique o s d i j Hwfo Hm Hj).
Qed.

Lemma copy_vertex_step o g (D : nat → nat → Prop) s :
  wf o → size o ≤ key_range → copied o g D → s < size o →
  (∀ b, ¬ D s b) →
  ∃ g', copy_vertex o g s = Some g' ∧ copied o g' (λ a b, D a b ∨ a = s).
Proof.
  intros Hwfo Hsize Hc Hs HnD.
  destruct (lookup_lt_is_Some_2 (_succs o) s Hs) as [sv Hsv].
  assert (SMS.wf sv) as Hwfsv
    by (by eapply (Forall_lookup_1 _ _ _ _ (wf_succs _ Hwfo))).
  pose proof (SMS.wf_nodup _ Hwfsv) as Hnd. unfold SM.keys in Hnd.
  unfold copy_vertex. rewrite Hsv. simpl.
  destruct (for_each_ind
    (λ j g, copied o g
       (λ a b, D a b ∨ (a = s ∧ b ∈ SM.key <$> take j (SM.elts sv))))
    (copy_edge o s) (SM.elts sv) g) as (g' & Hr & Hfin).
  - eapply copied_iff; [|exact Hc]. intros a b _. simpl. set_solver.
  - intros j [d i] g1 Hj Hc1.
    assert (medge (_succs o) s d i) as Hm.
    { exists sv. split; [done|]. by eapply list_elem_of_lookup_2. }
    destruct (copy_edge_step o g1 _ s d i Hwfo Hsize Hc1 Hm) as (g2 & Hg2 & Hc2).
    { intros [HD|[_ Hin]]; [by eapply HnD|].
      apply list_elem_of_lookup in Hin as [x Hx].
      rewrite list_lookup_fmap in Hx.
      destruct (take j (SM.elts sv) !! x) as [e|] eqn:Hex; [|done].
      apply lookup_take_Some in Hex as [Hex Hlt]. simpl in Hx.
      assert (x = j); [|lia].
      eapply (NoDup_lookup _ _ _ d Hnd); rewrite list_lookup_fmap.
      - rewrite Hex. simpl. congruence.
      - by rewrite Hj. }
    exists g2. split; [done|].
    eapply copied_iff; [|exact Hc2]. intros a b _.
    rewrite (take_S_r _ _ _ Hj), fmap_app. simpl. set_solver.
  - exists g'. split; [done|].
    eapply copied_iff; [|exact Hfin]. intros a b [k Hk].
    rewrite firstn_all. split; [intros [?|[? _]]; by eauto|].
    intros [HD| ->]; [by left|right]. split; [done|].
    destruct Hk as (sv' & Hsv' & Hin). simplify_eq.
    apply list_elem_of_fmap. by exists (SM.Elt b k).
Qed.

Lemma copy_loop o :
  wf o → size o ≤ key_range →
  ∃ g, for_each (copy_vertex o) (grown (size o)) (verts o) = Some g ∧
       copied o g (λ a b, a ∈ verts o).
Proof.
  intros Hwfo Hsize.
  destruct (for_each_ind
    (λ j g, copied o g (λ a b, a ∈ take j (verts o)))
    (copy_vertex o) (verts o) (grown (size o))) as (g' & Hr & Hfin).
  - eapply copied_iff; [|by apply copied_start]. intros a b _. simpl.
    set_solver.
  - intros j s g1 Hj Hc1.
    assert (s < size o) as Hs.
    { pose proof (list_elem_of_lookup_2 _ _ _ Hj) as Hin.
      apply verts_are_live_aux, lookup_lt_Some in Hin.
      by rewrite (wf_len_free _ Hwfo) in Hin. }
    destruct (copy_vertex_step o g1 _ s Hwfo Hsize Hc1 Hs) as (g2 & Hg2 & Hc2).
    { intros _ [x Hx]%list_elem_of_lookup.
      apply lookup_take_Some in Hx as [Hx Hlt].
      pose proof (verts_from_increasing _ _ _ _ _ _ Hx Hj Hlt). lia. }
    exists g2. split; [done|].
    eapply copied_iff; [|exact Hc2]. intros a b _.
    rewrite (take_S_r _ _ _ Hj). set_solver.
  - exists g'. split; [done|]. by rewrite firstn_all in Hfin.
Qed.

(** [AdaptGraph::copy(o)] of a well-formed graph with at most 65536
    vertices returns a well-formed graph with as many vertices, all of
    them live.  For a live source [s] of [o] the copy answers [elem] and
    [edge_val] as [o] does; the edges that leave a free vertex of [o]
    are not copied. *)
Theorem copy_same_edges o :
  wf o → size o ≤ key_range →
  ∃ g, copy o = Some g ∧ wf g ∧ size g = size o ∧
    (∀ v, v < size o → is_free g !! v = Some false) ∧ free_id g = [] ∧
    ∀ junk junk' s d, s < size o → d < size o →
      (is_free o !! s = Some false →
         elem junk' g s d = elem junk o s d ∧
         (elem junk o s d = Some true →
          edge_val junk' g s d = edge_val junk o s d)) ∧
      (is_free o !! s = Some true → elem junk' g s d = Some false).
Proof.
  intros Hwfo Hsize.
  destruct (copy_loop o Hwfo Hsize)
    as (g & Hr & Hwf & Hsz & Hfi & Hlive & Hedge & Hw).
  exists g. split.
  { unfold copy. rewrite (growTo_grown _ 0 (size o)) by lia. done. }
  do 4 (split; [done|]).
  intros junk junk' s d Hs Hd.
  destruct (edge_view junk' g s d Hwf) as [Hyes Hno]; [lia..|].
  split.
  - intros Hfree%verts_are_live_aux.
    destruct (elem junk o s d) as [[|]|] eqn:He.
    + destruct (proj1 (elem_true_medge junk o s d Hwfo Hsize Hs Hd) He)
        as [j Hj].
      destruct (proj2 (Hedge s d) (conj Hfree (ex_intro _ j Hj))) as [i Hi].
      destruct (Hyes i Hi) as [-> Hval]. split; [done|]. intros _.
      destruct (edge_view junk o s d Hwfo Hsize Hs Hd) as [Hyes' _].
      destruct (Hyes' j Hj) as [_ ->]. rewrite Hval. by eapply Hw.
    + split; [|done]. apply Hno. intros [_ Ho]%Hedge.
      apply (elem_true_medge junk o s d Hwfo Hsize Hs Hd) in Ho.
      by rewrite He in Ho.
    + unfold elem in He.
      destruct (lookup_lt_is_Some_2 (_succs o) s Hs) as [sv Hsv].
      by rewrite Hsv in He.
  - intros Hfree. apply Hno. intros [Hin%verts_are_live_aux _]%Hedge.
    by rewrite Hfree in Hin.
Qed.

Lemma copy_same_edges_witness :
  ∃ g, copy three_forgotten = Some g ∧ wf g ∧ size g = 3 ∧
    is_free three_forgotten !! 2 = Some true ∧
    is_free g !! 2 = Some false ∧
    ∀ junk junk', elem junk' g 0 1 = elem junk three_forgotten 0 1.
Proof.
  assert (wf three_forgotten) as Hwf.
  { unfold three_forgotten.
    destruct (forget_spec three 2 three_wf) as (g1 & sv & Hf & Hwf1 & _);
      [apply small_size; vm_compute; lia|by vm_compute|].
    by rewrite Hf. }
  destruct (copy_same_edges three_forgotten Hwf)
    as (g & Hc & Hwfg & Hsz & Hlive & _ & Hans).
  { apply small_size. vm_compute. lia. }
  exists g. split; [done|]. split; [done|]. split; [by rewrite Hsz|].
  split; [by vm_compute|]. split; [apply Hlive; vm_compute; lia|].
  intros junk junk'.
  destruct (Hans junk junk' 0 1) as [Hl _]; [vm_compute; lia..|].
  apply Hl. by vm_compute.
Defined.


End AdaptGraphCopy.

(** ** [debug_info]: the order *)

Module debug_info_facts.
Import debug_info.

Lemma ascii_compare_N (a b : Ascii.ascii) :
  Ascii.compare a b = N.compare (Ascii.N_of_ascii a) (Ascii.N_of_ascii b).
Proof. done. Qed.

Lemma string_compare_refl (a : string) : String.compare a a = Eq.
Proof.
  induction a as [|c a IH]; [done|]. simpl.
  by rewrite ascii_compare_N, N.compare_refl.
Qed.

Lemma string_compare_trans (a b c : string) :
  String.compare a b = Lt → String.compare b c = Lt →
  String.compare a c = Lt.
Proof.
  revert b c. induction a as [|x a IH]; intros [|y b] [|z c]; simpl;
    try done.
  rewrite !ascii_compare_N.
  destruct (N.compare_spec (Ascii.N_of_ascii x) (Ascii.N_of_ascii y))
    as [Hxy|Hxy|Hxy]; [| |done];
  destruct (N.compare_spec (Ascii.N_of_ascii y) (Ascii.N_of_ascii z))
    as [Hyz|Hyz|Hyz]; try done; intros H1 H2.
  - rewrite Hxy, Hyz, N.compare_refl. by eapply IH.
  - rewrite Hxy. by apply N.compare_lt_iff in Hyz as ->.
  - rewrite <- Hyz. by apply N.compare_lt_iff in Hxy as ->.
  - assert (Ascii.N_of_ascii x < Ascii.N_of_ascii z)%N as Hxz by lia.
    by apply N.compare_lt_iff in Hxz as ->.
Qed.

Lemma string_lt_irrefl (a : string) : string_lt a a = false.
Proof. unfold string_lt. by rewrite string_compare_refl. Qed.

Lemma string_lt_trans (a b c : string) :
  string_lt a b = true → string_lt b c = true → string_lt a c = true.
Proof.
  unfold string_lt. intros H1 H2.
  destruct (String.compare a b) eqn:Hab; try done.
  destruct (String.compare b c) eqn:Hbc; try done.
  by rewrite (string_compare_trans a b c).
Qed.

(** [operator<] of [debug_info] asks for a smaller file and a smaller
    line and a smaller column.  It is irreflexive and transitive, and it
    never relates two equal values; but it is not the strict weak order
    that ordered containers and sorting require: being unordered is not
    transitive, and two values that differ can be unordered both ways. *)
Theorem debug_info_lt_not_weak_order :
  (∀ a, lt a a = false) ∧
  (∀ a b c, lt a b = true → lt b c = true → lt a c = true) ∧
  (∀ a b, lt a b = true → eq a b = false ∧ lt b a = false) ∧
  (∃ a b c, lt a b = false ∧ lt b a = false ∧
            lt b c = false ∧ lt c b = false ∧ lt a c = true) ∧
  (∀ f l1 l2 c1 c2, l1 ≠ l2 →
     let a := DebugInfo f l1 c1 in
     let b := DebugInfo f l2 c2 in
     eq a b = false ∧ lt a b = false ∧ lt b a = false).
Proof.
  split; [|split; [|split; [|split]]].
  - intros a. unfold lt. by rewrite string_lt_irrefl.
  - intros a b c. unfold lt. rewrite !andb_true_iff, !Z.ltb_lt.
    intros [[Hf1 Hl1] Hc1] [[Hf2 Hl2] Hc2].
    split; [split|]; [by eapply string_lt_trans|lia..].
  - intros a b. unfold lt, eq. rewrite !andb_true_iff, !Z.ltb_lt.
    intros [[Hf Hl] Hc]. split.
    + rewrite andb_false_iff, andb_false_iff, !Z.eqb_neq. left. right. lia.
    + rewrite andb_false_iff, andb_false_iff, !Z.ltb_ge. left. right. lia.
  - exists (DebugInfo "a" 1 1), (DebugInfo "b" 0 5), (DebugInfo "c" 3 3).
    by vm_compute.
  - intros f l1 l2 c1 c2 Hne a b. unfold lt, eq. simpl.
    rewrite string_lt_irrefl. split; [|done].
    rewrite andb_false_iff, andb_false_iff, !Z.eqb_neq. by left; right.
Qed.

End debug_info_facts.

(** ** The ASM CFG: [collect_stats] *)

Module asm_cfg_more.
Import asm_cfg asm_cfg_spec.

Section asm_cfg_more.
Context {Label : Type} `{Countable Label}.
Context {Instruction : Type}.
Variable as_mem : Instruction → option bool.

#[local] Abbreviation Cfg := (asm_cfg.Cfg Label Instruction).
#[local] Abbreviation BasicBlock := (asm_cfg.BasicBlock Label Instruction).

Lemma incr_Some x : (x < int_max)%Z → incr x = Some (x + 1)%Z.
Proof. intros Hx. unfold incr. by destruct (Z.ltb_spec x int_max); [|lia]. Qed.

Lemma stats_inst_spec (res : CfgStats) (i : Instruction) :
  (count res < int_max)%Z → (loads res < int_max)%Z →
  (stores res < int_max)%Z →
  ∃ res', stats_inst as_mem res i = Some res' ∧
    count res' = (count res + 1)%Z ∧
    loads res' =
      (loads res + if decide (as_mem i = Some true) then 1 else 0)%Z ∧
    stores res' =
      (stores res + if decide (as_mem i = Some false) then 1 else 0)%Z ∧
    jumps res' = jumps res ∧ joins res' = joins res.
Proof.
  intros Hc Hl Hs. unfold stats_inst. rewrite (incr_Some _ Hc).
  cbn [mbind option_bind loads stores count jumps joins].
  destruct (as_mem i) as [[|]|].
  - rewrite (incr_Some _ Hl). eexists. split; [done|].
    rewrite decide_True, decide_False by done. simpl.
    repeat split; lia.
  - rewrite (incr_Some _ Hs). eexists. split; [done|].
    rewrite decide_False, decide_True by done. simpl.
    repeat split; lia.
  - eexists. split; [done|]. rewrite !decide_False by done. simpl.
    repeat split; lia.
Qed.

Lemma stats_insts_spec (ins : list Instruction) (res : CfgStats) :
  (0 ≤ loads res)%Z → (0 ≤ stores res)%Z →
  (loads res + stores res ≤ count res)%Z →
  (count res + Z.of_nat (length ins) ≤ int_max)%Z →
  ∃ res', for_each (stats_inst as_mem) res ins = Some res' ∧
    count res' = (count res + Z.of_nat (length ins))%Z ∧
    loads res' =
      (loads res +
       Z.of_nat (length (filter (λ i, as_mem i = Some true) ins)))%Z ∧
    stores res' =
      (stores res +
       Z.of_nat (length (filter (λ i, as_mem i = Some false) ins)))%Z ∧
    jumps res' = jumps res ∧ joins res' = joins res ∧
    (loads res' + stores res' ≤ count res')%Z.
Proof.
  revert res. induction ins as [|i ins IH]; intros res Hl Hs Hle Hmax.
  { exists res. simpl. repeat split; lia. }
  cbn [length] in Hmax.
  destruct (stats_inst_spec res i) as (r1 & Hr1 & Hc1 & Hl1 & Hs1 & Hju1 & Hjo1);
    [lia..|].
  assert ((loads r1 + stores r1 ≤ count r1)%Z ∧ (0 ≤ loads r1)%Z ∧
          (0 ≤ stores r1)%Z) as (Hle1 & Hl0 & Hs0).
  { rewrite Hc1, Hl1, Hs1. repeat case_decide; try congruence;
      repeat split; lia. }
  destruct (IH r1) as (res' & Hr & Hc & Hlo & Hst & Hju & Hjo & Hle');
    [lia..|].
  exists res'. split.
  { cbn [for_each]. rewrite Hr1. exact Hr. }
  rewrite !filter_cons.
  repeat case_decide; try congruence; cbn [length]; repeat split; lia.
Qed.

Lemma stats_block_spec (c : Cfg) (res : CfgStats) l (bb : BasicBlock) :
  graph c !! l = Some bb →
  (0 ≤ loads res)%Z → (0 ≤ stores res)%Z →
  (loads res + stores res ≤ count res)%Z →
  (count res + Z.of_nat (length (insts bb)) ≤ int_max)%Z →
  (joins res < int_max)%Z → (jumps res < int_max)%Z →
  ∃ res', stats_block as_mem c res l = Some res' ∧
    count res' = (count res + Z.of_nat (length (insts bb)))%Z ∧
    loads res' =
      (loads res +
       Z.of_nat (length (filter (λ i, as_mem i = Some true) (insts bb))))%Z ∧
    stores res' =
      (stores res +
       Z.of_nat (length (filter (λ i, as_mem i = Some false) (insts bb))))%Z ∧
    joins res' =
      (joins res + if (1 <? length (prevlist bb))%nat then 1 else 0)%Z ∧
    jumps res' =
      (jumps res + if (1 <? length (nextlist bb))%nat then 1 else 0)%Z ∧
    (loads res' + stores res' ≤ count res')%Z.
Proof.
  intros Hbb Hl Hs Hle Hmax Hjo Hju.
  destruct (stats_insts_spec (insts bb) res Hl Hs Hle Hmax)
    as (r1 & Hr1 & Hc1 & Hl1 & Hs1 & Hju1 & Hjo1 & Hle1).
  unfold stats_block, at_. rewrite Hbb. cbn [mbind option_bind].
  rewrite Hr1. cbn [mbind option_bind].
  destruct (1 <? length (prevlist bb)), (1 <? length (nextlist bb));
    rewrite ?incr_Some by (cbn [joins jumps]; lia);
    cbn [mbind option_bind loads stores count jumps joins];
    rewrite ?incr_Some by (cbn [joins jumps]; lia);
    cbn [mbind option_bind loads stores count jumps joins];
    eexists; (split; [done|]); cbn [loads stores count jumps joins];
    repeat split; lia.
Qed.

Lemma stats_blocks_spec (c : Cfg) (ks : list Label) (res : CfgStats) :
  (∀ l, l ∈ ks → is_Some (graph c !! l)) →
  (0 ≤ loads res)%Z → (0 ≤ stores res)%Z →
  (loads res + stores res ≤ count res)%Z →
  (count res +
   Z.of_nat (length (concat ((λ l, from_option insts [] (graph c !! l))
                               <$> ks))) ≤ int_max)%Z →
  (joins res + Z.of_nat (length ks) ≤ int_max)%Z →
  (jumps res + Z.of_nat (length ks) ≤ int_max)%Z →
  ∃ res', for_each (stats_block as_mem c) res ks = Some res' ∧
    count res' =
      (count res +
       Z.of_nat (length (concat ((λ l, from_option insts [] (graph c !! l))
                                   <$> ks))))%Z ∧
    loads res' =
      (loads res +
       Z.of_nat (length (filter (λ i, as_mem i = Some true)
         (concat ((λ l, from_option insts [] (graph c !! l)) <$> ks)))))%Z ∧
    stores res' =
      (stores res +
       Z.of_nat (length (filter (λ i, as_mem i = Some false)
         (concat ((λ l, from_option insts [] (graph c !! l)) <$> ks)))))%Z ∧
    joins res' =
      (joins res +
       Z.of_nat (length (filter
         (λ l, from_option (λ bb : BasicBlock, (1 <? length (prevlist bb))%nat)
                 false (graph c !! l) = true) ks)))%Z ∧
    jumps res' =
      (jumps res +
       Z.of_nat (length (filter
         (λ l, from_option (λ bb : BasicBlock, (1 <? length (nextlist bb))%nat)
                 false (graph c !! l) = true) ks)))%Z.
Proof.
  revert res. induction ks as [|k ks IH];
    intros res Hall Hl Hs Hle Hmax Hjo Hju.
  { exists res. simpl. repeat split; lia. }
  destruct (Hall k) as [bb Hbb]; [by left|].
  cbn [fmap list_fmap concat length] in Hmax, Hjo, Hju.
  rewrite Hbb in Hmax. cbn [from_option] in Hmax.
  rewrite length_app in Hmax.
  destruct (stats_block_spec c res k bb Hbb)
    as (r1 & Hr1 & Hc1 & Hl1 & Hs1 & Hjo1 & Hju1 & Hle1); [lia..|].
  destruct (IH r1) as (res' & Hr & Hc & Hlo & Hst & Hjos & Hjus).
  { intros l Hin. apply Hall. by right. }
  1-4: lia.
  { destruct (1 <? length (prevlist bb)); lia. }
  { destruct (1 <? length (nextlist bb)); lia. }
  exists res'. split.
  { cbn [for_each]. rewrite Hr1. exact Hr. }
  cbn [fmap list_fmap concat]. rewrite !filter_cons, Hbb.
  cbn [from_option]. rewrite !filter_app, !length_app.
  destruct (1 <? length (prevlist bb)) eqn:Hp,
           (1 <? length (nextlist bb)) eqn:Hn;
    repeat case_decide; try congruence; cbn [length];
    repeat split; lia.
Qed.

Lemma stats_blocks_missing (c : Cfg) (ks : list Label) (res : CfgStats) l :
  l ∈ ks → graph c !! l = None →
  for_each (stats_block as_mem c) res ks = None.
Proof.
  intros Hin Hl. revert res.
  induction ks as [|k ks IH]; intros res; [by apply elem_of_nil in Hin|].
  cbn [for_each].
  destruct (stats_block as_mem c res k) as [r1|] eqn:Hk; [|done].
  cbn [mbind option_bind]. apply IH.
  apply elem_of_cons in Hin as [->|Hin]; [|done].
  unfold stats_block, at_ in Hk. by rewrite Hl in Hk.
Qed.

(** [collect_stats] throws when [keys()] lists a label without a block.
    Otherwise, as long as the counters stay within [int], it returns the
    number of instructions of the listed blocks (a block counted as
    often as it is listed), the number of [Mem] instructions that load
    and that store among them, and the number of listed blocks with more
    than one predecessor and with more than one successor; loads and
    stores together never exceed the count. *)
Theorem collect_stats_counts (c : Cfg) :
  ((∃ l, l ∈ keys c ∧ graph c !! l = None) →
   collect_stats as_mem c = None) ∧
  ((∀ l, l ∈ keys c → is_Some (graph c !! l)) →
   (Z.of_nat (length (listed_insts c)) ≤ int_max)%Z →
   (Z.of_nat (length (keys c)) ≤ int_max)%Z →
   ∃ s, collect_stats as_mem c = Some s ∧
     count s = Z.of_nat (length (listed_insts c)) ∧
     loads s =
       Z.of_nat (length (filter (λ i, as_mem i = Some true)
                           (listed_insts c))) ∧
     stores s =
       Z.of_nat (length (filter (λ i, as_mem i = Some false)
                           (listed_insts c))) ∧
     joins s =
       Z.of_nat (length (listed_blocks
                           (λ bb, (1 <? length (prevlist bb))%nat) c)) ∧
     jumps s =
       Z.of_nat (length (listed_blocks
                           (λ bb, (1 <? length (nextlist bb))%nat) c)) ∧
     (loads s + stores s ≤ count s)%Z).
Proof.
  split.
  - intros (l & Hin & Hl). by eapply stats_blocks_missing.
  - intros Hall Hmax Hkeys.
    destruct (stats_blocks_spec c (keys c) CfgStats_default Hall)
      as (s & Hr & Hc & Hlo & Hst & Hjo & Hju); [simpl; try lia..|].
    { exact Hmax. }
    exists s. split; [exact Hr|].
    unfold listed_insts, listed_blocks.
    simpl in Hc, Hlo, Hst, Hjo, Hju.
    rewrite Hc, Hlo, Hst, Hjo, Hju. do 5 (split; [done|]).
    pose proof (length_filter (λ i, as_mem i = Some true)
                  (listed_insts c)) as H1.
    enough (length (filter (λ i, as_mem i = Some true) (listed_insts c)) +
            length (filter (λ i, as_mem i = Some false) (listed_insts c)) ≤
            length (listed_insts c)) by (unfold listed_insts in *; lia).
    clear. induction (listed_insts c) as [|i ins IH]; [done|].
    rewrite !filter_cons.
    repeat case_decide; try congruence; cbn [length]; lia.
Qed.

End asm_cfg_more.

Lemma collect_stats_counts_witness :
collect_stats (λ i, if i =? 7 then Some true else None) one_block =
  Some {| count := 1; stores := 0; loads := 1; jumps := 0; joins := 0 |} ∧
collect_stats (λ _ : nat, None) (encountered 1 one_block) = None.
Proof.
split.
- destruct (collect_stats_counts (λ i, if i =? 7 then Some true else None)
              one_block) as [_ Hok].
  destruct Hok as (s & -> & Hc & Hlo & Hst & Hjo & Hju & _).
  + intros l Hl. apply list_elem_of_singleton in Hl as ->.
    eexists. by vm_compute.
  + by vm_compute.
  + by vm_compute.
  + destruct s. simpl in *. by rewrite Hc, Hlo, Hst, Hjo, Hju.
- apply (collect_stats_counts (λ _ : nat, None) (encountered 1 one_block)).
  exists 1. split; [by vm_compute; set_solver|by vm_compute].
Defined.

End asm_cfg_more.
